(** * A shallow embedding of the EBNF/BNF parser generators and the stack machine

    The development follows the modules of the repository:
    - [Js]    : the few JavaScript primitives the code relies on
                (strings as lists of UTF-16 code units, [charAt], [indexOf],
                [splice]);
    - [Base]  : [base.js] -- literals ([Lit.unescape]), terminal flags,
                the scanner;
    - [Six]   : [06.js] -- the stack machine of chapter six;
    - [BNF]   : [bnf.js] -- flags, message filling, the value builder and the
                translation from EBNF;
    - [EBNF]  : [ebnf.js] -- the grammar tree, the [expect]/[follow] passes
                and the LL(1) check.

    Integers of the source are [Z] (indices, counters) or [nat] (lengths);
    strings that only serve as names are Rocq strings, strings whose
    characters matter are lists of code units. *)

From Stdlib Require Import ZArith Lia Ascii String List.
From stdpp Require Import base tactics option list strings gmap sets pretty sorting.

#[local] Open Scope Z_scope.
#[local] Set Warnings "-register-all".

(* ===================================================================== *)
(** * JavaScript primitives *)
(* ===================================================================== *)

Module Js.

(** A JavaScript string is a sequence of 16-bit code units. *)
Definition jsstr := list N.

(** Code units of an ASCII string constant. *)
Definition js (s : string) : jsstr :=
  List.map N_of_ascii (list_ascii_of_string s).

(** [s.length] *)
Definition len (s : jsstr) : Z := Z.of_nat (length s).

(** [s.charAt(i)]: the one-character string at [i], or the empty string when
    [i] is out of range. *)
Definition charAt (s : jsstr) (i : Z) : jsstr :=
  if 0 <=? i then
    match nth_error s (Z.to_nat i) with
    | Some c => [c]
    | None => []
    end
  else [].

(** [needle] is a prefix of [hay]. *)
Fixpoint starts_with (needle hay : jsstr) : bool :=
  match needle, hay with
  | [], _ => true
  | _ :: _, [] => false
  | a :: needle', b :: hay' => if N.eqb a b then starts_with needle' hay' else false
  end.

(** [hay.indexOf(needle)], with the offset of [hay] in the original string;
    [-1] when there is no occurrence.  The empty needle is found at once. *)
Fixpoint indexOf_from (pos : Z) (hay needle : jsstr) : Z :=
  if starts_with needle hay then pos
  else match hay with
       | [] => -1
       | _ :: hay' => indexOf_from (pos + 1) hay' needle
       end.

Definition indexOf (hay needle : jsstr) : Z := indexOf_from 0 hay needle.

(** [s.substr(i, n)] for [0 <= i]. *)
Definition substr (s : jsstr) (i : Z) (n : nat) : jsstr :=
  firstn n (skipn (Z.to_nat i) s).

(** Value of a hexadecimal digit, in either case, as [parseInt] reads it. *)
Definition hex_value (c : N) : option N :=
  if ((48 <=? c) && (c <=? 57))%N then Some (c - 48)%N
  else if ((97 <=? c) && (c <=? 102))%N then Some (c - 87)%N
  else if ((65 <=? c) && (c <=? 70))%N then Some (c - 55)%N
  else None.

(** [parseInt(s, 16)] on a string of digits: the longest prefix of
    hexadecimal digits is read; [None] stands for [NaN] (no digit at all).
    Leading white space, signs and the [0x] prefix that [parseInt] also
    accepts do not occur where the source calls it. *)
Fixpoint parseInt16_acc (acc : option N) (s : jsstr) : option N :=
  match s with
  | [] => acc
  | c :: s' =>
      match hex_value c with
      | Some d => parseInt16_acc (Some (16 * default 0%N acc + d)%N) s'
      | None => acc
      end
  end.

Definition parseInt16 (s : jsstr) : option N := parseInt16_acc None s.

(** [String.fromCharCode(n)]: one code unit, [n] modulo [2^16]; [NaN] is
    converted to [0]. *)
Definition fromCharCode (n : option N) : jsstr :=
  [(default 0%N n mod 65536)%N].

(** [a.splice(-n, n)] on an array: removes and returns the last [n] elements
    (all of them when the array is shorter); the first component is what is
    left of the array. *)
Definition splice_last {A} (n : nat) (a : list A) : list A * list A :=
  let start := (length a - n)%nat in (firstn start a, skipn start a).

(** Values a parser collects or an action returns: [null], [undefined],
    primitive values, arrays, and objects of the actions' own making (known
    by an identity only). *)
Inductive value :=
| VUndefined
| VNull
| VBool (b : bool)
| VNum (z : Z)
| VStr (s : string)
| VList (l : list value)
| VObj (id : nat).

End Js.

(* ===================================================================== *)
(** * [base.js] *)
(* ===================================================================== *)

Module Base.
Import Js.

(** ** [Lit.unescape] *)

Definition backslash : N := 92%N.

(** The two tables of [unescape]: the letters [bfnrtv\\'] and what they
    stand for. *)
Definition escape_letters : jsstr := js "bfnrtv\'".
Definition escape_values : jsstr := [8; 12; 10; 13; 9; 11; 92; 39]%N.

(** The digits [unescape] accepts after [\x] and [\u]. *)
Definition hex_digits : jsstr := js "0123456789abcdef".

Definition is_hex_at (s : jsstr) (i : Z) : bool :=
  0 <=? indexOf hex_digits (charAt s i).

(** The guards of the [\x] and [\u] cases, at the index [i] that follows
    the letter: enough characters before the closing delimiter, all of them
    among [hex_digits]. *)
Definition x_guard (s : jsstr) (i : Z) : bool :=
  (i + 1 <? len s - 1) && is_hex_at s i && is_hex_at s (i + 1).

Definition u_guard (s : jsstr) (i : Z) : bool :=
  (i + 3 <? len s - 1) && is_hex_at s i && is_hex_at s (i + 1)
  && is_hex_at s (i + 2) && is_hex_at s (i + 3).

(** One iteration of the [for] loop of [unescape], at index [i] with
    [result] collected so far: the next index and the extended result. *)
Definition unescape_step (s : jsstr) (i : Z) (result : jsstr) : Z * jsstr :=
  let c := charAt s i in
  let i := i + 1 in
  if negb (bool_decide (c = [backslash])) then (i, result ++ c)
  else if len s - 1 <=? i then (i, result ++ [backslash])
  else
    let c := indexOf escape_letters (charAt s i) in
    let i := i + 1 in
    if 0 <=? c then (i, result ++ charAt escape_values c)
    else
      let c := charAt s (i - 1) in
      if bool_decide (c = js "x") then
        if x_guard s i
        then (i + 2, result ++ fromCharCode (parseInt16 (substr s i 2)))
        else (i, result ++ js "x")
      else if bool_decide (c = js "u") then
        if u_guard s i
        then (i + 4, result ++ fromCharCode (parseInt16 (substr s i 4)))
        else (i, result ++ js "u")
      else (i, result ++ c).

(** The loop [for (let i = 1; i < s.length - 1; ) ...]; [None] when the
    fuel does not suffice. *)
Fixpoint unescape_loop (fuel : nat) (s : jsstr) (i : Z) (result : jsstr)
  : option jsstr :=
  if i <? len s - 1 then
    match fuel with
    | O => None
    | S fuel' =>
        let '(i', result') := unescape_step s i result in
        unescape_loop fuel' s i' result'
    end
  else Some result.

(** Every iteration advances the index, so the length of [s] is enough
    fuel. *)
Definition unescape (s : jsstr) : option jsstr :=
  unescape_loop (length s) s 1 [].

(** ** The escape set, in the words of the specification

    A literal's body is read as a sequence of plain characters and of
    backslash escapes [\c].  [simple_escape] lists the one-letter escapes
    [\' \\ \b \f \n \r \t \v] and the character each stands for. *)
Definition simple_escape (c : N) : option N :=
  if (c =? 39)%N then Some 39%N          (* \' *)
  else if (c =? 92)%N then Some 92%N     (* \\ *)
  else if (c =? 98)%N then Some 8%N      (* \b *)
  else if (c =? 102)%N then Some 12%N    (* \f *)
  else if (c =? 110)%N then Some 10%N    (* \n *)
  else if (c =? 114)%N then Some 13%N    (* \r *)
  else if (c =? 116)%N then Some 9%N     (* \t *)
  else if (c =? 118)%N then Some 11%N    (* \v *)
  else None.

(** "H any hexadecimal digit": [0-9], [a-f] or [A-F]. *)
Definition is_hex_any (c : N) : bool :=
  ((48 <=? c) && (c <=? 57) || (97 <=? c) && (c <=? 102)
   || (65 <=? c) && (c <=? 70))%N.

(** The digits [0-9] and [a-f] only. *)
Definition is_hex_lower (c : N) : bool :=
  ((48 <=? c) && (c <=? 57) || (97 <=? c) && (c <=? 102))%N.

(** The number a string of hexadecimal digits denotes. *)
Definition hex_number (ds : jsstr) : N :=
  fold_left (fun acc d => (16 * acc + default 0 (hex_value d))%N) ds 0%N.

(** [\x] followed by two digits, or [\u] followed by four. *)
Definition hex_escape_follows (hexdigit : N -> bool) (c : N) (r : jsstr)
  : bool :=
  if (c =? 120)%N then
    match r with
    | h1 :: h2 :: _ => hexdigit h1 && hexdigit h2
    | _ => false
    end
  else if (c =? 117)%N then
    match r with
    | h1 :: h2 :: h3 :: h4 :: _ =>
        hexdigit h1 && hexdigit h2 && hexdigit h3 && hexdigit h4
    | _ => false
    end
  else false.

(** [Unescaped hexdigit body out]: [out] is [body] with each escape replaced
    by the character it stands for and every other escaped character [\c]
    by [c] itself; [hexdigit] says which characters count as "H". *)
Inductive Unescaped (hexdigit : N -> bool) : jsstr -> jsstr -> Prop :=
| U_end : Unescaped hexdigit [] []
| U_plain c r o :
    c <> backslash ->
    Unescaped hexdigit r o ->
    Unescaped hexdigit (c :: r) (c :: o)
| U_simple e k r o :
    simple_escape e = Some k ->
    Unescaped hexdigit r o ->
    Unescaped hexdigit (backslash :: e :: r) (k :: o)
| U_x h1 h2 r o :
    hexdigit h1 = true -> hexdigit h2 = true ->
    Unescaped hexdigit r o ->
    Unescaped hexdigit (backslash :: 120%N :: h1 :: h2 :: r)
      (hex_number [h1; h2] :: o)
| U_u h1 h2 h3 h4 r o :
    hexdigit h1 = true -> hexdigit h2 = true ->
    hexdigit h3 = true -> hexdigit h4 = true ->
    Unescaped hexdigit r o ->
    Unescaped hexdigit (backslash :: 117%N :: h1 :: h2 :: h3 :: h4 :: r)
      (hex_number [h1; h2; h3; h4] :: o)
| U_other c r o :
    simple_escape c = None ->
    hex_escape_follows hexdigit c r = false ->
    Unescaped hexdigit r o ->
    Unescaped hexdigit (backslash :: c :: r) (c :: o).

(** ** Literals, tokens and the scanner *)

(** [a < b] on strings: code unit by code unit. *)
Fixpoint js_ltb (a b : jsstr) : bool :=
  match a, b with
  | _, [] => false
  | [], _ :: _ => true
  | x :: a', y :: b' =>
      if (x <? y)%N then true
      else if (y <? x)%N then false
      else js_ltb a' b'
  end.

(** A regular expression is known by what it matches: [match_at p s i] is
    the length of the match of [p] that starts at index [i] of [s], if there
    is one.  (Patterns are not to contain capturing groups of their own.) *)
Definition pattern := jsstr -> nat -> option nat.

(** The pattern [escape(value)]: the characters of [value], literally. *)
Definition literal_pattern (value : jsstr) : pattern :=
  fun s i => if starts_with value (skipn i s) then Some (length value) else None.

(** [Base.Lit]: [value] is [unescape(name)], and empty for [$eof]. *)
Record Lit := mkLit {
  lit_name : jsstr;
  lit_value : jsstr;
  lit_used : bool
}.

(** [Base.Token]; [screen] maps the values of the literals the pattern
    covers to these literals, when the scanner has found any. *)
Record Token := mkToken {
  token_name : jsstr;
  token_pat : pattern;
  token_used : bool;
  token_screen : option (gmap jsstr Lit)
}.

Inductive terminal := TLit (l : Lit) | TToken (t : Token).

(** [Lit] for the literal with the representation [name]. *)
Definition lit_of (name : jsstr) (used : bool) : Lit :=
  mkLit name
    (if bool_decide (name = []) then [] else default [] (unescape name)) used.

(** The reserved literal with the empty name. *)
Definition eof_lit (l : Lit) : bool := bool_decide (lit_name l = []).

(** [pat.exec(s)] for a pattern without the [g] flag: the leftmost match,
    as index and length. *)
Fixpoint exec_from (fuel : nat) (p : pattern) (s : jsstr) (i : nat)
  : option (nat * nat) :=
  match p s i with
  | Some n => Some (i, n)
  | None => match fuel with
            | O => None
            | S fuel' => exec_from fuel' p s (S i)
            end
  end.

Definition exec (p : pattern) (s : jsstr) : option (nat * nat) :=
  exec_from (length s) p s 0.

(** [match && match[0] == lit.value] *)
Definition covers (p : pattern) (value : jsstr) : bool :=
  match exec p value with
  | Some (i, n) => bool_decide (firstn n (skipn i value) = value)
  | None => false
  end.

(** The comparison functions handed to [sort], as "may precede". *)
Definition lit_before (a b : Lit) : Prop := js_ltb (lit_value a) (lit_value b) = false.
Definition token_before (a b : Token) : Prop := js_ltb (token_name b) (token_name a) = false.

#[global] Instance lit_before_dec : RelDecision lit_before.
Proof. intros a b. unfold lit_before. apply _. Defined.
#[global] Instance token_before_dec : RelDecision token_before.
Proof. intros a b. unfold token_before. apply _. Defined.

(** One token against the sorted literals, each with its [screened] flag:
    the [screen] map of the token and the new flags; [None] is the failed
    assertion "must not be recognized by more than one token pattern". *)
Fixpoint screen_token (p : pattern) (lits : list (Lit * bool))
    (map : gmap jsstr Lit) (keep : bool)
  : option (list (Lit * bool) * gmap jsstr Lit * bool) :=
  match lits with
  | [] => Some ([], map, keep)
  | (lit, screened) :: lits' =>
      if covers p (lit_value lit) then
        if screened then None
        else
          match screen_token p lits' (<[lit_value lit := lit]> map) true with
          | Some (rest, map', keep') => Some ((lit, true) :: rest, map', keep')
          | None => None
          end
      else
        match screen_token p lits' map keep with
        | Some (rest, map', keep') => Some ((lit, screened) :: rest, map', keep')
        | None => None
        end
  end.

(** [tokens.forEach(token => ...)] *)
Fixpoint screen_tokens (tokens : list Token) (lits : list (Lit * bool))
  : option (list Token * list (Lit * bool)) :=
  match tokens with
  | [] => Some ([], lits)
  | token :: tokens' =>
      match screen_token (token_pat token) lits ∅ false with
      | Some (lits', map, keep) =>
          match screen_tokens tokens' lits' with
          | Some (rest, lits'') =>
              Some (mkToken (token_name token) (token_pat token)
                      (token_used token)
                      (if keep : bool then Some map else None) :: rest, lits'')
          | None => None
          end
      | None => None
      end
  end.

Record Scanner := mkScanner {
  terminals : list terminal;
  skip : pattern
}.

(** The literals and tokens a scanner is made from: used, with a name. *)
Definition scanned_lits (lits : list Lit) : list Lit :=
  merge_sort lit_before
    (filter (fun l => lit_used l = true /\ lit_name l <> []) lits).

Definition scanned_tokens (tokens : list Token) : list Token :=
  merge_sort token_before
    (filter (fun t => token_used t = true /\ token_name t <> []) tokens).

(** [new Scanner(factory, skip)], without a list of terminals. *)
Definition new_Scanner (lits : list Lit) (tokens : list Token) (skip : pattern)
  : option Scanner :=
  match screen_tokens (scanned_tokens tokens)
          ((fun l => (l, false)) <$> scanned_lits lits) with
  | Some (tokens', lits') =>
      Some (mkScanner
              ((TToken <$> tokens')
                 ++ (TLit <$> (fst <$> filter (fun lf => lf.2 = false) lits')))
              skip)
  | None => None
  end.

(** The literals a scanner can put into a tuple: its own, and those its
    tokens screen for. *)
Definition scanner_lits_ok (ok : Lit -> Prop) (sc : Scanner) : Prop :=
  forall term, term ∈ terminals sc ->
    match term with
    | TLit l => ok l
    | TToken tok =>
        forall m v l, token_screen tok = Some m -> m !! v = Some l -> ok l
    end.

(** The groups of the master pattern, in order: [skip], then the
    terminals. *)
Definition terminal_pattern (t : terminal) : pattern :=
  match t with
  | TLit l => literal_pattern (lit_value l)
  | TToken t => token_pat t
  end.

Definition groups (sc : Scanner) : list pattern :=
  skip sc :: (terminal_pattern <$> terminals sc).

(** The first group that matches at index [i], with the length of the
    match. *)
Fixpoint first_group (gs : list pattern) (k : nat) (s : jsstr) (i : nat)
  : option (nat * nat) :=
  match gs with
  | [] => None
  | g :: gs' =>
      match g s i with
      | Some n => Some (k, n)
      | None => first_group gs' (S k) s i
      end
  end.

(** [this.pattern.exec(input)] from [lastIndex]: index, group and length of
    the leftmost match. *)
Fixpoint master_exec (fuel : nat) (gs : list pattern) (s : jsstr) (i : nat)
  : option (nat * nat * nat) :=
  match first_group gs 0 s i with
  | Some (k, n) => Some (i, k, n)
  | None => match fuel with
            | O => None
            | S fuel' => master_exec fuel' gs s (S i)
            end
  end.

(** An element of the tokenized input: [t = None] is [null]. *)
Record Tuple := mkTuple {
  lineno : nat;
  t : option terminal;
  tuple_value : jsstr
}.

(** [nl(s)]: the number of line feeds. *)
Definition nl (s : jsstr) : nat := length (filter (fun c => c = 10%N) s).

(** The callback of [m.slice(2).some(...)] for the group that matched the
    text [input]: the tuple to push, if any. *)
Definition group_tuple (sc : Scanner) (lineno : nat) (k : nat) (input : jsstr)
  : list Tuple :=
  match k with
  | O => []                                 (* the skip group *)
  | S n =>
      if bool_decide (input = []) then []
      else match terminals sc !! n with
           | Some (TToken tok) =>
               match token_screen tok with
               | Some screen =>
                   match screen !! input with
                   | Some lit => [mkTuple lineno (Some (TLit lit)) input]
                   | None => [mkTuple lineno (Some (TToken tok)) input]
                   end
               | None => [mkTuple lineno (Some (TToken tok)) input]
               end
           | Some (TLit l) => [mkTuple lineno (Some (TLit l)) input]
           | None => []
           end
  end.

(** The loop of [scan]: [lastIndex], [begin], [lineno] and the tuples so
    far.  [None] when the fuel runs out. *)
Fixpoint scan_loop (fuel : nat) (sc : Scanner) (input : jsstr)
    (lastIndex begin lineno : nat) (result : list Tuple) : option (list Tuple) :=
  if (lastIndex <? length input)%nat then
    match fuel with
    | O => None
    | S fuel' =>
        match master_exec (length input - lastIndex) (groups sc) input lastIndex with
        | Some (index, k, n) =>
            let illegal := firstn (index - begin) (skipn begin input) in
            let '(result, lineno) :=
              if (begin <? index)%nat
              then (result ++ [mkTuple lineno None illegal], (lineno + nl illegal)%nat)
              else (result, lineno) in
            let m0 := firstn n (skipn index input) in
            scan_loop fuel' sc input (index + n) (index + n)
              (lineno + nl m0) (result ++ group_tuple sc lineno k m0)
        | None =>
            Some (result ++ [mkTuple lineno None (skipn begin input)])
        end
    end
  else Some result.

(** [scanner.scan(input)] *)
Definition scan (fuel : nat) (sc : Scanner) (input : jsstr) : option (list Tuple) :=
  scan_loop fuel sc input 0 0 1 [].

(** The reserved literal [$eof] and the tuple [grammar.tuple(0, grammar.lit())]
    that stands for the end of input. *)
Definition eof : Lit := lit_of [] true.
Definition eof_tuple : Tuple := mkTuple 0 (Some (TLit eof)) [].

(** The terminal of a tuple is the [$eof] literal. *)
Definition is_eof (tu : Tuple) : bool :=
  match t tu with
  | Some (TLit l) => eof_lit l
  | _ => false
  end.

(** "The tuple list ends with a tuple whose terminal is the [$eof]
    literal." *)
Definition ends_with_eof (l : list Tuple) : Prop :=
  exists front tu, l = front ++ [tu] /\ is_eof tu = true.

(** *** How the LR parser reads the tuples ([BNF.Parser.next])

    [input] is what [parse] was given: [null], an array with [null]
    elements allowed, or [false] once it has been taken.  (A function that
    delivers tuples is left out.) *)
Inductive parser_input :=
| InNull
| InArray (a : list (option Tuple))
| InFalse.

Record Parser := mkParser {
  p_input : parser_input;
  p_tuples : list (option Tuple);
  p_index : nat;
  p_current : option Tuple
}.

(** [parse(input)] for a string, given the result of [scanner.scan(input)]:
    [null] is appended. *)
Definition parse_input (scanned : list Tuple) : Parser :=
  mkParser (InArray ((Some <$> scanned) ++ [None])) [] 0 None.

(** [next()]; [None] is [throw true], the request for more input. *)
Definition next (p : Parser) : option Parser :=
  let refill :=
    if (length (p_tuples p) <=? p_index p)%nat then
      match p_input p with
      | InFalse => None
      | InNull => Some (InFalse, [None], 0%nat)
      | InArray a => Some (InFalse, if bool_decide (a = []) then [None] else a, 0%nat)
      end
    else Some (p_input p, p_tuples p, p_index p) in
  match refill with
  | None => None
  | Some (input, tuples, index) =>
      let '(tuples, current) :=
        match tuples !! index with
        | Some (Some tu) => (tuples, tu)
        | _ => (<[index := Some eof_tuple]> tuples, eof_tuple)
        end in
      Some (mkParser input tuples
              (if is_eof current then index else S index) (Some current))
  end.

(** [n] calls of [next]. *)
Fixpoint nexts (n : nat) (p : Parser) : option Parser :=
  match n with
  | O => Some p
  | S n' => match nexts n' p with
            | Some p' => next p'
            | None => None
            end
  end.

(** Two used literals, ['b'] and ['ab'], and white space to skip. *)
Definition lit_b : Lit := lit_of (js "'b'") true.
Definition lit_ab : Lit := lit_of (js "'ab'") true.
Definition blank : pattern :=
  fun s i => match s !! i with Some 32%N => Some 1%nat | _ => None end.

(** ** [Tuple.escape] *)

(** The two tables of [escape]: backspace, form feed, line feed, carriage
    return, the two tabs, backslash and double quote, and the letters that
    stand for them. *)
Definition tuple_escape_values : jsstr := [8; 12; 10; 13; 9; 11; 92; 34]%N.
Definition tuple_escape_letters : jsstr := js "bfnrtv\" ++ [34%N].

(** [s.charCodeAt(i)] for an index within the string. *)
Definition charCodeAt (s : jsstr) (i : Z) : N :=
  default 0%N (s !! Z.to_nat i).

(** [n.toString(16)] for a natural number: its hexadecimal digits, the
    letters in lower case. *)
Fixpoint toString16_loop (fuel : nat) (n : N) (acc : jsstr) : jsstr :=
  let acc := charAt hex_digits (Z.of_N (n mod 16)) ++ acc in
  if (n / 16 =? 0)%N then acc
  else match fuel with
       | O => acc
       | S fuel' => toString16_loop fuel' (n / 16)%N acc
       end.

Definition toString16 (n : N) : jsstr :=
  toString16_loop (N.to_nat (N.log2 n)) n [].

(** One iteration of the [for] loop of [escape], at index [i]. *)
Definition escape_step (s : jsstr) (result : jsstr) (i : Z) : jsstr :=
  let c := charAt s i in
  let cc := indexOf tuple_escape_values c in
  if 0 <=? cc then result ++ [backslash] ++ charAt tuple_escape_letters cc
  else if negb (js_ltb c (js " ")) && negb (js_ltb (js "~") c) then result ++ c
  else
    let cc := charCodeAt s i in
    if (cc <? 16)%N then result ++ js "\x0" ++ toString16 cc
    else if (cc <? 256)%N then result ++ js "\x" ++ toString16 cc
    else if (cc <? 16 * 256)%N then result ++ js "\u0" ++ toString16 cc
    else result ++ js "\u" ++ toString16 cc.

(** [tuple.escape(s)]; [None] is [null] or [undefined]. *)
Definition Tuple_escape (s : option jsstr) : jsstr :=
  match s with
  | None => []
  | Some s => foldl (escape_step s) [34%N] (seqZ 0 (len s)) ++ [34%N]
  end.

(** What [escape] makes of one character. *)
Definition escape_char (c : N) : jsstr := escape_step [c] [] 0.

(** What [escape] makes of the character [c] is a plain character or one
    escape, and stands for [c]. *)
Definition reads_back (c : N) : bool :=
  match escape_char c with
  | [x] => (x =? c)%N && negb (x =? backslash)%N
  | [b; e] =>
      (b =? backslash)%N
      && match simple_escape e with
         | Some k => (k =? c)%N
         | None => (e =? c)%N && negb (e =? 120)%N && negb (e =? 117)%N
         end
  | [b; x; h1; h2] =>
      (b =? backslash)%N && (x =? 120)%N && is_hex_lower h1 && is_hex_lower h2
      && (hex_number [h1; h2] =? c)%N
  | [b; u; h1; h2; h3; h4] =>
      (b =? backslash)%N && (u =? 117)%N && is_hex_lower h1 && is_hex_lower h2
      && is_hex_lower h3 && is_hex_lower h4
      && (hex_number [h1; h2; h3; h4] =? c)%N
  | _ => false
  end.

(** [reads_back] for the [2^k] characters from [base] on. *)
Fixpoint reads_back_block (k : nat) (base : N) : bool :=
  match k with
  | O => reads_back base
  | S k' => reads_back_block k' base && reads_back_block k' (base + 2 ^ N.of_nat k')%N
  end.

(** ** Where the tuples of [scan] are in the input *)

(** The tuple is the text at index [pos] of the input, which is not empty,
    and has the number of the line this text begins in. *)
Definition placed (input : jsstr) (tu : Tuple) (pos : nat) : Prop :=
  tuple_value tu <> []
  /\ firstn (length (tuple_value tu)) (skipn pos input) = tuple_value tu
  /\ lineno tu = S (nl (firstn pos input)).

(** The tuples are pieces of the input from index [from] on, in order and
    without overlap. *)
Inductive laid_out (input : jsstr) : nat -> list Tuple -> Prop :=
| laid_nil from : laid_out input from []
| laid_cons from pos tu rest :
    (from <= pos)%nat ->
    placed input tu pos ->
    laid_out input (pos + length (tuple_value tu)) rest ->
    laid_out input from (tu :: rest).

(** A string of two lines, with a character that no pattern matches. *)
Definition two_lines : jsstr := [98; 10; 63; 97; 98]%N.
Definition two_lines_scanner : Scanner :=
  default (mkScanner [] blank)
    (new_Scanner [lit_ab; lit_b] []
       (fun s i => match s !! i with Some 10%N => Some 1%nat | _ => None end)).

End Base.

(* ===================================================================== *)
(** * [06.js]: the stack machine *)
(* ===================================================================== *)

Module Six.

(** Values in memory.  Numbers are integers here: the instructions of the
    embedding ([Divide] and [Input] are left out) keep integers integral, and
    the embedding is exact as long as they stay below [2^53]. *)
Inductive value :=
| Num (z : Z)
| Bool (b : bool)
| Undefined
| NaN.

(** [ToNumber]; [None] is [NaN]. *)
Definition to_number (v : value) : option Z :=
  match v with
  | Num z => Some z
  | Bool b => Some (if b then 1 else 0)
  | Undefined | NaN => None
  end.

Definition arith (f : Z -> Z -> Z) (a b : value) : value :=
  match to_number a, to_number b with
  | Some x, Some y => Num (f x y)
  | _, _ => NaN
  end.

Definition compare (f : Z -> Z -> bool) (a b : value) : value :=
  match to_number a, to_number b with
  | Some x, Some y => Bool (f x y)
  | _, _ => Bool false
  end.

(** [a == b] *)
Definition loose_eq (a b : value) : bool :=
  match a, b with
  | Undefined, Undefined => true
  | Undefined, _ | _, Undefined => false
  | _, _ => match to_number a, to_number b with
            | Some x, Some y => x =? y
            | _, _ => false
            end
  end.

Definition truthy (v : value) : bool :=
  match v with
  | Num z => negb (z =? 0)
  | Bool b => b
  | Undefined | NaN => false
  end.

(** What [join] prints for an element. *)
Definition value_text (v : value) : string :=
  match v with
  | Num z => pretty z
  | Bool true => "true"
  | Bool false => "false"
  | Undefined => ""
  | NaN => "NaN"
  end.

(** The mnemonics of [Machine10] and [Machine11]. *)
Inductive instr :=
| Add | Subtract | Multiply | Minus
| Load (addr : nat) | Store (a : nat)
| Pop | Push (result : value) | Puts
| Branch (a : Z) | Bzero (a : Z)
| Eq | Ne | Gt | Ge | Lt | Le
| Print (n : Z).

(** The text of the function [ins] creates with [eval], as [toString]
    shows it. *)
Definition instr_text (i : instr) : string :=
  let plain (name : string) := "memory => this." +:+ name +:+ "(memory)" in
  let arg (name a : string) :=
    "memory => this." +:+ name +:+ "(" +:+ a +:+ ")(memory)" in
  match i with
  | Add => plain "Add" | Subtract => plain "Subtract"
  | Multiply => plain "Multiply" | Minus => plain "Minus"
  | Load a => arg "Load" (pretty a) | Store a => arg "Store" (pretty a)
  | Pop => plain "Pop" | Push v => arg "Push" (value_text v)
  | Puts => plain "Puts"
  | Branch a => arg "Branch" (pretty a) | Bzero a => arg "Bzero" (pretty a)
  | Eq => plain "Eq" | Ne => plain "Ne" | Gt => plain "Gt"
  | Ge => plain "Ge" | Lt => plain "Lt" | Le => plain "Le"
  | Print n => arg "Print" (pretty n)
  end.

(** The [Memory] object: an array with the properties [pc] and
    [continue]. *)
Record memory := Memory {
  cells : list value;
  pc : Z;
  continue : option bool
}.

(** What is handed to the host function [puts]: values or strings. *)
Inductive item := IVal (v : value) | IStr (s : string).
Definition output := list (list item).

(** [memory.at(-k)] *)
Definition at_back (m : list value) (k : nat) : value :=
  default Undefined (m !! (length m - k)%nat).

(** [memory.splice(-n, n, x)] *)
Definition replace_top (n : nat) (x : value) (m : list value) : list value :=
  firstn (length m - n) m ++ [x].

(** [memory[a] = v]: writing past the end extends the array. *)
Definition store_at (a : nat) (v : value) (m : list value) : list value :=
  if (a <? length m)%nat then <[a := v]> m
  else m ++ replicate (a - length m) Undefined ++ [v].

(** [memory.splice(k)] for an integer [k]: the start index. *)
Definition splice_start (k : Z) (m : list value) : nat :=
  if k <? 0 then Z.to_nat (Z.max (Z.of_nat (length m) + k) 0)
  else Z.to_nat (Z.min k (Z.of_nat (length m))).

(** [memory.toString()] *)
Definition memory_text (m : list value) : string :=
  "[ " +:+ String.concat " " (value_text <$> m) +:+ " ]".

Definition set_cells (m : memory) (c : list value) : memory :=
  Memory c (pc m) (continue m).

Definition set_pc (m : memory) (a : Z) : memory :=
  Memory (cells m) a (continue m).

(** Executing one instruction: the new memory and what it prints. *)
Definition exec (i : instr) (m : memory) : memory * output :=
  let c := cells m in
  let binary (f : value -> value -> value) :=
    (set_cells m (replace_top 2 (f (at_back c 2) (at_back c 1)) c), []) in
  match i with
  | Add => binary (arith Z.add)
  | Subtract => binary (arith Z.sub)
  | Multiply => binary (arith Z.mul)
  | Minus => (set_cells m (replace_top 1 (arith Z.sub (Num 0) (at_back c 1)) c), [])
  | Load addr => (set_cells m (c ++ [default Undefined (c !! addr)]), [])
  | Store a => (set_cells m (store_at a (at_back c 1) c), [])
  | Pop => (set_cells m (removelast c), [])
  | Push result => (set_cells m (c ++ [result]), [])
  | Puts => (m, [[IVal (at_back c 1)]])
  | Branch a => (set_pc m a, [])
  | Bzero a =>
      let m' := set_cells m (removelast c) in
      (if truthy (at_back c 1) then m' else set_pc m' a, [])
  | Eq => binary (fun a b => Bool (loose_eq a b))
  | Ne => binary (fun a b => Bool (negb (loose_eq a b)))
  | Gt => binary (compare Z.gtb)
  | Ge => binary (compare Z.geb)
  | Lt => binary (compare Z.ltb)
  | Le => binary (compare Z.leb)
  | Print n =>
      let start := splice_start (- n) c in
      (set_cells m (firstn start c), [IVal <$> skipn start c])
  end.

(** The trace function [trace(address)] returns, if any. *)
Inductive tracer := TraceAll | TraceIf (address : nat).

Definition trace_line (code : list instr) (m : memory) (at_pc : Z) : list item :=
  [IStr (memory_text (cells m)); IStr (pretty at_pc +:+ ":");
   IStr (default "" (instr_text <$> (code !! Z.to_nat at_pc)))].

Definition run_tracer (t : option tracer) (code : list instr) (m : memory)
    (at_pc : Z) : output :=
  match t with
  | None => []
  | Some TraceAll => [trace_line code m at_pc]
  | Some (TraceIf address) =>
      match to_number (default Undefined (cells m !! address)) with
      | Some z => if 0 <=? z then [trace_line code m at_pc] else []
      | None => []
      end
  end.

(** The step budget: a number or [Infinity]. *)
Inductive budget := Steps (z : Z) | Infinity.

Inductive result :=
| Returned (m : memory) (t : option tracer) (out : output)
| TypeError (out : output)      (* [code[pc]] is not a function *)
| OutOfFuel.

(** The loop [while (steps -- && memory.pc < this.code.length)]. *)
Fixpoint machine_loop (fuel : nat) (code : list instr) (t : option tracer)
    (steps : budget) (m : memory) (out : output) : result :=
  let go := match steps with Steps z => negb (z =? 0) | Infinity => true end in
  if go && (pc m <? Z.of_nat (length code)) then
    match fuel with
    | O => OutOfFuel
    | S fuel' =>
        let steps' := match steps with Steps z => Steps (z - 1) | Infinity => Infinity end in
        let at_pc := pc m in
        let m1 := set_pc m (at_pc + 1) in
        if at_pc <? 0 then TypeError out
        else match code !! Z.to_nat at_pc with
             | None => TypeError out
             | Some i =>
                 let '(m2, o) := exec i m1 in
                 machine_loop fuel' code t steps' m2
                   (out ++ o ++ run_tracer t code m2 at_pc)
             end
    end
  else
    Returned (Memory (cells m) (pc m) (Some (pc m <? Z.of_nat (length code)))) t out.

(** The function [StackMachine] inside [run(size, startAddr, traceAddr)].
    [t] is the variable of the closure, shared by all invocations of one
    executable; [memory = None] is [null], [steps = None] is a missing
    argument. *)
Definition StackMachine (fuel : nat) (code : list instr)
    (size : nat) (startAddr : Z) (traceAddr : option nat)
    (t : option tracer) (memory : option memory) (steps : option Z) : result :=
  match memory with
  | None =>
      let '(t, steps) :=
        match steps with
        | Some z => if z =? 0 then (TraceIf <$> traceAddr, Infinity)
                    else (Some TraceAll, Steps z)
        | None => (TraceIf <$> traceAddr, Infinity)
        end in
      let m := Memory (replicate size (Num 0)) startAddr None in
      let out := match t with Some _ => [[IStr (memory_text (cells m))]] | None => [] end in
      machine_loop fuel code t steps m out
  | Some m =>
      match steps with
      | Some z => machine_loop fuel code t (Steps z) m []
      | None => machine_loop fuel code t (Steps 0) m []   (* [undefined --] is [NaN] *)
      end
  end.

(** [run(size, startAddr, traceAddr)]: a fresh executable, with [t] not yet
    set. *)
Definition run (code : list instr) (size : nat) (startAddr : Z)
    (traceAddr : option nat) (fuel : nat)
  : option memory -> option Z -> result :=
  StackMachine fuel code size startAddr traceAddr None.

(** The program of the scenario. *)
Definition program : list instr :=
  [Push (Num 3); Push (Num 4); Add; Print 1; Pop].

(** What has been printed before is kept in front of what a run prints. *)
Definition prepend (out : output) (r : result) : result :=
  match r with
  | Returned m t o => Returned m t (out ++ o)
  | TypeError o => TypeError (out ++ o)
  | OutOfFuel => OutOfFuel
  end.

(** A loop that counts down from ten and prints the numbers. *)
Definition countdown : list instr :=
  [Push (Num 10); Store 0; Pop;
   Load 0; Bzero 14; Load 0; Puts; Pop;
   Load 0; Push (Num 1); Subtract; Store 0; Pop; Branch 3].

End Six.

(* ===================================================================== *)
(** * [bnf.js]: symbols, rules and their flags *)
(* ===================================================================== *)

Module BNF.
Import Js.

(** ** Terminals, non-terminals, rules

    Objects are known by their position in the inventories of the grammar:
    a terminal by its ordinal number in [lits ++ tokens], a non-terminal by
    its index in [nts], a rule by its index in [rules]. *)

Inductive assoc := Left | Right | Nonassoc.   (* '%left' '%right' '%nonassoc' *)

(** [prec] of a terminal once [precedence()] has seen it. *)
Record prec := Prec { assoc_of : assoc; level : nat }.

Inductive tkind := KLit | KToken.

(** [Base.T] with the [BNF.T] mix-in: [#prec] (empty until a precedence is
    declared), [#used], [#ord] and [#first]. *)
Record T := mkT {
  t_kind : tkind;
  t_name : string;
  t_prec : option prec;
  t_used : bool;
  t_ord : option nat;
  t_first : gset nat
}.

(** [BNF.NT]; [#empty] has no initial value. *)
Record NT := mkNT {
  nt_name : string;
  nt_index : nat;
  nt_ord : option nat;
  nt_rules : list nat;
  nt_empty : option bool;
  nt_reached : bool;
  nt_finite : bool;
  nt_first : gset nat;
  nt_follow : gset nat
}.

Inductive symbol := ST (ord : nat) | SNT (index : nat).

#[global] Instance symbol_eq_dec : EqDecision symbol.
Proof. solve_decision. Defined.

(** [rule.prec]: the terminal that provides the precedence, with the copy of
    its [assoc] and [level] taken when the rule was created. *)
Record rule_prec := RulePrec { rp_t : nat; rp_assoc : assoc; rp_level : nat }.

Record Rule := mkRule {
  r_nt : nat;
  r_symbols : list symbol;
  r_index : nat;
  r_reached : bool;
  r_finite : bool;
  r_first : gset nat;
  r_reduced : bool;
  r_prec : option rule_prec
}.

(** *** The setters.  Each takes the assigned value and ignores it. *)

Definition T_set_used (_ : value) (t : T) : T :=
  mkT (t_kind t) (t_name t) (t_prec t) true (t_ord t) (t_first t).

(** [set ord (value)] assigns only while [#ord] is undefined. *)
Definition T_set_ord (v : nat) (t : T) : T :=
  mkT (t_kind t) (t_name t) (t_prec t) (t_used t)
      (match t_ord t with None => Some v | Some o => Some o end) (t_first t).

Definition T_set_prec (p : prec) (t : T) : T :=
  mkT (t_kind t) (t_name t) (Some p) (t_used t) (t_ord t) (t_first t).

Definition T_add_first (s : gset nat) (t : T) : T :=
  mkT (t_kind t) (t_name t) (t_prec t) (t_used t) (t_ord t) (t_first t ∪ s).

Definition NT_set_empty (_ : value) (n : NT) : NT :=
  mkNT (nt_name n) (nt_index n) (nt_ord n) (nt_rules n) (Some true)
       (nt_reached n) (nt_finite n) (nt_first n) (nt_follow n).

Definition NT_set_reached (_ : value) (n : NT) : NT :=
  mkNT (nt_name n) (nt_index n) (nt_ord n) (nt_rules n) (nt_empty n)
       true (nt_finite n) (nt_first n) (nt_follow n).

Definition NT_set_finite (_ : value) (n : NT) : NT :=
  mkNT (nt_name n) (nt_index n) (nt_ord n) (nt_rules n) (nt_empty n)
       (nt_reached n) true (nt_first n) (nt_follow n).

Definition NT_set_ord (v : nat) (n : NT) : NT :=
  mkNT (nt_name n) (nt_index n)
       (match nt_ord n with None => Some v | Some o => Some o end)
       (nt_rules n) (nt_empty n) (nt_reached n) (nt_finite n)
       (nt_first n) (nt_follow n).

Definition NT_push_rule (r : nat) (n : NT) : NT :=
  mkNT (nt_name n) (nt_index n) (nt_ord n) (nt_rules n ++ [r]) (nt_empty n)
       (nt_reached n) (nt_finite n) (nt_first n) (nt_follow n).

Definition NT_add_first (s : gset nat) (n : NT) : NT :=
  mkNT (nt_name n) (nt_index n) (nt_ord n) (nt_rules n) (nt_empty n)
       (nt_reached n) (nt_finite n) (nt_first n ∪ s) (nt_follow n).

Definition NT_add_follow (s : gset nat) (n : NT) : NT :=
  mkNT (nt_name n) (nt_index n) (nt_ord n) (nt_rules n) (nt_empty n)
       (nt_reached n) (nt_finite n) (nt_first n) (nt_follow n ∪ s).

Definition Rule_set_reached (_ : value) (r : Rule) : Rule :=
  mkRule (r_nt r) (r_symbols r) (r_index r) true (r_finite r) (r_first r)
         (r_reduced r) (r_prec r).

Definition Rule_set_finite (_ : value) (r : Rule) : Rule :=
  mkRule (r_nt r) (r_symbols r) (r_index r) (r_reached r) true (r_first r)
         (r_reduced r) (r_prec r).

Definition Rule_set_reduced (_ : value) (r : Rule) : Rule :=
  mkRule (r_nt r) (r_symbols r) (r_index r) (r_reached r) (r_finite r)
         (r_first r) true (r_prec r).

Definition Rule_add_first (s : gset nat) (r : Rule) : Rule :=
  mkRule (r_nt r) (r_symbols r) (r_index r) (r_reached r) (r_finite r)
         (r_first r ∪ s) (r_reduced r) (r_prec r).

(** [rule.symbols.push(...)], as [check()] does for rule zero: the array
    behind the getter is changed in place. *)
Definition Rule_push_symbols (ss : list symbol) (r : Rule) : Rule :=
  mkRule (r_nt r) (r_symbols r ++ ss) (r_index r) (r_reached r) (r_finite r)
         (r_first r) (r_reduced r) (r_prec r).

(** *** Everything the classes let a caller do to an object

    The fields are private, so an object changes only through its setters
    and through the arrays and maps its getters hand out. *)
Inductive T_op :=
| TSetUsed (v : value) | TSetOrd (v : nat) | TSetPrec (p : prec)
| TAddFirst (s : gset nat).

Inductive NT_op :=
| NSetEmpty (v : value) | NSetReached (v : value) | NSetFinite (v : value)
| NSetOrd (v : nat) | NPushRule (r : nat)
| NAddFirst (s : gset nat) | NAddFollow (s : gset nat).

Inductive Rule_op :=
| RSetReached (v : value) | RSetFinite (v : value) | RSetReduced (v : value)
| RAddFirst (s : gset nat) | RPushSymbols (ss : list symbol).

Definition T_apply (t : T) (o : T_op) : T :=
  match o with
  | TSetUsed v => T_set_used v t
  | TSetOrd v => T_set_ord v t
  | TSetPrec p => T_set_prec p t
  | TAddFirst s => T_add_first s t
  end.

Definition NT_apply (n : NT) (o : NT_op) : NT :=
  match o with
  | NSetEmpty v => NT_set_empty v n
  | NSetReached v => NT_set_reached v n
  | NSetFinite v => NT_set_finite v n
  | NSetOrd v => NT_set_ord v n
  | NPushRule r => NT_push_rule r n
  | NAddFirst s => NT_add_first s n
  | NAddFollow s => NT_add_follow s n
  end.

Definition Rule_apply (r : Rule) (o : Rule_op) : Rule :=
  match o with
  | RSetReached v => Rule_set_reached v r
  | RSetFinite v => Rule_set_finite v r
  | RSetReduced v => Rule_set_reduced v r
  | RAddFirst s => Rule_add_first s r
  | RPushSymbols ss => Rule_push_symbols ss r
  end.

(** The getter [nt.empty] as a condition: [undefined] is falsy. *)
Definition NT_empty (n : NT) : bool := default false (nt_empty n).

(** ** Messages, marks, states *)

Inductive verb := accept | error | goto | reduce | shift.

Inductive info := IState (n : nat) | IRule (r : nat) | INone.

Record Message := mkMessage {
  m_verb : verb;
  m_symbol : symbol;
  m_info : info
}.

Record Mark := mkMark {
  mark_rule : nat;
  position : nat;
  complete : bool          (* [position == rule.symbols.length], set at creation *)
}.

(** What [advance] reports: the two kinds of conflict, with the terminal and
    the rules involved. *)
Inductive conflict :=
| ShiftReduce (state : nat) (t : nat) (rule : nat)
| ReduceReduce (state : nat) (t : nat) (rule r2 : nat).

(** [messages] maps ordinal numbers to [null] ([Some None]: a shift or goto
    is still to be filled in) or to a message; an ordinal that is not a key
    has no entry. *)
Record State := mkState {
  marks : list Mark;
  core : nat;
  messages : gmap nat (option Message);
  errors : list conflict
}.

Record Grammar := mkGrammar {
  lits : list T;
  tokens : list T;
  nts : list NT;
  rules : list Rule;
  sr : nat;
  rr : nat;
  log : list conflict
}.

(** The terminal with ordinal number [ord]: literals first, then tokens. *)
Definition terminal (g : Grammar) (ord : nat) : option T :=
  (lits g ++ tokens g) !! ord.

Definition with_rules (g : Grammar) (rs : list Rule) : Grammar :=
  mkGrammar (lits g) (tokens g) (nts g) rs (sr g) (rr g) (log g).

(** [rule.reduced = true] *)
Definition set_reduced (rule : Rule) (g : Grammar) : Grammar :=
  with_rules g (alter (Rule_set_reduced (VBool true)) (r_index rule) (rules g)).

Definition with_messages (st : State) (m : gmap nat (option Message)) : State :=
  mkState (marks st) (core st) m (errors st).

(** [grammar.reduce(f, rule)] *)
Definition reduce_message (t : nat) (rule : Rule) : Message :=
  mkMessage reduce (ST t) (IRule (r_index rule)).

(** [rule.reduced = true; this.messages[t] = this.grammar.reduce(f, rule)] *)
Definition install_reduce (rule : Rule) (t : nat) (gs : Grammar * State)
  : Grammar * State :=
  (set_reduced rule gs.1,
   with_messages gs.2 (<[t := Some (reduce_message t rule)]> (messages gs.2))).

(** [++ this.grammar.sr; error(...)] *)
Definition count_sr (c : conflict) (gs : Grammar * State) : Grammar * State :=
  let g := gs.1 in let st := gs.2 in
  (mkGrammar (lits g) (tokens g) (nts g) (rules g) (S (sr g)) (rr g) (log g ++ [c]),
   mkState (marks st) (core st) (messages st) (errors st ++ [c])).

Definition count_rr (c : conflict) (gs : Grammar * State) : Grammar * State :=
  let g := gs.1 in let st := gs.2 in
  (mkGrammar (lits g) (tokens g) (nts g) (rules g) (sr g) (S (rr g)) (log g ++ [c]),
   mkState (marks st) (core st) (messages st) (errors st ++ [c])).

(** The body of [for (let t in rule.nt.follow)] in [State.advance], for the
    complete rule [rule] and the terminal [f] with ordinal number [t]. *)
Definition reduce_entry (stateNumber : nat) (rule : Rule) (t : nat) (f : T)
    (gs : Grammar * State) : Grammar * State :=
  match messages gs.2 !! t with
  | None =>                              (* [!(t in this.messages)] *)
      install_reduce rule t gs
  | Some None =>                         (* [this.messages[t] == null] *)
      match r_prec rule, t_prec f with
      | Some rp, Some fp =>
          if (level fp <? rp_level rp)%nat then install_reduce rule t gs
          else if (rp_level rp <? level fp)%nat then gs
          else match rp_assoc rp with
               | Left => install_reduce rule t gs
               | Right => gs
               | Nonassoc =>
                   (set_reduced rule gs.1,
                    with_messages gs.2 (delete t (messages gs.2)))
               end
      | _, _ => count_sr (ShiftReduce stateNumber t (r_index rule)) gs
      end
  | Some (Some m) =>                     (* already a reduce *)
      let r2 := match m_info m with IRule j => Some j | _ => None end in
      let gs := count_rr (ReduceReduce stateNumber t (r_index rule)
                            (default 0%nat r2)) gs in
      let earlier :=
        match r2 with
        | Some j => match rules gs.1 !! j with
                    | Some rule2 => (r_index rule <? r_index rule2)%nat
                    | None => false
                    end
        | None => false
        end in
      if earlier
      then (gs.1, with_messages gs.2
              (<[t := Some (mkMessage (m_verb m) (m_symbol m) (IRule (r_index rule)))]>
                 (messages gs.2)))
      else gs
  end.

(** The keys of a set of ordinal numbers in the order [for ... in]
    enumerates them: ascending. *)
Definition keys_ascending (s : gset nat) : list nat :=
  merge_sort Nat.le (elements s).

(** The first loop of [State.advance]: for each complete mark, for each
    terminal that can follow its rule. *)
Definition fill_reduces (stateNumber : nat) (gs : Grammar * State)
  : Grammar * State :=
  foldl (fun gs mark =>
    if complete mark then
      match rules gs.1 !! mark_rule mark with
      | Some rule =>
          match nts gs.1 !! r_nt rule with
          | Some nt =>
              foldl (fun gs t =>
                match terminal gs.1 t with
                | Some f => reduce_entry stateNumber rule t f gs
                | None => gs
                end) gs (keys_ascending (nt_follow nt))
          | None => gs
          end
      | None => gs
      end
    else gs) gs (marks gs.2).

(** ** [Parser.build]: the value stack *)

(** What an action can throw: an [Error], which aborts the recognition, or
    anything else, which is reported and counted. *)
Inductive thrown := AnError (e : value) | AMessage (e : value).

Inductive act_outcome := Return (v : value) | Throw (e : thrown).

(** A method of the actions object: [method.length] and what
    [method.apply(target, args)] does. *)
Record method := mkMethod {
  arity : nat;
  body : list value -> act_outcome
}.

(** [this.actions.constructor.prototype[name]], when it is a function. *)
Definition actions := string -> option method.

Section Build.

(** The elements an object of the actions' making yields when it is spread,
    if it is iterable. *)
Variable obj_elements : nat -> option (list value).

(** [...v]: the elements of an iterable; [None] is the [TypeError] for a
    value that is not iterable. *)
Definition spread (v : value) : option (list value) :=
  match v with
  | VList l => Some l
  | VStr s => Some ((fun a => VStr (String a EmptyString)) <$> list_ascii_of_string s)
  | VObj id => obj_elements id
  | VUndefined | VNull | VBool _ | VNum _ => None
  end.

Inductive built :=
| Built (values : list value) (result : value) (errors : nat)
| Raised (e : thrown).

(** [Parser.call]: the argument count is checked, then the method is
    applied. *)
Definition call (noargs : bool) (m : method) (args : list value) (errors : nat)
  : act_outcome * nat :=
  (body m args,
   if negb (arity m =? 0)%nat && negb noargs && negb (arity m =? length args)%nat
   then S errors else errors).

(** [Parser.act(name, result)]; the result is an array unless a method
    returned something else. *)
Definition act (noargs : bool) (acts : option actions) (name : string)
    (result : list value) (errors : nat) : act_outcome * nat :=
  match acts with
  | Some a =>
      match a name with
      | Some m => call noargs m result errors
      | None => (Return (VList result), errors)
      end
  | None => (Return (VList result), errors)
  end.

(** [build(tuple, 'reduce', info)] for the rule [info] with left-hand side
    [name]: [ebnf] says whether [grammar.ebnf] is set, [uniq] is
    [config.uniq]. *)
Definition build_reduce (ebnf : bool) (uniq : string) (noargs : bool)
    (acts : option actions) (rule : Rule) (name : string)
    (values : list value) (errors : nat) : built :=
  let len := length (r_symbols rule) in
  let '(values, result) := splice_last len values in
  if ebnf && String.prefix uniq name then
    if (len =? 2)%nat && bool_decide (r_symbols rule !! 0%nat = Some (SNT (r_nt rule)))
    then
      (* [result.splice(0, 1, ...result[0])] *)
      match spread (default VUndefined (result !! 0%nat)) with
      | Some elements =>
          let result := VList (elements ++ skipn 1 result) in
          Built (values ++ [result]) result errors
      | None => Raised (AnError (VStr "TypeError"))
      end
    else if (len =? 0)%nat then Built (values ++ [VNull]) VNull errors
    else Built (values ++ [VList result]) (VList result) errors
  else
    match act noargs acts name result errors with
    | (Return v, errors) => Built (values ++ [v]) v errors
    | (Throw (AnError e), _) => Raised (AnError e)
    | (Throw (AMessage e), errors) => Built (values ++ [VNull]) VNull (S errors)
    end.

End Build.

(** An actions object with a method for the synthesized name [$-2], and the
    rule [$-2: $-2 $-1] of an iteration. *)
Definition nosy_actions : actions :=
  fun name => if String.eqb name "$-2"
              then Some (mkMethod 0 (fun _ => Return (VStr "seen")))
              else None.
Definition some_rule : Rule := mkRule 2 [SNT 2; SNT 1] 5 true true ∅ false None.

(** ** [Grammar.check]: what can be reached from rule zero *)

(** [rule.reached = rule.nt.reached = true] *)
Definition mark_reached (rule : Rule) (g : Grammar) : Grammar :=
  mkGrammar (lits g) (tokens g)
    (alter (NT_set_reached (VBool true)) (r_nt rule) (nts g))
    (alter (Rule_set_reached (VBool true)) (r_index rule) (rules g))
    (sr g) (rr g) (log g).

(** [forEach] with a callback that changes the grammar. *)
Fixpoint for_each {A} (f : Grammar -> A -> option Grammar) (l : list A)
    (g : Grammar) : option Grammar :=
  match l with
  | [] => Some g
  | x :: l' => g ← f g x; for_each f l' g
  end.

(** The function [setReached] of [check], for the rule with index [j].
    [None] when the fuel runs out, or when an index names no object (which
    the objects of the source cannot do). *)
Fixpoint setReached (fuel : nat) (g : Grammar) (j : nat) : option Grammar :=
  match fuel with
  | O => None
  | S fuel' =>
      rule ← rules g !! j;
      if r_reached rule then Some g
      else
        for_each (fun g sym =>
                    match sym with
                    | ST _ => Some g
                    | SNT i => nt ← nts g !! i; for_each (setReached fuel') (nt_rules nt) g
                    end)
          (r_symbols rule) (mark_reached rule g)
  end.

(** The rule [j] has a non-terminal on its right-hand side that has the
    rule [k]. *)
Definition leads_to (g : Grammar) (j k : nat) : Prop :=
  exists rule i nt,
    rules g !! j = Some rule /\ SNT i ∈ r_symbols rule
    /\ nts g !! i = Some nt /\ k ∈ nt_rules nt.

(** The indices name objects, and a rule is at its index: what [nt()] and
    [rule()] see to. *)
Definition linked (g : Grammar) : Prop :=
  (forall j rule, rules g !! j = Some rule ->
      r_index rule = j /\ (r_nt rule < length (nts g))%nat
      /\ forall i, SNT i ∈ r_symbols rule -> (i < length (nts g))%nat)
  /\ (forall i nt k, nts g !! i = Some nt -> k ∈ nt_rules nt ->
        (k < length (rules g))%nat).

(** Nothing has been reached yet. *)
Definition unmarked (g : Grammar) : Prop :=
  (forall rule, rule ∈ rules g -> r_reached rule = false)
  /\ (forall nt, nt ∈ nts g -> nt_reached nt = false).

(** What [setReached] does not change. *)
Definition rule_shape (r : Rule) : nat * list symbol * nat :=
  (r_nt r, r_symbols r, r_index r).

Definition same_shape (g0 g : Grammar) : Prop :=
  rule_shape <$> rules g = rule_shape <$> rules g0
  /\ nt_rules <$> nts g = nt_rules <$> nts g0.

Definition rule_reached (g : Grammar) (j : nat) : Prop :=
  exists rule, rules g !! j = Some rule /\ r_reached rule = true.

Definition nt_is_reached (g : Grammar) (i : nat) : Prop :=
  exists nt, nts g !! i = Some nt /\ nt_reached nt = true.

(** The rules that are still to be reached. *)
Definition unreached (g : Grammar) : nat :=
  length (filter (fun r => r_reached r = false) (rules g)).

(** The invariant of [setReached]: only what rule zero leads to has been
    reached, and what a reached rule leads to has been reached too, unless
    the rule is still being worked on. *)
Definition reach_inv (g0 : Grammar) (busy : list nat) (g : Grammar) : Prop :=
  same_shape g0 g
  /\ (forall j, rule_reached g j -> rtc (leads_to g0) 0%nat j)
  /\ (forall i, nt_is_reached g i ->
        exists j rule, rule_reached g j /\ rules g !! j = Some rule /\ r_nt rule = i)
  /\ (forall j rule, rules g !! j = Some rule -> r_reached rule = true ->
        nt_is_reached g (r_nt rule))
  /\ (forall j, rule_reached g j -> j ∉ busy ->
        forall k, leads_to g0 j k -> rule_reached g k).

Definition reach_grows (g g' : Grammar) : Prop :=
  (forall j, rule_reached g j -> rule_reached g' j)
  /\ (unreached g' <= unreached g)%nat.

(** A grammar with a rule that is not needed: [$accept: s $eof; s: 'x';
    u: s;] as the factory methods leave it. *)
Definition loose_grammar : Grammar :=
  mkGrammar
    [mkT KLit "" None true None ∅; mkT KLit "'x'" None true None ∅] []
    [mkNT "" 0 None [0%nat] None false false ∅ ∅;
     mkNT "s" 1 None [1%nat] None false false ∅ ∅;
     mkNT "u" 2 None [2%nat] None false false ∅ ∅]
    [mkRule 0 [SNT 1; ST 0] 0 false false ∅ false None;
     mkRule 1 [ST 1] 1 false false ∅ false None;
     mkRule 2 [SNT 1] 2 false false ∅ false None] 0 0 [].

(** ** [Grammar.check]: which non-terminals are finite *)

(** [sym instanceof Base.T || sym.finite] *)
Definition sym_finite (g : Grammar) (sym : symbol) : bool :=
  match sym with
  | ST _ => true
  | SNT i => default false (nt_finite <$> nts g !! i)
  end.

(** [!rule.nt.finite && rule.symbols.some(...)] *)
Definition undecided (g : Grammar) (rule : Rule) : bool :=
  negb (default false (nt_finite <$> nts g !! r_nt rule))
  && existsb (sym_finite g) (r_symbols rule).

(** [rule.finite = rule.nt.finite = true] *)
Definition mark_finite (rule : Rule) (g : Grammar) : Grammar :=
  mkGrammar (lits g) (tokens g)
    (alter (NT_set_finite (VBool true)) (r_nt rule) (nts g))
    (alter (Rule_set_finite (VBool true)) (r_index rule) (rules g))
    (sr g) (rr g) (log g).

(** The body of the loop [do { changed = false; this.rules.forEach(...) }
    while (changed)], with [changed] at the end. *)
Definition finite_pass (g : Grammar) : Grammar * bool :=
  foldl (fun gc rule =>
           if undecided gc.1 rule then (mark_finite rule gc.1, true) else gc)
    (g, false) (rules g).

(** The loop; [None] when the fuel runs out. *)
Fixpoint finite_loop (fuel : nat) (g : Grammar) : option Grammar :=
  match fuel with
  | O => None
  | S fuel' =>
      let gc := finite_pass g in
      if gc.2 then finite_loop fuel' gc.1 else Some gc.1
  end.

(** The non-terminal has a rule with a terminal, or with a non-terminal of
    this kind, on its right-hand side. *)
Inductive fin (g : Grammar) : nat -> Prop :=
| fin_terminal i j rule o :
    rules g !! j = Some rule -> r_nt rule = i -> ST o ∈ r_symbols rule -> fin g i
| fin_nt i j rule k :
    rules g !! j = Some rule -> r_nt rule = i -> SNT k ∈ r_symbols rule ->
    fin g k -> fin g i.

Definition nt_is_finite (g : Grammar) (i : nat) : Prop :=
  exists nt, nts g !! i = Some nt /\ nt_finite nt = true.

(** The non-terminals that are not yet known to be finite. *)
Definition unfinished (g : Grammar) : nat :=
  length (filter (fun nt => nt_finite nt = false) (nts g)).

(** The invariant of the loop. *)
Definition finite_inv (g0 g : Grammar) : Prop :=
  same_shape g0 g /\ forall i, nt_is_finite g i -> fin g0 i.

(** [$accept: s $eof; s: s 'y';] as the factory methods leave it: [s] has
    no finite expansion. *)
Definition endless_grammar : Grammar :=
  mkGrammar
    [mkT KLit "" None true None ∅; mkT KLit "'y'" None true None ∅] []
    [mkNT "" 0 None [0%nat] None false false ∅ ∅;
     mkNT "s" 1 None [1%nat] None false false ∅ ∅]
    [mkRule 0 [SNT 1; ST 0] 0 false false ∅ false None;
     mkRule 1 [SNT 1; ST 1] 1 false false ∅ false None] 0 0 [].

(** ** [Grammar.check]: the first sets of rules and non-terminals *)

(** [rule.first] and [nt.first], sets of ordinal numbers of terminals, for
    the rule with index [j] and the non-terminal with index [i]. *)
Definition rule_first_at (g : Grammar) (j : nat) : gset nat :=
  default ∅ (r_first <$> rules g !! j).

Definition nt_first_at (g : Grammar) (i : nat) : gset nat :=
  default ∅ (nt_first <$> nts g !! i).

(** [sym.first] *)
Definition sym_first (g : Grammar) (sym : symbol) : gset nat :=
  match sym with
  | ST o => default ∅ (t_first <$> terminal g o)
  | SNT i => nt_first_at g i
  end.

(** [sym instanceof NT ? sym.empty : false] *)
Definition sym_empty (g : Grammar) (sym : symbol) : bool :=
  match sym with
  | ST _ => false
  | SNT i => default false (NT_empty <$> nts g !! i)
  end.

(** The result of [merge(as, bs)]: has [bs] an element that is not in
    [as]? *)
Definition merges (as_ bs : gset nat) : bool := negb (bool_decide (bs ⊆ as_)).

(** The getter [rule.empty]. *)
Definition Rule_empty (rule : Rule) : bool := (length (r_symbols rule) =? 0)%nat.

Definition with_nts (g : Grammar) (ns : list NT) : Grammar :=
  mkGrammar (lits g) (tokens g) ns (rules g) (sr g) (rr g) (log g).

(** [rule.symbols.every(sym => { if (merge(rule.first, sym.first)) changed
    = true; return sym instanceof NT ? sym.empty : false; })] for the rule
    with index [j]: the grammar, [changed] and the result of [every]. *)
Fixpoint first_every (j : nat) (syms : list symbol) (g : Grammar) (changed : bool)
  : Grammar * bool * bool :=
  match syms with
  | [] => (g, changed, true)
  | sym :: syms' =>
      let changed := changed || merges (rule_first_at g j) (sym_first g sym) in
      let g := with_rules g (alter (Rule_add_first (sym_first g sym)) j (rules g)) in
      if sym_empty g sym then first_every j syms' g changed
      else (g, changed, false)
  end.

(** What the loop can come to: [TypeError] is thrown by the assignment
    [rule.empty = true], for [Rule] has a getter [empty] and no setter. *)
Inductive first_result :=
| FirstOk (g : Grammar) (changed : bool)
| FirstTypeError.

(** The callback of [this.rules.forEach] in the loop that computes
    [first]. *)
Definition first_rule (rule : Rule) (g : Grammar) (changed : bool) : first_result :=
  if negb (length (r_symbols rule) =? 0)%nat then
    let '(g, changed, all) := first_every (r_index rule) (r_symbols rule) g changed in
    if all && negb (Rule_empty rule) then FirstTypeError
    else
      let first := rule_first_at g (r_index rule) in
      let changed := changed || merges (nt_first_at g (r_nt rule)) first in
      let g := with_nts g (alter (NT_add_first first) (r_nt rule) (nts g)) in
      if negb (default false (NT_empty <$> nts g !! r_nt rule)) && Rule_empty rule
      then FirstOk (with_nts g (alter (NT_set_empty (VBool true)) (r_nt rule) (nts g)))
             true
      else FirstOk g changed
  else FirstOk g changed.

Fixpoint first_pass (rs : list Rule) (g : Grammar) (changed : bool) : first_result :=
  match rs with
  | [] => FirstOk g changed
  | rule :: rs' =>
      match first_rule rule g changed with
      | FirstOk g changed => first_pass rs' g changed
      | FirstTypeError => FirstTypeError
      end
  end.

(** [do { changed = false; this.rules.forEach(...) } while (changed)];
    [None] when the fuel runs out. *)
Fixpoint first_loop (fuel : nat) (g : Grammar) : option first_result :=
  match fuel with
  | O => None
  | S fuel' =>
      match first_pass (rules g) g false with
      | FirstOk g true => first_loop fuel' g
      | r => Some r
      end
  end.

(** The right-hand side of the rule is not empty, and each of its symbols
    is a non-terminal with [empty] set. *)
Definition all_empty (g : Grammar) (rule : Rule) : bool :=
  negb (length (r_symbols rule) =? 0)%nat && forallb (sym_empty g) (r_symbols rule).

(** [$accept: prog $eof; prog: list; list: ; list: list 'x';] as
    [check()] has it when it begins to compute the first sets. *)
Definition listing_grammar : Grammar :=
  mkGrammar
    [mkT KLit "" None true (Some 0%nat) {[0%nat]};
     mkT KLit "'x'" None true (Some 1%nat) {[1%nat]}] []
    [mkNT "" 0 (Some 2%nat) [0%nat] None true true ∅ ∅;
     mkNT "prog" 1 (Some 3%nat) [1%nat] None true true ∅ ∅;
     mkNT "list" 2 (Some 4%nat) [2%nat; 3%nat] (Some true) true true ∅ ∅]
    [mkRule 0 [SNT 1; ST 0] 0 true true ∅ false None;
     mkRule 1 [SNT 2] 1 true false ∅ false None;
     mkRule 2 [] 2 true false ∅ false None;
     mkRule 2 [SNT 2; ST 1] 3 true true ∅ false None] 0 0 [].

(** *** What the first sets are to be

    [first_at g j x]: the terminal with the ordinal number [x] begins the
    rule [j]: it is on the right-hand side, or begins a rule of a
    non-terminal on the right-hand side, and the symbols before it have
    [empty] set. *)
Inductive first_at (g : Grammar) : nat -> nat -> Prop :=
| first_terminal j rule pre o post :
    rules g !! j = Some rule -> r_symbols rule = pre ++ ST o :: post ->
    forallb (sym_empty g) pre = true -> is_Some (terminal g o) ->
    first_at g j o
| first_nonterminal j rule pre i post k rule' x :
    rules g !! j = Some rule -> r_symbols rule = pre ++ SNT i :: post ->
    forallb (sym_empty g) pre = true ->
    rules g !! k = Some rule' -> r_nt rule' = i -> first_at g k x ->
    first_at g j x.

Definition nt_first_of (g : Grammar) (i x : nat) : Prop :=
  exists k rule, rules g !! k = Some rule /\ r_nt rule = i /\ first_at g k x.

(** What [check()] has seen to when it begins to compute the first sets:
    the first set of a terminal consists of the terminal, the others are
    empty. *)
Definition first_ready (g : Grammar) : Prop :=
  (forall o t, terminal g o = Some t -> t_first t = {[o]})
  /\ (forall rule, rule ∈ rules g -> r_first rule = ∅)
  /\ (forall nt, nt ∈ nts g -> nt_first nt = ∅).

(** What the loop does not change. *)
Definition first_frame (g0 g : Grammar) : Prop :=
  lits g = lits g0 /\ tokens g = tokens g0
  /\ rule_shape <$> rules g = rule_shape <$> rules g0
  /\ NT_empty <$> nts g = NT_empty <$> nts g0.

(** The invariant of the loop. *)
Definition first_sound (g0 g : Grammar) : Prop :=
  (forall j x, x ∈ rule_first_at g j -> first_at g0 j x)
  /\ (forall i x, x ∈ nt_first_at g i -> nt_first_of g0 i x).

(** The number of elements of all first sets. *)
Definition first_mass (g : Grammar) : nat :=
  (sum_list ((fun r => size (r_first r)) <$> rules g)
   + sum_list ((fun n => size (nt_first n)) <$> nts g))%nat.

(** Nothing is to be added for this rule. *)
Definition first_closed (g : Grammar) (rule : Rule) : Prop :=
  r_symbols rule <> [] ->
  (forall pre sym post,
      r_symbols rule = pre ++ sym :: post ->
      forallb (sym_empty g) pre = true ->
      sym_first g sym ⊆ rule_first_at g (r_index rule))
  /\ rule_first_at g (r_index rule) ⊆ nt_first_at g (r_nt rule).

(** [$accept: s $eof; s: t 'x'; t: ; t: 'y';] as [check()] has it when it
    begins to compute the first sets. *)
Definition prefix_grammar : Grammar :=
  mkGrammar
    [mkT KLit "" None true (Some 0%nat) {[0%nat]};
     mkT KLit "'x'" None true (Some 1%nat) {[1%nat]};
     mkT KLit "'y'" None true (Some 2%nat) {[2%nat]}] []
    [mkNT "" 0 (Some 3%nat) [0%nat] None true true ∅ ∅;
     mkNT "s" 1 (Some 4%nat) [1%nat] None true true ∅ ∅;
     mkNT "t" 2 (Some 5%nat) [2%nat; 3%nat] (Some true) true true ∅ ∅]
    [mkRule 0 [SNT 1; ST 0] 0 true true ∅ false None;
     mkRule 1 [SNT 2; ST 1] 1 true true ∅ false None;
     mkRule 2 [] 2 true false ∅ false None;
     mkRule 2 [ST 2] 3 true true ∅ false None] 0 0 [].

(** ** [Grammar.check]: the follow sets of non-terminals *)

(** [nt.follow] for the non-terminal with index [i]. *)
Definition nt_follow_at (g : Grammar) (i : nat) : gset nat :=
  default ∅ (nt_follow <$> nts g !! i).

(** The callback of [rule.symbols.reduceRight] in the loop that computes
    [follow], for the symbol [last]: the grammar, [changed], and the set
    that is passed on. *)
Definition follow_step (last : symbol) (acc : Grammar * bool * gset nat)
  : Grammar * bool * gset nat :=
  let '(g, changed, follow) := acc in
  match last with
  | SNT i =>
      let changed := changed || merges (nt_follow_at g i) follow in
      let g := with_nts g (alter (NT_add_follow follow) i (nts g)) in
      if sym_empty g last then (g, changed, sym_first g last ∪ follow)
      else (g, changed, sym_first g last)
  | ST _ => (g, changed, sym_first g last)
  end.

(** The callback of [this.rules.forEach]. *)
Definition follow_rule (gc : Grammar * bool) (rule : Rule) : Grammar * bool :=
  if (length (r_symbols rule) =? 0)%nat then gc
  else (foldr follow_step (gc.1, gc.2, nt_follow_at gc.1 (r_nt rule))
          (r_symbols rule)).1.

(** [do { changed = false; this.rules.forEach(...) } while (changed)];
    [None] when the fuel runs out. *)
Fixpoint follow_loop (fuel : nat) (g : Grammar) : option Grammar :=
  match fuel with
  | O => None
  | S fuel' =>
      let gc := foldl follow_rule (g, false) (rules g) in
      if gc.2 then follow_loop fuel' gc.1 else Some gc.1
  end.

(** *** What the follow sets are to be

    [follow_at g i x]: the terminal with the ordinal number [x] follows the
    non-terminal [i]: on a right-hand side it is in the first set of a
    symbol after [i], or it follows the non-terminal of the rule, and the
    symbols in between, or up to the end, have [empty] set. *)
Inductive follow_at (g : Grammar) : nat -> nat -> Prop :=
| follow_first j rule pre i mid sym post x :
    rules g !! j = Some rule ->
    r_symbols rule = pre ++ SNT i :: mid ++ sym :: post ->
    forallb (sym_empty g) mid = true -> x ∈ sym_first g sym ->
    follow_at g i x
| follow_last j rule pre i mid x :
    rules g !! j = Some rule ->
    r_symbols rule = pre ++ SNT i :: mid ->
    forallb (sym_empty g) mid = true -> follow_at g (r_nt rule) x ->
    follow_at g i x.

(** The first sets hold ordinal numbers of terminals. *)
Definition first_bounded (g : Grammar) : Prop :=
  forall sym x, x ∈ sym_first g sym -> (x < length (lits g ++ tokens g))%nat.

(** What the loop does not change. *)
Definition follow_frame (g0 g : Grammar) : Prop :=
  lits g = lits g0 /\ tokens g = tokens g0 /\ rules g = rules g0
  /\ (fun n => (NT_empty n, nt_first n)) <$> nts g
     = (fun n => (NT_empty n, nt_first n)) <$> nts g0.

(** The invariant of the loop. *)
Definition follow_sound (g0 g : Grammar) : Prop :=
  forall i x, x ∈ nt_follow_at g i -> follow_at g0 i x.

Definition follow_mass (g : Grammar) : nat :=
  sum_list ((fun n => size (nt_follow n)) <$> nts g).

(** The set passed on from the symbols [suf] at the end of a right-hand
    side of a rule of the non-terminal [a] holds nothing wrong, and all it
    has to hold. *)
Definition carried_sound (g0 : Grammar) (a : nat) (suf : list symbol)
    (f : gset nat) : Prop :=
  forall x, x ∈ f ->
    (exists mid sym post, suf = mid ++ sym :: post
       /\ forallb (sym_empty g0) mid = true /\ x ∈ sym_first g0 sym)
    \/ (forallb (sym_empty g0) suf = true /\ follow_at g0 a x).

Definition carried_full (g : Grammar) (a : nat) (suf : list symbol)
    (f : gset nat) : Prop :=
  (forall mid sym post, suf = mid ++ sym :: post ->
     forallb (sym_empty g) mid = true -> sym_first g sym ⊆ f)
  /\ (forallb (sym_empty g) suf = true -> nt_follow_at g a ⊆ f).

(** Nothing is to be added for the non-terminals of this rule. *)
Definition follow_closed (g : Grammar) (rule : Rule) : Prop :=
  forall pre i suf, r_symbols rule = pre ++ SNT i :: suf ->
    (forall mid sym post, suf = mid ++ sym :: post ->
       forallb (sym_empty g) mid = true -> sym_first g sym ⊆ nt_follow_at g i)
    /\ (forallb (sym_empty g) suf = true ->
          nt_follow_at g (r_nt rule) ⊆ nt_follow_at g i).

(** [prefix_grammar] with its first sets. *)
Definition prefix_ready : Grammar :=
  mkGrammar
    [mkT KLit "" None true (Some 0%nat) {[0%nat]};
     mkT KLit "'x'" None true (Some 1%nat) {[1%nat]};
     mkT KLit "'y'" None true (Some 2%nat) {[2%nat]}] []
    [mkNT "" 0 (Some 3%nat) [0%nat] None true true {[1%nat; 2%nat]} ∅;
     mkNT "s" 1 (Some 4%nat) [1%nat] None true true {[1%nat; 2%nat]} ∅;
     mkNT "t" 2 (Some 5%nat) [2%nat; 3%nat] (Some true) true true {[2%nat]} ∅]
    [mkRule 0 [SNT 1; ST 0] 0 true true {[1%nat; 2%nat]} false None;
     mkRule 1 [SNT 2; ST 1] 1 true true {[1%nat; 2%nat]} false None;
     mkRule 2 [] 2 true false ∅ false None;
     mkRule 2 [ST 2] 3 true true {[2%nat]} false None] 0 0 [].

(** ** The rest of [State.advance]: shifts, gotos and new states *)

(** [symbol.ord]: a terminal is known by its ordinal number, a non-terminal
    has one once [check()] has assigned it. *)
Definition symbol_ord (g : Grammar) (s : symbol) : option nat :=
  match s with
  | ST ord => Some ord
  | SNT i => nts g !! i ≫= nt_ord
  end.

(** [grammar.mark(rule, position)] for the rule with index [r]; [None] is
    the failed assertion.  The constructor of [Mark] sets [complete]. *)
Definition mark (g : Grammar) (r position : nat) : option Mark :=
  rule ← rules g !! r;
  if (position <=? length (r_symbols rule))%nat
  then Some (mkMark r position (position =? length (r_symbols rule))%nat)
  else None.

(** [mark.advance()] *)
Definition Mark_advance (g : Grammar) (m : Mark) : option Mark :=
  mark g (mark_rule m) (S (position m)).

(** [mark.equals(c)] *)
Definition Mark_equals (a c : Mark) : bool :=
  (mark_rule a =? mark_rule c)%nat && (position a =? position c)%nat.

(** [state.equals(core)] *)
Definition State_equals (st : State) (c : list Mark) : bool :=
  (core st =? length c)%nat
  && forallb (fun a => existsb (Mark_equals a) c) (take (core st) (marks st)).

(** [mark.rule.symbols[mark.position]] *)
Definition next_symbol (g : Grammar) (m : Mark) : option symbol :=
  rule ← rules g !! mark_rule m; r_symbols rule !! position m.

(** The loop of [grammar.state(core)] from the index [c] on: the marks with
    the closure added, and [messages].  [None]: a mark that is not complete
    has no symbol after it (a [TypeError]), a symbol has no ordinal number
    (the key would be [undefined]; [check()] assigns the numbers before it
    creates a state), or the fuel has run out. *)
Fixpoint closure (fuel : nat) (g : Grammar) (c : nat) (core : list Mark)
    (messages : gmap nat (option Message))
  : option (list Mark * gmap nat (option Message)) :=
  match fuel with
  | O => None
  | S fuel' =>
      match core !! c with
      | None => Some (core, messages)
      | Some m =>
          if complete m then closure fuel' g (S c) core messages
          else
            s ← next_symbol g m;
            ord ← symbol_ord g s;
            added ← match s with
                    | SNT i =>
                        if bool_decide (is_Some (messages !! ord)) then Some []
                        else nt ← nts g !! i;
                             mapM (fun r => mark g r 0) (nt_rules nt)
                    | ST _ => Some []
                    end;
            closure fuel' g (S c) (core ++ added) (<[ord := None]> messages)
      end
  end.

(** The loop ends: every rule of a non-terminal is added once at most. *)
Definition closure_fuel (g : Grammar) (core : list Mark) : nat :=
  S (length core + sum_list ((fun nt => length (nt_rules nt)) <$> nts g)).

(** [grammar.state(core)] *)
Definition state (g : Grammar) (core : list Mark) : option State :=
  '(marks, messages) ← closure (closure_fuel g core) g 0 core ∅;
  Some (mkState marks (length core) messages []).

(** [this.marks.forEach(...)] in the second loop of [State.advance]: the
    marks that have the symbol with the ordinal number [a] next are
    advanced and collected in [next], and [sym] is that symbol. *)
Fixpoint next_core (g : Grammar) (a : nat) (ms : list Mark) (next : list Mark)
    (sym : option symbol) : option (list Mark * option symbol) :=
  match ms with
  | [] => Some (next, sym)
  | m :: ms' =>
      if complete m then next_core g a ms' next sym
      else
        s ← next_symbol g m;
        if bool_decide (symbol_ord g s = Some a)
        then m' ← Mark_advance g m; next_core g a ms' (next ++ [m']) (Some s)
        else next_core g a ms' next sym
  end.

(** The index of the first state that [equals(next)], as
    [this.grammar.states.some(...)] finds it. *)
Definition find_state (states : list State) (next : list Mark) : option nat :=
  fst <$> list_find (fun st => State_equals st next = true) states.

(** [grammar.shift_or_goto(symbol, state)] *)
Definition shift_or_goto (sym : symbol) (s : nat) : Message :=
  mkMessage (match sym with ST _ => shift | SNT _ => goto end) sym (IState s).

(** [grammar.lit().ord]: the ordinal number of the literal with the empty
    name, [$eof], which the constructor has created.  (Without it [lit()]
    would create it now, with no ordinal number, to which no key is
    equal.) *)
Definition eof_ord (g : Grammar) : option nat :=
  list_find (fun t => t_name t = EmptyString) (lits g) ≫= fun it => t_ord it.2.

(** [grammar.accept()], where [a] is the ordinal number of [$eof]. *)
Definition accept_message (a : nat) : Message := mkMessage accept (ST a) INone.

(** [this.messages[a] = m] in the state with the number [n]. *)
Definition set_message (n a : nat) (m : Message) (states : list State)
  : list State :=
  alter (fun st => with_messages st (<[a := Some m]> (messages st))) n states.

(** The body of [for (let a in this.messages)] in [State.advance] for the
    state with the number [n]: an entry that is still [null] gets [accept]
    for [$eof], and else a shift or goto to the state with the core [next],
    which is created if no state has this core.  [None] is the failed
    assertion of [shift_or_goto()] when no mark is before the symbol, or one
    of the failures of [next_core] and [state]. *)
Definition fill_entry (n a : nat) (gs : Grammar * list State)
  : option (Grammar * list State) :=
  st ← gs.2 !! n;
  match messages st !! a with
  | Some None =>
      if bool_decide (eof_ord gs.1 = Some a) then
        match rules gs.1 with
        | [] => None
        | _ :: _ =>
            Some (with_rules gs.1 (alter (Rule_set_reduced (VBool true)) 0%nat (rules gs.1)),
                  set_message n a (accept_message a) gs.2)
        end
      else
        '(next, sym) ← next_core gs.1 a (marks st) [] None;
        sym ← sym;
        match find_state gs.2 next with
        | Some s => Some (gs.1, set_message n a (shift_or_goto sym s) gs.2)
        | None =>
            new ← state gs.1 next;
            Some (gs.1,
                  set_message n a (shift_or_goto sym (length gs.2)) gs.2 ++ [new])
        end
  | _ => Some gs
  end.

(** [for (let a in this.messages)] for the keys that are still to come. *)
Fixpoint fill_entries (n : nat) (keys : list nat) (gs : Grammar * list State)
  : option (Grammar * list State) :=
  match keys with
  | [] => Some gs
  | a :: keys' => gs ← fill_entry n a gs; fill_entries n keys' gs
  end.

(** [state.advance(stateNumber)] for [grammar.states[stateNumber]]: the
    grammar and its list of states afterwards. *)
Definition advance (stateNumber : nat) (gs : Grammar * list State)
  : option (Grammar * list State) :=
  st ← gs.2 !! stateNumber;
  let gst := fill_reduces stateNumber (gs.1, st) in
  fill_entries stateNumber (keys_ascending (dom (messages gst.2)))
    (gst.1, <[stateNumber := gst.2]> gs.2).

(** [for (let s = 0; s < this.states.length; ++ s) this.states[s].advance(s)]
    in [check()], from [s] on and as long as there is a state with a number
    below [stop]. *)
Fixpoint advance_states (fuel s stop : nat) (gs : Grammar * list State)
  : option (Grammar * list State) :=
  match fuel with
  | O => None
  | S fuel' =>
      if (s <? stop)%nat && (s <? length gs.2)%nat
      then gs ← advance s gs; advance_states fuel' (S s) stop gs
      else Some gs
  end.

(** [this.states.push(this.state([this.mark(this.rules[0], 0)]))] and the
    loop over the states, up to the state with the number [stop]. *)
Definition build_states (fuel stop : nat) (g : Grammar)
  : option (Grammar * list State) :=
  m ← mark g 0 0; st ← state g [m]; advance_states fuel 0 stop (g, [st]).

(** The part of [check()] between the ordinal numbers and the states:
    [setReached(this.rules[0])] and the loops for [finite], [first] and
    [follow].  The error messages in between are left out. *)
Definition analysis (fuel : nat) (g : Grammar) : option Grammar :=
  g ← setReached fuel g 0;
  g ← finite_loop fuel g;
  r ← first_loop fuel g;
  match r with
  | FirstOk g _ => follow_loop fuel g
  | FirstTypeError => None
  end.

(** A literal, a non-terminal and a rule once [check()] has completed rule
    zero and has assigned the ordinal numbers. *)
Definition T_of (name : string) (p : option prec) (ord : nat) : T :=
  mkT KLit name p true (Some ord) {[ord]}.

Definition NT_of (name : string) (index ord : nat) (rs : list nat) : NT :=
  mkNT name index (Some ord) rs None false false ∅ ∅.

Definition Rule_of (nt : nat) (ss : list symbol) (index : nat)
    (p : option rule_prec) : Rule :=
  mkRule nt ss index false false ∅ false p.

(** The token [$error]. *)
Definition error_token (ord : nat) : T :=
  mkT KToken "" None false (Some ord) {[ord]}.

(** [%left '+'; %left '*'; e: e '+' e; e: e '*' e; e: 'a';] at this
    point, and before the states are created. *)
Definition arith_start : Grammar :=
  mkGrammar
    [T_of "" None 0; T_of "'+'" (Some (Prec Left 0)) 1;
     T_of "'*'" (Some (Prec Left 1)) 2; T_of "'a'" None 3]
    [error_token 4]
    [NT_of "" 0 5 [0%nat]; NT_of "e" 1 6 [1%nat; 2%nat; 3%nat]]
    [Rule_of 0 [SNT 1; ST 0] 0 None;
     Rule_of 1 [SNT 1; ST 1; SNT 1] 1 (Some (RulePrec 1 Left 0));
     Rule_of 1 [SNT 1; ST 2; SNT 1] 2 (Some (RulePrec 2 Left 1));
     Rule_of 1 [ST 3] 3 None] 0 0 [].

Definition arith_grammar : Grammar :=
  default arith_start (analysis 20 arith_start).

(** [%nonassoc '<'; s: e; s: c '<' 'x'; e: e '<' e; e: 'a'; c: e '<' e;]
    in the same way; the non-terminals are [$accept], [e], [s] and [c]. *)
Definition nonassoc_start : Grammar :=
  mkGrammar
    [T_of "" None 0; T_of "'<'" (Some (Prec Nonassoc 0)) 1;
     T_of "'x'" None 2; T_of "'a'" None 3]
    [error_token 4]
    [NT_of "" 0 5 [0%nat]; NT_of "e" 1 6 [3%nat; 4%nat];
     NT_of "s" 2 7 [1%nat; 2%nat]; NT_of "c" 3 8 [5%nat]]
    [Rule_of 0 [SNT 2; ST 0] 0 None;
     Rule_of 2 [SNT 1] 1 None;
     Rule_of 2 [SNT 3; ST 1; ST 2] 2 (Some (RulePrec 1 Nonassoc 0));
     Rule_of 1 [SNT 1; ST 1; SNT 1] 3 (Some (RulePrec 1 Nonassoc 0));
     Rule_of 1 [ST 3] 4 None;
     Rule_of 3 [SNT 1; ST 1; SNT 1] 5 (Some (RulePrec 1 Nonassoc 0))] 0 0 [].

Definition nonassoc_grammar : Grammar :=
  default nonassoc_start (analysis 20 nonassoc_start).

(** [s: x; s: 'b'; x: s;] in the same way; the non-terminals are
    [$accept], [x] and [s]. *)
Definition cycle_start : Grammar :=
  mkGrammar
    [T_of "" None 0; T_of "'b'" None 1] [error_token 2]
    [NT_of "" 0 3 [0%nat]; NT_of "x" 1 4 [3%nat]; NT_of "s" 2 5 [1%nat; 2%nat]]
    [Rule_of 0 [SNT 2; ST 0] 0 None;
     Rule_of 2 [SNT 1] 1 None;
     Rule_of 2 [ST 1] 2 None;
     Rule_of 1 [SNT 2] 3 None] 0 0 [].

Definition cycle_grammar : Grammar :=
  default cycle_start (analysis 20 cycle_start).

(** ** What the resolution of a conflict is about *)

(** What the constructor, the factory methods and the beginning of
    [check()] have set up: [$eof] and rule zero exist, the symbols and the
    rules are in the inventories of the grammar, and the non-terminals have
    their ordinal numbers after those of the terminals. *)
Definition wf_tables (g : Grammar) : bool :=
  bool_decide (is_Some (eof_ord g))
  && negb (bool_decide (rules g = []))
  && forallb (fun rule =>
       forallb (fun s => match s with
                         | ST _ => true
                         | SNT i => (i <? length (nts g))%nat
                         end) (r_symbols rule)) (rules g)
  && forallb (fun nt => forallb (fun r => (r <? length (rules g))%nat) (nt_rules nt))
       (nts g)
  && bool_decide (nt_ord <$> nts g
                  = (fun i => Some (length (lits g ++ tokens g) + i)%nat)
                      <$> seq 0 (length (nts g))).

(** What [grammar.mark()] guarantees for a mark. *)
Definition wf_mark (g : Grammar) (m : Mark) : bool :=
  match rules g !! mark_rule m with
  | Some rule =>
      (position m <=? length (r_symbols rule))%nat
      && eqb (complete m) (position m =? length (r_symbols rule))%nat
  | None => false
  end.

(** The ordinal number of the symbol after the mark. *)
Definition next_ord (g : Grammar) (m : Mark) : option nat :=
  next_symbol g m ≫= symbol_ord g.

(** The mark is before the symbol with the ordinal number [a]. *)
Definition before (g : Grammar) (a : nat) (m : Mark) : bool :=
  negb (complete m) && bool_decide (next_ord g m = Some a).

(** What [grammar.state()] guarantees for a state: the marks are marks, and
    an entry of [messages] that is [null] belongs to the symbol after a
    mark. *)
Definition wf_state (g : Grammar) (st : State) : bool :=
  forallb (wf_mark g) (marks st)
  && forallb (fun am : nat * option Message =>
       match am.2 with
       | None => existsb (before g am.1) (marks st)
       | Some _ => true
       end) (map_to_list (messages st)).

(** The first loop of [State.advance] looks at [messages[t]] for the mark
    [m]: the mark is complete and [t] can follow its rule. *)
Definition can_reduce (g : Grammar) (t : nat) (m : Mark) : bool :=
  complete m
  && match rules g !! mark_rule m with
     | Some rule =>
         match nts g !! r_nt rule with
         | Some nt => bool_decide (t ∈ nt_follow nt)
         | None => false
         end
     | None => false
     end.

Definition on_terminal (t : nat) (c : conflict) : bool :=
  match c with
  | ShiftReduce _ t' _ | ReduceReduce _ t' _ _ => (t' =? t)%nat
  end.

Definition is_shift_reduce (c : conflict) : bool :=
  match c with ShiftReduce _ _ _ => true | ReduceReduce _ _ _ _ => false end.

(** The entry for the terminal [t] in the state [st] is a shift: to a state
    that has as its core the marks of [st] before [t], advanced, as
    [state.equals()] compares them.  For [$eof] the entry is [accept]. *)
Definition shift_entry (g : Grammar) (states : list State) (st : State)
    (t : nat) : Prop :=
  if bool_decide (eof_ord g = Some t)
  then messages st !! t = Some (Some (mkMessage accept (ST t) INone))
  else exists s target next,
         messages st !! t = Some (Some (mkMessage shift (ST t) (IState s)))
         /\ states !! s = Some target
         /\ next_core g t (marks st) [] None = Some (next, Some (ST t))
         /\ core target = length next
         /\ forall a, a ∈ take (core target) (marks target) ->
              exists b, b ∈ next /\ mark_rule b = mark_rule a
                        /\ position b = position a.

(** The entry for the symbol with the ordinal number [a] has been filled
    in by the second loop. *)
Definition filled (g : Grammar) (states : list State) (st : State) (a : nat)
  : Prop :=
  if bool_decide (eof_ord g = Some a)
  then messages st !! a = Some (Some (accept_message a))
  else exists s target next sym,
         messages st !! a = Some (Some (shift_or_goto sym s))
         /\ states !! s = Some target
         /\ next_core g a (marks st) [] None = Some (next, Some sym)
         /\ State_equals target next = true.

(** What [State.advance] does not change in the grammar. *)
Definition rule_core (r : Rule) : nat * list symbol * nat * option rule_prec :=
  (r_nt r, r_symbols r, r_index r, r_prec r).

Definition same_tables (g g' : Grammar) : Prop :=
  lits g' = lits g /\ tokens g' = tokens g /\ nts g' = nts g
  /\ rule_core <$> rules g' = rule_core <$> rules g.

(** The grammars and the states of the examples when the state with the
    marks [e: e '+' e .], [e: e . '+' e] and [e: e . '*' e], the state with
    the marks [e: e '<' e .], [c: e '<' e .] and [e: e . '<' e], and the
    state with the marks [$accept: s . $eof] and [x: s .] are to be
    advanced, and afterwards; the rules and the states in question. *)
Definition arith_rule : Rule :=
  mkRule 1 [SNT 1; ST 1; SNT 1] 1 true true {[3%nat]} false
    (Some (RulePrec 1 Left 0)).

Definition arith_state : State :=
  mkState [mkMark 1 3 true; mkMark 1 1 false; mkMark 2 1 false] 3
    {[1%nat := None; 2%nat := None]} [].

Definition nonassoc_rule : Rule :=
  mkRule 1 [SNT 1; ST 1; SNT 1] 3 true true {[3%nat]} false
    (Some (RulePrec 1 Nonassoc 0)).

Definition nonassoc_state : State :=
  mkState [mkMark 3 3 true; mkMark 5 3 true; mkMark 3 1 false] 3
    {[1%nat := None]} [].

Definition cycle_rule : Rule :=
  mkRule 1 [SNT 2] 3 true true {[1%nat]} false None.

Definition cycle_state : State :=
  mkState [mkMark 0 1 false; mkMark 3 1 true] 2 {[0%nat := None]} [].

Definition arith_before : Grammar * list State :=
  default (arith_grammar, []) (build_states 50 5 arith_grammar).

Definition nonassoc_before : Grammar * list State :=
  default (nonassoc_grammar, []) (build_states 50 7 nonassoc_grammar).

Definition nonassoc_after : Grammar * list State :=
  default (nonassoc_grammar, []) (advance 7 nonassoc_before).

Definition cycle_before : Grammar * list State :=
  default (cycle_grammar, []) (build_states 50 3 cycle_grammar).

Definition cycle_after : Grammar * list State :=
  default (cycle_grammar, []) (advance 3 cycle_before).

(** What the closure can still add to the marks: the rules of the
    non-terminals that have no entry in [messages]. *)
Definition closure_rest (ns : list NT) (messages : gmap nat (option Message))
  : nat :=
  sum_list ((fun nt => if bool_decide (is_Some (nt_ord nt ≫= (messages !!.)))
                       then 0%nat else length (nt_rules nt)) <$> ns).

(** What a step of the first loop of [State.advance] does not change, and
    the conflicts it reports; [on_t] are those for the terminal [t]. *)
Definition grows_by (t : nat) (on_t : list conflict) (gs gs' : Grammar * State)
  : Prop :=
  same_tables gs.1 gs'.1 /\ marks gs'.2 = marks gs.2 /\ core gs'.2 = core gs.2
  /\ (forall a, messages gs'.2 !! a = Some None -> messages gs.2 !! a = Some None)
  /\ exists new,
       errors gs'.2 = errors gs.2 ++ new
       /\ sr gs'.1 = (sr gs.1 + length (filter (fun c => is_shift_reduce c = true) new))%nat
       /\ filter (fun c => on_terminal t c = true) new = on_t.

(** What a step of the first loop does not change at all. *)
Definition steady (gs gs' : Grammar * State) : Prop :=
  same_tables gs.1 gs'.1 /\ marks gs'.2 = marks gs.2
  /\ forall a, messages gs'.2 !! a = Some None -> messages gs.2 !! a = Some None.

(** What a step of the second loop does not change. *)
Definition fills (n : nat) (gs gs' : Grammar * list State) : Prop :=
  same_tables gs.1 gs'.1 /\ sr gs'.1 = sr gs.1
  /\ forall s st, gs.2 !! s = Some st ->
       exists st', gs'.2 !! s = Some st' /\ marks st' = marks st
                   /\ core st' = core st /\ errors st' = errors st
                   /\ (s <> n -> st' = st).
(** A step of the first loop that leaves [messages[t]] alone. *)
Definition keeps (t : nat) (gs gs' : Grammar * State) : Prop :=
  grows_by t [] gs gs' /\ messages gs'.2 !! t = messages gs.2 !! t.

(** What the first loop makes of the entry [null] for the terminal [t],
    with the ordinal number [t], when the complete rule [rule] can be
    followed by it: no entry, [null], or the message to reduce. *)
Definition resolved (rule : Rule) (t : nat) (f : T) : option (option Message) :=
  match r_prec rule, t_prec f with
  | Some rp, Some fp =>
      if (level fp <? rp_level rp)%nat
      then Some (Some (mkMessage reduce (ST t) (IRule (r_index rule))))
      else if (rp_level rp <? level fp)%nat then Some None
      else match rp_assoc rp with
           | Left => Some (Some (mkMessage reduce (ST t) (IRule (r_index rule))))
           | Right => Some None
           | Nonassoc => None
           end
  | _, _ => Some None
  end.

(** The conflict that is reported with it. *)
Definition reported (n : nat) (rule : Rule) (t : nat) (f : T) : list conflict :=
  match r_prec rule, t_prec f with
  | Some _, Some _ => []
  | _, _ => [ShiftReduce n t (r_index rule)]
  end.

End BNF.

(* ===================================================================== *)
(** * [ebnf.js]: the grammar tree and its sets *)
(* ===================================================================== *)

Module EBNF.

(** ** The tree

    One type for the node classes; [instanceof] is a match on the
    constructor.  A [Rule] is an [Alt] that belongs to a non-terminal and is
    kept in [grammar.rules]. *)
Inductive node :=
| Lit (name : string)
| Token (name : string)
| NT (name : string)
| Seq (nodes : list node) (terminal : option string)
| Alt (seqs : list node)
| Opt (seqs : list node)
| Some_ (seqs : list node).

Record Rule := mkRule {
  rule_nt : string;
  rule_seqs : list node
}.

(** A literal or a token of the grammar with its [used] flag, and a
    precedence level with the names of its terminals. *)
Record Terminal := mkTerminal {
  term_name : string;
  term_used : bool
}.

Record Precedence := mkPrecedence {
  prec_assoc : BNF.assoc;
  prec_terminals : list string
}.

(** The grammar as the factory methods have built it: the literals and the
    tokens, the rules, the non-terminals, each with the index of its [rule]
    if it has one, and the precedence levels. *)
Record Grammar := mkGrammar {
  lits : list Terminal;
  tokens : list Terminal;
  rules : list Rule;
  nts : list (string * option nat);
  levels : list Precedence
}.

(** [nt.rule] of the non-terminal with that name. *)
Fixpoint assoc (name : string) (l : list (string * option nat)) : option nat :=
  match l with
  | [] => None
  | (x, r) :: l' => if String.eqb x name then r else assoc name l'
  end.

Definition nt_rule (g : Grammar) (name : string) : option nat :=
  assoc name (nts g).

Definition is_opt (n : node) : bool :=
  match n with Opt _ => true | _ => false end.

(** ** The sets of the nodes

    Every node object has its own [#expect] and [#follow].  A literal or a
    token is one object per name; a node of a rule is known by the index of
    the rule and the path that leads to it, child index first ([[]] is the
    rule itself). *)
Inductive id :=
| IdLit (name : string)
| IdToken (name : string)
| IdNode (rule : nat) (path : list nat).

#[global] Instance id_eq_dec : EqDecision id.
Proof. solve_decision. Defined.

#[global] Instance id_countable : Countable id.
Proof.
  refine (inj_countable'
    (fun i => match i with
              | IdLit n => inl n
              | IdToken n => inr (inl n)
              | IdNode r p => inr (inr (r, p))
              end)
    (fun x => match x with
              | inl n => IdLit n
              | inr (inl n) => IdToken n
              | inr (inr (r, p)) => IdNode r p
              end) _).
  by intros [].
Defined.

(** What [expect()] and [check()] report. *)
Inductive message :=
| AlreadyCalled
| NoPrecedences
| DuplicateRules
| UndefinedNTs (names : list string)
| LeftRecursive (names : list string)
| NotReached (names : list string)
| AmbiguousAlt (rule : string)
| AmbiguousOpt (rule : string) (overlap : gset string)
| AmbiguousSome (rule : string) (overlap : gset string)
| FoundAmbiguities.

(** The part of a grammar that the analysis changes: the [#expect] sets (a
    missing entry is the empty set), the [#follow] sets (a missing entry is
    [null]), [#recursed] and [#reached] of the rules, the error counter and
    what was logged. *)
Record state := mkState {
  expects : gmap id (gset string);
  follows : gmap id (gset string);
  recursed : gmap nat nat;
  reached : gset nat;
  errors : nat;
  log : list message
}.

Definition new_state (errors : nat) : state := mkState ∅ ∅ ∅ ∅ errors [].

Definition expect_of (st : state) (i : id) : gset string :=
  default ∅ (expects st !! i).

Definition recursed_of (st : state) (j : nat) : nat :=
  default 0%nat (recursed st !! j).

(** [this.#expect.import(increment)] *)
Definition import_expect (i : id) (increment : gset string) (st : state) : state :=
  mkState (<[i := expect_of st i ∪ increment]> (expects st)) (follows st)
          (recursed st) (reached st) (errors st) (log st).

(** [Node.follow(increment)], the setter. *)
Definition import_follow (i : id) (increment : gset string) (st : state) : state :=
  mkState (expects st) (<[i := default ∅ (follows st !! i) ∪ increment]> (follows st))
          (recursed st) (reached st) (errors st) (log st).

Definition set_recursed (j n : nat) (st : state) : state :=
  mkState (expects st) (follows st) (<[j := n]> (recursed st)) (reached st)
          (errors st) (log st).

Definition set_reached (j : nat) (st : state) : state :=
  mkState (expects st) (follows st) (recursed st) ({[j]} ∪ reached st)
          (errors st) (log st).

(** [grammar.error(...)]: counts, logs and returns the message. *)
Definition error (m : message) (st : state) : state :=
  mkState (expects st) (follows st) (recursed st) (reached st)
          (S (errors st)) (log st ++ [m]).

(** [grammar.message(...)]: logs only. *)
Definition say (m : message) (st : state) : state :=
  mkState (expects st) (follows st) (recursed st) (reached st)
          (errors st) (log st ++ [m]).

(** ** Results: a value, an exception, or not enough fuel *)

Inductive exn :=
| TypeError            (* a property of [null] or [undefined] is read *)
| SeqAllOptional.      (* [Error('Seq: all elements are optional')] *)

Inductive outcome (A : Type) :=
| Ok (a : A)
| Throw (e : exn)
| OutOfFuel.
Arguments Ok {A} a.
Arguments Throw {A} e.
Arguments OutOfFuel {A}.

#[global] Instance outcome_ret : MRet outcome := @Ok.
#[global] Instance outcome_bind : MBind outcome :=
  fun A B f m =>
    match m with
    | Ok a => f a
    | Throw e => Throw e
    | OutOfFuel => OutOfFuel
    end.

(** [set.length] is not zero. *)
Definition nonempty (s : gset string) : bool := negb (bool_decide (s = ∅)).

(** ** [shallow]: [expect] from left to right, as far as necessary *)

(** The callback of [this.nodes.some(...)] in [Seq.shallow]: each
    descendant is added until one is not an [Opt]. *)
Fixpoint seq_shallow (visit : state -> nat -> node -> outcome (state * gset string))
    (i : id) (st : state) (k : nat) (nodes : list node)
  : outcome (state * gset string) :=
  match nodes with
  | [] => Throw SeqAllOptional
  | n :: nodes' =>
      '(st, s) ← visit st k n;
      let st := import_expect i s st in
      if is_opt n then seq_shallow visit i st (S k) nodes'
      else Ok (st, expect_of st i)
  end.

(** [this.seqs.reduce((result, seq) => result.import(seq.shallow()), new Set())],
    and the same with [deep]. *)
Fixpoint alt_union (visit : state -> nat -> node -> outcome (state * gset string))
    (st : state) (k : nat) (acc : gset string) (seqs : list node)
  : outcome (state * gset string) :=
  match seqs with
  | [] => Ok (st, acc)
  | n :: seqs' =>
      '(st, s) ← visit st k n;
      alt_union visit st (S k) (acc ∪ s) seqs'
  end.

(** [Alt.shallow()], the getter; also [super.shallow()] in [Rule]. *)
Definition alt_shallow (visit : state -> nat -> node -> outcome (state * gset string))
    (i : id) (st : state) (seqs : list node) : outcome (state * gset string) :=
  if nonempty (expect_of st i) then Ok (st, expect_of st i)
  else
    '(st, acc) ← alt_union visit st 0 ∅ seqs;
    let st := import_expect i acc st in
    Ok (st, expect_of st i).

(** [node.shallow()] for the node [n] at path [p] of rule [r], and
    [rule.shallow()] for the rule with index [j]. *)
Fixpoint shallow (fuel : nat) (g : Grammar) (st : state) (r : nat)
    (p : list nat) (n : node) {struct fuel} : outcome (state * gset string) :=
  match fuel with
  | O => OutOfFuel
  | S fuel' =>
      match n with
      | Lit name | Token name => Ok (st, {[name]})
      | NT name =>
          match nt_rule g name with
          | Some j => rule_shallow fuel' g st j
          | None => Throw TypeError
          end
      | Seq nodes _ =>
          if nonempty (expect_of st (IdNode r p))
          then Ok (st, expect_of st (IdNode r p))
          else seq_shallow (fun st k n => shallow fuel' g st r (k :: p) n)
                 (IdNode r p) st 0 nodes
      | Alt seqs | Opt seqs | Some_ seqs =>
          alt_shallow (fun st k n => shallow fuel' g st r (k :: p) n)
            (IdNode r p) st seqs
      end
  end
with rule_shallow (fuel : nat) (g : Grammar) (st : state) (j : nat)
    {struct fuel} : outcome (state * gset string) :=
  match fuel with
  | O => OutOfFuel
  | S fuel' =>
      match rules g !! j with
      | None => Throw TypeError
      | Some rule =>
          (* [if (this.#recursed ++) return new Set()] *)
          let count := recursed_of st j in
          let st := set_recursed j (S count) st in
          if negb (count =? 0)%nat then Ok (st, ∅)
          else
            '(st, s) ← alt_shallow (fun st k n => shallow fuel' g st j [k] n)
                         (IdNode j []) st (rule_seqs rule);
            (* [this.shallow(...)], the setter *)
            let st := import_expect (IdNode j []) s st in
            let result := expect_of st (IdNode j []) in
            (* [finally { -- this.#recursed }] *)
            Ok (set_recursed j (recursed_of st j - 1) st, result)
      end
  end.

(** ** [deep]: [expect] everywhere, from right to left *)

(** [this.nodes.reduceRight(...)] in [Seq.deep]: the nodes are visited
    from the last to the first; an [Opt] adds to what is right of it, any
    other node replaces it. *)
Fixpoint seq_deep (visit : state -> nat -> node -> outcome (state * gset string))
    (st : state) (k : nat) (nodes : list node) : outcome (state * gset string) :=
  match nodes with
  | [] => Ok (st, ∅)
  | n :: nodes' =>
      '(st, after) ← seq_deep visit st (S k) nodes';
      '(st, s) ← visit st k n;
      Ok (st, if is_opt n then after ∪ s else s)
  end.

Fixpoint deep (fuel : nat) (g : Grammar) (st : state) (r : nat)
    (p : list nat) (n : node) {struct fuel} : outcome (state * gset string) :=
  match fuel with
  | O => OutOfFuel
  | S fuel' =>
      match n with
      | Lit name | Token name => Ok (st, {[name]})
      | NT name =>
          match nt_rule g name with
          | Some j => rule_deep fuel' g st j
          | None => Throw TypeError
          end
      | Seq nodes _ =>
          '(st, acc) ← seq_deep (fun st k n => deep fuel' g st r (k :: p) n)
                         st 0 nodes;
          let st := import_expect (IdNode r p) acc st in
          Ok (st, expect_of st (IdNode r p))
      | Alt seqs | Opt seqs | Some_ seqs =>
          '(st, acc) ← alt_union (fun st k n => deep fuel' g st r (k :: p) n)
                         st 0 ∅ seqs;
          let st := import_expect (IdNode r p) acc st in
          Ok (st, expect_of st (IdNode r p))
      end
  end
with rule_deep (fuel : nat) (g : Grammar) (st : state) (j : nat)
    {struct fuel} : outcome (state * gset string) :=
  match fuel with
  | O => OutOfFuel
  | S fuel' =>
      match rules g !! j with
      | None => Throw TypeError
      | Some rule =>
          if bool_decide (j ∈ reached st) then
            (* traversed before: [super.shallow()] *)
            alt_shallow (fun st k n => shallow fuel' g st j [k] n)
              (IdNode j []) st (rule_seqs rule)
          else
            let st := set_reached j st in
            '(st, acc) ← alt_union (fun st k n => deep fuel' g st j [k] n)
                           st 0 ∅ (rule_seqs rule);
            let st := import_expect (IdNode j []) acc st in
            Ok (st, expect_of st (IdNode j []))
      end
  end.

(** ** [follow], the setter *)

(** [node.expect]: a non-terminal asks its rule. *)
Definition node_expect (g : Grammar) (st : state) (r : nat) (p : list nat)
    (n : node) : outcome (gset string) :=
  match n with
  | Lit name | Token name => Ok {[name]}
  | NT name =>
      match nt_rule g name with
      | Some j => Ok (expect_of st (IdNode j []))
      | None => Throw TypeError
      end
  | Seq _ _ | Alt _ | Opt _ | Some_ _ => Ok (expect_of st (IdNode r p))
  end.

(** [this.nodes.reduceRight(...)] in [Seq.follow]: each descendant is set
    to what follows it; the one before it receives the descendant's
    [expect], and what follows if the descendant is an [Opt]. *)
Fixpoint seq_follow (visit : state -> nat -> node -> gset string -> outcome state)
    (expect : state -> nat -> node -> outcome (gset string))
    (st : state) (k : nat) (nodes : list node) (increment : gset string)
  : outcome (state * gset string) :=
  match nodes with
  | [] => Ok (st, increment)
  | n :: nodes' =>
      '(st, follow) ← seq_follow visit expect st (S k) nodes' increment;
      st ← visit st k n follow;
      e ← expect st k n;
      Ok (st, if is_opt n then e ∪ follow else e)
  end.

(** [this.seqs.forEach(seq => seq.follow(increment))] *)
Fixpoint alt_follow (visit : state -> nat -> node -> gset string -> outcome state)
    (st : state) (k : nat) (seqs : list node) (increment : gset string)
  : outcome state :=
  match seqs with
  | [] => Ok st
  | n :: seqs' =>
      st ← visit st k n increment;
      alt_follow visit st (S k) seqs' increment
  end.

Fixpoint follow (fuel : nat) (g : Grammar) (st : state) (r : nat)
    (p : list nat) (n : node) (increment : gset string) {struct fuel}
  : outcome state :=
  match fuel with
  | O => OutOfFuel
  | S fuel' =>
      match n with
      | Lit name => Ok (import_follow (IdLit name) increment st)
      | Token name => Ok (import_follow (IdToken name) increment st)
      | NT name =>
          match nt_rule g name with
          | None => Throw TypeError
          | Some j =>
              (* [if (!old || !old.includes(increment))] *)
              match follows st !! IdNode j [] with
              | Some old =>
                  if bool_decide (increment ⊆ old) then Ok st
                  else rule_follow fuel' g st j increment
              | None => rule_follow fuel' g st j increment
              end
          end
      | Seq nodes _ =>
          let st := import_follow (IdNode r p) increment st in
          '(st, _) ← seq_follow
                       (fun st k n inc => follow fuel' g st r (k :: p) n inc)
                       (fun st k n => node_expect g st r (k :: p) n)
                       st 0 nodes increment;
          Ok st
      | Alt seqs | Opt seqs =>
          let st := import_follow (IdNode r p) increment st in
          alt_follow (fun st k n inc => follow fuel' g st r (k :: p) n inc)
            st 0 seqs increment
      | Some_ seqs =>
          let st := import_follow (IdNode r p) increment st in
          let descendants := increment ∪ expect_of st (IdNode r p) in
          alt_follow (fun st k n inc => follow fuel' g st r (k :: p) n inc)
            st 0 seqs descendants
      end
  end
with rule_follow (fuel : nat) (g : Grammar) (st : state) (j : nat)
    (increment : gset string) {struct fuel} : outcome state :=
  match fuel with
  | O => OutOfFuel
  | S fuel' =>
      match rules g !! j with
      | None => Throw TypeError
      | Some rule =>
          let st := import_follow (IdNode j []) increment st in
          alt_follow (fun st k n inc => follow fuel' g st j [k] n inc)
            st 0 (rule_seqs rule) increment
      end
  end.

(** ** [check]: the ambiguity tests *)

(** [this.nodes.forEach(...)] in [Seq.check]: the last error of a
    descendant is kept. *)
Fixpoint seq_check (visit : state -> nat -> node -> outcome (state * option message))
    (st : state) (k : nat) (anyError : option message) (nodes : list node)
  : outcome (state * option message) :=
  match nodes with
  | [] => Ok (st, anyError)
  | n :: nodes' =>
      '(st, e) ← visit st k n;
      seq_check visit st (S k) (match e with Some _ => e | None => anyError end)
        nodes'
  end.

(** [this.seqs.reduce(...)] in [Alt.check]: the descendants are checked and
    the sizes of their [expect] sets are added up. *)
Fixpoint alt_sum (visit : state -> nat -> node -> outcome (state * option message))
    (expect : state -> nat -> node -> outcome (gset string))
    (st : state) (k : nat) (anyError : option message) (sum : nat)
    (seqs : list node) : outcome (state * option message * nat) :=
  match seqs with
  | [] => Ok (st, anyError, sum)
  | n :: seqs' =>
      '(st, e) ← visit st k n;
      s ← expect st k n;
      alt_sum visit expect st (S k)
        (match e with Some _ => e | None => anyError end) (sum + size s) seqs'
  end.

(** [Alt.check(error, name)] *)
Definition alt_check (visit : state -> nat -> node -> outcome (state * option message))
    (expect : state -> nat -> node -> outcome (gset string))
    (i : id) (name : string) (st : state) (seqs : list node)
  : outcome (state * option message) :=
  '(st, anyError, len) ← alt_sum visit expect st 0 None 0 seqs;
  if negb (size (expect_of st i) =? len)%nat
  then Ok (error (AmbiguousAlt name) st, Some (AmbiguousAlt name))
  else Ok (st, anyError).

(** [this.expect.overlap(this.follow())]: the keys of [expect] are looked up
    in the other set, which must not be [null] if there is a key. *)
Definition overlap_follow (st : state) (i : id) : outcome (gset string) :=
  match follows st !! i with
  | Some f => Ok (expect_of st i ∩ f)
  | None => if nonempty (expect_of st i) then Throw TypeError else Ok ∅
  end.

(** [Opt.check] and [Some.check] *)
Definition opt_check (visit : state -> nat -> node -> outcome (state * option message))
    (expect : state -> nat -> node -> outcome (gset string))
    (ambiguous : string -> gset string -> message)
    (i : id) (name : string) (st : state) (seqs : list node)
  : outcome (state * option message) :=
  '(st, anyError) ← alt_check visit expect i name st seqs;
  overlap ← overlap_follow st i;
  if nonempty overlap
  then Ok (error (ambiguous name overlap) st, Some (ambiguous name overlap))
  else Ok (st, anyError).

(** [node.check(error, name)] for the node [n] at path [p] of rule [r]. *)
Fixpoint check_node (g : Grammar) (name : string) (r : nat) (n : node)
    (p : list nat) (st : state) {struct n} : outcome (state * option message) :=
  match n with
  | Lit _ | Token _ | NT _ => Ok (st, None)
  | Seq nodes _ =>
      seq_check (fun st k n => check_node g name r n (k :: p) st) st 0 None nodes
  | Alt seqs =>
      alt_check (fun st k n => check_node g name r n (k :: p) st)
        (fun st k n => node_expect g st r (k :: p) n) (IdNode r p) name st seqs
  | Opt seqs =>
      opt_check (fun st k n => check_node g name r n (k :: p) st)
        (fun st k n => node_expect g st r (k :: p) n) AmbiguousOpt
        (IdNode r p) name st seqs
  | Some_ seqs =>
      opt_check (fun st k n => check_node g name r n (k :: p) st)
        (fun st k n => node_expect g st r (k :: p) n) AmbiguousSome
        (IdNode r p) name st seqs
  end.

(** ** [Grammar.expect()] and [Grammar.check()] *)

(** [this.rules.forEach(rule => rule.shallow())] *)
Fixpoint shallow_rules (fuel : nat) (g : Grammar) (st : state) (j : nat)
    (rs : list Rule) : outcome state :=
  match rs with
  | [] => Ok st
  | _ :: rs' =>
      '(st, _) ← rule_shallow fuel g st j;
      shallow_rules fuel g st (S j) rs'
  end.

(** The names of the rules, by index, that a test selects. *)
Definition rule_names (g : Grammar) (test : nat -> bool) : list string :=
  (fun jr => rule_nt jr.2) <$> filter (fun jr => test jr.1 = true) (imap pair (rules g)).

(** [grammar.expect()]: the new state and the error message, if any. *)
Definition expect (fuel : nat) (g : Grammar) (st : state)
  : outcome (state * option message) :=
  match rules g with
  | [] => Throw TypeError
  | _ :: _ =>
      let fail m := Ok (error m st, Some m) in
      if nonempty (expect_of st (IdNode 0 [])) then fail AlreadyCalled
      else if negb (length (levels g) =? 0)%nat then fail NoPrecedences
      else if (length (nts g) <? length (rules g))%nat then fail DuplicateRules
      else if (length (rules g) <? length (nts g))%nat then
        fail (UndefinedNTs (fst <$> filter (fun nr => nr.2 = None) (nts g)))
      else
        st ← shallow_rules fuel g st 0 (rules g);
        let bad := rule_names g (fun j => negb (recursed_of st j =? 0)%nat) in
        if negb (bool_decide (bad = [])) then
          Ok (error (LeftRecursive bad) st, Some (LeftRecursive bad))
        else
          '(st, _) ← rule_deep fuel g st 0;
          let bad := rule_names g (fun j => negb (bool_decide (j ∈ reached st))) in
          if negb (bool_decide (bad = [])) then
            Ok (error (NotReached bad) st, Some (NotReached bad))
          else Ok (st, None)
  end.

(** [this.rules.reduce((errors, rule) => rule.check(...) ? ++ errors : errors, 0)] *)
Fixpoint check_rules (g : Grammar) (st : state) (j count : nat)
    (rs : list Rule) : outcome (state * nat) :=
  match rs with
  | [] => Ok (st, count)
  | rule :: rs' =>
      '(st, e) ← check_node g (rule_nt rule) j (Alt (rule_seqs rule)) [] st;
      check_rules g st (S j) (match e with Some _ => S count | None => count end) rs'
  end.

(** [grammar.check()] *)
Definition check (fuel : nat) (g : Grammar) (st : state)
  : outcome (state * option message) :=
  match rules g with
  | [] => Throw TypeError
  | _ :: _ =>
      '(st, e) ← (if nonempty (expect_of st (IdNode 0 [])) then Ok (st, None)
                  else expect fuel g st);
      match e with
      | Some m => Ok (st, Some m)
      | None =>
          st ← match follows st !! IdNode 0 [] with
               | None => rule_follow fuel g st 0 ∅
               | Some _ => Ok st
               end;
          if negb (errors st =? 0)%nat then Ok (st, None)
          else
            '(st, count) ← check_rules g st 0 0 (rules g);
            if negb (count =? 0)%nat
            then Ok (say FoundAmbiguities st, Some FoundAmbiguities)
            else Ok (st, None)
      end
  end.

(** ** What the factory methods guarantee, and left recursion *)

Definition is_seq (n : node) : bool :=
  match n with Seq _ _ => true | _ => false end.

(** [n instanceof Base.Symbol || n instanceof Opt || n instanceof Some] *)
Definition is_item (n : node) : bool :=
  match n with
  | Lit _ | Token _ | NT _ | Opt _ | Some_ _ => true
  | Seq _ _ | Alt _ => false
  end.

(** The assertions of [seq()], [alt()], [opt()], [some()] and [rule()]: a
    sequence is a non-empty list of symbols, [Opt] and [Some], not all of
    them [Opt]; alternatives are a non-empty list of sequences. *)
Fixpoint wf (n : node) : bool :=
  match n with
  | Lit _ | Token _ | NT _ => true
  | Seq nodes _ =>
      forallb is_item nodes && existsb (fun n => negb (is_opt n)) nodes
      && forallb wf nodes
  | Alt seqs | Opt seqs | Some_ seqs =>
      negb (bool_decide (seqs = [])) && forallb is_seq seqs && forallb wf seqs
  end.

Definition wf_grammar (g : Grammar) : bool :=
  forallb (fun rule => wf (Alt (rule_seqs rule))) (rules g).

(** The descendants of a node, and the node at a path (child index
    first). *)
Definition kids (n : node) : list node :=
  match n with
  | Lit _ | Token _ | NT _ => []
  | Seq nodes _ => nodes
  | Alt seqs | Opt seqs | Some_ seqs => seqs
  end.

Fixpoint node_at_path (root : node) (p : list nat) : option node :=
  match p with
  | [] => Some root
  | k :: p' =>
      match node_at_path root p' with
      | Some n => kids n !! k
      | None => None
      end
  end.

Definition node_at (g : Grammar) (r : nat) (p : list nat) : option node :=
  match rules g !! r with
  | Some rule => node_at_path (Alt (rule_seqs rule)) p
  | None => None
  end.

(** The nodes with sets of their own that are computed. *)
Definition is_container (n : node) : bool :=
  match n with
  | Lit _ | Token _ | NT _ => false
  | Seq _ _ | Alt _ | Opt _ | Some_ _ => true
  end.

(** The non-terminals a phrase of the node can begin with: in a sequence,
    those of the descendants up to the first that is not optional. *)
Fixpoint heads (n : node) : list string :=
  match n with
  | Lit _ | Token _ => []
  | NT name => [name]
  | Seq nodes _ =>
      (fix leading (nodes : list node) : list string :=
         match nodes with
         | [] => []
         | n :: nodes' =>
             heads n ++ (if is_opt n then leading nodes' else [])
         end) nodes
  | Alt seqs | Opt seqs | Some_ seqs => flat_map heads seqs
  end.

(** Rule [i] can begin with the non-terminal of rule [j]. *)
Definition begins_with (g : Grammar) (i j : nat) : Prop :=
  exists rule name,
    rules g !! i = Some rule
    /\ name ∈ heads (Alt (rule_seqs rule))
    /\ nt_rule g name = Some j.


(** ** Invariants of the analysis *)

(** The state only grows: the [expect] sets and the counters do, the rest
    stays. *)
Definition grows (st st' : state) : Prop :=
  (forall i, expect_of st i ⊆ expect_of st' i)
  /\ (forall j, (recursed_of st j <= recursed_of st' j)%nat)
  /\ follows st' = follows st
  /\ reached st ⊆ reached st'
  /\ errors st' = errors st
  /\ log st' = log st.

(** No rule can begin with itself through rule [j]. *)
Definition safe (g : Grammar) (j : nat) : Prop :=
  Acc (fun y x => begins_with g x y) j.

Definition heads_safe (g : Grammar) (n : node) : Prop :=
  forall name, name ∈ heads n -> exists j, nt_rule g name = Some j /\ safe g j.

(** Some rule counts more nested calls in [st'] than in [st]. *)
Definition marked (g : Grammar) (st st' : state) : Prop :=
  exists k, (k < length (rules g))%nat
    /\ (recursed_of st k < recursed_of st' k)%nat.

(** The path [p'] leads to the node at [p] or into it. *)
Definition below (p p' : list nat) : Prop := exists q, p' = q ++ p.

(** From [st] to [st'] the state grows, and of the rules that are being
    computed only the nodes at or below [p] in rule [r] change. *)
Definition frame (st st' : state) (r : nat) (p : list nat) : Prop :=
  grows st st'
  /\ forall r' p', (1 <= recursed_of st r')%nat ->
       ~ (r' = r /\ below p p') ->
       expect_of st' (IdNode r' p') = expect_of st (IdNode r' p').

Definition frame_rule (st st' : state) : Prop :=
  grows st st'
  /\ forall r' p', (1 <= recursed_of st r')%nat ->
       expect_of st' (IdNode r' p') = expect_of st (IdNode r' p').

(** Nothing has been computed at or below [p] in rule [r]. *)
Definition blank (st : state) (r : nat) (p : list nat) : Prop :=
  forall p', below p p' -> expect_of st (IdNode r p') = ∅.

(** Of a rule that is not being computed either nothing is known, or its
    [expect] is and the rule is safe. *)
Definition settled (g : Grammar) (st : state) : Prop :=
  forall r, (r < length (rules g))%nat -> recursed_of st r = 0%nat ->
    (expect_of st (IdNode r []) = ∅ -> blank st r [])
    /\ (expect_of st (IdNode r []) <> ∅ -> safe g r).

(** What an [Alt], [Opt] or [Some] expects, one of its alternatives
    expects. *)
Definition covered (g : Grammar) (st : state) : Prop :=
  forall r p n,
    node_at g r p = Some n -> is_container n = true -> is_seq n = false ->
    forall x, x ∈ expect_of st (IdNode r p) ->
      exists k c, kids n !! k = Some c /\ x ∈ expect_of st (IdNode r (k :: p)).

(** [node.follow()], the getter, with the empty set for [null]. *)
Definition follow_of (st : state) (i : id) : gset string :=
  default ∅ (follows st !! i).


(** [Opt] and [Some] *)
Definition is_optional (n : node) : bool :=
  match n with Opt _ | Some_ _ => true | _ => false end.


(** The [expect] sets of the alternatives of the node at [p] in rule
    [r]. *)
Definition alternatives (st : state) (r : nat) (p : list nat) (n : node)
  : list (gset string) :=
  imap (fun k _ => expect_of st (IdNode r (k :: p))) (kids n).

(** The tests of [Alt.check], [Opt.check] and [Some.check] at one node. *)
Definition passes (st : state) (r : nat) (p : list nat) (n : node) : Prop :=
  (is_container n = true -> is_seq n = false ->
     size (expect_of st (IdNode r p)) = sum_list (size <$> alternatives st r p n))
  /\ (is_optional n = true ->
      expect_of st (IdNode r p) ∩ follow_of st (IdNode r p) = ∅).

Definition same_sets (st st' : state) : Prop :=
  expects st' = expects st /\ follows st' = follows st.

(** What [check] of a node promises: only the error counter and the log
    change, and without an error message nothing changes and the tests pass
    at the node and in it. *)
Definition check_promise (g : Grammar) (name : string) (r : nat) (n : node)
  : Prop :=
  forall p st st' e,
    wf n = true -> check_node g name r n p st = Ok (st', e) ->
    same_sets st st'
    /\ (e = None ->
        st' = st
        /\ forall q n', node_at_path n q = Some n' -> passes st r (q ++ p) n').

(** A grammar that has not been analysed. *)
Definition fresh (st : state) : Prop :=
  expects st = ∅ /\ recursed st = ∅.


(** ** Grammars for the examples

    [list: sum [{ ',' sum }]; sum: Number [{ '+' Number }];], the ambiguous
    [s: 'a' | 'a' 'b';] and the left-recursive [a: b 'x' | 'y'; b: a 'z';]. *)
Definition list_grammar : Grammar :=
  mkGrammar
    [mkTerminal "','" true; mkTerminal "'+'" true]
    [mkTerminal "Number" true]
    [mkRule "list"
       [Seq [NT "sum";
             Opt [Seq [Some_ [Seq [Lit "','"; NT "sum"] None]] None]] None];
     mkRule "sum"
       [Seq [Token "Number";
             Opt [Seq [Some_ [Seq [Lit "'+'"; Token "Number"] None]] None]] None]]
    [("list", Some 0%nat); ("sum", Some 1%nat)] [].



(** The state in which [check()] leaves the first grammar, and the second
    one if an error has been counted before. *)
Definition list_checked : state :=
  match check 20 list_grammar (new_state 0) with
  | Ok (st, _) => st
  | _ => new_state 0
  end.



Definition left_recursive_grammar : Grammar :=
  mkGrammar
    [mkTerminal "'x'" true; mkTerminal "'y'" true; mkTerminal "'z'" true] []
    [mkRule "a" [Seq [NT "b"; Lit "'x'"] None; Seq [Lit "'y'"] None];
     mkRule "b" [Seq [NT "a"; Lit "'z'"] None]]
    [("a", Some 0%nat); ("b", Some 1%nat)] [].

(** ** Reports of left recursion *)

(** A rule whose counter is raised begins with itself, or is one of the
    rules [via] that are being computed. *)
Definition entered (g : Grammar) (via : nat -> Prop) (st : state) : Prop :=
  forall k, (1 <= recursed_of st k)%nat -> tc (begins_with g) k k \/ via k.

(** Only counters of rules that begin with themselves differ. *)
Definition raised (g : Grammar) (st st' : state) : Prop :=
  forall k, recursed_of st' k <> recursed_of st k -> tc (begins_with g) k k.

(** The non-terminals a phrase of [n] can begin with are such of rule [r]. *)
Definition leads (g : Grammar) (r : nat) (n : node) : Prop :=
  forall name j, name ∈ heads n -> nt_rule g name = Some j -> begins_with g r j.

(** [s: 'a' [ 'b' ];] and the states in which [expect()] and [check()]
    leave it. *)
Definition small_grammar : Grammar :=
  mkGrammar
    [mkTerminal "'a'" true; mkTerminal "'b'" true] []
    [mkRule "s" [Seq [Lit "'a'"; Opt [Seq [Lit "'b'"] None]] None]]
    [("s", Some 0%nat)] [].

Definition small_state : state :=
  match expect 8 small_grammar (new_state 0) with
  | Ok (st, _) => st
  | _ => new_state 0
  end.

Definition small_checked : state :=
  match check 8 small_grammar (new_state 0) with
  | Ok (st, _) => st
  | _ => new_state 0
  end.

(** [a: 'x' b; b: [ c ] 'y'; c: 'z' { a };], where [b] is reached from
    [a], [c] only from [b] and [a] again from [c], and the state in which
    [expect()] leaves it. *)
Definition chain_grammar : Grammar :=
  mkGrammar
    [mkTerminal "'x'" true; mkTerminal "'y'" true; mkTerminal "'z'" true] []
    [mkRule "a" [Seq [Lit "'x'"; NT "b"] None];
     mkRule "b" [Seq [Opt [Seq [NT "c"] None]; Lit "'y'"] None];
     mkRule "c" [Seq [Lit "'z'"; Some_ [Seq [NT "a"] None]] None]]
    [("a", Some 0%nat); ("b", Some 1%nat); ("c", Some 2%nat)] [].

Definition chain_state : state :=
  match expect 20 chain_grammar (new_state 0) with
  | Ok (st, _) => st
  | _ => new_state 0
  end.

(** The state in which [expect()] leaves the left-recursive grammar. *)
Definition left_recursive_state : state :=
  match expect 20 left_recursive_grammar (new_state 0) with
  | Ok (st, _) => st
  | _ => new_state 0
  end.

(** ** Rules that are reached *)

(** The non-terminals a node mentions. *)
Fixpoint refs (n : node) : list string :=
  match n with
  | Lit _ | Token _ => []
  | NT name => [name]
  | Seq nodes _ => flat_map refs nodes
  | Alt seqs | Opt seqs | Some_ seqs => flat_map refs seqs
  end.

(** Rule [i] mentions the non-terminal of rule [j]. *)
Definition refers (g : Grammar) (i j : nat) : Prop :=
  exists rule name,
    rules g !! i = Some rule
    /\ name ∈ refs (Alt (rule_seqs rule))
    /\ nt_rule g name = Some j.

(** The rules of the non-terminals a node mentions. *)
Definition targets (g : Grammar) (n : node) (j : nat) : Prop :=
  exists name, name ∈ refs n /\ nt_rule g name = Some j.

(** What a reached rule mentions is reached, but for the rules in [busy],
    which are being traversed. *)
Definition closed_but (g : Grammar) (busy : gset nat) (st : state) : Prop :=
  forall k k', k ∈ reached st -> k ∉ busy -> refers g k k' -> k' ∈ reached st.

(** What a traversal by [deep] towards the rules [from] does to the
    [reached] flags. *)
Definition visits (g : Grammar) (busy : gset nat) (from : nat -> Prop)
    (st st' : state) : Prop :=
  reached st ⊆ reached st'
  /\ (closed_but g busy st -> closed_but g busy st')
  /\ (forall j, from j -> j ∈ reached st')
  /\ (forall k, k ∈ reached st' ->
        k ∈ reached st \/ exists j, from j /\ rtc (refers g) j k).

(** [a: 'x'; b: 'y';], where [b] is not reached, and the state in which
    [expect()] leaves it. *)
Definition unreached_grammar : Grammar :=
  mkGrammar
    [mkTerminal "'x'" true; mkTerminal "'y'" true] []
    [mkRule "a" [Seq [Lit "'x'"] None]; mkRule "b" [Seq [Lit "'y'"] None]]
    [("a", Some 0%nat); ("b", Some 1%nat)] [].

Definition unreached_state : state :=
  match expect 20 unreached_grammar (new_state 0) with
  | Ok (st, _) => st
  | _ => new_state 0
  end.

(** ** The terminals at the beginning of a node

    [first g n x]: by the structure of the grammar the terminal [x] stands
    at the beginning of the node [n].  A literal or a token has its own
    name there; a non-terminal has what its rule has; a sequence has what
    one of its elements has before which there are only [Opt]; a rule, an
    [Alt], an [Opt] and a [Some] have what one of their alternatives has.
    Whether a phrase of the node exists is not asked. *)
Inductive first (g : Grammar) : node -> string -> Prop :=
| first_lit name : first g (Lit name) name
| first_token name : first g (Token name) name
| first_nt name j rule x :
    nt_rule g name = Some j -> rules g !! j = Some rule ->
    first g (Alt (rule_seqs rule)) x -> first g (NT name) x
| first_seq nodes t m n x :
    nodes !! m = Some n ->
    (forall m', (m' < m)%nat -> exists n', nodes !! m' = Some n' /\ is_opt n' = true) ->
    first g n x -> first g (Seq nodes t) x
| first_alt n k c x :
    is_container n = true -> is_seq n = false ->
    kids n !! k = Some c -> first g c x -> first g n x.

(** What a node expects stands at its beginning. *)
Definition sound (g : Grammar) (st : state) : Prop :=
  forall r p n x,
    node_at g r p = Some n -> x ∈ expect_of st (IdNode r p) -> first g n x.

(** Of a rule that is not being computed the [expect] set, once it is not
    empty, has every terminal that stands at the beginning of the rule. *)
Definition full (g : Grammar) (st : state) : Prop :=
  forall r rule, rules g !! r = Some rule -> recursed_of st r = 0%nat ->
    expect_of st (IdNode r []) <> ∅ ->
    forall x, first g (Alt (rule_seqs rule)) x -> x ∈ expect_of st (IdNode r []).

(** The [expect] set of every rule is complete. *)
Definition roots (g : Grammar) (st : state) : Prop :=
  forall j rule x, rules g !! j = Some rule ->
    first g (Alt (rule_seqs rule)) x -> x ∈ expect_of st (IdNode j []).

(** The [expect] sets at and below [p] in rule [r] are complete. *)
Definition below_complete (g : Grammar) (st : state) (r : nat) (p : list nat)
  : Prop :=
  forall p' n, below p p' -> node_at g r p' = Some n -> is_container n = true ->
    forall x, first g n x -> x ∈ expect_of st (IdNode r p').

(** The reached rules are complete throughout, but for the rules in
    [busy], which are being traversed. *)
Definition done_but (g : Grammar) (busy : gset nat) (st : state) : Prop :=
  forall k, k ∈ reached st -> k ∉ busy -> below_complete g st k [].

(** ** The parser

    An element of the tokenized input, as [Parser] reads it: the terminal
    [t] is known by its name, [None] is [null], the mark of an illegal
    character sequence. *)
Record Tuple := mkTuple {
  tuple_lineno : nat;
  tuple_t : option string;
  tuple_value : string
}.

(** [Parser]: [tuples] may end with [null], the end of input; [p_errors]
    counts the illegal character sequences that [next] reports.  (What is
    logged is left out, and so is what the actions add to the error counter
    of the grammar.) *)
Record Parser := mkParser {
  tuples : list (option Tuple);
  index : Z;
  ruleStack : list string;
  p_errors : nat
}.

(** [parser.current], [tuples[index]]: [None] is [null] or [undefined]. *)
Definition current (ps : Parser) : option Tuple :=
  if 0 <=? index ps then default None (tuples ps !! Z.to_nat (index ps)) else None.

(** What recognition can throw.  (The state in which an exception leaves
    the parser is not modelled, and neither are the traces.) *)
Inductive parse_exn :=
| NoMoreInput              (* ['no more input'] *)
| IndexOutOfBounds         (* the assertion of [next] *)
| NullProperty             (* a property of [null] or [undefined] is read *)
| SeqExpects (r : nat) (p : list nat)  (* ['in sequence, ... expects ...'] *)
| AltExpects               (* the assertion of [Alt.parse] *)
| StartExpects             (* the start rule does not expect the first tuple *)
| TooMuchInput
| RequiresExpect
| ActionFailed.            (* thrown by an action *)

Inductive presult (A : Type) :=
| PReturn (a : A)
| PThrow (e : parse_exn)
| PFuel.
Arguments PReturn {A} a.
Arguments PThrow {A} e.
Arguments PFuel {A}.

#[global] Instance presult_ret : MRet presult := @PReturn.
#[global] Instance presult_bind : MBind presult :=
  fun A B f m =>
    match m with
    | PReturn a => f a
    | PThrow e => PThrow e
    | PFuel => PFuel
    end.

Definition lift {A} (o : outcome A) : presult A :=
  match o with
  | Ok a => PReturn a
  | Throw _ => PThrow NullProperty
  | OutOfFuel => PFuel
  end.

(** The loop of [next(caller)]; [report] is true in the first round.  The
    index moves on in every round, so the number of tuples and one is
    enough fuel. *)
Fixpoint next_loop (fuel : nat) (report : bool) (ps : Parser) : presult Parser :=
  match fuel with
  | O => PFuel
  | S fuel' =>
      let len := Z.of_nat (length (tuples ps)) in
      (* [switch (this.index)] *)
      ps ← (if index ps =? len then PThrow NoMoreInput
            else if index ps =? len - 1 then
              match current ps with
              | Some _ =>
                  PReturn (mkParser (tuples ps ++ [None]) (index ps) (ruleStack ps)
                             (p_errors ps))
              | None => PThrow NoMoreInput
              end
            else if index ps <=? len then PReturn ps
            else PThrow IndexOutOfBounds);
      (* [++ this.#index] *)
      let ps := mkParser (tuples ps) (index ps + 1) (ruleStack ps) (p_errors ps) in
      match current ps with
      | None => PReturn ps
      | Some tu =>
          match tuple_t tu with
          | Some _ => PReturn ps
          | None =>
              (* [if (report) this.error('illegal input character')] *)
              next_loop fuel' false
                (if report
                 then mkParser (tuples ps) (index ps) (ruleStack ps) (S (p_errors ps))
                 else ps)
          end
      end
  end.

Definition next (ps : Parser) : presult Parser :=
  next_loop (S (length (tuples ps))) true ps.

(** The properties every object inherits from [Object.prototype]: for
    these names [name in set] is true whatever the set is. *)
Definition inherited (name : string) : bool :=
  bool_decide (name ∈ ["constructor"; "hasOwnProperty"; "isPrototypeOf";
                       "propertyIsEnumerable"; "toLocaleString"; "toString";
                       "valueOf"; "__proto__"; "__defineGetter__";
                       "__defineSetter__"; "__lookupGetter__";
                       "__lookupSetter__"]%string).

(** [set.match(tuple)]: [tuple.t.name in this.set] *)
Definition set_match (s : gset string) (cur : option Tuple) : presult bool :=
  match cur with
  | None => PReturn false
  | Some tu =>
      match tuple_t tu with
      | Some name => PReturn (bool_decide (name ∈ s) || inherited name)
      | None => PThrow NullProperty
      end
  end.

(** [Node.parse], of a literal or a token. *)
Definition terminal_parse (ps : Parser) : presult (Parser * Js.value) :=
  match current ps with
  | None => PThrow NullProperty
  | Some tu =>
      ps ← next ps;
      PReturn (ps, Js.VStr (tuple_value tu))
  end.

(** [this.nodes.reduce(...)] in [Seq.parse] *)
Fixpoint seq_parse (visit : Parser -> nat -> node -> presult (Parser * Js.value))
    (expect : nat -> node -> presult (gset string)) (r : nat) (p : list nat)
    (ps : Parser) (k : nat) (result : list Js.value) (nodes : list node)
  : presult (Parser * list Js.value) :=
  match nodes with
  | [] => PReturn (ps, result)
  | n :: nodes' =>
      e ← expect k n;
      m ← set_match e (current ps);
      if m : bool then
        '(ps, v) ← visit ps k n;
        seq_parse visit expect r p ps (S k) (result ++ [v]) nodes'
      else if is_opt n then
        seq_parse visit expect r p ps (S k) (result ++ [Js.VNull]) nodes'
      else PThrow (SeqExpects r (k :: p))
  end.

(** [this.seqs.find(seq => seq.expect.match(parser.current))] *)
Fixpoint alt_find (expect : nat -> node -> presult (gset string))
    (cur : option Tuple) (k : nat) (seqs : list node)
  : presult (option (nat * node)) :=
  match seqs with
  | [] => PReturn None
  | n :: seqs' =>
      e ← expect k n;
      m ← set_match e cur;
      if m : bool then PReturn (Some (k, n)) else alt_find expect cur (S k) seqs'
  end.

(** [Alt.parse] *)
Definition alt_parse (visit : Parser -> nat -> node -> presult (Parser * Js.value))
    (expect : nat -> node -> presult (gset string)) (ps : Parser)
    (seqs : list node) : presult (Parser * Js.value) :=
  found ← alt_find expect (current ps) 0 seqs;
  match found with
  | Some (k, n) => visit ps k n
  | None => PThrow AltExpects
  end.

(** The loop of [Some.parse]:
    [while (parser.current && this.expect.match(parser.current))]. *)
Fixpoint some_loop (iter : nat) (again : Parser -> presult (Parser * Js.value))
    (own : gset string) (ps : Parser) (result : list Js.value)
  : presult (Parser * list Js.value) :=
  m ← match current ps with
      | Some _ => set_match own (current ps)
      | None => PReturn false
      end;
  if m : bool then
    match iter with
    | O => PFuel
    | S iter' =>
        '(ps, v) ← again ps;
        some_loop iter' again own ps (result ++ [v])
    end
  else PReturn (ps, result).

(** [node.parse(parser)] for the node [n] at path [p] of rule [r], and
    [rule.parse(parser)] for the rule with index [j].  [act name value] is
    [parser.act(name, value)]: the actions are taken to be functions of the
    collected values that may throw. *)
Fixpoint parse (fuel : nat) (g : Grammar) (st : state)
    (act : string -> Js.value -> presult Js.value)
    (ps : Parser) (r : nat) (p : list nat) (n : node) {struct fuel}
  : presult (Parser * Js.value) :=
  match fuel with
  | O => PFuel
  | S fuel' =>
      let visit ps k n := parse fuel' g st act ps r (k :: p) n in
      let expect k n := lift (node_expect g st r (k :: p) n) in
      match n with
      | Lit _ | Token _ => terminal_parse ps
      | NT name =>
          match nt_rule g name with
          | Some j => rule_parse fuel' g st act ps j
          | None => PThrow NullProperty
          end
      | Seq nodes _ =>
          '(ps, l) ← seq_parse visit expect r p ps 0 [] nodes;
          PReturn (ps, Js.VList l)
      | Alt seqs | Opt seqs => alt_parse visit expect ps seqs
      | Some_ seqs =>
          '(ps, v) ← alt_parse visit expect ps seqs;
          '(ps, l) ← some_loop fuel' (fun ps => alt_parse visit expect ps seqs)
                       (expect_of st (IdNode r p)) ps [v];
          PReturn (ps, Js.VList l)
      end
  end
with rule_parse (fuel : nat) (g : Grammar) (st : state)
    (act : string -> Js.value -> presult Js.value)
    (ps : Parser) (j : nat) {struct fuel} : presult (Parser * Js.value) :=
  match fuel with
  | O => PFuel
  | S fuel' =>
      match rules g !! j with
      | None => PThrow NullProperty
      | Some rule =>
          (* [parser.ruleStack = this] *)
          let ps := mkParser (tuples ps) (index ps) (rule_nt rule :: ruleStack ps)
                      (p_errors ps) in
          '(ps, v) ← alt_parse (fun ps k n => parse fuel' g st act ps j [k] n)
                       (fun k n => lift (node_expect g st j [k] n)) ps (rule_seqs rule);
          v ← act (rule_nt rule) v;
          (* [finally { parser.ruleStack = false }] *)
          PReturn (mkParser (tuples ps) (index ps) (tail (ruleStack ps)) (p_errors ps), v)
      end
  end.

(** [parser.parse(input, actions)], given the tuples [scanner.scan(input)]
    has made. *)
Definition parse_input (fuel : nat) (g : Grammar) (st : state)
    (act : string -> Js.value -> presult Js.value) (scanned : list Tuple)
  : presult (Parser * Js.value) :=
  match rules g with
  | [] => PThrow NullProperty
  | start :: _ =>
      if negb (nonempty (expect_of st (IdNode 0 []))) then PThrow RequiresExpect
      else
        ps ← next (mkParser (Some <$> scanned) (-1) [] 0);
        m ← set_match (expect_of st (IdNode 0 [])) (current ps);
        if negb m then PThrow StartExpects
        else
          '(ps, v) ← rule_parse fuel g st act ps 0;
          match current ps with
          | Some _ => PThrow TooMuchInput
          | None => PReturn (ps, v)
          end
  end.

(** ** The phrases of a grammar

    [phrase g n ts]: the terminals [ts], by name, are a phrase of the node
    [n]. *)
Inductive phrase (g : Grammar) : node -> list string -> Prop :=
| phrase_lit name : phrase g (Lit name) [name]
| phrase_token name : phrase g (Token name) [name]
| phrase_nt name j rule ts :
    nt_rule g name = Some j -> rules g !! j = Some rule ->
    phrase g (Alt (rule_seqs rule)) ts -> phrase g (NT name) ts
| phrase_seq nodes t tss :
    Forall2 (phrase g) nodes tss -> phrase g (Seq nodes t) (concat tss)
| phrase_alt seqs k c ts :
    seqs !! k = Some c -> phrase g c ts -> phrase g (Alt seqs) ts
| phrase_opt_none seqs : phrase g (Opt seqs) []
| phrase_opt_some seqs ts : phrase g (Alt seqs) ts -> phrase g (Opt seqs) ts
| phrase_some seqs tss :
    tss <> [] -> Forall (phrase g (Alt seqs)) tss ->
    phrase g (Some_ seqs) (concat tss).

(** The names of the terminals from [parser.current] on. *)
Definition remaining (ps : Parser) : list string :=
  omap (fun o : option Tuple => o ≫= tuple_t)
    (drop (Z.to_nat (index ps)) (tuples ps)).

(** The name of the terminal of [parser.current], if there is one. *)
Definition here (ps : Parser) : list string :=
  match current ps with
  | Some tu => match tuple_t tu with Some name => [name] | None => [] end
  | None => []
  end.

(** No terminal of the input has a name that every object inherits. *)
Definition plain (scanned : list Tuple) : Prop :=
  forall tu name, tu ∈ scanned -> tuple_t tu = Some name -> inherited name = false.

(** The tuples are those of the scanner, with [null] at the end at most, and
    the index is within. *)
Definition parser_ok (ps : Parser) : Prop :=
  (exists scanned tl,
      tuples ps = (Some <$> scanned) ++ tl /\ (tl = [] \/ tl = [None])
      /\ plain scanned)
  /\ -1 <= index ps <= Z.of_nat (length (tuples ps)).

(** [parser.current] is a terminal or the end of input. *)
Definition settled_input (ps : Parser) : Prop :=
  0 <= index ps
  /\ match current ps with
     | Some tu => tuple_t tu <> None
     | None => True
     end.

(** A literal or a token is only asked to [parse] when it is
    [parser.current]. *)
Definition at_terminal (n : node) (ps : Parser) : Prop :=
  match n with
  | Lit name | Token name => here ps = [name]
  | _ => True
  end.

(** From [ps] to [ps'] a phrase of [n] has been passed over. *)
Definition passed (g : Grammar) (n : node) (ps ps' : Parser) : Prop :=
  parser_ok ps' /\ settled_input ps'
  /\ exists ts, phrase g n ts /\ remaining ps = ts ++ remaining ps'.

(** No actions. *)
Definition no_actions (name : string) (v : Js.value) : presult Js.value :=
  PReturn v.

(** The input [a ? b], where [?] is an illegal character, and what the
    parser makes of it. *)
Definition small_input : list Tuple :=
  [mkTuple 1 (Some "'a'"%string) "a"; mkTuple 1 None "?";
   mkTuple 1 (Some "'b'"%string) "b"].

Definition small_parsed : Parser * Js.value :=
  match parse_input 8 small_grammar small_state no_actions small_input with
  | PReturn x => x
  | _ => (mkParser [] 0 [] 0, Js.VNull)
  end.

(** [s: 'a' 'b' | constructor 'c';] with a token [constructor], the state
    in which [expect()] leaves it, and the input [constructor b]. *)
Definition inherited_grammar : Grammar :=
  mkGrammar
    [mkTerminal "'a'" true; mkTerminal "'b'" true; mkTerminal "'c'" true]
    [mkTerminal "constructor" true]
    [mkRule "s" [Seq [Lit "'a'"; Lit "'b'"] None;
                 Seq [Token "constructor"; Lit "'c'"] None]]
    [("s", Some 0%nat)] [].

Definition inherited_state : state :=
  match expect 8 inherited_grammar (new_state 0) with
  | Ok (st, _) => st
  | _ => new_state 0
  end.

Definition inherited_input : list Tuple :=
  [mkTuple 1 (Some "constructor"%string) "x"; mkTuple 1 (Some "'b'"%string) "b"].

End EBNF.

(* ===================================================================== *)
(** * [Grammar.fromEBNF]: an EBNF grammar as a BNF grammar

    The BNF grammar while it is built by its factory methods.  The symbols
    are unique by name within their class ([litsByName], [tokensByName],
    [ntsByName]), so a symbol is known by its class and name.  The ordinal
    numbers and the sets come later, with [check(start)], which is the last
    statement of [fromEBNF] and is not part of this model: it completes rule
    zero and builds the tables, and creates no other rule and no
    non-terminal.

    The maps are plain objects.  For the name of a property that every
    object inherits ([constructor], [toString], ...) the factory methods
    return that property and no symbol, so no grammar that they have built
    has a symbol of such a name; the model is about the other names. *)
Module FromEBNF.

Inductive symbol :=
| SLit (name : string)
| SToken (name : string)
| SNT (name : string).

#[global] Instance symbol_eq_dec : EqDecision symbol.
Proof. solve_decision. Defined.

Record T := mkT {
  t_name : string;
  t_used : bool;
  t_prec : option BNF.prec
}.

Record NT := mkNT {
  nt_name : string;
  nt_empty : bool
}.

(** A rule; [nt.rules] is the list of the rules with that non-terminal. *)
Record Rule := mkRule {
  r_nt : string;
  r_symbols : list symbol;
  r_prec : option (symbol * BNF.prec)
}.

Record Grammar := mkGrammar {
  lits : list T;
  tokens : list T;
  nts : list NT;
  levels : list (BNF.assoc * list symbol);
  rules : list Rule;
  errors : nat
}.

Inductive thrown :=
| AssertionError      (* [assert()] *)
| TypeError           (* a property of [undefined] is read *)
| UnexpectedTerm.     (* [Error('unexpected term in EBNF sequence ...')] *)

Inductive result (A : Type) :=
| Return (a : A)
| Raise (e : thrown).
Arguments Return {A} a.
Arguments Raise {A} e.

#[global] Instance result_ret : MRet result := @Return.
#[global] Instance result_bind : MBind result :=
  fun A B f m => match m with Return a => f a | Raise e => Raise e end.

Definition names (g : Grammar) : list string := nt_name <$> nts g.

Definition named (name : string) (l : list T) : bool :=
  existsb (fun t => String.eqb (t_name t) name) l.

Definition with_lits (l : list T) (g : Grammar) : Grammar :=
  mkGrammar l (tokens g) (nts g) (levels g) (rules g) (errors g).

Definition with_tokens (l : list T) (g : Grammar) : Grammar :=
  mkGrammar (lits g) l (nts g) (levels g) (rules g) (errors g).

Definition with_nts (l : list NT) (g : Grammar) : Grammar :=
  mkGrammar (lits g) (tokens g) l (levels g) (rules g) (errors g).

(** [grammar.error(...)] counts. *)
Definition error (g : Grammar) : Grammar :=
  mkGrammar (lits g) (tokens g) (nts g) (levels g) (rules g) (S (errors g)).

(** [t.used = true] for the terminal with that name. *)
Definition mark_used (name : string) (l : list T) : list T :=
  (fun t => if String.eqb (t_name t) name then mkT (t_name t) true (t_prec t) else t)
    <$> l.

(** [t.prec.level = ..., t.prec.assoc = ...] *)
Definition set_prec (name : string) (p : BNF.prec) (l : list T) : list T :=
  (fun t => if String.eqb (t_name t) name then mkT (t_name t) (t_used t) (Some p) else t)
    <$> l.

(** [nt.empty = true] *)
Definition set_empty (name : string) (l : list NT) : list NT :=
  (fun n => if String.eqb (nt_name n) name then mkNT (nt_name n) true else n) <$> l.

Definition prec_in (name : string) (l : list T) : option BNF.prec :=
  match List.find (fun t => String.eqb (t_name t) name) l with
  | Some t => t_prec t
  | None => None
  end.

(** [s.prec] with [assoc] defined, for a terminal. *)
Definition prec_of (g : Grammar) (x : symbol) : option BNF.prec :=
  match x with
  | SLit name => prec_in name (lits g)
  | SToken name => prec_in name (tokens g)
  | SNT _ => None
  end.

(** [g.litsByName[name]], and if there is none [g.tokensByName[name]]. *)
Definition lookup_terminal (g : Grammar) (name : string) : option symbol :=
  if named name (lits g) then Some (SLit name)
  else if named name (tokens g) then Some (SToken name)
  else None.

Section Config.

(** [config.uniq], [config.error], and the tests [config.lits],
    [config.tokens] and [config.nts] of the names. *)
Variable uniq : string.
Variable config_error : bool.
Variable valid_lit valid_token valid_nt : string -> bool.

(** [g.lit(literal, used)] *)
Definition lit (literal : string) (used : bool) (g : Grammar)
  : result (Grammar * symbol) :=
  g ← (if named literal (lits g) then Return g
       else if negb (String.eqb literal "" || valid_lit literal)
            then Raise AssertionError
            else Return (with_lits (lits g ++ [mkT literal false None]) g));
  Return (if used then with_lits (mark_used literal (lits g)) g else g,
          SLit literal).

(** [g.token(name, pat, used)]; the patterns come from tokens of the EBNF
    grammar and have passed the tests of [add()] there. *)
Definition token (name : string) (used : bool) (g : Grammar)
  : result (Grammar * symbol) :=
  g ← (if named name (tokens g) then Return g
       else
         let g := if negb (String.eqb name "") && bool_decide (name ∈ names g)
                  then error g else g in
         if negb (String.eqb name "" || valid_token name)
         then Raise AssertionError
         else Return (with_tokens (tokens g ++ [mkT name false None]) g));
  Return (if used then with_tokens (mark_used name (tokens g)) g else g,
          SToken name).

(** [g.nt(name)]; [None] is an argument that is not a string and asks for
    a unique name. *)
Definition nt (name : option string) (g : Grammar) : result (Grammar * string) :=
  let name := match name with
              | Some s => s
              | None => uniq +:+ pretty (length (nts g))
              end in
  if bool_decide (name ∈ names g) then Return (g, name)
  else
    let g := if negb (String.eqb name "") && named name (tokens g)
             then error g else g in
    if negb (String.eqb name "" || String.prefix uniq name || valid_nt name)
    then Raise AssertionError
    else Return (with_nts (nts g ++ [mkNT name false]) g, name).

(** The last terminal with a precedence, if any. *)
Definition implicit_prec (g : Grammar) (symbols : list symbol) : option symbol :=
  fold_left (fun terminal s =>
               match s with
               | SNT _ => terminal
               | _ => match prec_of g s with
                      | Some _ => Some s
                      | None => terminal
                      end
               end) symbols None.

(** [g.rule(nt, symbols, terminal)] *)
Definition rule (nt : string) (symbols : list symbol) (terminal : option symbol)
    (g : Grammar) : Grammar :=
  let '(g, terminal) :=
    match terminal with
    | None => (g, implicit_prec g symbols)
    | Some t => match prec_of g t with
                | Some _ => (g, Some t)
                | None => (error g, None)
                end
    end in
  let prec := match terminal with
              | Some t => (fun p => (t, p)) <$> prec_of g t
              | None => None
              end in
  let l := if negb (length (rules g) =? 0)%nat && (length symbols =? 0)%nat
           then set_empty nt (nts g) else nts g in
  mkGrammar (lits g) (tokens g) l (levels g)
            (rules g ++ [mkRule nt symbols prec]) (errors g).

(** [terminals.forEach(...)] in [precedence()]: no terminal has a
    precedence yet. *)
Fixpoint assign (p : BNF.prec) (terminals : list symbol) (g : Grammar)
  : result Grammar :=
  match terminals with
  | [] => Return g
  | t :: terminals' =>
      match prec_of g t with
      | Some _ => Raise AssertionError
      | None =>
          assign p terminals'
            match t with
            | SLit name => with_lits (set_prec name p (lits g)) g
            | SToken name => with_tokens (set_prec name p (tokens g)) g
            | SNT _ => g
            end
      end
  end.

(** [g.precedence(assoc, terminals)]; [None] is [undefined]. *)
Definition precedence (a : BNF.assoc) (terminals : list (option symbol))
    (g : Grammar) : result Grammar :=
  if existsb (fun t => negb (bool_decide (is_Some t))) terminals
  then Raise AssertionError
  else
    match omap (fun t => t) terminals with
    | [] => Return g
    | ts =>
        g ← assign (BNF.Prec a (length (levels g))) ts g;
        Return (mkGrammar (lits g) (tokens g) (nts g) (levels g ++ [(a, ts)])
                          (rules g) (errors g))
    end.

(** [seq.nodes.reduce(...)]: the symbols of a sequence, from left to
    right. *)
Fixpoint seq_nodes (visit : EBNF.node -> Grammar -> result (Grammar * symbol))
    (nodes : list EBNF.node) (g : Grammar) : result (Grammar * list symbol) :=
  match nodes with
  | [] => Return (g, [])
  | n :: nodes' =>
      '(g, x) ← visit n g;
      '(g, xs) ← seq_nodes visit nodes' g;
      Return (g, x :: xs)
  end.

(** [seq(s)] *)
Definition seq (visit : EBNF.node -> Grammar -> result (Grammar * symbol))
    (s : EBNF.node) (g : Grammar) : result (Grammar * list symbol) :=
  match s with
  | EBNF.Seq nodes _ => seq_nodes visit nodes g
  | _ => Raise TypeError
  end.

(** [seqs.forEach(s => g.rule(nt, seq(s)))] *)
Fixpoint alternatives (visit : EBNF.node -> Grammar -> result (Grammar * symbol))
    (nt : string) (seqs : list EBNF.node) (g : Grammar) : result Grammar :=
  match seqs with
  | [] => Return g
  | s :: seqs' =>
      '(g, symbols) ← seq visit s g;
      alternatives visit nt seqs' (rule nt symbols None g)
  end.

(** The [switch] in [seq], with [opt] and [some]. *)
Fixpoint item (n : EBNF.node) (g : Grammar) {struct n} : result (Grammar * symbol) :=
  match n with
  | EBNF.Lit name => lit name false g
  | EBNF.Token name => token name false g
  | EBNF.NT name => '(g, u) ← nt (Some name) g; Return (g, SNT u)
  | EBNF.Opt seqs =>
      '(g, u) ← nt None g;
      g ← alternatives item u seqs (rule u [] None g);
      Return (g, SNT u)
  | EBNF.Some_ seqs =>
      '(g, u) ← nt None g;
      '(g, u1) ← nt None g;
      g ← alternatives item u1 seqs g;
      let g := rule u [SNT u1] None g in
      let g := rule u [SNT u; SNT u1] None g in
      if config_error then
        '(g, e) ← token "" false g;
        let g := rule u [e] None g in
        Return (rule u [SNT u; e] None g, SNT u)
      else Return (g, SNT u)
  | EBNF.Seq _ _ | EBNF.Alt _ => Raise UnexpectedTerm
  end.

(** [new Grammar(null, null, config)]: rule zero for [$accept], [$eof]
    marked as used, and [$error]. *)
Definition new_Grammar : Grammar :=
  mkGrammar [mkT "" true None] [mkT "" false None] [mkNT "" false] []
            [mkRule "" [] None] 0.

Fixpoint each {A : Type} (f : A -> Grammar -> result Grammar) (l : list A)
    (g : Grammar) : result Grammar :=
  match l with
  | [] => Return g
  | a :: l' => g ← f a g; each f l' g
  end.

(** One alternative of a rule of the EBNF grammar; the terminal of
    [%prec] is looked up first. *)
Definition one_rule (n : string) (s : EBNF.node) (g : Grammar) : result Grammar :=
  match s with
  | EBNF.Seq nodes (Some t) =>
      let terminal := lookup_terminal g t in
      '(g, symbols) ← seq_nodes item nodes g;
      Return (rule n symbols terminal g)
  | _ =>
      '(g, symbols) ← seq item s g;
      Return (rule n symbols None g)
  end.

(** [Grammar.fromEBNF(ebnf, config)] up to [g.check(start)]. *)
Definition fromEBNF (ebnf : EBNF.Grammar) : result Grammar :=
  g ← each (fun l g => '(g, _) ← lit (EBNF.term_name l) true g; Return g)
        (filter (fun l => EBNF.term_used l = true) (EBNF.lits ebnf)) new_Grammar;
  g ← each (fun t g => '(g, _) ← token (EBNF.term_name t) true g; Return g)
        (filter (fun t => EBNF.term_used t = true) (EBNF.tokens ebnf)) g;
  g ← each (fun level g =>
              precedence (EBNF.prec_assoc level)
                (lookup_terminal g <$> EBNF.prec_terminals level) g)
        (EBNF.levels ebnf) g;
  match EBNF.rules ebnf with
  | [] => Raise TypeError
  | first :: _ =>
      '(g, start) ← nt (Some (EBNF.rule_nt first)) g;
      each (fun r g =>
              '(g, n) ← nt (Some (EBNF.rule_nt r)) g;
              each (one_rule n) (EBNF.rule_seqs r) g)
        (EBNF.rules ebnf) g
  end.

(** ** What the translation keeps and what it promises *)

(** The name is [uniq + k] for some [k] below [n]. *)
Definition generated (name : string) (n : nat) : bool :=
  existsb (fun k => String.eqb name (uniq +:+ pretty k)) (List.seq 0 n).

(** Every name with the prefix [uniq] has been made by [nt()] itself. *)
Definition names_ok (g : Grammar) : bool :=
  forallb (fun name => negb (String.prefix uniq name)
                       || generated name (length (nts g))) (names g).

(** Every rule belongs to a non-terminal of the grammar. *)
Definition closed (g : Grammar) : bool :=
  forallb (fun r => bool_decide (r_nt r ∈ names g)) (rules g).

(** No non-terminal in the node has a name with the prefix [uniq]. *)
Fixpoint user_names (n : EBNF.node) : bool :=
  match n with
  | EBNF.Lit _ | EBNF.Token _ => true
  | EBNF.NT name => negb (String.prefix uniq name)
  | EBNF.Seq nodes _ => forallb user_names nodes
  | EBNF.Alt seqs | EBNF.Opt seqs | EBNF.Some_ seqs => forallb user_names seqs
  end.

(** The grammar has grown: more non-terminals, and more rules, all for
    non-terminals that are new. *)
Definition grown (g g' : Grammar) : Prop :=
  (exists more, names g' = names g ++ more)
  /\ (exists new, rules g' = rules g ++ new
                 /\ forall r, r ∈ new -> r_nt r ∉ names g).

(** The symbol for an element of a sequence: the terminal or non-terminal
    of that name, and for [[...]] and [{...}] a non-terminal with a unique
    name. *)
Definition matches (n : EBNF.node) (x : symbol) : Prop :=
  match n with
  | EBNF.Lit name => x = SLit name
  | EBNF.Token name => x = SToken name
  | EBNF.NT name => x = SNT name
  | EBNF.Opt _ | EBNF.Some_ _ =>
      exists u, x = SNT u /\ String.prefix uniq u = true
  | EBNF.Seq _ _ | EBNF.Alt _ => False
  end.

(** The rule is [u: S] for the alternative [S]. *)
Definition alternative (u : string) (s : EBNF.node) (r : Rule) : Prop :=
  r_nt r = u
  /\ exists nodes t, s = EBNF.Seq nodes t /\ Forall2 matches nodes (r_symbols r).

Definition rules_of (u : string) (g : Grammar) : list Rule :=
  filter (fun r => r_nt r = u) (rules g).

Definition shape (r : Rule) : string * list symbol := (r_nt r, r_symbols r).

(** What the translation of an element of a sequence promises, and what
    the translation of a sequence does. *)
Definition item_promise (n : EBNF.node) : Prop :=
  forall g g' x,
    names_ok g = true -> closed g = true -> user_names n = true ->
    item n g = Return (g', x) ->
    names_ok g' = true /\ closed g' = true /\ grown g g' /\ matches n x
    /\ forall u, x = SNT u -> u ∈ names g'.

Definition seq_promise (s : EBNF.node) : Prop :=
  forall g g' xs,
    names_ok g = true -> closed g = true -> user_names s = true ->
    seq item s g = Return (g', xs) ->
    names_ok g' = true /\ closed g' = true /\ grown g g'
    /\ exists nodes t, s = EBNF.Seq nodes t /\ Forall2 matches nodes xs.

(** No non-terminal of the EBNF grammar has a name with the prefix
    [uniq]. *)
Definition user_grammar (ebnf : EBNF.Grammar) : bool :=
  forallb (fun r => negb (String.prefix uniq (EBNF.rule_nt r))
                    && forallb user_names (EBNF.rule_seqs r))
          (EBNF.rules ebnf).

(** [u: $error; u: u $error;] in error mode. *)
Definition error_rules (u : string) : list (string * list symbol) :=
  if config_error then [(u, [SToken ""]); (u, [SNT u; SToken ""])] else [].

End Config.

(** ** Grammars for the examples

    [x: [ 'a' ] 'b';] where the name of [x] is [$-2], and the state in which
    its [[ 'a' ]] is translated. *)
Definition any_name (_ : string) : bool := true.

Definition clash_grammar : EBNF.Grammar :=
  EBNF.mkGrammar
    [EBNF.mkTerminal "'a'" true; EBNF.mkTerminal "'b'" true] []
    [EBNF.mkRule "$-2"
       [EBNF.Seq [EBNF.Opt [EBNF.Seq [EBNF.Lit "'a'"] None]; EBNF.Lit "'b'"] None]]
    [("$-2", Some 0%nat)] [].

Definition clash_state : Grammar :=
  mkGrammar [mkT "" true None; mkT "'a'" true None; mkT "'b'" true None]
            [mkT "" false None] [mkNT "" false; mkNT "$-2" false] []
            [mkRule "" [] None] 0.

(** The non-terminals and the rules that [fromEBNF] returns. *)
Definition outline (r : result Grammar)
  : option (list string * list (string * list symbol)) :=
  match r with
  | Return g => Some (names g, shape <$> rules g)
  | Raise _ => None
  end.

(** [[{ ',' sum }]] of the grammar for lists, the state in which it is
    translated, and the state after that. *)
Definition list_opt : list EBNF.node :=
  [EBNF.Seq [EBNF.Some_ [EBNF.Seq [EBNF.Lit "','"; EBNF.NT "sum"] None]] None].

Definition list_start : Grammar :=
  mkGrammar [mkT "" true None; mkT "','" true None; mkT "'+'" true None]
            [mkT "" false None; mkT "Number" true None]
            [mkNT "" false; mkNT "list" false; mkNT "sum" false] []
            [mkRule "" [] None] 0.

Definition list_translated : Grammar :=
  match item "$-" true any_name any_name any_name (EBNF.Opt list_opt) list_start with
  | Return (g, _) => g
  | Raise _ => new_Grammar
  end.

Definition clash_translated : Grammar :=
  match item "$-" false any_name any_name any_name
          (EBNF.Opt [EBNF.Seq [EBNF.Lit "'a'"] None]) clash_state with
  | Return (g, _) => g
  | Raise _ => new_Grammar
  end.

(** ** The rules of the EBNF grammar

    From [g] to [g'] rules have been added, all for non-terminals with the
    prefix [uniq]. *)
Definition added (uniq : string) (g g' : Grammar) : Prop :=
  exists new, rules g' = rules g ++ new
    /\ forall r, r ∈ new -> String.prefix uniq (r_nt r) = true.

(** The alternatives of the rules of the EBNF grammar for one
    non-terminal, in their order. *)
Definition alternatives_of (name : string) (rs : list EBNF.Rule) : list EBNF.node :=
  flat_map EBNF.rule_seqs (filter (fun r => EBNF.rule_nt r = name) rs).

(** What the translation of an element of a sequence, and of a sequence,
    makes. *)
Definition item_shape (uniq : string) (config_error : bool)
    (valid_lit valid_token valid_nt : string -> bool) (n : EBNF.node) : Prop :=
  (forall g g' x,
      item uniq config_error valid_lit valid_token valid_nt n g = Return (g', x) ->
      matches uniq n x /\ added uniq g g')
  /\ (forall g g' xs,
      seq (item uniq config_error valid_lit valid_token valid_nt) n g
      = Return (g', xs) ->
      added uniq g g'
      /\ exists nodes t, n = EBNF.Seq nodes t /\ Forall2 (matches uniq) nodes xs).

(** The grammar for lists, translated. *)
Definition list_bnf : Grammar :=
  match fromEBNF "$-" true any_name any_name any_name EBNF.list_grammar with
  | Return g => g
  | Raise _ => new_Grammar
  end.

End FromEBNF.

(* ===================================================================== *)
(** * Properties *)
(* ===================================================================== *)

Module BaseFacts.
Import Js Base.

Lemma len_app (a b : jsstr) : len (a ++ b) = len a + len b.
Proof. unfold len. rewrite length_app. lia. Qed.

Lemma len_nonneg (a : jsstr) : 0 <= len a.
Proof. unfold len. lia. Qed.

Lemma charAt_skip (pre l : jsstr) (j : Z) :
  0 <= j -> charAt (pre ++ l) (len pre + j) = charAt l j.
Proof.
  intros Hj. unfold charAt, len.
  assert (H1 : (0 <=? Z.of_nat (length pre) + j) = true) by (apply Z.leb_le; lia).
  assert (H2 : (0 <=? j) = true) by (apply Z.leb_le; lia).
  rewrite H1, H2.
  replace (Z.to_nat (Z.of_nat (length pre) + j))
    with (length pre + Z.to_nat j)%nat by lia.
  rewrite nth_error_app2 by lia.
  replace (length pre + Z.to_nat j - length pre)%nat with (Z.to_nat j) by lia.
  reflexivity.
Qed.

Lemma substr_skip (pre l : jsstr) (j : Z) (n : nat) :
  0 <= j -> substr (pre ++ l) (len pre + j) n = substr l j n.
Proof.
  intros Hj. unfold substr, len.
  replace (Z.to_nat (Z.of_nat (length pre) + j))
    with (Z.to_nat j + length pre)%nat by lia.
  rewrite <- skipn_skipn.
  replace (skipn (length pre) (pre ++ l)) with l; [reflexivity|].
  rewrite skipn_app, skipn_all, Nat.sub_diag. reflexivity.
Qed.

Lemma charAt_at (pre l : jsstr) (i j : Z) :
  0 <= j -> i = len pre + j -> charAt (pre ++ l) i = charAt l j.
Proof. intros Hj ->. by apply charAt_skip. Qed.

Lemma escape_letters_eq :
  escape_letters = [98; 102; 110; 114; 116; 118; 92; 39]%N.
Proof. reflexivity. Qed.

Lemma hex_digits_eq :
  hex_digits = [48; 49; 50; 51; 52; 53; 54; 55; 56; 57;
                97; 98; 99; 100; 101; 102]%N.
Proof. reflexivity. Qed.

Lemma charAt_in (pre l : jsstr) (i j : Z) (c : N) :
  0 <= j -> i = len pre + j -> charAt l j = [c] -> charAt (pre ++ l) i = [c].
Proof. intros Hj -> <-. by apply charAt_skip. Qed.

(** The table lookups of [unescape], against the escape set. *)
Lemma escape_letters_index (e : N) :
  match simple_escape e with
  | Some k =>
      0 <= indexOf escape_letters [e] /\
      charAt escape_values (indexOf escape_letters [e]) = [k]
  | None => indexOf escape_letters [e] < 0
  end.
Proof.
  rewrite escape_letters_eq. unfold simple_escape, indexOf, escape_values.
  repeat (case N.eqb_spec; [intros ->; cbn; split; [lia|reflexivity]|intros ?]).
  cbn -[N.eqb].
  repeat (case N.eqb_spec; [intros; subst; congruence|intros _]).
  lia.
Qed.

Lemma hex_digits_index (h : N) :
  (0 <=? indexOf hex_digits [h]) = is_hex_lower h.
Proof.
  rewrite hex_digits_eq. unfold indexOf, is_hex_lower. cbn -[N.eqb N.leb].
  repeat (case N.eqb_spec; [intros ->; reflexivity|intros ?]).
  cbn. symmetry.
  repeat (case N.leb_spec; intros; cbn; try reflexivity; try lia).
Qed.

Lemma is_hex_at_char (s : jsstr) (i : Z) (h : N) :
  charAt s i = [h] -> is_hex_at s i = is_hex_lower h.
Proof. unfold is_hex_at. intros ->. apply hex_digits_index. Qed.

Lemma hex_lower_value (h : N) :
  is_hex_lower h = true -> exists v, hex_value h = Some v /\ (v <= 15)%N.
Proof.
  unfold is_hex_lower, hex_value. intros H.
  rewrite orb_true_iff, !andb_true_iff, !N.leb_le in H.
  repeat (case N.leb_spec; intros; cbn);
    try (exfalso; lia); eexists; (split; [reflexivity|lia]).
Qed.

Lemma hex_any_value (h : N) :
  is_hex_any h = true -> exists v, hex_value h = Some v /\ (v <= 15)%N.
Proof.
  unfold is_hex_any, hex_value. intros H.
  rewrite !orb_true_iff, !andb_true_iff, !N.leb_le in H.
  repeat (case N.leb_spec; intros; cbn);
    try (exfalso; lia); eexists; (split; [reflexivity|lia]).
Qed.

Lemma fromCharCode_hex2 (h1 h2 : N) :
  is_hex_lower h1 = true -> is_hex_lower h2 = true ->
  fromCharCode (parseInt16 [h1; h2]) = [hex_number [h1; h2]].
Proof.
  intros [v1 [E1 B1]]%hex_lower_value [v2 [E2 B2]]%hex_lower_value.
  unfold fromCharCode, parseInt16, hex_number. cbn. rewrite E1, E2. cbn.
  f_equal. apply N.mod_small. lia.
Qed.

Lemma fromCharCode_hex4 (h1 h2 h3 h4 : N) :
  is_hex_lower h1 = true -> is_hex_lower h2 = true ->
  is_hex_lower h3 = true -> is_hex_lower h4 = true ->
  fromCharCode (parseInt16 [h1; h2; h3; h4]) = [hex_number [h1; h2; h3; h4]].
Proof.
  intros [v1 [E1 B1]]%hex_lower_value [v2 [E2 B2]]%hex_lower_value
         [v3 [E3 B3]]%hex_lower_value [v4 [E4 B4]]%hex_lower_value.
  unfold fromCharCode, parseInt16, hex_number. cbn. rewrite E1, E2, E3, E4. cbn.
  f_equal. apply N.mod_small. lia.
Qed.

(** *** One iteration of the loop, case by case *)

Lemma step_plain (s : jsstr) (i : Z) (acc : jsstr) (c : N) :
  charAt s i = [c] -> c <> backslash ->
  unescape_step s i acc = (i + 1, acc ++ [c]).
Proof.
  intros Hc Hne. unfold unescape_step. rewrite Hc.
  rewrite bool_decide_eq_false_2 by congruence. reflexivity.
Qed.

Lemma step_simple (s : jsstr) (i : Z) (acc : jsstr) (e k : N) :
  charAt s i = [backslash] -> i + 1 < len s - 1 ->
  charAt s (i + 1) = [e] -> simple_escape e = Some k ->
  unescape_step s i acc = (i + 1 + 1, acc ++ [k]).
Proof.
  intros Hb Hi He Hk. unfold unescape_step. rewrite Hb.
  rewrite bool_decide_eq_true_2 by reflexivity. cbn [negb].
  rewrite (proj2 (Z.leb_gt _ _)) by lia. rewrite He.
  pose proof (escape_letters_index e) as Ht. rewrite Hk in Ht.
  destruct Ht as [Ht1 Ht2]. rewrite (proj2 (Z.leb_le _ _) Ht1), Ht2.
  reflexivity.
Qed.

Lemma step_escape (s : jsstr) (i : Z) (acc : jsstr) (c : N) :
  charAt s i = [backslash] -> i + 1 < len s - 1 ->
  charAt s (i + 1) = [c] -> simple_escape c = None ->
  unescape_step s i acc =
    if (c =? 120)%N then
      if x_guard s (i + 2)
      then (i + 4, acc ++ fromCharCode (parseInt16 (substr s (i + 2) 2)))
      else (i + 2, acc ++ [c])
    else if (c =? 117)%N then
      if u_guard s (i + 2)
      then (i + 6, acc ++ fromCharCode (parseInt16 (substr s (i + 2) 4)))
      else (i + 2, acc ++ [c])
    else (i + 2, acc ++ [c]).
Proof.
  intros Hb Hi Hc Hk. unfold unescape_step. rewrite Hb.
  rewrite bool_decide_eq_true_2 by reflexivity. cbn [negb].
  rewrite (proj2 (Z.leb_gt _ _)) by lia. rewrite Hc.
  pose proof (escape_letters_index c) as Ht. rewrite Hk in Ht.
  rewrite (proj2 (Z.leb_gt _ _)) by lia.
  replace (i + 1 + 1 - 1) with (i + 1) by lia. rewrite Hc.
  replace (i + 1 + 1) with (i + 2) by lia.
  replace (i + 2 + 2) with (i + 4) by lia.
  replace (i + 2 + 4) with (i + 6) by lia.
  case N.eqb_spec; [intros ->|intros Hx].
  - rewrite bool_decide_eq_true_2 by reflexivity. reflexivity.
  - rewrite bool_decide_eq_false_2 by (change (js "x") with [120%N]; congruence).
    case N.eqb_spec; [intros ->|intros Hu].
    + rewrite bool_decide_eq_true_2 by reflexivity. reflexivity.
    + rewrite bool_decide_eq_false_2
        by (change (js "u") with [117%N]; congruence).
      reflexivity.
Qed.

Lemma loop_done (fuel : nat) (s : jsstr) (i : Z) (acc : jsstr) :
  len s - 1 <= i -> unescape_loop fuel s i acc = Some acc.
Proof.
  intros H. destruct fuel; cbn [unescape_loop];
    rewrite (proj2 (Z.ltb_ge _ _)) by lia; reflexivity.
Qed.

Lemma loop_step (fuel : nat) (s : jsstr) (i : Z) (acc : jsstr) :
  i < len s - 1 ->
  unescape_loop (S fuel) s i acc =
    unescape_loop fuel s (unescape_step s i acc).1 (unescape_step s i acc).2.
Proof.
  intros H. cbn [unescape_loop]. rewrite (proj2 (Z.ltb_lt _ _)) by lia.
  destruct (unescape_step s i acc). reflexivity.
Qed.

(** [unescape] is total: every iteration advances the index. *)
Lemma step_advances (s : jsstr) (i : Z) (acc : jsstr) :
  i + 1 <= (unescape_step s i acc).1.
Proof.
  unfold unescape_step.
  repeat (match goal with |- context [if ?b then _ else _] => destruct b end);
    cbn [fst]; lia.
Qed.

Lemma loop_total (fuel : nat) (s : jsstr) :
  forall i acc, len s - 1 - i <= Z.of_nat fuel ->
  exists r, unescape_loop fuel s i acc = Some r.
Proof.
  induction fuel as [|fuel IH]; intros i acc Hf.
  - exists acc. apply loop_done. lia.
  - destruct (Z_lt_le_dec i (len s - 1)) as [Hlt|Hge].
    + rewrite loop_step by exact Hlt. apply IH.
      pose proof (step_advances s i acc). lia.
    + exists acc. by apply loop_done.
Qed.

Lemma unescape_total (s : jsstr) : exists r, unescape s = Some r.
Proof. apply loop_total. unfold len. lia. Qed.

(** *** The loop against the escape set *)

Ltac hex_at pre h j :=
  rewrite (is_hex_at_char _ _ h)
    by (apply (charAt_in pre _ _ j); [lia|lia|reflexivity]).

Lemma guard_x_true (pre r : jsstr) (h1 h2 d2 : N) :
  is_hex_lower h1 = true -> is_hex_lower h2 = true ->
  x_guard (pre ++ h1 :: h2 :: r ++ [d2]) (len pre) = true.
Proof.
  intros H1 H2. unfold x_guard.
  hex_at pre h1 0. hex_at pre h2 1. rewrite H1, H2.
  rewrite !andb_true_r. apply Z.ltb_lt.
  rewrite len_app. unfold len. cbn [length]. rewrite length_app. cbn. lia.
Qed.

Lemma guard_u_true (pre r : jsstr) (h1 h2 h3 h4 d2 : N) :
  is_hex_lower h1 = true -> is_hex_lower h2 = true ->
  is_hex_lower h3 = true -> is_hex_lower h4 = true ->
  u_guard (pre ++ h1 :: h2 :: h3 :: h4 :: r ++ [d2]) (len pre) = true.
Proof.
  intros H1 H2 H3 H4. unfold u_guard.
  hex_at pre h1 0. hex_at pre h2 1. hex_at pre h3 2. hex_at pre h4 3.
  rewrite H1, H2, H3, H4.
  rewrite !andb_true_r. apply Z.ltb_lt.
  rewrite len_app. unfold len. cbn [length]. rewrite length_app. cbn. lia.
Qed.

Lemma guard_x_false (pre r : jsstr) (d2 : N) :
  hex_escape_follows is_hex_lower 120 r = false ->
  x_guard (pre ++ r ++ [d2]) (len pre) = false.
Proof.
  cbn. intros H. unfold x_guard.
  destruct r as [|h1 [|h2 r]];
    try (rewrite (proj2 (Z.ltb_ge _ _)); [reflexivity|];
         rewrite len_app; unfold len; cbn; lia).
  hex_at pre h1 0. hex_at pre h2 1.
  rewrite <- andb_assoc, H. apply andb_false_r.
Qed.

Lemma guard_u_false (pre r : jsstr) (d2 : N) :
  hex_escape_follows is_hex_lower 117 r = false ->
  u_guard (pre ++ r ++ [d2]) (len pre) = false.
Proof.
  cbn. intros H. unfold u_guard.
  destruct r as [|h1 [|h2 [|h3 [|h4 r]]]];
    try (rewrite (proj2 (Z.ltb_ge _ _)); [reflexivity|];
         rewrite len_app; unfold len; cbn; lia).
  hex_at pre h1 0. hex_at pre h2 1. hex_at pre h3 2. hex_at pre h4 3.
  rewrite <- !andb_assoc. rewrite <- !andb_assoc in H. rewrite H.
  apply andb_false_r.
Qed.

Ltac solve_len :=
  rewrite ?len_app; unfold len; cbn [length]; rewrite ?length_app;
  cbn [length]; lia.

Lemma loop_shift (fuel : nat) (pre a r : jsstr) (d2 : N) (i : Z) (acc : jsstr) :
  i = len pre + len a ->
  unescape_loop fuel (pre ++ (a ++ r) ++ [d2]) i acc =
  unescape_loop fuel ((pre ++ a) ++ r ++ [d2]) (len (pre ++ a)) acc.
Proof. intros ->. rewrite len_app, <- !app_assoc. reflexivity. Qed.

Lemma step_at_other (pre : jsstr) (c : N) (r : jsstr) (d2 : N) (acc : jsstr) :
  simple_escape c = None ->
  hex_escape_follows is_hex_lower c r = false ->
  unescape_step (pre ++ (backslash :: c :: r) ++ [d2]) (len pre) acc
  = (len pre + 2, acc ++ [c]).
Proof.
  intros Hk Hh.
  rewrite (step_escape _ _ _ c);
    [|apply (charAt_in pre _ _ 0); [lia|lia|reflexivity]
     |solve_len
     |apply (charAt_in pre _ _ 1); [lia|lia|reflexivity]
     |exact Hk].
  change (pre ++ (backslash :: c :: r) ++ [d2])
    with (pre ++ ([backslash; c] ++ r ++ [d2])).
  rewrite (app_assoc pre).
  replace (len pre + 2) with (len (pre ++ [backslash; c])) by solve_len.
  unfold hex_escape_follows in Hh. revert Hh.
  case N.eqb_spec; [intros -> Hh|intros Hx].
  - rewrite guard_x_false; [reflexivity|exact Hh].
  - case N.eqb_spec; [intros -> Hh|reflexivity].
    rewrite guard_u_false; [reflexivity|exact Hh].
Qed.

Lemma unescape_loop_spec (rest out : jsstr) :
  Unescaped is_hex_lower rest out ->
  forall (pre : jsstr) (d2 : N) (acc : jsstr) (fuel : nat),
    (length rest <= fuel)%nat ->
    unescape_loop fuel (pre ++ rest ++ [d2]) (len pre) acc = Some (acc ++ out).
Proof.
  induction 1 as [|c r o Hc _ IH|e k r o Hk _ IH|h1 h2 r o H1 H2 _ IH
                 |h1 h2 h3 h4 r o H1 H2 H3 H4 _ IH|c r o Hk Hh _ IH];
    intros pre d2 acc fuel Hf.
  - rewrite loop_done by solve_len. by rewrite app_nil_r.
  - destruct fuel as [|fuel]; [cbn in Hf; lia|].
    rewrite loop_step by solve_len.
    rewrite (step_plain _ _ _ c)
      by first [apply (charAt_in pre _ _ 0); [lia|lia|reflexivity]|exact Hc].
    cbn [fst snd].
    rewrite (loop_shift fuel pre [c] r) by reflexivity.
    rewrite IH by (cbn in Hf; lia). by rewrite <- app_assoc.
  - destruct fuel as [|fuel]; [cbn in Hf; lia|].
    rewrite loop_step by solve_len.
    rewrite (step_simple _ _ _ e k);
      [|apply (charAt_in pre _ _ 0); [lia|lia|reflexivity]
       |solve_len
       |apply (charAt_in pre _ _ 1); [lia|lia|reflexivity]
       |exact Hk].
    cbn [fst snd].
    rewrite (loop_shift fuel pre [backslash; e] r) by (unfold len; cbn; lia).
    rewrite IH by (cbn in Hf; lia). by rewrite <- app_assoc.
  - destruct fuel as [|fuel]; [cbn in Hf; lia|].
    rewrite loop_step by solve_len.
    rewrite (step_escape _ _ _ 120);
      [|apply (charAt_in pre _ _ 0); [lia|lia|reflexivity]
       |solve_len
       |apply (charAt_in pre _ _ 1); [lia|lia|reflexivity]
       |reflexivity].
    cbn [N.eqb Pos.eqb].
    change (pre ++ (backslash :: 120%N :: h1 :: h2 :: r) ++ [d2])
      with (pre ++ ([backslash; 120%N] ++ h1 :: h2 :: r ++ [d2])).
    rewrite (app_assoc pre).
    replace (len pre + 2) with (len (pre ++ [backslash; 120%N]) + 0)
      by solve_len.
    rewrite substr_skip by lia. rewrite Z.add_0_r.
    rewrite guard_x_true by assumption. cbn [fst snd].
    change (substr (h1 :: h2 :: r ++ [d2]) 0 2) with [h1; h2].
    rewrite fromCharCode_hex2 by assumption.
    rewrite <- (app_assoc pre).
    change (pre ++ [backslash; 120%N] ++ h1 :: h2 :: r ++ [d2])
      with (pre ++ ([backslash; 120%N; h1; h2] ++ r) ++ [d2]).
    rewrite (loop_shift fuel pre [backslash; 120%N; h1; h2] r) by solve_len.
    rewrite IH by (cbn in Hf; lia). by rewrite <- app_assoc.
  - destruct fuel as [|fuel]; [cbn in Hf; lia|].
    rewrite loop_step by solve_len.
    rewrite (step_escape _ _ _ 117);
      [|apply (charAt_in pre _ _ 0); [lia|lia|reflexivity]
       |solve_len
       |apply (charAt_in pre _ _ 1); [lia|lia|reflexivity]
       |reflexivity].
    cbn [N.eqb Pos.eqb].
    change (pre ++ (backslash :: 117%N :: h1 :: h2 :: h3 :: h4 :: r) ++ [d2])
      with (pre ++ ([backslash; 117%N] ++ h1 :: h2 :: h3 :: h4 :: r ++ [d2])).
    rewrite (app_assoc pre).
    replace (len pre + 2) with (len (pre ++ [backslash; 117%N]) + 0)
      by solve_len.
    rewrite substr_skip by lia. rewrite Z.add_0_r.
    rewrite guard_u_true by assumption. cbn [fst snd].
    change (substr (h1 :: h2 :: h3 :: h4 :: r ++ [d2]) 0 4)
      with [h1; h2; h3; h4].
    rewrite fromCharCode_hex4 by assumption.
    rewrite <- (app_assoc pre).
    change (pre ++ [backslash; 117%N] ++ h1 :: h2 :: h3 :: h4 :: r ++ [d2])
      with (pre ++ ([backslash; 117%N; h1; h2; h3; h4] ++ r) ++ [d2]).
    rewrite (loop_shift fuel pre [backslash; 117%N; h1; h2; h3; h4] r)
      by solve_len.
    rewrite IH by (cbn in Hf; lia). by rewrite <- app_assoc.
  - destruct fuel as [|fuel]; [cbn in Hf; lia|].
    rewrite loop_step by solve_len.
    rewrite (step_at_other pre c r d2 acc Hk Hh). cbn [fst snd].
    rewrite (loop_shift fuel pre [backslash; c] r) by solve_len.
    rewrite IH by (cbn in Hf; lia). by rewrite <- app_assoc.
Qed.

(** C6, as amended.  For every quoted literal representation
    [d1 body d2], [Lit.unescape] strips the two delimiters and replaces each
    escape among [\' \\ \b \f \n \r \t \v], [\xHH] and [\uHHHH] -- with
    [H] one of the digits [0-9] and [a-f] -- by the character it stands for;
    every other escaped character [\c], among them [\x] and [\u] that are
    not followed by two (four) such digits, yields [c] itself. *)
Theorem unescape_escape_set (d1 d2 : N) (body out : jsstr) :
  Unescaped is_hex_lower body out ->
  unescape (d1 :: body ++ [d2]) = Some out.
Proof.
  intros H. unfold unescape.
  apply (unescape_loop_spec body out H [d1] d2 []).
  cbn [length]. rewrite length_app. lia.
Qed.

Lemma unescape_escape_set_witness :
  Unescaped is_hex_lower (js "a\n\x4a\q\u00e9\'") [97; 10; 74; 113; 233; 39]%N
  /\ unescape (js "'a\n\x4a\q\u00e9\''") = Some [97; 10; 74; 113; 233; 39]%N.
Proof.
  assert (H : Unescaped is_hex_lower (js "a\n\x4a\q\u00e9\'")
                [97; 10; 74; 113; 233; 39]%N).
  { apply U_plain; [discriminate|].
    apply (U_simple _ 110 10); [reflexivity|].
    apply (U_x _ 52 97); [reflexivity|reflexivity|].
    apply U_other; [reflexivity|reflexivity|].
    apply (U_u _ 48 48 101 57); [reflexivity|reflexivity|reflexivity|reflexivity|].
    apply (U_simple _ 39 39); [reflexivity|].
    apply U_end. }
  split; [exact H|].
  exact (unescape_escape_set 39 39 _ _ H).
Defined.

(** C6, as stated, fails for capital hexadecimal digits: the body [\x4A]
    denotes the character [J], but [unescape] returns [x4A]. *)
Lemma unescape_capital_hex_counterexample :
  Unescaped is_hex_any (js "\x4A") (js "J")
  /\ unescape (js "'\x4A'") = Some (js "x4A")
  /\ unescape (js "'\x4A'") <> Some (js "J").
Proof.
  split; [|split].
  - apply (U_x _ 52 65 [] []); [reflexivity|reflexivity|apply U_end].
  - reflexivity.
  - discriminate.
Qed.

End BaseFacts.

Module SixFacts.
Import Six.

Lemma machine_loop_mono (fuel fuel' : nat) (code : list instr)
    (t : option tracer) (steps : budget) (m : memory) (out : output) :
  (fuel <= fuel')%nat ->
  machine_loop fuel code t steps m out <> OutOfFuel ->
  machine_loop fuel' code t steps m out = machine_loop fuel code t steps m out.
Proof.
  revert fuel' steps m out.
  induction fuel as [|fuel IH]; intros fuel' steps m out Hle Hok.
  - destruct fuel'; cbn [machine_loop] in *; [reflexivity|].
    destruct (_ && _); [congruence|reflexivity].
  - destruct fuel' as [|fuel']; [lia|]. cbn [machine_loop] in *.
    destruct (_ && _); [|reflexivity].
    destruct (pc m <? 0); [reflexivity|].
    destruct (code !! Z.to_nat (pc m)); [|reflexivity].
    destruct (exec _ _). apply IH; [lia|exact Hok].
Qed.

(** C8.  For the program [Push 3; Push 4; Add; Print 1; Pop], the executable
    returned by [run(0)], invoked without a step budget, prints [7] (and
    nothing else); invoked with a null memory and [steps = 2] it halts after
    the second [Push] with memory contents [3, 4], the program counter at
    [2] and [continue] set to [true], having traced the initial memory and
    the two instructions. *)
Theorem run_scenario (fuel : nat) :
  (5 <= fuel)%nat ->
  run program 0 0 None fuel None None
    = Returned (Memory [] 5 (Some false)) None [[IVal (Num 7)]]
  /\ run program 0 0 None fuel None (Some 2)
    = Returned (Memory [Num 3; Num 4] 2 (Some true)) (Some TraceAll)
        [[IStr "[  ]"];
         [IStr "[ 3 ]"; IStr "0:"; IStr "memory => this.Push(3)(memory)"];
         [IStr "[ 3 4 ]"; IStr "1:"; IStr "memory => this.Push(4)(memory)"]].
Proof.
  intros Hf. unfold run, StackMachine. cbn [Z.eqb fmap option_fmap option_map].
  split.
  - rewrite (machine_loop_mono 5 fuel) by (try exact Hf; discriminate).
    reflexivity.
  - rewrite (machine_loop_mono 5 fuel) by (try exact Hf; discriminate).
    reflexivity.
Qed.

Lemma run_scenario_witness :
  (5 <= 5)%nat
  /\ run program 0 0 None 5 None None
      = Returned (Memory [] 5 (Some false)) None [[IVal (Num 7)]].
Proof. split; [lia|]. apply (run_scenario 5). lia. Defined.

End SixFacts.

Module BNFFlags.
Import Js BNF.

Lemma T_apply_used (t : T) (o : T_op) :
  t_used t = true -> t_used (T_apply t o) = true.
Proof. by destruct o. Qed.

Lemma NT_apply_flags (n : NT) (o : NT_op) :
  (NT_empty n = true -> NT_empty (NT_apply n o) = true)
  /\ (nt_reached n = true -> nt_reached (NT_apply n o) = true)
  /\ (nt_finite n = true -> nt_finite (NT_apply n o) = true).
Proof. by destruct o. Qed.

Lemma Rule_apply_flags (r : Rule) (o : Rule_op) :
  (r_reached r = true -> r_reached (Rule_apply r o) = true)
  /\ (r_finite r = true -> r_finite (Rule_apply r o) = true)
  /\ (r_reduced r = true -> r_reduced (Rule_apply r o) = true).
Proof. by destruct o. Qed.

Lemma NT_ops_flags (ops : list NT_op) (n : NT) :
  (NT_empty n = true -> NT_empty (foldl NT_apply n ops) = true)
  /\ (nt_reached n = true -> nt_reached (foldl NT_apply n ops) = true)
  /\ (nt_finite n = true -> nt_finite (foldl NT_apply n ops) = true).
Proof.
  revert n. induction ops as [|o ops IH]; intros n; [done|].
  cbn. destruct (IH (NT_apply n o)) as (IH1 & IH2 & IH3).
  destruct (NT_apply_flags n o) as (H1 & H2 & H3). auto.
Qed.

Lemma Rule_ops_flags (ops : list Rule_op) (r : Rule) :
  (r_reached r = true -> r_reached (foldl Rule_apply r ops) = true)
  /\ (r_finite r = true -> r_finite (foldl Rule_apply r ops) = true)
  /\ (r_reduced r = true -> r_reduced (foldl Rule_apply r ops) = true).
Proof.
  revert r. induction ops as [|o ops IH]; intros r; [done|].
  cbn. destruct (IH (Rule_apply r o)) as (IH1 & IH2 & IH3).
  destruct (Rule_apply_flags r o) as (H1 & H2 & H3). auto.
Qed.

Lemma T_ops_used (ops : list T_op) (t : T) :
  t_used t = true -> t_used (foldl T_apply t ops) = true.
Proof.
  revert t. induction ops as [|o ops IH]; intros t H; [exact H|].
  cbn. apply IH. by apply T_apply_used.
Qed.

(** C9.  The setters of [NT.empty], [NT.reached], [NT.finite],
    [Rule.reached], [Rule.finite], [Rule.reduced] and [T.used] ignore the
    assigned value and set the flag to [true]; and whatever sequence of
    operations is applied to an object, a flag that is [true] stays
    [true]. *)
Theorem flags_are_monotone :
  (forall (v : value) (n : NT),
      NT_empty (NT_set_empty v n) = true
      /\ nt_reached (NT_set_reached v n) = true
      /\ nt_finite (NT_set_finite v n) = true)
  /\ (forall (v : value) (r : Rule),
      r_reached (Rule_set_reached v r) = true
      /\ r_finite (Rule_set_finite v r) = true
      /\ r_reduced (Rule_set_reduced v r) = true)
  /\ (forall (v : value) (t : T), t_used (T_set_used v t) = true)
  /\ (forall (ops : list NT_op) (n : NT),
      (NT_empty n = true -> NT_empty (foldl NT_apply n ops) = true)
      /\ (nt_reached n = true -> nt_reached (foldl NT_apply n ops) = true)
      /\ (nt_finite n = true -> nt_finite (foldl NT_apply n ops) = true))
  /\ (forall (ops : list Rule_op) (r : Rule),
      (r_reached r = true -> r_reached (foldl Rule_apply r ops) = true)
      /\ (r_finite r = true -> r_finite (foldl Rule_apply r ops) = true)
      /\ (r_reduced r = true -> r_reduced (foldl Rule_apply r ops) = true))
  /\ (forall (ops : list T_op) (t : T),
      t_used t = true -> t_used (foldl T_apply t ops) = true).
Proof.
  split; [done|]. split; [done|]. split; [done|].
  split; [exact NT_ops_flags|]. split; [exact Rule_ops_flags|exact T_ops_used].
Qed.

End BNFFlags.

Module BNFAdvance.
Import Js BNF.
#[local] Open Scope nat_scope.

(** *** What depends on the tables only *)

Lemma same_tables_refl (g : Grammar) : same_tables g g.
Proof. by repeat split. Qed.

Lemma same_tables_trans (g1 g2 g3 : Grammar) :
  same_tables g1 g2 -> same_tables g2 g3 -> same_tables g1 g3.
Proof.
  intros (A1 & B1 & C1 & D1) (A2 & B2 & C2 & D2). repeat split; congruence.
Qed.

Lemma same_rule (g g' : Grammar) (j : nat) :
  same_tables g g' ->
  rule_core <$> rules g' !! j = rule_core <$> rules g !! j.
Proof. intros (_ & _ & _ & H). by rewrite <- !list_lookup_fmap, H. Qed.

Lemma same_rule_Some (g g' : Grammar) (j : nat) (rule : Rule) :
  same_tables g g' -> rules g !! j = Some rule ->
  exists rule', rules g' !! j = Some rule' /\ rule_core rule' = rule_core rule.
Proof.
  intros H Hj. pose proof (same_rule g g' j H) as E. rewrite Hj in E.
  destruct (rules g' !! j) as [rule'|]; [|discriminate E].
  exists rule'. split; [done|]. cbn in E. congruence.
Qed.

Lemma same_symbols (g g' : Grammar) (j : nat) :
  same_tables g g' ->
  r_symbols <$> rules g' !! j = r_symbols <$> rules g !! j.
Proof.
  intros H. pose proof (same_rule g g' j H) as E.
  destruct (rules g' !! j) as [r'|], (rules g !! j) as [r|]; cbn in E |- *;
    try discriminate E; [|done].
  injection E as _ E _ _. by rewrite E.
Qed.

Lemma same_length (g g' : Grammar) :
  same_tables g g' -> length (rules g') = length (rules g).
Proof.
  intros (_ & _ & _ & H). apply (f_equal length) in H.
  by rewrite !length_fmap in H.
Qed.

Lemma same_symbol_ord (g g' : Grammar) (s : symbol) :
  same_tables g g' -> symbol_ord g' s = symbol_ord g s.
Proof. intros (_ & _ & E & _). destruct s; cbn; [done|by rewrite E]. Qed.

Lemma next_symbol_alt (g : Grammar) (m : Mark) :
  next_symbol g m = (r_symbols <$> rules g !! mark_rule m) ≫= (.!! position m).
Proof. unfold next_symbol. by destruct (rules g !! mark_rule m). Qed.

Lemma same_next_symbol (g g' : Grammar) (m : Mark) :
  same_tables g g' -> next_symbol g' m = next_symbol g m.
Proof. intros H. by rewrite !next_symbol_alt, (same_symbols g g' _ H). Qed.

Lemma mark_alt (g : Grammar) (r p : nat) :
  mark g r p
  = (r_symbols <$> rules g !! r) ≫= fun ss =>
      if (p <=? length ss) then Some (mkMark r p (p =? length ss)) else None.
Proof. unfold mark. by destruct (rules g !! r). Qed.

Lemma same_mark (g g' : Grammar) (r p : nat) :
  same_tables g g' -> mark g' r p = mark g r p.
Proof. intros H. by rewrite !mark_alt, (same_symbols g g' _ H). Qed.

Lemma same_eof_ord (g g' : Grammar) :
  same_tables g g' -> eof_ord g' = eof_ord g.
Proof. intros (E & _). unfold eof_ord. by rewrite E. Qed.

Lemma same_terminal (g g' : Grammar) (t : nat) :
  same_tables g g' -> terminal g' t = terminal g t.
Proof. intros (E1 & E2 & _). unfold terminal. by rewrite E1, E2. Qed.

Lemma same_marks (g g' : Grammar) (l : list nat) :
  same_tables g g' ->
  mapM (fun r => mark g' r 0) l = mapM (fun r => mark g r 0) l.
Proof.
  intros H. induction l as [|r l IH]; [done|]. cbn.
  by rewrite (same_mark g g' r 0 H), IH.
Qed.

Lemma same_closure (g g' : Grammar) (fuel : nat) :
  same_tables g g' ->
  forall c core messages,
    closure fuel g' c core messages = closure fuel g c core messages.
Proof.
  intros H. induction fuel as [|fuel IH]; intros c core messages; [done|].
  cbn [closure]. destruct (core !! c) as [m|]; [|done].
  rewrite IH. destruct (complete m); [done|].
  rewrite (same_next_symbol g g' m H).
  destruct (next_symbol g m) as [s|]; [|done]. cbn.
  rewrite (same_symbol_ord g g' s H).
  destruct (symbol_ord g s) as [ord|]; [|done]. cbn.
  destruct s as [|i]; cbn; [apply IH|].
  destruct (bool_decide _); cbn; [apply IH|].
  pose proof H as (_ & _ & En & _). rewrite En.
  destruct (nts g !! i) as [nt|]; [|done]. cbn.
  rewrite (same_marks g g' (nt_rules nt) H).
  destruct (mapM _ _); [|done]. cbn. apply IH.
Qed.

Lemma same_state (g g' : Grammar) (core : list Mark) :
  same_tables g g' -> state g' core = state g core.
Proof.
  intros H. unfold state, closure_fuel.
  rewrite (same_closure g g' _ H). by destruct H as (_ & _ & -> & _).
Qed.

Lemma same_next_core (g g' : Grammar) (a : nat) (ms : list Mark) :
  same_tables g g' ->
  forall next sym, next_core g' a ms next sym = next_core g a ms next sym.
Proof.
  intros H. induction ms as [|m ms IH]; intros next sym; [done|].
  cbn [next_core]. destruct (complete m); [apply IH|].
  rewrite (same_next_symbol g g' m H).
  destruct (next_symbol g m) as [s|]; [|done]. cbn.
  rewrite (same_symbol_ord g g' s H). destruct (bool_decide _); [|apply IH].
  unfold Mark_advance. rewrite (same_mark g g' _ _ H).
  destruct (mark g _ _); [|done]. cbn. apply IH.
Qed.

(** *** What the tables and the marks guarantee *)

Lemma wf_tables_spec (g : Grammar) :
  wf_tables g = true ->
  is_Some (eof_ord g) /\ rules g <> []
  /\ (forall j rule p i, rules g !! j = Some rule ->
        r_symbols rule !! p = Some (SNT i) -> i < length (nts g))
  /\ (forall i nt r, nts g !! i = Some nt -> r ∈ nt_rules nt ->
        r < length (rules g))
  /\ (forall i nt, nts g !! i = Some nt ->
        nt_ord nt = Some (length (lits g ++ tokens g) + i)).
Proof.
  unfold wf_tables. intros H.
  apply andb_true_iff in H as [H H5]. apply andb_true_iff in H as [H H4].
  apply andb_true_iff in H as [H H3]. apply andb_true_iff in H as [H1 H2].
  apply bool_decide_eq_true in H1. apply negb_true_iff, bool_decide_eq_false in H2.
  apply bool_decide_eq_true in H5.
  split; [exact H1|]. split; [exact H2|]. split; [|split].
  - intros j rule p i Hj Hp.
    apply list_elem_of_lookup_2, list_elem_of_In in Hj, Hp.
    apply (proj1 (forallb_forall _ _) H3) in Hj.
    apply (proj1 (forallb_forall _ _) Hj) in Hp. by apply Nat.ltb_lt in Hp.
  - intros i nt r Hi Hr.
    apply list_elem_of_lookup_2, list_elem_of_In in Hi. apply list_elem_of_In in Hr.
    apply (proj1 (forallb_forall _ _) H4) in Hi.
    apply (proj1 (forallb_forall _ _) Hi) in Hr. by apply Nat.ltb_lt in Hr.
  - intros i nt Hi. apply (f_equal (.!! i)) in H5.
    rewrite !list_lookup_fmap, Hi in H5.
    rewrite lookup_seq_lt in H5 by (by eapply lookup_lt_Some). cbn in H5.
    by injection H5.
Qed.

Lemma wf_symbol_ord (g : Grammar) (j : nat) (rule : Rule) (p : nat) (s : symbol) :
  wf_tables g = true -> rules g !! j = Some rule -> r_symbols rule !! p = Some s ->
  match s with
  | ST o => symbol_ord g s = Some o
  | SNT i => symbol_ord g s = Some (length (lits g ++ tokens g) + i)
             /\ exists nt, nts g !! i = Some nt
                           /\ nt_ord nt = Some (length (lits g ++ tokens g) + i)
  end.
Proof.
  intros Hg Hj Hp. destruct s as [o|i]; [done|].
  destruct (wf_tables_spec g Hg) as (_ & _ & H3 & _ & H5).
  pose proof (H3 j rule p i Hj Hp) as Hi.
  destruct (lookup_lt_is_Some_2 (nts g) i Hi) as [nt Hnt].
  pose proof (H5 i nt Hnt) as Ho. cbn. rewrite Hnt. cbn. split; [done|].
  by exists nt.
Qed.

Lemma wf_mark_spec (g : Grammar) (m : Mark) :
  wf_mark g m = true ->
  exists rule, rules g !! mark_rule m = Some rule
    /\ position m <= length (r_symbols rule)
    /\ complete m = (position m =? length (r_symbols rule)).
Proof.
  unfold wf_mark. destruct (rules g !! mark_rule m) as [rule|]; [|discriminate].
  intros H. apply andb_true_iff in H as [H1 H2]. exists rule.
  split; [done|]. split; [by apply Nat.leb_le|]. by apply eqb_prop.
Qed.

Lemma wf_mark_next (g : Grammar) (m : Mark) :
  wf_mark g m = true -> complete m = false ->
  exists rule s, rules g !! mark_rule m = Some rule
    /\ r_symbols rule !! position m = Some s
    /\ next_symbol g m = Some s /\ S (position m) <= length (r_symbols rule).
Proof.
  intros H Hc. destruct (wf_mark_spec g m H) as (rule & Hr & Hle & Hcomp).
  rewrite Hc in Hcomp. symmetry in Hcomp. apply Nat.eqb_neq in Hcomp.
  assert (Hlt : position m < length (r_symbols rule)) by lia.
  destruct (lookup_lt_is_Some_2 _ _ Hlt) as [s Hs].
  exists rule, s. unfold next_symbol. rewrite Hr. cbn. by repeat split.
Qed.

Lemma mark_wf (g : Grammar) (r p : nat) (m : Mark) :
  mark g r p = Some m -> wf_mark g m = true.
Proof.
  unfold mark, wf_mark. destruct (rules g !! r) as [rule|] eqn:Hr; [|discriminate].
  cbn. destruct (Nat.leb_spec p (length (r_symbols rule))) as [Hle|Hle]; [|discriminate].
  intros Hm. injection Hm as <-. cbn. rewrite Hr.
  apply andb_true_iff. split; [by apply Nat.leb_le|]. by destruct (p =? _).
Qed.

Lemma marks_total (g : Grammar) (l : list nat) :
  (forall r, r ∈ l -> r < length (rules g)) ->
  exists added, mapM (fun r => mark g r 0) l = Some added
    /\ length added = length l /\ forallb (wf_mark g) added = true.
Proof.
  induction l as [|r l IH]; intros Hl.
  - by exists [].
  - destruct IH as (added & E & Hlen & Hwf).
    { intros r' Hr'. apply Hl. by right. }
    assert (Hr : r < length (rules g)) by (apply Hl; by left).
    destruct (lookup_lt_is_Some_2 _ _ Hr) as [rule Hrule].
    assert (Hm : mark g r 0 = Some (mkMark r 0 (0 =? length (r_symbols rule)))).
    { unfold mark. rewrite Hrule. reflexivity. }
    exists (mkMark r 0 (0 =? length (r_symbols rule)) :: added).
    cbn [mapM]. rewrite Hm, E. split; [done|]. split; [cbn; by rewrite Hlen|].
    cbn [forallb]. apply andb_true_iff. split; [exact (mark_wf g r 0 _ Hm)|exact Hwf].
Qed.

(** *** The closure ends *)

Lemma closure_rest_le (ns : list NT) (m : gmap nat (option Message)) (o : nat)
    (v : option Message) :
  closure_rest ns (<[o := v]> m) <= closure_rest ns m.
Proof.
  unfold closure_rest. induction ns as [|nt ns IH]; [done|]. cbn.
  assert (H : (if bool_decide (is_Some (nt_ord nt ≫= (<[o:=v]> m !!.)))
               then 0 else length (nt_rules nt))
              <= (if bool_decide (is_Some (nt_ord nt ≫= (m !!.)))
                  then 0 else length (nt_rules nt))).
  { destruct (nt_ord nt) as [o'|]; cbn; [|done].
    repeat case_bool_decide; try lia.
    exfalso. match goal with H : ¬ _ |- _ => apply H end.
    apply lookup_insert_is_Some. destruct (decide (o = o')); [by left|by right]. }
  lia.
Qed.

Lemma closure_rest_lt (ns : list NT) (m : gmap nat (option Message)) (o : nat)
    (v : option Message) (i : nat) (nt : NT) :
  ns !! i = Some nt -> nt_ord nt = Some o -> m !! o = None ->
  closure_rest ns (<[o := v]> m) + length (nt_rules nt) <= closure_rest ns m.
Proof.
  revert i. induction ns as [|nt' ns IH]; intros i Hi Ho Hm; [done|].
  destruct i as [|i]; cbn in Hi.
  - injection Hi as ->. pose proof (closure_rest_le ns m o v) as Hle.
    unfold closure_rest in *. cbn. rewrite Ho. cbn.
    rewrite lookup_insert_eq, Hm. cbn. lia.
  - pose proof (IH i Hi Ho Hm) as Hle. pose proof (closure_rest_le [nt'] m o v) as H1.
    unfold closure_rest in *. cbn in *. lia.
Qed.

Lemma forallb_app_true {A} (f : A -> bool) (l1 l2 : list A) :
  forallb f l1 = true -> forallb f l2 = true -> forallb f (l1 ++ l2) = true.
Proof. intros H1 H2. by rewrite forallb_app, H1, H2. Qed.

Lemma closure_total (g : Grammar) (fuel : nat) :
  wf_tables g = true ->
  forall c core messages,
    forallb (wf_mark g) core = true ->
    (length core - c) + closure_rest (nts g) messages < fuel ->
    exists marks msgs,
      closure fuel g c core messages = Some (marks, msgs)
      /\ core `prefix_of` marks /\ forallb (wf_mark g) marks = true.
Proof.
  intros Hg. induction fuel as [|fuel IH]; intros c core messages Hwf Hlt; [lia|].
  cbn [closure]. destruct (core !! c) as [m|] eqn:Hc.
  2:{ exists core, messages. by repeat split. }
  pose proof (lookup_lt_Some _ _ _ Hc) as Hclt.
  assert (Hm : wf_mark g m = true).
  { apply (proj1 (forallb_forall _ _) Hwf). by eapply list_elem_of_In, list_elem_of_lookup_2. }
  destruct (complete m) eqn:Hcomp.
  { apply IH; [exact Hwf|lia]. }
  destruct (wf_mark_next g m Hm Hcomp) as (rule & s & Hr & Hs & -> & _). cbn.
  pose proof (wf_symbol_ord g _ rule _ s Hg Hr Hs) as Hord.
  assert (Hstep : forall ord added,
    length added + closure_rest (nts g) (<[ord:=None]> messages)
      <= closure_rest (nts g) messages ->
    forallb (wf_mark g) added = true ->
    exists marks msgs,
      closure fuel g (S c) (core ++ added) (<[ord:=None]> messages) = Some (marks, msgs)
      /\ core `prefix_of` marks /\ forallb (wf_mark g) marks = true).
  { intros ord added Hle Hadd.
    destruct (IH (S c) (core ++ added) (<[ord:=None]> messages)) as (marks & msgs & E & Hp & Hw).
    - by apply forallb_app_true.
    - rewrite length_app. lia.
    - exists marks, msgs. split; [exact E|]. split; [|exact Hw].
      etrans; [|exact Hp]. by apply prefix_app_r. }
  destruct s as [o|i].
  - rewrite Hord. cbn. apply Hstep; [|done]. cbn. apply closure_rest_le.
  - destruct Hord as (-> & nt & Hnt & Ho). cbn.
    case_bool_decide as Hin; cbn.
    + apply Hstep; [|done]. cbn. apply closure_rest_le.
    + rewrite Hnt. cbn.
      destruct (marks_total g (nt_rules nt)) as (added & -> & Hlen & Hadd).
      { intros r Hr'. destruct (wf_tables_spec g Hg) as (_ & _ & _ & H4 & _).
        by apply (H4 i nt). }
      cbn. apply Hstep; [|exact Hadd]. rewrite Hlen, Nat.add_comm.
      apply (closure_rest_lt _ _ _ _ i nt Hnt Ho).
      destruct (messages !! _) eqn:E; [|done]. exfalso. apply Hin. by eexists.
Qed.

Lemma state_total (g : Grammar) (core : list Mark) :
  wf_tables g = true -> forallb (wf_mark g) core = true ->
  exists st, state g core = Some st
    /\ core `prefix_of` marks st /\ BNF.core st = length core
    /\ forallb (wf_mark g) (marks st) = true.
Proof.
  intros Hg Hwf. unfold state.
  destruct (closure_total g (closure_fuel g core) Hg 0 core ∅ Hwf)
    as (marks & msgs & -> & Hp & Hw).
  { unfold closure_fuel, closure_rest.
    assert (E : sum_list ((fun nt => if bool_decide (is_Some (nt_ord nt ≫= ((∅ : gmap nat (option Message)) !!.)))
                                     then 0 else length (nt_rules nt)) <$> nts g)
                <= sum_list ((fun nt => length (nt_rules nt)) <$> nts g)).
    { induction (nts g) as [|nt ns IH]; [done|]. cbn.
      destruct (bool_decide _); lia. }
    lia. }
  cbn. eexists. split; [reflexivity|]. by repeat split.
Qed.

Lemma closure_pending (g : Grammar) (fuel : nat) :
  forall c core messages marks msgs,
    closure fuel g c core messages = Some (marks, msgs) ->
    (forall a v, messages !! a = Some v ->
       v = None /\ exists m, m ∈ core /\ before g a m = true) ->
    forall a v, msgs !! a = Some v ->
      v = None /\ exists m, m ∈ marks /\ before g a m = true.
Proof.
  induction fuel as [|fuel IH]; intros c core messages marks msgs H Hinv;
    [discriminate H|].
  cbn [closure] in H. destruct (core !! c) as [m|] eqn:Hc.
  2:{ injection H as <- <-. exact Hinv. }
  destruct (complete m) eqn:Hcomp; [by eapply IH|].
  destruct (next_symbol g m) as [s|] eqn:Hs; [|discriminate H]. cbn in H.
  destruct (symbol_ord g s) as [ord|] eqn:Ho; [|discriminate H]. cbn in H.
  match type of H with
  | ?x ≫= _ = _ => destruct x as [added|] eqn:Ha; [|discriminate H]
  end.
  cbn in H. apply (IH _ _ _ _ _ H). intros a v Hav.
  destruct (decide (ord = a)) as [<-|Hne].
  - rewrite lookup_insert_eq in Hav. injection Hav as <-. split; [done|].
    exists m. split.
    + apply elem_of_app. left. by eapply list_elem_of_lookup_2.
    + unfold before, next_ord. rewrite Hcomp, Hs. cbn. rewrite Ho.
      by apply bool_decide_eq_true.
  - rewrite lookup_insert_ne in Hav by done.
    destruct (Hinv a v Hav) as (-> & m' & Hm' & Hb). split; [done|].
    exists m'. split; [|exact Hb]. apply elem_of_app. by left.
Qed.

(** A state that [grammar.state()] makes is what [State.advance] is made
    for. *)
Lemma state_wf (g : Grammar) (core : list Mark) (st : State) :
  wf_tables g = true -> forallb (wf_mark g) core = true ->
  state g core = Some st -> wf_state g st = true.
Proof.
  intros Hg Hwf H.
  destruct (state_total g core Hg Hwf) as (st0 & H0 & _ & _ & Hm).
  assert (st0 = st) as -> by congruence. clear H0.
  unfold wf_state. rewrite Hm. cbn. unfold state in H.
  destruct (closure _ g 0 core ∅) as [[marks msgs]|] eqn:Hc; [|discriminate H].
  cbn in H. injection H as <-. cbn.
  apply forallb_forall. intros [a v] Hav.
  apply list_elem_of_In, elem_of_map_to_list in Hav.
  destruct (closure_pending g _ 0 core ∅ marks msgs Hc) with (a := a) (v := v)
    as (-> & m & Hin & Hb); [|exact Hav|].
  { intros a' v' H'. by rewrite lookup_empty in H'. }
  cbn. apply existsb_exists. exists m. by rewrite <- list_elem_of_In.
Qed.

(** *** The first loop *)

Lemma alter_core (v : value) (i : nat) (l : list Rule) :
  rule_core <$> alter (Rule_set_reduced v) i l = rule_core <$> l.
Proof.
  revert i. induction l as [|r l IH]; intros i; [done|].
  destruct i as [|i]; cbn; [done|]. by rewrite IH.
Qed.

Lemma set_reduced_same (g : Grammar) (rule : Rule) :
  same_tables g (set_reduced rule g).
Proof. repeat split. cbn. apply alter_core. Qed.

Lemma grows_by_refl (t : nat) (gs : Grammar * State) : grows_by t [] gs gs.
Proof.
  split; [apply same_tables_refl|]. repeat split; [done|].
  exists []. by rewrite app_nil_r, Nat.add_0_r.
Qed.

Lemma grows_by_trans (t : nat) (X Y : list conflict) (a b c : Grammar * State) :
  grows_by t X a b -> grows_by t Y b c -> grows_by t (X ++ Y) a c.
Proof.
  intros (S1 & M1 & C1 & P1 & n1 & E1 & R1 & F1) (S2 & M2 & C2 & P2 & n2 & E2 & R2 & F2).
  split; [by eapply same_tables_trans|]. split; [congruence|]. split; [congruence|].
  split; [intros x Hx; by apply P1, P2|].
  exists (n1 ++ n2). rewrite E2, E1, <- app_assoc. split; [done|].
  rewrite !filter_app, length_app, F1, F2. split; [lia|done].
Qed.

Lemma keeps_refl (t : nat) (gs : Grammar * State) : keeps t gs gs.
Proof. split; [apply grows_by_refl|done]. Qed.

Lemma keeps_trans (t : nat) (a b c : Grammar * State) :
  keeps t a b -> keeps t b c -> keeps t a c.
Proof.
  intros [G1 M1] [G2 M2]. split; [|congruence].
  exact (grows_by_trans t [] [] a b c G1 G2).
Qed.

Lemma foldl_keeps {A} (t : nat) (F : Grammar * State -> A -> Grammar * State)
    (l : list A) :
  (forall gs x, x ∈ l -> keeps t gs (F gs x)) ->
  forall gs, keeps t gs (foldl F gs l).
Proof.
  induction l as [|x l IH]; intros HF gs; [apply keeps_refl|]. cbn.
  eapply keeps_trans; [apply HF; by left|]. apply IH.
  intros gs' y Hy. apply HF. by right.
Qed.

Lemma install_reduce_grows (t t' : nat) (rule : Rule) (gs : Grammar * State) :
  grows_by t [] gs (install_reduce rule t' gs).
Proof.
  destruct gs as [g st]. split; [apply set_reduced_same|].
  split; [done|]. split; [done|]. split.
  - intros a. cbn. destruct (decide (t' = a)) as [->|Hne].
    + rewrite lookup_insert_eq. discriminate.
    + by rewrite lookup_insert_ne.
  - exists []. cbn. by rewrite app_nil_r, Nat.add_0_r.
Qed.

Lemma count_sr_grows (t : nat) (c : conflict) (gs : Grammar * State) :
  is_shift_reduce c = true ->
  grows_by t (if on_terminal t c then [c] else []) gs (count_sr c gs).
Proof.
  intros Hc. destruct gs as [g st]. split; [by repeat split|].
  split; [done|]. split; [done|]. split; [done|].
  exists [c]. split; [done|]. rewrite !filter_cons, !filter_nil, Hc.
  rewrite decide_True by done. split; [cbn; lia|].
  destruct (on_terminal t c); [by rewrite decide_True|by rewrite decide_False].
Qed.

Lemma count_rr_grows (t : nat) (c : conflict) (gs : Grammar * State) :
  is_shift_reduce c = false -> on_terminal t c = false ->
  grows_by t [] gs (count_rr c gs).
Proof.
  intros Hc Ht. destruct gs as [g st]. split; [by repeat split|].
  split; [done|]. split; [done|]. split; [done|].
  exists [c]. split; [done|]. rewrite !filter_cons, !filter_nil, Hc, Ht.
  rewrite !decide_False by done. split; [cbn; lia|done].
Qed.

Lemma reduce_entry_other (n : nat) (rule : Rule) (t t' : nat) (f : T)
    (gs : Grammar * State) :
  t' <> t -> keeps t gs (reduce_entry n rule t' f gs).
Proof.
  intros Hne. unfold reduce_entry.
  assert (Hoff : forall c, on_terminal t c = (match c with
            | ShiftReduce _ a _ | ReduceReduce _ a _ _ => a =? t end)) by (by intros []).
  assert (Hins : keeps t gs (install_reduce rule t' gs)).
  { split; [apply install_reduce_grows|].
    destruct gs as [g st]. cbn. by rewrite lookup_insert_ne. }
  destruct (messages gs.2 !! t') as [[m|]|] eqn:Hm; [| |exact Hins].
  - (* reduce/reduce *)
    set (c := ReduceReduce n t' (r_index rule)
                (default 0 match m_info m with IRule j => Some j | _ => None end)).
    assert (Hc : grows_by t [] gs (count_rr c gs)).
    { apply count_rr_grows; [done|]. cbn. by apply Nat.eqb_neq. }
    assert (Hk : keeps t gs (count_rr c gs)).
    { split; [exact Hc|]. by destruct gs. }
    match goal with |- keeps t gs (if ?b then _ else _) => destruct b end;
      [|exact Hk].
    eapply keeps_trans; [exact Hk|]. destruct gs as [g st]. cbn.
    split; [|cbn; by rewrite lookup_insert_ne].
    split; [apply same_tables_refl|]. split; [done|]. split; [done|]. split.
    + intros a. cbn. destruct (decide (t' = a)) as [->|Hna].
      * rewrite lookup_insert_eq. discriminate.
      * by rewrite lookup_insert_ne.
    + exists []. cbn. by rewrite app_nil_r, Nat.add_0_r.
  - (* null *)
    assert (Hsr : keeps t gs (count_sr (ShiftReduce n t' (r_index rule)) gs)).
    { split; [|by destruct gs].
      pose proof (count_sr_grows t (ShiftReduce n t' (r_index rule)) gs eq_refl) as H.
      cbn in H. by rewrite (proj2 (Nat.eqb_neq t' t) Hne) in H. }
    destruct (r_prec rule) as [rp|]; [|exact Hsr].
    destruct (t_prec f) as [fp|]; [|exact Hsr].
    destruct (level fp <? rp_level rp); [exact Hins|].
    destruct (rp_level rp <? level fp); [apply keeps_refl|].
    destruct (rp_assoc rp); [exact Hins|apply keeps_refl|].
    destruct gs as [g st]. split; [|cbn; by rewrite lookup_delete_ne].
    split; [apply set_reduced_same|]. split; [done|]. split; [done|]. split.
    + intros a. cbn. destruct (decide (t' = a)) as [->|Hna].
      * rewrite lookup_delete_eq. discriminate.
      * by rewrite lookup_delete_ne.
    + exists []. cbn. by rewrite app_nil_r, Nat.add_0_r.
Qed.

Lemma reduce_entry_at (n : nat) (rule : Rule) (t : nat) (f : T)
    (gs : Grammar * State) :
  messages gs.2 !! t = Some None ->
  grows_by t (reported n rule t f) gs (reduce_entry n rule t f gs)
  /\ messages (reduce_entry n rule t f gs).2 !! t = resolved rule t f.
Proof.
  intros Hm. unfold reduce_entry, reported, resolved. rewrite Hm.
  assert (Hins : grows_by t [] gs (install_reduce rule t gs)
                 /\ messages (install_reduce rule t gs).2 !! t
                    = Some (Some (mkMessage reduce (ST t) (IRule (r_index rule))))).
  { split; [apply install_reduce_grows|].
    destruct gs as [g st]. cbn. by rewrite lookup_insert_eq. }
  assert (Hsr : grows_by t [ShiftReduce n t (r_index rule)] gs
                  (count_sr (ShiftReduce n t (r_index rule)) gs)
                /\ messages (count_sr (ShiftReduce n t (r_index rule)) gs).2 !! t
                   = Some None).
  { split; [|by destruct gs].
    pose proof (count_sr_grows t (ShiftReduce n t (r_index rule)) gs eq_refl) as H.
    cbn in H. by rewrite Nat.eqb_refl in H. }
  destruct (r_prec rule) as [rp|]; [|exact Hsr].
  destruct (t_prec f) as [fp|]; [|exact Hsr].
  destruct (level fp <? rp_level rp); [exact Hins|].
  destruct (rp_level rp <? level fp); [split; [apply grows_by_refl|exact Hm]|].
  destruct (rp_assoc rp); [exact Hins|split; [apply grows_by_refl|exact Hm]|].
  destruct gs as [g st]. split; [|cbn; by rewrite lookup_delete_eq].
  split; [apply set_reduced_same|]. split; [done|]. split; [done|]. split.
  - intros a. cbn. destruct (decide (t = a)) as [->|Hna].
    + rewrite lookup_delete_eq. discriminate.
    + by rewrite lookup_delete_ne.
  - exists []. cbn. by rewrite app_nil_r, Nat.add_0_r.
Qed.

Lemma keys_ascending_elem (s : gset nat) (a : nat) :
  a ∈ keys_ascending s <-> a ∈ s.
Proof.
  unfold keys_ascending. rewrite merge_sort_Permutation. apply elem_of_elements.
Qed.

Lemma keys_ascending_NoDup (s : gset nat) : NoDup (keys_ascending s).
Proof.
  unfold keys_ascending. rewrite merge_sort_Permutation. apply NoDup_elements.
Qed.

Lemma keys_split (l : list nat) (t : nat) :
  NoDup l -> t ∈ l -> exists l1 l2, l = l1 ++ t :: l2 /\ (t ∉ l1) /\ (t ∉ l2).
Proof.
  intros Hnd Hin. apply list_elem_of_split in Hin as (l1 & l2 & ->).
  exists l1, l2. split; [done|].
  apply NoDup_app in Hnd as (_ & H1 & H2). apply NoDup_cons in H2 as [H2 _].
  split; [|done]. intros Hl1. apply (H1 t Hl1). by left.
Qed.

Lemma same_can_reduce (g g' : Grammar) (t : nat) (m : Mark) :
  same_tables g g' -> can_reduce g' t m = can_reduce g t m.
Proof.
  intros H. unfold can_reduce. f_equal.
  pose proof (same_rule g g' (mark_rule m) H) as E.
  destruct H as (_ & _ & -> & _).
  destruct (rules g' !! mark_rule m) as [r'|], (rules g !! mark_rule m) as [r|];
    cbn in E; try discriminate E; [|done].
  assert (r_nt r' = r_nt r) as -> by (unfold rule_core in E; congruence). done.
Qed.

Lemma resolved_core (rule rule' : Rule) (n t : nat) (f : T) :
  rule_core rule' = rule_core rule ->
  resolved rule' t f = resolved rule t f /\ reported n rule' t f = reported n rule t f.
Proof.
  intros E. unfold rule_core in E.
  assert (E1 : r_prec rule' = r_prec rule) by congruence.
  assert (E2 : r_index rule' = r_index rule) by congruence.
  unfold resolved, reported. by rewrite E1, E2.
Qed.

Lemma inner_keeps (n : nat) (rule : Rule) (t : nat) (ks : list nat) :
  t ∉ ks ->
  forall gs,
    keeps t gs
      (foldl (fun gs t' =>
                match terminal gs.1 t' with
                | Some f => reduce_entry n rule t' f gs
                | None => gs
                end) gs ks).
Proof.
  intros Ht. apply foldl_keeps. intros gs x Hx.
  destruct (terminal gs.1 x) as [f|]; [|apply keeps_refl].
  apply reduce_entry_other. intros ->. by apply Ht.
Qed.

Lemma foldl_keeps_same {A} (g : Grammar) (t : nat)
    (F : Grammar * State -> A -> Grammar * State) (l : list A) :
  (forall gs x, x ∈ l -> same_tables g gs.1 -> keeps t gs (F gs x)) ->
  forall gs, same_tables g gs.1 -> keeps t gs (foldl F gs l).
Proof.
  induction l as [|x l IH]; intros HF gs Hs; [apply keeps_refl|]. cbn.
  assert (H1 : keeps t gs (F gs x)) by (apply HF; [by left|done]).
  eapply keeps_trans; [exact H1|]. apply IH.
  - intros gs' y Hy. apply HF. by right.
  - eapply same_tables_trans; [exact Hs|]. by destruct H1 as [(? & _) _].
Qed.

Lemma mark_step_keeps (n : nat) (g : Grammar) (t : nat) (m : Mark)
    (gs : Grammar * State) :
  same_tables g gs.1 -> can_reduce g t m = false ->
  keeps t gs
    (if complete m then
       match rules gs.1 !! mark_rule m with
       | Some rule =>
           match nts gs.1 !! r_nt rule with
           | Some nt =>
               foldl (fun gs t' =>
                 match terminal gs.1 t' with
                 | Some f => reduce_entry n rule t' f gs
                 | None => gs
                 end) gs (keys_ascending (nt_follow nt))
           | None => gs
           end
       | None => gs
       end
     else gs).
Proof.
  intros Hs Hc. rewrite <- (same_can_reduce g gs.1 t m Hs) in Hc.
  unfold can_reduce in Hc. destruct (complete m); [|apply keeps_refl].
  cbn in Hc. destruct (rules gs.1 !! mark_rule m) as [rule|]; [|apply keeps_refl].
  destruct (nts gs.1 !! r_nt rule) as [nt|]; [|apply keeps_refl].
  apply bool_decide_eq_false in Hc. apply inner_keeps.
  by rewrite keys_ascending_elem.
Qed.

Lemma mark_step_at (n : nat) (g : Grammar) (t : nat) (f : T) (rule : Rule)
    (m : Mark) (gs : Grammar * State) :
  same_tables g gs.1 -> can_reduce g t m = true ->
  rules g !! mark_rule m = Some rule -> terminal g t = Some f ->
  messages gs.2 !! t = Some None ->
  let gs' :=
    (if complete m then
       match rules gs.1 !! mark_rule m with
       | Some rule =>
           match nts gs.1 !! r_nt rule with
           | Some nt =>
               foldl (fun gs t' =>
                 match terminal gs.1 t' with
                 | Some f => reduce_entry n rule t' f gs
                 | None => gs
                 end) gs (keys_ascending (nt_follow nt))
           | None => gs
           end
       | None => gs
       end
     else gs) in
  grows_by t (reported n rule t f) gs gs'
  /\ messages gs'.2 !! t = resolved rule t f.
Proof.
  intros Hs Hc Hrule Hf Hm gs'. subst gs'.
  rewrite <- (same_can_reduce g gs.1 t m Hs) in Hc. unfold can_reduce in Hc.
  destruct (same_rule_Some g gs.1 _ rule Hs Hrule) as (rule' & Hr' & Hcore).
  destruct (complete m); [|discriminate Hc]. cbn in Hc. rewrite Hr' in Hc |- *.
  destruct (nts gs.1 !! r_nt rule') as [nt|]; [|discriminate Hc].
  apply bool_decide_eq_true in Hc.
  destruct (keys_split (keys_ascending (nt_follow nt)) t
              (keys_ascending_NoDup _) (proj2 (keys_ascending_elem _ _) Hc))
    as (k1 & k2 & -> & Hk1 & Hk2).
  rewrite foldl_app. cbn [foldl].
  pose proof (inner_keeps n rule' t k1 Hk1 gs) as [G1 M1].
  set (gs1 := foldl _ gs k1) in *.
  assert (Hs1 : same_tables g gs1.1).
  { eapply same_tables_trans; [exact Hs|]. by destruct G1. }
  rewrite (same_terminal g gs1.1 t Hs1), Hf.
  assert (Hm1 : messages gs1.2 !! t = Some None) by congruence.
  destruct (reduce_entry_at n rule' t f gs1 Hm1) as [G2 M2].
  set (gs2 := reduce_entry n rule' t f gs1) in *.
  pose proof (inner_keeps n rule' t k2 Hk2 gs2) as [G3 M3].
  destruct (resolved_core rule rule' n t f Hcore) as [E1 E2].
  split; [|congruence].
  pose proof (grows_by_trans _ _ _ _ _ _ (grows_by_trans _ _ _ _ _ _ G1 G2) G3) as G.
  rewrite app_nil_r in G. cbn in G. by rewrite E2 in G.
Qed.

Lemma filter_one {A} (P : A -> Prop) {Hdec : forall x, Decision (P x)} (l : list A)
    (x : A) :
  filter P l = [x] ->
  exists l1 l2, l = l1 ++ x :: l2 /\ P x
    /\ (forall y, y ∈ l1 -> ~ P y) /\ (forall y, y ∈ l2 -> ~ P y).
Proof.
  induction l as [|y l IH]; intros H; [discriminate H|].
  rewrite filter_cons in H. destruct (decide (P y)) as [Hy|Hy].
  - injection H as -> Hnil. exists [], l. split; [done|]. split; [done|].
    split; [intros z Hz; by apply elem_of_nil in Hz|].
    intros z Hz Pz.
    assert (Hin : z ∈ filter P l) by (by apply list_elem_of_filter).
    rewrite Hnil in Hin. by apply elem_of_nil in Hin.
  - destruct (IH H) as (l1 & l2 & -> & Px & H1 & H2).
    exists (y :: l1), l2. split; [done|]. split; [done|]. split; [|done].
    intros z Hz. apply elem_of_cons in Hz as [->|Hz]; [done|by apply H1].
Qed.

(** The first loop with one complete rule that [t] can follow. *)
Lemma fill_reduces_at (n : nat) (g : Grammar) (st : State) (t : nat) (f : T)
    (rule : Rule) (mk : Mark) :
  filter (fun m => can_reduce g t m = true) (marks st) = [mk] ->
  rules g !! mark_rule mk = Some rule -> terminal g t = Some f ->
  messages st !! t = Some None ->
  grows_by t (reported n rule t f) (g, st) (fill_reduces n (g, st))
  /\ messages (fill_reduces n (g, st)).2 !! t = resolved rule t f.
Proof.
  intros Hone Hrule Hf Hm.
  destruct (filter_one _ _ _ Hone) as (ms1 & ms2 & Hms & Hmk & H1 & H2).
  unfold fill_reduces. cbn [snd]. rewrite Hms, foldl_app. cbn [foldl].
  set (F := fun (gs : Grammar * State) (mark : Mark) => _).
  assert (K1 : keeps t (g, st) (foldl F (g, st) ms1)).
  { apply (foldl_keeps_same g); [|apply same_tables_refl].
    intros gs x Hx Hs. apply (mark_step_keeps n g t x gs Hs).
    apply not_true_is_false. by apply H1. }
  set (gs1 := foldl F (g, st) ms1) in *. destruct K1 as [G1 M1].
  assert (Hs1 : same_tables g gs1.1) by (by destruct G1).
  assert (Hm1 : messages gs1.2 !! t = Some None) by (cbn in M1; congruence).
  destruct (mark_step_at n g t f rule mk gs1 Hs1 Hmk Hrule Hf Hm1) as [G2 M2].
  assert (Hs2 : same_tables g (F gs1 mk).1).
  { eapply same_tables_trans; [exact Hs1|]. by destruct G2. }
  assert (K3 : keeps t (F gs1 mk) (foldl F (F gs1 mk) ms2)).
  { apply (foldl_keeps_same g); [|exact Hs2].
    intros gs x Hx Hs. apply (mark_step_keeps n g t x gs Hs).
    apply not_true_is_false. by apply H2. }
  destruct K3 as [G3 M3]. split; [|exact (eq_trans M3 M2)].
  pose proof (grows_by_trans _ _ _ _ _ _ (grows_by_trans _ _ _ _ _ _ G1 G2) G3) as G.
  rewrite app_nil_r in G. exact G.
Qed.

(** *** The second loop *)

Lemma next_core_total (g : Grammar) (a : nat) (ms : list Mark) :
  wf_tables g = true -> forallb (wf_mark g) ms = true ->
  forall next sym,
    exists next' sym',
      next_core g a ms next sym = Some (next ++ next', sym')
      /\ forallb (wf_mark g) next' = true
      /\ (forall s, sym' = Some s -> sym = Some s \/ symbol_ord g s = Some a)
      /\ (is_Some sym \/ existsb (before g a) ms = true -> is_Some sym').
Proof.
  intros Hg. induction ms as [|m ms IH]; intros Hwf next sym.
  - exists [], sym. rewrite app_nil_r. split; [done|]. split; [done|].
    split; [by left|]. intros [H|H]; [done|discriminate H].
  - cbn [forallb] in Hwf. apply andb_true_iff in Hwf as [Hm Hms].
    cbn [next_core existsb]. unfold before at 1, next_ord.
    destruct (complete m) eqn:Hc; [exact (IH Hms next sym)|].
    destruct (wf_mark_next g m Hm Hc) as (rule & s & Hr & Hs & -> & Hle). cbn.
    case_bool_decide as Ha.
    + assert (Hadv : Mark_advance g m
                     = Some (mkMark (mark_rule m) (S (position m))
                               (S (position m) =? length (r_symbols rule)))).
      { unfold Mark_advance, mark. rewrite Hr. cbn -[Nat.leb Nat.eqb].
        by rewrite (proj2 (Nat.leb_le _ _) Hle). }
      rewrite Hadv. cbn -[Nat.leb Nat.eqb].
      destruct (IH Hms (next ++ [mkMark (mark_rule m) (S (position m))
                                   (S (position m) =? length (r_symbols rule))])
                  (Some s)) as (next' & sym' & E & Hw & Hsym & Hsome).
      eexists (_ :: next'), sym'. rewrite E, <- app_assoc. split; [done|].
      split.
      { cbn [forallb]. apply andb_true_iff.
        split; [exact (mark_wf g _ _ _ Hadv)|exact Hw]. }
      split.
      * intros s' Hs'. right. destruct (Hsym s' Hs') as [[= <-]|H]; done.
      * intros _. apply Hsome. left. by eexists.
    + destruct (IH Hms next sym) as (next' & sym' & E & Hw & Hsym & Hsome).
      exists next', sym'. by repeat split.
Qed.

Lemma terminal_symbol (g : Grammar) (s : symbol) (t : nat) :
  wf_tables g = true -> symbol_ord g s = Some t ->
  t < length (lits g ++ tokens g) -> s = ST t.
Proof.
  intros Hg Hs Ht. destruct s as [o|i]; cbn in Hs; [congruence|].
  destruct (nts g !! i) as [nt|] eqn:Hnt; [|discriminate Hs]. cbn in Hs.
  destruct (wf_tables_spec g Hg) as (_ & _ & _ & _ & H5).
  rewrite (H5 i nt Hnt) in Hs. injection Hs as Hs. lia.
Qed.

Lemma State_equals_same (st st' : State) (c : list Mark) :
  marks st' = marks st -> core st' = core st ->
  State_equals st' c = State_equals st c.
Proof. intros Hm Hc. unfold State_equals. by rewrite Hm, Hc. Qed.

Lemma Mark_equals_refl (m : Mark) : Mark_equals m m = true.
Proof. unfold Mark_equals. by rewrite !Nat.eqb_refl. Qed.

Lemma State_equals_new (st : State) (c : list Mark) :
  c `prefix_of` marks st -> core st = length c -> State_equals st c = true.
Proof.
  intros [k Hk] Hc. unfold State_equals. rewrite Hc, Nat.eqb_refl, Hk.
  rewrite take_app_length. cbn. apply forallb_forall. intros a Ha.
  apply existsb_exists. exists a. split; [exact Ha|apply Mark_equals_refl].
Qed.

Lemma fills_refl (n : nat) (gs : Grammar * list State) : fills n gs gs.
Proof.
  split; [apply same_tables_refl|]. split; [done|]. intros s st Hs. by exists st.
Qed.

Lemma fills_trans (n : nat) (a b c : Grammar * list State) :
  fills n a b -> fills n b c -> fills n a c.
Proof.
  intros (S1 & R1 & L1) (S2 & R2 & L2).
  split; [by eapply same_tables_trans|]. split; [congruence|].
  intros s st Hs. destruct (L1 s st Hs) as (st1 & Hs1 & M1 & C1 & E1 & N1).
  destruct (L2 s st1 Hs1) as (st2 & Hs2 & M2 & C2 & E2 & N2).
  exists st2. split; [done|]. split; [congruence|]. split; [congruence|].
  split; [congruence|]. intros Hne. by rewrite N2, N1.
Qed.

Lemma fills_length (n : nat) (a b : Grammar * list State) :
  fills n a b -> length a.2 <= length b.2.
Proof.
  intros (_ & _ & L). destruct (decide (length a.2 = 0)) as [->|Hne]; [lia|].
  assert (Hlt : pred (length a.2) < length a.2) by lia.
  destruct (lookup_lt_is_Some_2 _ _ Hlt) as [st Hst].
  destruct (L _ st Hst) as (st' & Hst' & _). apply lookup_lt_Some in Hst'. lia.
Qed.

Lemma set_message_lookup (n a : nat) (m : Message) (states : list State)
    (st : State) :
  states !! n = Some st ->
  set_message n a m states !! n
  = Some (with_messages st (<[a := Some m]> (messages st))).
Proof. intros H. unfold set_message. by rewrite list_lookup_alter_eq, H. Qed.

Lemma set_message_fills (n a : nat) (m : Message) (g : Grammar)
    (states : list State) :
  forall s st, states !! s = Some st ->
    exists st', set_message n a m states !! s = Some st'
      /\ marks st' = marks st /\ core st' = core st /\ errors st' = errors st
      /\ (s <> n -> st' = st).
Proof.
  intros s st Hs. unfold set_message. destruct (decide (n = s)) as [->|Hne].
  - rewrite list_lookup_alter_eq, Hs. cbn. eexists. by repeat split.
  - rewrite list_lookup_alter_ne by done. by exists st.
Qed.

Lemma filled_keeps (g : Grammar) (n a : nat) (gs gs' : Grammar * list State)
    (st st' : State) :
  fills n gs gs' -> gs.2 !! n = Some st -> gs'.2 !! n = Some st' ->
  messages st' !! a = messages st !! a ->
  filled g gs.2 st a -> filled g gs'.2 st' a.
Proof.
  intros (_ & _ & L) Hst Hst' Hm. unfold filled.
  destruct (L n st Hst) as (st1 & Hst1 & M1 & _).
  assert (st1 = st') as -> by congruence.
  destruct (bool_decide _); [congruence|].
  intros (s & target & next & sym & H1 & H2 & H3 & H4).
  destruct (L s target H2) as (target' & Ht' & M2 & C2 & _ & _).
  exists s, target', next, sym. split; [congruence|]. split; [exact Ht'|].
  split; [by rewrite M1|]. by rewrite (State_equals_same target target' next).
Qed.

Lemma fill_entry_spec (n a : nat) (g : Grammar) (gs : Grammar * list State)
    (st : State) :
  wf_tables g = true -> same_tables g gs.1 -> gs.2 !! n = Some st ->
  forallb (wf_mark g) (marks st) = true ->
  (messages st !! a = Some None -> existsb (before g a) (marks st) = true) ->
  exists gs' st',
    fill_entry n a gs = Some gs' /\ gs'.2 !! n = Some st' /\ fills n gs gs'
    /\ (forall b, b <> a -> messages st' !! b = messages st !! b)
    /\ (messages st !! a <> Some None -> messages st' !! a = messages st !! a)
    /\ (messages st !! a = Some None -> filled g gs'.2 st' a)
    /\ (forall s x, length gs.2 <= s -> gs'.2 !! s = Some x ->
          wf_state g x = true).
Proof.
  intros Hg Hs Hst Hwf Hmark. unfold fill_entry. rewrite Hst. cbn -[state].
  assert (Hold : forall (l : list State) s x,
            length l = length gs.2 -> length gs.2 <= s -> l !! s = Some x ->
            wf_state g x = true).
  { intros l s x Hl Hle Hx. apply lookup_lt_Some in Hx. lia. }
  destruct (messages st !! a) as [[m|]|] eqn:Hm.
  1,3: exists gs, st; split; [done|]; split; [done|]; split; [apply fills_refl|];
       split; [done|]; split; [done|]; split; [intros H; discriminate H|];
       intros k x; by apply (Hold gs.2).
  set (st1 := fun m => with_messages st (<[a := Some m]> (messages st))).
  assert (Hset : forall m states',
    exists st', (set_message n a m gs.2 ++ states') !! n = Some st'
      /\ st' = st1 m
      /\ (forall b, b <> a -> messages st' !! b = messages st !! b)
      /\ messages st' !! a = Some (Some m) /\ marks st' = marks st).
  { intros m states'. exists (st1 m).
    rewrite lookup_app_l
      by (unfold set_message; rewrite length_alter; by eapply lookup_lt_Some).
    rewrite (set_message_lookup n a m gs.2 st Hst). split; [done|]. split; [done|].
    split; [intros b Hb; cbn; by rewrite lookup_insert_ne|].
    split; [cbn; by rewrite lookup_insert_eq|done]. }
  assert (Hfill : forall m states', forall s st0, gs.2 !! s = Some st0 ->
    exists st', (set_message n a m gs.2 ++ states') !! s = Some st'
      /\ marks st' = marks st0 /\ core st' = core st0 /\ errors st' = errors st0
      /\ (s <> n -> st' = st0)).
  { intros m states' s st0 Hs0.
    rewrite lookup_app_l
      by (unfold set_message; rewrite length_alter; by eapply lookup_lt_Some).
    by apply set_message_fills. }
  rewrite (same_eof_ord g gs.1 Hs). unfold filled.
  case_bool_decide as Heof.
  - (* accept *)
    destruct (wf_tables_spec g Hg) as (_ & Hne & _).
    destruct (rules gs.1) as [|r0 rs] eqn:Hrs.
    { exfalso. apply Hne. apply length_zero_iff_nil.
      rewrite <- (same_length g gs.1 Hs), Hrs. reflexivity. }
    rewrite <- Hrs.
    destruct (Hset (accept_message a) []) as (st' & Hl & -> & Hb & Ha & _).
    rewrite app_nil_r in Hl.
    eexists (_, _), _. split; [reflexivity|]. split; [exact Hl|]. split.
    { split; [|split; [done|]].
      - repeat split. cbn. apply alter_core.
      - intros s st0 Hs0. destruct (Hfill (accept_message a) [] s st0 Hs0) as (st' & E & H).
        rewrite app_nil_r in E. by exists st'. }
    split; [exact Hb|]. split; [done|]. split; [intros _; exact Ha|].
    intros k x. apply (Hold (set_message n a (accept_message a) gs.2)).
    unfold set_message. by rewrite length_alter.
  - (* shift or goto *)
    rewrite (same_next_core g gs.1 a (marks st) Hs).
    destruct (next_core_total g a (marks st) Hg Hwf [] None)
      as (next & sym & E & Hnext & _ & Hsome).
    rewrite E. cbn -[state].
    destruct Hsome as [s0 ->]; [right; by apply Hmark|]. cbn -[state].
    destruct (find_state gs.2 next) as [k|] eqn:Hfind.
    + unfold find_state in Hfind.
      destruct (list_find _ gs.2) as [[k' target]|] eqn:Hlf; [|discriminate Hfind].
      injection Hfind as ->. apply list_find_Some in Hlf as (Hk & Heq & _).
      destruct (Hset (shift_or_goto s0 k) []) as (st' & Hl & -> & Hb & Ha & Hmk).
      rewrite app_nil_r in Hl.
      eexists (_, _), _. split; [reflexivity|]. split; [exact Hl|]. split.
      { split; [apply same_tables_refl|]. split; [done|].
        intros k0 st0 Hs0. destruct (Hfill (shift_or_goto s0 k) [] k0 st0 Hs0) as (st' & E' & H).
        rewrite app_nil_r in E'. by exists st'. }
      split; [exact Hb|]. split; [done|]. split.
      2:{ intros k0 x. apply (Hold (set_message n a (shift_or_goto s0 k) gs.2)).
          unfold set_message. by rewrite length_alter. }
      intros _.
      destruct (Hfill (shift_or_goto s0 k) [] k target Hk) as (target' & Ht' & M & C & _).
      rewrite app_nil_r in Ht'.
      exists k, target', next, s0. split; [exact Ha|]. split; [exact Ht'|].
      split; [exact E|]. by rewrite (State_equals_same target target' next).
    + rewrite (same_state g gs.1 next Hs).
      destruct (state_total g next Hg Hnext) as (new & Hnew & Hp & Hc & _).
      rewrite Hnew. cbn.
      destruct (Hset (shift_or_goto s0 (length gs.2)) [new])
        as (st' & Hl & -> & Hb & Ha & Hmk).
      eexists (_, _), _. split; [reflexivity|]. split; [exact Hl|]. split.
      { split; [apply same_tables_refl|]. split; [done|].
        intros k0 st0 Hs0. exact (Hfill _ [new] k0 st0 Hs0). }
      split; [exact Hb|]. split; [done|].
      assert (Hlast : forall s x, length gs.2 <= s ->
                (set_message n a (shift_or_goto s0 (length gs.2)) gs.2 ++ [new]) !! s
                = Some x -> s = length gs.2 /\ x = new).
      { intros k x Hle Hx.
        rewrite lookup_app_r in Hx by (unfold set_message; by rewrite length_alter).
        unfold set_message in Hx. rewrite length_alter in Hx.
        destruct (k - length gs.2) as [|d] eqn:Hd; cbn in Hx; [|done].
        injection Hx as <-. split; [lia|done]. }
      split.
      { intros _.
        exists (length gs.2), new, next, s0. split; [exact Ha|]. split.
        { cbn. rewrite lookup_app_r by (unfold set_message; by rewrite length_alter).
          unfold set_message. by rewrite length_alter, Nat.sub_diag. }
        split; [exact E|]. by apply State_equals_new. }
      intros k x Hle Hx. cbn in Hx. destruct (Hlast k x Hle Hx) as [_ ->].
      by apply (state_wf g next).
Qed.

Lemma filled_entry (g : Grammar) (states : list State) (st : State) (a : nat) :
  filled g states st a -> exists m, messages st !! a = Some (Some m).
Proof.
  unfold filled. destruct (bool_decide _); [by eexists|].
  intros (s & target & next & sym & H & _). by eexists.
Qed.

Lemma fill_entries_spec (n : nat) (g : Grammar) (keys : list nat) :
  wf_tables g = true -> NoDup keys ->
  forall gs st,
    same_tables g gs.1 -> gs.2 !! n = Some st ->
    forallb (wf_mark g) (marks st) = true ->
    (forall a, messages st !! a = Some None ->
       existsb (before g a) (marks st) = true) ->
    exists gs' st',
      fill_entries n keys gs = Some gs' /\ gs'.2 !! n = Some st' /\ fills n gs gs'
      /\ (forall b, b ∉ keys -> messages st' !! b = messages st !! b)
      /\ (forall b, messages st !! b <> Some None ->
            messages st' !! b = messages st !! b)
      /\ (forall b, b ∈ keys -> messages st !! b = Some None ->
            filled g gs'.2 st' b)
      /\ (forall s x, length gs.2 <= s -> gs'.2 !! s = Some x ->
            wf_state g x = true).
Proof.
  intros Hg. induction keys as [|a ks IH]; intros Hnd gs st Hs Hst Hwf Hmark.
  - exists gs, st. split; [done|]. split; [done|]. split; [apply fills_refl|].
    split; [done|]. split; [done|].
    split; [intros b Hb; by apply elem_of_nil in Hb|].
    intros s x Hle Hx. apply lookup_lt_Some in Hx. lia.
  - apply NoDup_cons in Hnd as [Ha Hnd]. cbn [fill_entries].
    destruct (fill_entry_spec n a g gs st Hg Hs Hst Hwf (Hmark a))
      as (gs1 & st1 & -> & Hst1 & F1 & B1 & K1 & D1 & N1). cbn.
    assert (Hm1 : marks st1 = marks st).
    { destruct F1 as (_ & _ & L). destruct (L n st Hst) as (x & Hx & M & _).
      congruence. }
    assert (Hpend : forall b, messages st1 !! b = Some None ->
                      messages st !! b = Some None).
    { intros b Hb. destruct (decide (b = a)) as [->|Hne]; [|by rewrite <- B1].
      destruct (messages st !! a) as [[m|]|] eqn:Hp; [|done|].
      - rewrite K1 in Hb by discriminate. discriminate Hb.
      - rewrite K1 in Hb by discriminate. discriminate Hb. }
    destruct (IH Hnd gs1 st1) as (gs' & st' & E & Hst' & F2 & B2 & K2 & D2 & N2).
    + eapply same_tables_trans; [exact Hs|]. by destruct F1.
    + exact Hst1.
    + by rewrite Hm1.
    + intros b Hb. rewrite Hm1. by apply Hmark, Hpend.
    + exists gs', st'. split; [exact E|]. split; [exact Hst'|].
      split; [by eapply fills_trans|]. split; [|split; [|split]].
      * intros b Hb. apply not_elem_of_cons in Hb as [Hne Hb].
        by rewrite B2, B1.
      * intros b Hb. rewrite K2.
        -- destruct (decide (b = a)) as [->|Hne]; [by apply K1|by apply B1].
        -- intros Hb1. by apply Hb, Hpend.
      * intros b Hb Hp. apply elem_of_cons in Hb as [->|Hb].
        -- apply (filled_keeps g n a gs1 gs' st1 st' F2 Hst1 Hst'); [by apply B2|].
           by apply D1.
        -- apply D2; [exact Hb|]. rewrite B1; [exact Hp|]. intros ->. by apply Ha.
      * intros s x Hle Hx.
        destruct (decide (length gs1.2 <= s)) as [Hge|Hlt]; [by eapply N2|].
        assert (Hs1 : is_Some (gs1.2 !! s)) by (apply lookup_lt_is_Some_2; lia).
        destruct Hs1 as [x1 Hx1]. destruct F2 as (_ & _ & L2).
        destruct (L2 s x1 Hx1) as (x' & Hx' & _ & _ & _ & Hsame).
        assert (s <> n) by (apply lookup_lt_Some in Hst; lia).
        assert (x = x1) as -> by (rewrite <- Hsame by done; congruence).
        by eapply N1.
Qed.

(** *** [State.advance] returns for the states that [check()] creates *)

Lemma keeps_steady (t : nat) (gs gs' : Grammar * State) :
  keeps t gs gs' -> steady gs gs'.
Proof. intros [(S1 & M1 & _ & P1 & _) _]. split; [exact S1|]. by split. Qed.

Lemma steady_refl (gs : Grammar * State) : steady gs gs.
Proof. split; [apply same_tables_refl|]. by split. Qed.

Lemma steady_trans (a b c : Grammar * State) :
  steady a b -> steady b c -> steady a c.
Proof.
  intros (S1 & M1 & P1) (S2 & M2 & P2).
  split; [by eapply same_tables_trans|]. split; [congruence|].
  intros x Hx. by apply P1, P2.
Qed.

Lemma foldl_steady {A} (F : Grammar * State -> A -> Grammar * State) (l : list A) :
  (forall gs x, steady gs (F gs x)) -> forall gs, steady gs (foldl F gs l).
Proof.
  intros HF. induction l as [|x l IH]; intros gs; [apply steady_refl|]. cbn.
  eapply steady_trans; [apply HF|apply IH].
Qed.

Lemma fill_reduces_steady (n : nat) (gs : Grammar * State) :
  steady gs (fill_reduces n gs).
Proof.
  unfold fill_reduces. apply foldl_steady. intros gs' m.
  destruct (complete m); [|apply steady_refl].
  destruct (rules gs'.1 !! mark_rule m) as [rule|]; [|apply steady_refl].
  destruct (nts gs'.1 !! r_nt rule) as [nt|]; [|apply steady_refl].
  apply foldl_steady. intros gs'' t'.
  destruct (terminal gs''.1 t') as [f|]; [|apply steady_refl].
  apply (keeps_steady (S t')), reduce_entry_other. lia.
Qed.

Lemma wf_state_spec (g : Grammar) (st : State) :
  wf_state g st = true ->
  forallb (wf_mark g) (marks st) = true
  /\ forall a, messages st !! a = Some None ->
       existsb (before g a) (marks st) = true.
Proof.
  unfold wf_state. intros H. apply andb_true_iff in H as [H1 H2].
  split; [exact H1|]. intros a Ha.
  apply elem_of_map_to_list, list_elem_of_In in Ha.
  exact (proj1 (forallb_forall _ _) H2 _ Ha).
Qed.

Lemma advance_total (n : nat) (g : Grammar) (gs : Grammar * list State)
    (st : State) :
  wf_tables g = true -> same_tables g gs.1 -> gs.2 !! n = Some st ->
  wf_state g st = true ->
  exists gs',
    advance n gs = Some gs' /\ same_tables g gs'.1
    /\ (forall s x, s <> n -> gs.2 !! s = Some x -> gs'.2 !! s = Some x)
    /\ (forall s x, length gs.2 <= s -> gs'.2 !! s = Some x ->
          wf_state g x = true).
Proof.
  intros Hg Hs Hst Hwf. destruct (wf_state_spec g st Hwf) as [Hmarks Hbefore].
  unfold advance. rewrite Hst. cbn [mbind option_bind].
  destruct (fill_reduces_steady n (gs.1, st)) as (S1 & M1 & P1).
  set (gst := fill_reduces n (gs.1, st)) in *. cbn [fst snd] in S1, M1, P1.
  assert (Hn : (<[n := gst.2]> gs.2) !! n = Some gst.2).
  { apply list_lookup_insert_eq. by eapply lookup_lt_Some. }
  destruct (fill_entries_spec n g (keys_ascending (dom (messages gst.2))) Hg
              (keys_ascending_NoDup _) (gst.1, <[n := gst.2]> gs.2) gst.2)
    as (gs' & st' & E & _ & (S2 & _ & L) & _ & _ & _ & N).
  { by eapply same_tables_trans. }
  { exact Hn. }
  { by rewrite M1. }
  { intros a Ha. rewrite M1. by apply Hbefore, P1. }
  cbn [fst snd] in *. exists gs'. split; [exact E|].
  split; [eapply same_tables_trans; [exact Hs|]; by eapply same_tables_trans|].
  split.
  - intros s x Hne Hx.
    destruct (L s x) as (x' & Hx' & _ & _ & _ & Hsame).
    { by rewrite list_lookup_insert_ne. }
    by rewrite Hx', Hsame.
  - intros s x Hle Hx. apply (N s x); [|exact Hx]. by rewrite length_insert.
Qed.

Lemma advance_states_wf (g : Grammar) (fuel : nat) :
  wf_tables g = true ->
  forall s stop gs,
    stop - s < fuel -> s <= stop -> same_tables g gs.1 ->
    (forall k x, s <= k -> gs.2 !! k = Some x -> wf_state g x = true) ->
    exists gs',
      advance_states fuel s stop gs = Some gs' /\ same_tables g gs'.1
      /\ (forall k x, stop <= k -> gs'.2 !! k = Some x -> wf_state g x = true).
Proof.
  intros Hg. induction fuel as [|fuel IH]; intros s stop gs Hf Hle Hs Hinv; [lia|].
  cbn [advance_states].
  destruct (Nat.ltb_spec s stop) as [Hlt|Hge]; cbn [andb].
  2:{ exists gs. split; [done|]. split; [done|]. intros k x Hk. apply Hinv. lia. }
  destruct (Nat.ltb_spec s (length gs.2)) as [Hin|Hout].
  2:{ exists gs. split; [done|]. split; [done|]. intros k x Hk. apply Hinv. lia. }
  destruct (lookup_lt_is_Some_2 _ _ Hin) as [st Hst].
  destruct (advance_total s g gs st Hg Hs Hst (Hinv s st (Nat.le_refl _) Hst))
    as (gs1 & -> & S1 & L1 & N1). cbn.
  apply IH; [lia|lia|exact S1|]. intros k x Hk Hx.
  destruct (Nat.ltb_spec k (length gs.2)) as [Hold|Hnew]; [|by eapply N1].
  destruct (lookup_lt_is_Some_2 _ _ Hold) as [y Hy].
  assert (x = y) as ->.
  { rewrite (L1 k y) in Hx; [congruence|lia|exact Hy]. }
  apply (Hinv k); [lia|exact Hy].
Qed.

Lemma build_states_wf (g : Grammar) (fuel stop : nat) :
  wf_tables g = true -> stop < fuel ->
  exists gn states,
    build_states fuel stop g = Some (gn, states) /\ same_tables g gn
    /\ (forall k x, stop <= k -> states !! k = Some x -> wf_state g x = true).
Proof.
  intros Hg Hf. unfold build_states.
  destruct (wf_tables_spec g Hg) as (_ & Hne & _).
  destruct (rules g) as [|r0 rs] eqn:Hrs; [done|].
  assert (Hm : mark g 0 0 = Some (mkMark 0 0 (0 =? length (r_symbols r0)))).
  { unfold mark. rewrite Hrs. reflexivity. }
  rewrite Hm. cbn [mbind option_bind].
  assert (Hcore : forallb (wf_mark g) [mkMark 0 0 (0 =? length (r_symbols r0))] = true).
  { cbn [forallb]. by rewrite (mark_wf g 0 0 _ Hm). }
  destruct (state_total g _ Hg Hcore) as (st0 & Hst0 & _).
  rewrite Hst0. cbn [mbind option_bind].
  destruct (advance_states_wf g fuel Hg 0 stop (g, [st0])) as ([gn states] & E & S1 & N1).
  - lia.
  - lia.
  - apply same_tables_refl.
  - intros k x _ Hx. destruct k as [|k]; [|done]. injection Hx as <-.
    by eapply state_wf.
  - exists gn, states. split; [exact E|]. split; [exact S1|exact N1].
Qed.

Lemma wf_mark_alt (g : Grammar) (m : Mark) :
  wf_mark g m
  = match r_symbols <$> rules g !! mark_rule m with
    | Some ss => (position m <=? length ss)
                 && eqb (complete m) (position m =? length ss)
    | None => false
    end.
Proof. unfold wf_mark. by destruct (rules g !! mark_rule m). Qed.

Lemma same_wf_mark (g g' : Grammar) (m : Mark) :
  same_tables g g' -> wf_mark g' m = wf_mark g m.
Proof. intros H. by rewrite !wf_mark_alt, (same_symbols g g' _ H). Qed.

Lemma same_before (g g' : Grammar) (a : nat) (m : Mark) :
  same_tables g g' -> before g' a m = before g a m.
Proof.
  intros H. unfold before, next_ord. rewrite (same_next_symbol g g' m H).
  destruct (next_symbol g m) as [s|]; [|done]. cbn.
  by rewrite (same_symbol_ord g g' s H).
Qed.

Lemma forallb_same {A} (f f' : A -> bool) (l : list A) :
  (forall x, f' x = f x) -> forallb f' l = forallb f l.
Proof. intros H. induction l as [|x l IH]; [done|]. cbn. by rewrite H, IH. Qed.

Lemma existsb_same {A} (f f' : A -> bool) (l : list A) :
  (forall x, f' x = f x) -> existsb f' l = existsb f l.
Proof. intros H. induction l as [|x l IH]; [done|]. cbn. by rewrite H, IH. Qed.

Lemma same_wf_state (g g' : Grammar) (st : State) :
  same_tables g g' -> wf_state g' st = wf_state g st.
Proof.
  intros H. unfold wf_state. f_equal.
  - apply forallb_same. intros m. by apply same_wf_mark.
  - apply forallb_same. intros [a [v|]]; [done|]. cbn.
    apply existsb_same. intros m. by apply same_before.
Qed.

Lemma forallb_symbols (P : list symbol -> bool) (l : list Rule) :
  forallb (fun rule => P (r_symbols rule)) l
  = forallb (fun c : nat * list symbol * nat * option rule_prec => P c.1.1.2)
      (rule_core <$> l).
Proof. induction l as [|r l IH]; [done|]. cbn. by rewrite IH. Qed.

Lemma same_wf_tables (g g' : Grammar) :
  same_tables g g' -> wf_tables g' = wf_tables g.
Proof.
  intros H. pose proof (same_eof_ord g g' H) as He.
  pose proof (same_length g g' H) as Hl. destruct H as (E1 & E2 & E3 & E4).
  unfold wf_tables. rewrite He, E1, E2, E3, Hl.
  rewrite (forallb_symbols
             (forallb (fun s => match s with
                                | ST _ => true
                                | SNT i => i <? length (nts g)
                                end)) (rules g')).
  rewrite (forallb_symbols
             (forallb (fun s => match s with
                                | ST _ => true
                                | SNT i => i <? length (nts g)
                                end)) (rules g)).
  rewrite E4. do 4 f_equal.
  destruct (rules g') as [|? ?], (rules g) as [|? ?]; done.
Qed.

(** Every state that [check()] creates is, when its turn comes, a state as
    the resolution of conflicts takes it: from a grammar with the tables
    that the beginning of [check()] has set up, the loop over the states
    arrives at each number [n], and the state with this number has marks
    that are marks and an entry [null] only for a symbol after a mark. *)
Lemma check_states_wf (g : Grammar) (fuel n : nat) :
  wf_tables g = true -> n < fuel ->
  exists gn states,
    build_states fuel n g = Some (gn, states) /\ wf_tables gn = true
    /\ forall st, states !! n = Some st -> wf_state gn st = true.
Proof.
  intros Hg Hf.
  destruct (build_states_wf g fuel n Hg Hf) as (gn & states & E & S1 & N1).
  exists gn, states. split; [exact E|].
  split; [by rewrite (same_wf_tables g gn S1)|].
  intros st Hst. rewrite (same_wf_state g gn st S1). by apply (N1 n).
Qed.

(** *** The entry after both loops *)

Lemma next_core_symbol (g : Grammar) (a : nat) (ms : list Mark) :
  forall next sym next' sym' s,
    next_core g a ms next sym = Some (next', sym') -> sym' = Some s ->
    sym = Some s \/ symbol_ord g s = Some a.
Proof.
  induction ms as [|m ms IH]; intros next sym next' sym' s H Hs; cbn [next_core] in H.
  - left. congruence.
  - destruct (complete m); [by eapply IH|].
    destruct (next_symbol g m) as [s0|]; [|discriminate H]. cbn in H.
    case_bool_decide as Ha; [|by eapply IH].
    destruct (Mark_advance g m) as [m'|]; [|discriminate H]. cbn in H.
    right. destruct (IH _ _ _ _ s H Hs) as [[= <-]|H']; done.
Qed.

Lemma State_equals_spec (st : State) (c : list Mark) :
  State_equals st c = true ->
  core st = length c
  /\ forall a, a ∈ take (core st) (marks st) ->
       exists b, b ∈ c /\ mark_rule b = mark_rule a /\ position b = position a.
Proof.
  unfold State_equals. intros H. apply andb_true_iff in H as [H1 H2].
  split; [by apply Nat.eqb_eq|]. intros a Ha. apply list_elem_of_In in Ha.
  apply (proj1 (forallb_forall _ _) H2), existsb_exists in Ha as (b & Hb & Hab).
  unfold Mark_equals in Hab. apply andb_true_iff in Hab as [E1 E2].
  apply Nat.eqb_eq in E1, E2. exists b. by rewrite list_elem_of_In.
Qed.

Lemma filled_shift (g : Grammar) (states : list State) (st : State) (t : nat) :
  wf_tables g = true -> t < length (lits g ++ tokens g) ->
  filled g states st t -> shift_entry g states st t.
Proof.
  intros Hg Ht. unfold filled, shift_entry. destruct (bool_decide _); [done|].
  intros (s & target & next & sym & H1 & H2 & H3 & H4).
  destruct (next_core_symbol g t (marks st) [] None next (Some sym) sym H3 eq_refl)
    as [H|H]; [discriminate H|].
  apply (terminal_symbol g sym t Hg) in H; [|exact Ht]. subst sym.
  destruct (State_equals_spec target next H4) as [H5 H6].
  by exists s, target, next.
Qed.

(** C1.  Let [State.advance] work on a state in which the terminal [t] has
    the entry [null], a shift is pending, and let a complete rule of the
    state be the only one that [t] can follow.  If the rule and the
    terminal both carry a precedence, the one with the higher level wins:
    the entry becomes the reduce of the rule if the level of the rule is
    higher, and the shift if it is lower; at equal levels a [%left] rule
    gets the reduce, a [%right] rule the shift, and [%nonassoc] leaves no
    entry, so that [t] is an error in the state; no conflict is reported for
    [t].  If the rule or the terminal has no precedence, one shift/reduce
    conflict is reported for [t], the counter counts it, and the entry is
    the shift.  The shift leads to the state with the marks before [t],
    advanced, as its core; for [$eof] it is [accept]. *)
Theorem shift_reduce_resolution (n : nat) (g : Grammar) (states : list State)
    (st : State) (mk : Mark) (rule : Rule) (t : nat) (f : T) :
  wf_tables g = true -> states !! n = Some st -> wf_state g st = true ->
  filter (fun m => can_reduce g t m = true) (marks st) = [mk] ->
  rules g !! mark_rule mk = Some rule -> terminal g t = Some f ->
  messages st !! t = Some None ->
  exists g' states' st' new,
    advance n (g, states) = Some (g', states') /\ states' !! n = Some st'
    /\ errors st' = errors st ++ new
    /\ sr g' = sr g + length (filter (fun c => is_shift_reduce c = true) new)
    /\ (forall rp fp, r_prec rule = Some rp -> t_prec f = Some fp ->
          filter (fun c => on_terminal t c = true) new = []
          /\ (level fp < rp_level rp ->
              messages st' !! t
              = Some (Some (mkMessage reduce (ST t) (IRule (r_index rule)))))
          /\ (rp_level rp < level fp -> shift_entry g states' st' t)
          /\ (rp_level rp = level fp ->
              match rp_assoc rp with
              | Left =>
                  messages st' !! t
                  = Some (Some (mkMessage reduce (ST t) (IRule (r_index rule))))
              | Right => shift_entry g states' st' t
              | Nonassoc => messages st' !! t = None
              end))
    /\ (r_prec rule = None \/ t_prec f = None ->
          filter (fun c => on_terminal t c = true) new
          = [ShiftReduce n t (r_index rule)]
          /\ shift_entry g states' st' t).
Proof.
  intros Hg Hst Hwf Hone Hrule Hf Hm.
  destruct (wf_state_spec g st Hwf) as [Hmarks Hbefore].
  destruct (fill_reduces_at n g st t f rule mk Hone Hrule Hf Hm) as [G M].
  unfold advance. cbn [fst snd]. rewrite Hst. cbn [mbind option_bind].
  set (gst := fill_reduces n (g, st)) in *.
  destruct G as (Hs & Hmk & _ & Hpend & new & Herr & Hsr & Hnew).
  cbn [fst snd] in Hs, Hmk, Hpend, Herr, Hsr.
  assert (Hn : (<[n := gst.2]> states) !! n = Some gst.2).
  { apply list_lookup_insert_eq. by eapply lookup_lt_Some. }
  destruct (fill_entries_spec n g (keys_ascending (dom (messages gst.2))) Hg
              (keys_ascending_NoDup _) (gst.1, <[n := gst.2]> states) gst.2)
    as ([g' states'] & st' & E & Hst' & (Hs' & Hsr' & L) & B & K & D & _).
  { exact Hs. }
  { exact Hn. }
  { by rewrite Hmk. }
  { intros a Ha. rewrite Hmk. by apply Hbefore, Hpend. }
  cbn [fst snd] in *.
  exists g', states', st', new. split; [exact E|]. split; [exact Hst'|].
  destruct (L n gst.2 Hn) as (st1 & Hst1 & _ & _ & Herr1 & _).
  assert (st1 = st') as -> by congruence.
  split; [congruence|]. split; [congruence|].
  assert (Ht : t < length (lits g ++ tokens g)) by (by eapply lookup_lt_Some).
  assert (Hshift : messages gst.2 !! t = Some None -> shift_entry g states' st' t).
  { intros Hp. apply (filled_shift g states' st' t Hg Ht). apply D; [|exact Hp].
    apply keys_ascending_elem, elem_of_dom. rewrite Hp. by eexists. }
  assert (Hkeep : forall e, e <> Some None -> messages gst.2 !! t = e ->
                    messages st' !! t = e).
  { intros e He Hp. rewrite K; [exact Hp|]. by rewrite Hp. }
  unfold resolved in M. unfold reported in Hnew. split.
  - intros rp fp Hrp Hfp. rewrite Hrp, Hfp in M, Hnew. split; [exact Hnew|].
    destruct (Nat.ltb_spec (level fp) (rp_level rp)) as [Hhi|Hnhi].
    { split; [intros _; by apply Hkeep|]. split; intros; lia. }
    destruct (Nat.ltb_spec (rp_level rp) (level fp)) as [Hlo|Hnlo].
    { split; [intros; lia|]. split; [intros _; by apply Hshift|]. intros; lia. }
    split; [intros; lia|]. split; [intros; lia|]. intros _.
    destruct (rp_assoc rp); [by apply Hkeep|by apply Hshift|by apply Hkeep].
  - intros Hnone.
    assert (E2 : messages gst.2 !! t = Some None
                 /\ filter (fun c => on_terminal t c = true) new
                    = [ShiftReduce n t (r_index rule)]).
    { destruct Hnone as [H|H]; rewrite H in M, Hnew; [done|].
      by destruct (r_prec rule). }
    destruct E2 as [E2 E3]. split; [exact E3|by apply Hshift].
Qed.

Lemma shift_reduce_resolution_witness :
  analysis 20 arith_start = Some arith_grammar
  /\ build_states 50 5 arith_grammar = Some arith_before
  /\ arith_before.2 !! 5 = Some arith_state
  /\ (exists g' states' st',
        advance 5 (arith_before.1, arith_before.2) = Some (g', states')
        /\ states' !! 5 = Some st'
        /\ messages st' !! 1
           = Some (Some (mkMessage reduce (ST 1) (IRule 1))))
  /\ (exists g' states' st',
        advance 5 (arith_before.1, arith_before.2) = Some (g', states')
        /\ states' !! 5 = Some st'
        /\ shift_entry arith_before.1 states' st' 2).
Proof.
  split; [vm_compute; reflexivity|]. split; [vm_compute; reflexivity|].
  split; [vm_compute; reflexivity|]. split.
  - destruct (shift_reduce_resolution 5 arith_before.1 arith_before.2 arith_state
                (mkMark 1 3 true) arith_rule 1
                (T_of "'+'" (Some (Prec Left 0)) 1))
      as (g' & states' & st' & new & E & Hst' & _ & _ & H & _);
      [vm_compute; reflexivity..|].
    exists g', states', st'. split; [exact E|]. split; [exact Hst'|].
    destruct (H (RulePrec 1 Left 0) (Prec Left 0) eq_refl eq_refl)
      as (_ & _ & _ & Heq).
    exact (Heq eq_refl).
  - destruct (shift_reduce_resolution 5 arith_before.1 arith_before.2 arith_state
                (mkMark 1 3 true) arith_rule 2
                (T_of "'*'" (Some (Prec Left 1)) 2))
      as (g' & states' & st' & new & E & Hst' & _ & _ & H & _);
      [vm_compute; reflexivity..|].
    exists g', states', st'. split; [exact E|]. split; [exact Hst'|].
    destruct (H (RulePrec 1 Left 0) (Prec Left 1) eq_refl eq_refl)
      as (_ & _ & Hlow & _).
    apply Hlow. cbn. lia.
Defined.

(** In the state of [%nonassoc '<'; s: e; s: c '<' 'x'; e: e '<' e; e: 'a';
    c: e '<' e;] that has the marks [e: e '<' e .], [c: e '<' e .] and
    [e: e . '<' e], ['<'] can follow both complete rules.  The first rule
    and ['<'] have the same level and are [%nonassoc], and the entry for
    ['<'] is deleted.  For the second rule ['<'] then has no entry, and the
    reduce is entered: ['<'] is not an error in this state, and no conflict
    is reported.  In the state of
    [s: x; s: 'b'; x: s;] that has the marks [$accept: s . $eof] and
    [x: s .], the rule has no precedence, the conflict is counted, and the
    entry for [$eof] becomes [accept]. *)
Lemma nonassoc_reduce_counterexample :
  (analysis 20 nonassoc_start = Some nonassoc_grammar
   /\ build_states 50 7 nonassoc_grammar = Some nonassoc_before
   /\ nonassoc_before.2 !! 7 = Some nonassoc_state
   /\ wf_tables nonassoc_before.1 = true
   /\ wf_state nonassoc_before.1 nonassoc_state = true
   /\ filter (fun m => can_reduce nonassoc_before.1 1 m = true)
        (marks nonassoc_state)
      = [mkMark 3 3 true; mkMark 5 3 true]
   /\ rules nonassoc_before.1 !! 3 = Some nonassoc_rule
   /\ terminal nonassoc_before.1 1 = Some (T_of "'<'" (Some (Prec Nonassoc 0)) 1)
   /\ messages nonassoc_state !! 1 = Some None
   /\ advance 7 nonassoc_before = Some nonassoc_after
   /\ (exists st',
         nonassoc_after.2 !! 7 = Some st'
         /\ messages st' !! 1 = Some (Some (mkMessage reduce (ST 1) (IRule 5)))
         /\ errors st' = [])
   /\ sr nonassoc_after.1 = 0 /\ rr nonassoc_after.1 = 0)
  /\ (analysis 20 cycle_start = Some cycle_grammar
      /\ build_states 50 3 cycle_grammar = Some cycle_before
      /\ cycle_before.2 !! 3 = Some cycle_state
      /\ filter (fun m => can_reduce cycle_before.1 0 m = true)
           (marks cycle_state)
         = [mkMark 3 1 true]
      /\ rules cycle_before.1 !! 3 = Some cycle_rule
      /\ messages cycle_state !! 0 = Some None
      /\ advance 3 cycle_before = Some cycle_after
      /\ (exists st',
            cycle_after.2 !! 3 = Some st'
            /\ messages st' !! 0 = Some (Some (mkMessage accept (ST 0) INone))
            /\ errors st' = [ShiftReduce 3 0 3])
      /\ sr cycle_after.1 = 1).
Proof.
  split.
  - split; [vm_compute; reflexivity|]. split; [vm_compute; reflexivity|].
    split; [vm_compute; reflexivity|]. split; [vm_compute; reflexivity|].
    split; [vm_compute; reflexivity|]. split; [vm_compute; reflexivity|].
    split; [vm_compute; reflexivity|]. split; [vm_compute; reflexivity|].
    split; [reflexivity|]. split; [vm_compute; reflexivity|].
    split; [|split; vm_compute; reflexivity].
    eexists. split; [vm_compute; reflexivity|].
    split; [vm_compute; reflexivity|reflexivity].
  - split; [vm_compute; reflexivity|]. split; [vm_compute; reflexivity|].
    split; [vm_compute; reflexivity|]. split; [vm_compute; reflexivity|].
    split; [vm_compute; reflexivity|]. split; [reflexivity|].
    split; [vm_compute; reflexivity|].
    split; [|vm_compute; reflexivity].
    eexists. split; [vm_compute; reflexivity|].
    split; [vm_compute; reflexivity|reflexivity].
Qed.

End BNFAdvance.

Module BNFBuild.
Import Js BNF.

Lemma splice_last_app {A} (rest collected : list A) :
  splice_last (length collected) (rest ++ collected) = (rest, collected).
Proof.
  unfold splice_last. rewrite length_app.
  replace (length rest + length collected - length collected)%nat
    with (length rest) by lia.
  by rewrite take_app_length, drop_app_length.
Qed.

Section Build.
Variable obj_elements : nat -> option (list value).

(** C10.  In a parser for a grammar created by [fromEBNF] ([grammar.ebnf] is
    set), the reduce of a rule whose left-hand side name starts with the
    [uniq] prefix does not depend on the actions object (nor on [noargs]):
    a two-symbol rule whose first symbol is the rule's own non-terminal
    replaces the first collected value by its elements, an empty rule yields
    [null], and every other such rule yields the plain list of the collected
    values. *)
Theorem synthesized_reduce_ignores_actions (uniq name : string) (rule : Rule)
    (values : list value) (errors : nat) :
  String.prefix uniq name = true ->
  (forall noargs noargs' acts acts',
     build_reduce obj_elements true uniq noargs acts rule name values errors
     = build_reduce obj_elements true uniq noargs' acts' rule name values errors)
  /\ (forall noargs acts s2 rest first v elements,
       r_symbols rule = [SNT (r_nt rule); s2] ->
       values = rest ++ [first; v] ->
       spread obj_elements first = Some elements ->
       build_reduce obj_elements true uniq noargs acts rule name values errors
       = Built (rest ++ [VList (elements ++ [v])]) (VList (elements ++ [v])) errors)
  /\ (forall noargs acts,
       r_symbols rule = [] ->
       build_reduce obj_elements true uniq noargs acts rule name values errors
       = Built (values ++ [VNull]) VNull errors)
  /\ (forall noargs acts rest collected,
       r_symbols rule <> [] ->
       ~ (length (r_symbols rule) = 2%nat
          /\ r_symbols rule !! 0%nat = Some (SNT (r_nt rule))) ->
       values = rest ++ collected ->
       length collected = length (r_symbols rule) ->
       build_reduce obj_elements true uniq noargs acts rule name values errors
       = Built (rest ++ [VList collected]) (VList collected) errors).
Proof.
  intros Hp. unfold build_reduce. rewrite Hp. cbn [andb].
  split; [|split; [|split]].
  - intros. by destruct (splice_last _ _).
  - intros noargs acts s2 rest first v elements Hs -> Hsp. rewrite Hs.
    change (length [SNT (r_nt rule); s2]) with (length [first; v]).
    rewrite splice_last_app. cbn [length Nat.eqb andb].
    rewrite bool_decide_eq_true_2 by reflexivity. cbn. by rewrite Hsp.
  - intros noargs acts Hs. rewrite Hs. cbn [length].
    unfold splice_last. rewrite Nat.sub_0_r, firstn_all, skipn_all. done.
  - intros noargs acts rest collected Hne Hnot -> Hlen.
    rewrite <- Hlen, splice_last_app, Hlen.
    destruct (Nat.eqb_spec (length (r_symbols rule)) 2) as [H2|H2].
    + rewrite bool_decide_eq_false_2 by tauto. cbn [andb].
      by rewrite H2.
    + cbn [andb]. destruct (Nat.eqb_spec (length (r_symbols rule)) 0) as [H0|H0];
        [|done].
      destruct (r_symbols rule); [done|discriminate].
Qed.

End Build.

Lemma synthesized_reduce_ignores_actions_witness :
  String.prefix "$-" "$-2" = true
  /\ build_reduce (fun _ => None) true "$-" false (Some nosy_actions) some_rule
        "$-2" [VStr "x"; VList [VStr "a"]; VStr "b"] 0
      = Built [VStr "x"; VList [VStr "a"; VStr "b"]]
          (VList [VStr "a"; VStr "b"]) 0.
Proof.
  split; [reflexivity|].
  pose proof (synthesized_reduce_ignores_actions (fun _ => None) "$-" "$-2"
                some_rule [VStr "x"; VList [VStr "a"]; VStr "b"] 0 eq_refl)
    as (_ & H & _).
  exact (H false (Some nosy_actions) (SNT 1) [VStr "x"] (VList [VStr "a"])
           (VStr "b") [VStr "a"] eq_refl eq_refl eq_refl).
Defined.

End BNFBuild.

Module ScannerFacts.
Import Js Base.

Lemma js_ltb_asym (a b : jsstr) : js_ltb a b = true -> js_ltb b a = false.
Proof.
  revert b. induction a as [|x a IH]; intros [|y b]; cbn; try done.
  destruct (N.ltb_spec x y), (N.ltb_spec y x); try done; try lia.
  apply IH.
Qed.

#[local] Instance lit_before_total : Total lit_before.
Proof.
  intros a b. unfold lit_before.
  destruct (js_ltb (lit_value a) (lit_value b)) eqn:E; [right|by left].
  by apply js_ltb_asym.
Qed.

#[local] Instance token_before_total : Total token_before.
Proof.
  intros a b. unfold token_before.
  destruct (js_ltb (token_name b) (token_name a)) eqn:E; [right|by left].
  by apply js_ltb_asym.
Qed.

(** What the sorting does achieve: the literals are in descending order of
    their values, the tokens in ascending order of their names. *)
Lemma scanned_lits_sorted (lits : list Lit) :
  Sorted lit_before (scanned_lits lits)
  /\ scanned_lits lits
     ≡ₚ filter (fun l => lit_used l = true /\ lit_name l <> []) lits.
Proof.
  split; [apply Sorted_merge_sort; apply _|apply merge_sort_Permutation].
Qed.

Lemma scanned_tokens_sorted (tokens : list Token) :
  Sorted token_before (scanned_tokens tokens)
  /\ scanned_tokens tokens
     ≡ₚ filter (fun t => token_used t = true /\ token_name t <> []) tokens.
Proof.
  split; [apply Sorted_merge_sort; apply _|apply merge_sort_Permutation].
Qed.

(** C4 at the literals ['b'] and ['ab'], both used: the scanner puts ['b']
    before ['ab'] in its list of terminals, hence in the master pattern,
    although the value of ['b'] is the shorter one.  The order is the
    descending order of the values (["b" > "ab"]), not of their lengths. *)
Theorem literal_order_b_ab :
  exists sc,
    new_Scanner [lit_ab; lit_b] [] blank = Some sc
    /\ terminals sc = [TLit lit_b; TLit lit_ab]
    /\ (length <$> (lit_value <$> [lit_b; lit_ab])) = [1%nat; 2%nat].
Proof. eexists. split; [|split]; vm_compute; reflexivity. Qed.

(** *** No tuple of [scan] carries [$eof] *)

Lemma screen_token_spec (p : pattern) (lits : list (Lit * bool)) :
  forall map keep rest map' keep',
    screen_token p lits map keep = Some (rest, map', keep') ->
    rest.*1 = lits.*1
    /\ (forall v l, map' !! v = Some l -> map !! v = Some l \/ l ∈ lits.*1).
Proof.
  induction lits as [|[lit screened] lits IH]; intros map keep rest map' keep' H.
  - cbn in H. injection H as <- <- <-. split; [done|]. intros; by left.
  - cbn in H. destruct (covers p (lit_value lit)).
    + destruct screened; [done|].
      destruct (screen_token p lits _ true) as [[[r m] k]|] eqn:E; [|done].
      injection H as <- <- <-. destruct (IH _ _ _ _ _ E) as [H1 H2].
      split; [cbn; by rewrite H1|].
      intros v l Hl. destruct (H2 v l Hl) as [Hm|Hin].
      * destruct (decide (v = lit_value lit)) as [->|Hne].
        -- rewrite lookup_insert_eq in Hm. injection Hm as <-.
           right. cbn. apply list_elem_of_here.
        -- rewrite lookup_insert_ne in Hm by congruence. by left.
      * right. cbn. by apply list_elem_of_further.
    + destruct (screen_token p lits map keep) as [[[r m] k]|] eqn:E; [|done].
      injection H as <- <- <-. destruct (IH _ _ _ _ _ E) as [H1 H2].
      split; [cbn; by rewrite H1|].
      intros v l Hl. destruct (H2 v l Hl) as [Hm|Hin]; [by left|].
      right. cbn. by apply list_elem_of_further.
Qed.

Lemma screen_tokens_spec (tokens : list Token) :
  forall lits tokens' lits',
    screen_tokens tokens lits = Some (tokens', lits') ->
    lits'.*1 = lits.*1
    /\ (forall tok m v l, tok ∈ tokens' -> token_screen tok = Some m ->
          m !! v = Some l -> l ∈ lits.*1).
Proof.
  induction tokens as [|token tokens IH]; intros lits tokens' lits' H.
  - cbn in H. injection H as <- <-. split; [done|].
    intros tok m v l Hin. by apply elem_of_nil in Hin.
  - cbn in H.
    destruct (screen_token _ lits ∅ false) as [[[l1 map] keep]|] eqn:E1; [|done].
    destruct (screen_tokens tokens l1) as [[rest l2]|] eqn:E2; [|done].
    injection H as <- <-.
    destruct (screen_token_spec _ _ _ _ _ _ _ E1) as [H1 H2].
    destruct (IH _ _ _ E2) as [H3 H4].
    split; [by rewrite H3|].
    intros tok m v l Hin Hs Hl. apply elem_of_cons in Hin as [->|Hin].
    + cbn in Hs. destruct keep; [|done]. injection Hs as <-.
      destruct (H2 v l Hl) as [Hm|Hm]; [by rewrite lookup_empty in Hm|done].
    + rewrite <- H1. by apply (H4 tok m v l).
Qed.

Lemma new_Scanner_named (lits : list Lit) (tokens : list Token)
    (skip : pattern) (sc : Scanner) :
  new_Scanner lits tokens skip = Some sc ->
  scanner_lits_ok (fun l => lit_name l <> []) sc.
Proof.
  unfold new_Scanner. intros H.
  destruct (screen_tokens _ _) as [[tokens' lits']|] eqn:E; [|done].
  injection H as <-.
  destruct (screen_tokens_spec _ _ _ _ E) as [H1 H2].
  assert (Hnamed : forall l, l ∈ lits'.*1 -> lit_name l <> []).
  { intros l Hl. rewrite H1 in Hl.
    rewrite <- list_fmap_compose in Hl. cbn in Hl. rewrite list_fmap_id in Hl.
    unfold scanned_lits in Hl. rewrite merge_sort_Permutation in Hl.
    apply list_elem_of_filter in Hl. tauto. }
  intros term Hin. cbn in Hin. apply elem_of_app in Hin as [Hin|Hin].
  - apply list_elem_of_fmap in Hin as (tok & -> & Hin).
    intros m v l Hm Hl. apply Hnamed. rewrite H1. by apply (H2 tok m v l).
  - apply list_elem_of_fmap in Hin as (l & -> & Hin).
    apply Hnamed. apply list_elem_of_fmap in Hin as ([l' f] & -> & Hin).
    apply list_elem_of_filter in Hin as [_ Hin].
    apply list_elem_of_fmap. by exists (l', f).
Qed.

Lemma named_not_eof (l : Lit) : lit_name l <> [] -> eof_lit l = false.
Proof. intros H. unfold eof_lit. by apply bool_decide_eq_false_2. Qed.

Lemma group_tuple_no_eof (sc : Scanner) (lineno k : nat) (input : jsstr) :
  scanner_lits_ok (fun l => lit_name l <> []) sc ->
  Forall (fun tu => is_eof tu = false) (group_tuple sc lineno k input).
Proof.
  intros Hok. unfold group_tuple. destruct k as [|n]; [constructor|].
  case_bool_decide; [constructor|].
  destruct (terminals sc !! n) as [[l|tok]|] eqn:E; [| |constructor].
  - apply list_elem_of_lookup_2 in E. specialize (Hok _ E). cbn in Hok.
    repeat constructor. cbn. by apply named_not_eof.
  - apply list_elem_of_lookup_2 in E. specialize (Hok _ E). cbn in Hok.
    destruct (token_screen tok) as [m|] eqn:Em; [|by repeat constructor].
    destruct (m !! input) as [l|] eqn:El; [|by repeat constructor].
    repeat constructor. cbn. apply named_not_eof. by apply (Hok m input l).
Qed.

Lemma scan_loop_no_eof (sc : Scanner) (input : jsstr) :
  scanner_lits_ok (fun l => lit_name l <> []) sc ->
  forall fuel lastIndex begin lineno result tuples,
    Forall (fun tu => is_eof tu = false) result ->
    scan_loop fuel sc input lastIndex begin lineno result = Some tuples ->
    Forall (fun tu => is_eof tu = false) tuples.
Proof.
  intros Hok. induction fuel as [|fuel IH];
    intros lastIndex begin lineno result tuples Hres H; cbn [scan_loop] in H.
  - destruct (lastIndex <? length input)%nat; [done|]. by injection H as <-.
  - destruct (lastIndex <? length input)%nat; [|by injection H as <-].
    destruct (master_exec _ _ _ _) as [[[index k] n]|].
    + destruct (begin <? index)%nat; eapply IH; try exact H;
        repeat (apply Forall_app; split); try done;
        try apply group_tuple_no_eof; try done.
      by repeat constructor.
    + injection H as <-. apply Forall_app. split; [done|].
      by repeat constructor.
Qed.

(** *** The parser supplies the [$eof] tuple *)

Lemma next_parse_input (l : list Tuple) :
  next (parse_input l) = next (mkParser InFalse ((Some <$> l) ++ [None]) 0 None).
Proof.
  unfold next, parse_input. cbn [p_tuples p_index p_input length Nat.leb].
  rewrite bool_decide_eq_false_2 by (by destruct l).
  rewrite length_app. cbn [length].
  by replace (length (Some <$> l) + 1 <=? 0)%nat with false
    by (symmetry; apply Nat.leb_gt; lia).
Qed.

Lemma next_within (l : list Tuple) (k : nat) (tu : Tuple) (cur : option Tuple) :
  l !! k = Some tu -> is_eof tu = false ->
  next (mkParser InFalse ((Some <$> l) ++ [None]) k cur)
  = Some (mkParser InFalse ((Some <$> l) ++ [None]) (S k) (Some tu)).
Proof.
  intros Hk He. pose proof (lookup_lt_Some _ _ _ Hk) as Hlt.
  unfold next. cbn [p_tuples p_index p_input].
  rewrite length_app, length_fmap. cbn [length].
  replace (length l + 1 <=? k)%nat with false
    by (symmetry; apply Nat.leb_gt; lia).
  rewrite lookup_app_l by (rewrite length_fmap; lia).
  rewrite list_lookup_fmap, Hk. cbn. by rewrite He.
Qed.

Lemma next_at_null (l : list Tuple) (cur : option Tuple) :
  next (mkParser InFalse ((Some <$> l) ++ [None]) (length l) cur)
  = Some (mkParser InFalse ((Some <$> l) ++ [Some eof_tuple]) (length l)
            (Some eof_tuple)).
Proof.
  unfold next. cbn [p_tuples p_index p_input].
  rewrite length_app, length_fmap. cbn [length].
  replace (length l + 1 <=? length l)%nat with false
    by (symmetry; apply Nat.leb_gt; lia).
  rewrite lookup_app_r by (rewrite length_fmap; lia).
  rewrite length_fmap, Nat.sub_diag. cbn [lookup list_lookup].
  rewrite insert_app_r_alt by (rewrite length_fmap; lia).
  rewrite length_fmap, Nat.sub_diag. reflexivity.
Qed.

Lemma next_at_eof (l : list Tuple) (cur : option Tuple) :
  next (mkParser InFalse ((Some <$> l) ++ [Some eof_tuple]) (length l) cur)
  = Some (mkParser InFalse ((Some <$> l) ++ [Some eof_tuple]) (length l)
            (Some eof_tuple)).
Proof.
  unfold next. cbn [p_tuples p_index p_input].
  rewrite length_app, length_fmap. cbn [length].
  replace (length l + 1 <=? length l)%nat with false
    by (symmetry; apply Nat.leb_gt; lia).
  rewrite lookup_app_r by (rewrite length_fmap; lia).
  rewrite length_fmap, Nat.sub_diag. reflexivity.
Qed.

Lemma nexts_parse_input (l : list Tuple) :
  Forall (fun tu => is_eof tu = false) l ->
  forall n,
    nexts (S n) (parse_input l)
    = Some (match l !! n with
            | Some tu => mkParser InFalse ((Some <$> l) ++ [None]) (S n) (Some tu)
            | None => mkParser InFalse ((Some <$> l) ++ [Some eof_tuple])
                        (length l) (Some eof_tuple)
            end).
Proof.
  intros Hl. induction n as [|n IH].
  - cbn [nexts]. rewrite next_parse_input.
    destruct (l !! 0%nat) as [tu|] eqn:E.
    + apply next_within; [done|].
      by apply (Forall_lookup_1 _ _ _ _ Hl E).
    + destruct l; [|done]. apply (next_at_null []).
  - change (nexts (S (S n)) (parse_input l))
      with (match nexts (S n) (parse_input l) with
            | Some p' => next p' | None => None end).
    rewrite IH. destruct (l !! n) as [tu|] eqn:En.
    + destruct (l !! S n) as [tu'|] eqn:E.
      * apply next_within; [done|]. by apply (Forall_lookup_1 _ _ _ _ Hl E).
      * apply lookup_ge_None in E. apply lookup_lt_Some in En.
        replace (S n) with (length l) by lia. apply next_at_null.
    + apply lookup_ge_None in En.
      rewrite (proj2 (lookup_ge_None l (S n))) by lia.
      apply next_at_eof.
Qed.

(** C5, as amended.  For a scanner made without a list of terminals and
    every input string [s], no tuple of the list [scan(s)] has the [$eof]
    literal as its terminal.  The end of input is signalled by the parser:
    [parse] appends [null] to the list, and [next] delivers the tuples of
    [scan(s)] one by one and from then on the tuple [(0, $eof)]. *)
Theorem scan_leaves_eof_to_parser (lits : list Lit) (tokens : list Token)
    (skip : pattern) (sc : Scanner) (fuel : nat) (s : jsstr)
    (tuples : list Tuple) :
  new_Scanner lits tokens skip = Some sc ->
  scan fuel sc s = Some tuples ->
  Forall (fun tu => is_eof tu = false) tuples
  /\ (forall n, exists p,
        nexts (S n) (parse_input tuples) = Some p
        /\ p_current p = Some (default eof_tuple (tuples !! n))).
Proof.
  intros Hsc Hscan.
  assert (Hno : Forall (fun tu => is_eof tu = false) tuples).
  { eapply (scan_loop_no_eof sc s (new_Scanner_named _ _ _ _ Hsc));
      [|exact Hscan]. constructor. }
  split; [exact Hno|]. intros n. eexists. split.
  - by apply nexts_parse_input.
  - by destruct (tuples !! n).
Qed.

Lemma scan_leaves_eof_to_parser_witness :
  exists sc tuples,
    new_Scanner [lit_ab; lit_b] [] blank = Some sc
    /\ scan 3 sc (js "ab b") = Some tuples
    /\ Forall (fun tu => is_eof tu = false) tuples.
Proof.
  eexists _, _. split; [vm_compute; reflexivity|].
  split; [vm_compute; reflexivity|].
  eapply (scan_leaves_eof_to_parser [lit_ab; lit_b] [] blank _ 3 (js "ab b"));
    vm_compute; reflexivity.
Defined.

(** C5, as stated, fails: the list [scan("ab b")] ends with the tuple for
    the literal ['b'], and [scan("")] is empty. *)
Lemma scan_does_not_end_with_eof_counterexample :
  exists sc,
    new_Scanner [lit_ab; lit_b] [] blank = Some sc
    /\ scan 3 sc (js "ab b")
       = Some [mkTuple 1 (Some (TLit lit_ab)) (js "ab");
               mkTuple 1 (Some (TLit lit_b)) (js "b")]
    /\ ~ ends_with_eof [mkTuple 1 (Some (TLit lit_ab)) (js "ab");
                        mkTuple 1 (Some (TLit lit_b)) (js "b")]
    /\ scan 0 sc [] = Some []
    /\ ~ ends_with_eof [].
Proof.
  eexists. split; [vm_compute; reflexivity|].
  split; [vm_compute; reflexivity|].
  split; [|split; [reflexivity|]].
  - intros (front & tu & Heq & He).
    destruct front as [|a [|b [|c front]]]; try discriminate.
    injection Heq as _ <-. discriminate.
  - intros (front & tu & Heq & _). by destruct front.
Qed.

End ScannerFacts.

Module EBNFFacts.
Import EBNF.

(** *** Reading the state after an update *)

Lemma expect_of_import (i i' : id) (s : gset string) (st : state) :
  expect_of (import_expect i s st) i'
  = if decide (i = i') then expect_of st i ∪ s else expect_of st i'.
Proof.
  unfold expect_of at 1. cbn. rewrite lookup_insert. by case_decide.
Qed.

Lemma expect_of_import_eq (i : id) (s : gset string) (st : state) :
  expect_of (import_expect i s st) i = expect_of st i ∪ s.
Proof. rewrite expect_of_import. by rewrite decide_True. Qed.

Lemma expect_of_import_ne (i i' : id) (s : gset string) (st : state) :
  i <> i' -> expect_of (import_expect i s st) i' = expect_of st i'.
Proof. intros. rewrite expect_of_import. by rewrite decide_False. Qed.

Lemma recursed_of_set (j n k : nat) (st : state) :
  recursed_of (set_recursed j n st) k
  = if decide (j = k) then n else recursed_of st k.
Proof.
  unfold recursed_of at 1. cbn. rewrite lookup_insert. by case_decide.
Qed.

Lemma nonempty_true (s : gset string) : nonempty s = true <-> s <> ∅.
Proof.
  unfold nonempty. rewrite negb_true_iff, bool_decide_eq_false. done.
Qed.

Lemma nonempty_false (s : gset string) : nonempty s = false <-> s = ∅.
Proof.
  unfold nonempty. rewrite negb_false_iff, bool_decide_eq_true. done.
Qed.

#[local] Instance grows_preorder : PreOrder grows.
Proof.
  split.
  - intros st. repeat split; intros; done.
  - intros a b c (E1 & R1 & F1 & C1 & X1 & L1) (E2 & R2 & F2 & C2 & X2 & L2).
    split; [|split; [|split; [|split; [|split]]]].
    + intros i. etrans; [apply E1|apply E2].
    + intros j. etrans; [apply R1|apply R2].
    + congruence.
    + set_solver.
    + congruence.
    + congruence.
Qed.

Lemma grows_import (i : id) (s : gset string) (st : state) :
  grows st (import_expect i s st).
Proof.
  split; [|done]. intros i'. rewrite expect_of_import.
  case_decide; [subst|done]. set_solver.
Qed.

(** *** The loops, with an invariant *)

Lemma bind_Ok {A B} (m : outcome A) (f : A -> outcome B) (b : B) :
  m ≫= f = Ok b -> exists a, m = Ok a /\ f a = Ok b.
Proof. destruct m; cbn; [eauto|done|done]. Qed.

Lemma alt_union_inv (visit : state -> nat -> node -> outcome (state * gset string))
    (l : list node) :
  forall (P : state -> nat -> gset string -> Prop) st k acc st' acc',
    alt_union visit st k acc l = Ok (st', acc') ->
    P st 0%nat acc ->
    (forall m n st1 acc1 st2 s,
        l !! m = Some n -> P st1 m acc1 ->
        visit st1 (k + m)%nat n = Ok (st2, s) -> P st2 (S m) (acc1 ∪ s)) ->
    P st' (length l) acc'.
Proof.
  induction l as [|n l IH]; intros P st k acc st' acc' H H0 Hstep; cbn in H.
  - by injection H as <- <-.
  - apply bind_Ok in H as ([st1 s] & Hv & H).
    apply (IH (fun st m acc => P st (S m) acc) _ _ _ _ _ H).
    + apply (Hstep 0%nat n st acc st1 s); [done|done|].
      by rewrite Nat.add_0_r.
    + intros m n' st2 acc2 st3 s' Hm HP Hv'.
      apply (Hstep (S m) n' st2 acc2 st3 s'); [done|done|].
      by replace (k + S m)%nat with (S k + m)%nat by lia.
Qed.

Lemma seq_shallow_inv (visit : state -> nat -> node -> outcome (state * gset string))
    (i : id) (l : list node) :
  forall (P : state -> nat -> Prop) st k st' s,
    seq_shallow visit i st k l = Ok (st', s) ->
    P st 0%nat ->
    (forall m n st1 st2 s,
        l !! m = Some n -> P st1 m ->
        (forall m', (m' < m)%nat -> exists n', l !! m' = Some n' /\ is_opt n' = true) ->
        visit st1 (k + m)%nat n = Ok (st2, s) ->
        P (import_expect i s st2) (S m)) ->
    exists m n, l !! m = Some n /\ is_opt n = false
      /\ (forall m', (m' < m)%nat -> exists n', l !! m' = Some n' /\ is_opt n' = true)
      /\ P st' (S m) /\ s = expect_of st' i.
Proof.
  induction l as [|n l IH]; intros P st k st' s H H0 Hstep; cbn in H; [done|].
  apply bind_Ok in H as ([st1 s1] & Hv & H).
  assert (HP1 : P (import_expect i s1 st1) 1%nat).
  { apply (Hstep 0%nat n st st1 s1); [done|done|lia|]. by rewrite Nat.add_0_r. }
  destruct (is_opt n) eqn:Hopt.
  - destruct (IH (fun st m => P st (S m)) _ _ _ _ H HP1) as (m & n' & Hm & Hn' & Hbefore & HP & Hs).
    + intros m n' st2 st3 s' Hm HP Hbefore Hv'.
      apply (Hstep (S m) n' st2 st3 s'); [done|done| |].
      * intros [|m'] Hlt; [by exists n|]. apply Hbefore. lia.
      * by replace (k + S m)%nat with (S k + m)%nat by lia.
    + exists (S m), n'. repeat split; try done.
      intros [|m'] Hlt; [by exists n|]. apply Hbefore. lia.
  - injection H as <- <-. exists 0%nat, n. repeat split; try done. lia.
Qed.

(** *** Paths *)

Lemma below_refl (p : list nat) : below p p.
Proof. by exists []. Qed.

Lemma below_cons (k : nat) (p p' : list nat) : below (k :: p) p' -> below p p'.
Proof. intros [q ->]. exists (q ++ [k]). by rewrite <- app_assoc. Qed.

Lemma not_below_cons (k : nat) (p : list nat) : ~ below (k :: p) p.
Proof.
  intros [q H]. apply (f_equal length) in H.
  rewrite length_app in H. cbn in H. lia.
Qed.

Lemma below_siblings (k k' : nat) (p p' : list nat) :
  below (k :: p) p' -> below (k' :: p) p' -> k = k'.
Proof.
  intros [q ->] [q' H]. apply app_inj_2 in H as [_ H]; [congruence|done].
Qed.

(** *** The state grows, and leaves the rules in progress alone *)

Lemma grows_set_recursed (j n : nat) (st : state) :
  (recursed_of st j <= n)%nat -> grows st (set_recursed j n st).
Proof.
  intros H. split; [done|]. split; [|done].
  intros k. rewrite recursed_of_set. case_decide; [by subst|done].
Qed.

Lemma frame_refl (st : state) (r : nat) (p : list nat) : frame st st r p.
Proof. split; [reflexivity|done]. Qed.

Lemma frame_trans (st st1 st2 : state) (r : nat) (p : list nat) :
  frame st st1 r p -> frame st1 st2 r p -> frame st st2 r p.
Proof.
  intros [G1 F1] [G2 F2]. split; [by etrans|].
  intros r' p' Hr Hp. rewrite F2, F1; try done.
  destruct G1 as (_ & R & _). specialize (R r'). lia.
Qed.

Lemma frame_child (st st' : state) (r k : nat) (p : list nat) :
  frame st st' r (k :: p) -> frame st st' r p.
Proof.
  intros [G F]. split; [done|]. intros r' p' Hr Hp. apply F; [done|].
  intros [-> Hb]. apply Hp. split; [done|]. by eapply below_cons.
Qed.

Lemma frame_of_rule (st st' : state) (r : nat) (p : list nat) :
  frame_rule st st' -> frame st st' r p.
Proof. intros [G F]. split; [done|]. intros r' p' Hr _. by apply F. Qed.

Lemma frame_import (st : state) (r : nat) (p : list nat) (s : gset string) :
  frame st (import_expect (IdNode r p) s st) r p.
Proof.
  split; [apply grows_import|]. intros r' p' _ Hp.
  apply expect_of_import_ne. intros [= -> ->]. apply Hp. split; [done|].
  apply below_refl.
Qed.

Lemma alt_union_frame (visit : state -> nat -> node -> outcome (state * gset string))
    (r : nat) (p : list nat) (l : list node) (st : state) (k : nat)
    (acc : gset string) (st' : state) (acc' : gset string) :
  (forall st k n st' s, visit st k n = Ok (st', s) -> frame st st' r (k :: p)) ->
  alt_union visit st k acc l = Ok (st', acc') ->
  frame st st' r p.
Proof.
  intros Hvisit H.
  apply (alt_union_inv visit l (fun st1 _ _ => frame st st1 r p) _ _ _ _ _ H).
  - apply frame_refl.
  - intros m n st1 acc1 st2 s _ HP Hv. eapply frame_trans; [done|].
    eapply frame_child, Hvisit, Hv.
Qed.

Lemma alt_shallow_frame (visit : state -> nat -> node -> outcome (state * gset string))
    (r : nat) (p : list nat) (l : list node) (st st' : state) (s : gset string) :
  (forall st k n st' s, visit st k n = Ok (st', s) -> frame st st' r (k :: p)) ->
  alt_shallow visit (IdNode r p) st l = Ok (st', s) ->
  frame st st' r p.
Proof.
  intros Hvisit H. unfold alt_shallow in H.
  destruct (nonempty (expect_of st (IdNode r p))).
  - injection H as <- <-. apply frame_refl.
  - apply bind_Ok in H as ([st1 acc] & Hu & H). injection H as <- <-.
    eapply frame_trans; [by eapply alt_union_frame|apply frame_import].
Qed.

Lemma seq_shallow_frame (visit : state -> nat -> node -> outcome (state * gset string))
    (r : nat) (p : list nat) (l : list node) (st : state) (k : nat)
    (st' : state) (s : gset string) :
  (forall st k n st' s, visit st k n = Ok (st', s) -> frame st st' r (k :: p)) ->
  seq_shallow visit (IdNode r p) st k l = Ok (st', s) ->
  frame st st' r p.
Proof.
  intros Hvisit H.
  destruct (seq_shallow_inv visit _ l (fun st1 _ => frame st st1 r p) _ _ _ _ H)
    as (_ & _ & _ & _ & _ & HP & _); [apply frame_refl| |done].
  intros m n st1 st2 s' _ HP _ Hv.
  eapply frame_trans; [|apply frame_import].
  eapply frame_trans; [done|]. eapply frame_child, Hvisit, Hv.
Qed.

Lemma shallow_frame (g : Grammar) (fuel : nat) :
  (forall st r p n st' s,
      shallow fuel g st r p n = Ok (st', s) -> frame st st' r p)
  /\ (forall st j st' s,
      rule_shallow fuel g st j = Ok (st', s) -> frame_rule st st').
Proof.
  induction fuel as [|fuel [IHn IHr]]; [done|]. split.
  - intros st r p n st' s H. cbn [shallow] in H. destruct n.
    + injection H as <- <-. apply frame_refl.
    + injection H as <- <-. apply frame_refl.
    + destruct (nt_rule g name) as [j|]; [|done].
      eapply frame_of_rule, IHr, H.
    + destruct (nonempty (expect_of st (IdNode r p))).
      * injection H as <- <-. apply frame_refl.
      * eapply seq_shallow_frame; [|exact H]. intros ????? Hv. eapply IHn, Hv.
    + eapply alt_shallow_frame; [|exact H]. intros ????? Hv. eapply IHn, Hv.
    + eapply alt_shallow_frame; [|exact H]. intros ????? Hv. eapply IHn, Hv.
    + eapply alt_shallow_frame; [|exact H]. intros ????? Hv. eapply IHn, Hv.
  - intros st j st' s H. cbn [rule_shallow] in H.
    destruct (rules g !! j) as [rule|]; [|done].
    destruct (Nat.eqb_spec (recursed_of st j) 0) as [Hc|Hc]; cbn [negb] in H.
    + apply bind_Ok in H as ([st2 s2] & Ha & H). injection H as <- <-.
      apply alt_shallow_frame in Ha; [|intros ????? Hv; eapply IHn, Hv].
      destruct Ha as [(E & R & Fo & Re & Er & Lo) F].
      split.
      * split; [|split; [|split; [|split; [|split]]]]; try done.
        -- intros i. etrans; [apply (E i)|]. cbn. apply grows_import.
        -- intros k. rewrite recursed_of_set. case_decide; [subst; lia|].
           etrans; [|apply (R k)]. rewrite recursed_of_set.
           by rewrite decide_False.
      * intros r' p' Hr. assert (r' <> j) by (intros ->; lia).
        change (expect_of (import_expect (IdNode j []) s2 st2) (IdNode r' p')
                = expect_of st (IdNode r' p')).
        rewrite expect_of_import_ne by congruence.
        rewrite F; [done| |].
        -- rewrite recursed_of_set. by rewrite decide_False.
        -- intros [? _]. done.
    + injection H as <- <-. split; [|done]. apply grows_set_recursed. lia.
Qed.

(** *** The grammar *)

Lemma wf_kid (n c : node) (k : nat) :
  wf n = true -> kids n !! k = Some c -> wf c = true.
Proof.
  intros Hwf Hk. apply list_elem_of_lookup_2, list_elem_of_In in Hk.
  destruct n; cbn in Hwf, Hk; try done;
    apply andb_true_iff in Hwf as [_ Hwf];
    by apply (proj1 (forallb_forall _ _) Hwf).
Qed.

Lemma wf_seqs (n : node) :
  wf n = true -> is_container n = true -> is_seq n = false -> kids n <> [].
Proof.
  destruct n; cbn; try done; intros Hwf _ _;
    apply andb_true_iff in Hwf as [Hwf _];
    apply andb_true_iff in Hwf as [Hwf _];
    by apply negb_true_iff, bool_decide_eq_false in Hwf.
Qed.

Lemma wf_rule (g : Grammar) (j : nat) (rule : Rule) :
  wf_grammar g = true -> rules g !! j = Some rule ->
  wf (Alt (rule_seqs rule)) = true.
Proof.
  intros Hwf Hj. apply list_elem_of_lookup_2, list_elem_of_In in Hj.
  by apply (proj1 (forallb_forall _ _) Hwf).
Qed.

Lemma heads_seq (nodes : list node) (t : option string) (name : string) :
  name ∈ heads (Seq nodes t) ->
  exists m n, nodes !! m = Some n /\ name ∈ heads n
    /\ forall m', (m' < m)%nat -> exists n', nodes !! m' = Some n' /\ is_opt n' = true.
Proof.
  induction nodes as [|n nodes IH]; cbn; [by intros ?%elem_of_nil|].
  intros [H|H]%elem_of_app.
  - exists 0%nat, n. repeat split; [done|]. lia.
  - destruct (is_opt n) eqn:Hopt; [|by apply elem_of_nil in H].
    destruct (IH H) as (m & n' & Hm & Hn' & Hbefore).
    exists (S m), n'. repeat split; [done|done|].
    intros [|m'] Hlt; [by exists n|]. apply Hbefore. lia.
Qed.

Lemma heads_alt (g : Grammar) (n : node) :
  is_container n = true -> is_seq n = false ->
  (forall c, c ∈ kids n -> heads_safe g c) -> heads_safe g n.
Proof.
  intros Hc Hs H name Hname.
  assert (Hin : In name (flat_map heads (kids n))).
  { apply list_elem_of_In. by destruct n. }
  apply in_flat_map in Hin as (c & Hc' & Hin).
  apply (H c); by apply list_elem_of_In.
Qed.

Lemma safe_rule (g : Grammar) (j : nat) (rule : Rule) :
  rules g !! j = Some rule ->
  heads_safe g (Alt (rule_seqs rule)) -> safe g j.
Proof.
  intros Hj H. constructor. intros y (rule' & name & Hj' & Hname & Hy).
  assert (rule' = rule) as -> by congruence.
  destruct (H name Hname) as (j' & Hj'' & Hsafe).
  assert (j' = y) as <- by congruence. exact Hsafe.
Qed.

(** *** Marks *)

Lemma marked_grows_r (g : Grammar) (st st1 st2 : state) :
  marked g st st1 -> grows st1 st2 -> marked g st st2.
Proof.
  intros (k & Hk & Hlt) (_ & R & _). exists k. split; [done|].
  specialize (R k). lia.
Qed.

Lemma marked_grows_l (g : Grammar) (st st1 st2 : state) :
  grows st st1 -> marked g st1 st2 -> marked g st st2.
Proof.
  intros (_ & R & _) (k & Hk & Hlt). exists k. split; [done|].
  specialize (R k). lia.
Qed.

Lemma frame_busy (st st' : state) (r : nat) (p : list nat) :
  frame st st' r p -> (1 <= recursed_of st r)%nat -> (1 <= recursed_of st' r)%nat.
Proof. intros [(_ & R & _) _] H. specialize (R r). lia. Qed.

Lemma frame_blank (st st' : state) (r k k' : nat) (p : list nat) :
  frame st st' r (k :: p) -> (1 <= recursed_of st r)%nat -> k <> k' ->
  blank st r (k' :: p) -> blank st' r (k' :: p).
Proof.
  intros [_ F] Hr Hk Hb p' Hp'. rewrite F; [by apply Hb|done|].
  intros [_ Hp]. apply Hk. by eapply below_siblings.
Qed.

Lemma blank_import (st : state) (r k : nat) (p : list nat) (s : gset string) :
  blank st r (k :: p) -> blank (import_expect (IdNode r p) s st) r (k :: p).
Proof.
  intros Hb p' Hp'. rewrite expect_of_import_ne; [by apply Hb|].
  intros [= ->]. by eapply not_below_cons.
Qed.

Lemma blank_kid (st : state) (r k : nat) (p : list nat) :
  blank st r p -> blank st r (k :: p).
Proof. intros Hb p' Hp'. apply Hb. by eapply below_cons. Qed.

(** *** Rules that are not in progress stay settled *)

Lemma settled_set_recursed (g : Grammar) (st : state) (j n : nat) :
  settled g st -> (1 <= n)%nat -> settled g (set_recursed j n st).
Proof.
  intros H Hn r Hr Hz. rewrite recursed_of_set in Hz.
  case_decide; [lia|]. by apply H.
Qed.

Lemma settled_import (g : Grammar) (st : state) (r : nat) (p : list nat)
    (s : gset string) :
  settled g st -> (1 <= recursed_of st r)%nat ->
  settled g (import_expect (IdNode r p) s st).
Proof.
  intros H Hbusy r0 Hr0 Hz.
  assert (r <> r0) by (intros ->; change (recursed_of st r0 = 0%nat) in Hz; lia).
  destruct (H r0 Hr0 Hz) as [H1 H2]. split.
  - rewrite expect_of_import_ne by congruence. intros He p' Hp'.
    rewrite expect_of_import_ne by congruence. by apply H1.
  - rewrite expect_of_import_ne by congruence. done.
Qed.

Lemma settled_done (g : Grammar) (st : state) (j n : nat) (s : gset string) :
  settled g st -> (1 <= recursed_of st j)%nat -> safe g j ->
  expect_of st (IdNode j []) ∪ s <> ∅ ->
  settled g (set_recursed j n (import_expect (IdNode j []) s st)).
Proof.
  intros H Hbusy Hsafe Hne r Hr Hz. rewrite recursed_of_set in Hz.
  unfold blank.
  change (expect_of (set_recursed j n (import_expect (IdNode j []) s st)))
    with (expect_of (import_expect (IdNode j []) s st)).
  destruct (decide (j = r)) as [->|Hjr].
  - rewrite expect_of_import_eq. split; [done|]. by intros _.
  - change (recursed_of st r = 0%nat) in Hz.
    destruct (H r Hr Hz) as [H1 H2]. split.
    + rewrite expect_of_import_ne by congruence. intros He p' Hp'.
      rewrite expect_of_import_ne by congruence. by apply H1.
    + rewrite expect_of_import_ne by congruence. done.
Qed.

(** *** Without a mark, what [shallow] computes is not empty and safe *)

Section Safe.
Variable g : Grammar.
Variable visit : state -> nat -> node -> outcome (state * gset string).
Variable r : nat.
Variable p : list nat.
Variable l : list node.

Hypothesis visit_frame : forall st k n st' s,
  visit st k n = Ok (st', s) -> frame st st' r (k :: p).

Hypothesis visit_safe : forall st k n st' s,
  l !! k = Some n -> settled g st -> (1 <= recursed_of st r)%nat ->
  blank st r (k :: p) -> visit st k n = Ok (st', s) ->
  marked g st st' \/ (settled g st' /\ s <> ∅ /\ heads_safe g n).

Lemma alt_union_safe (st st' : state) (acc' : gset string) :
  settled g st -> (1 <= recursed_of st r)%nat -> blank st r p -> l <> [] ->
  alt_union visit st 0 ∅ l = Ok (st', acc') ->
  frame st st' r p
  /\ (marked g st st'
      \/ (settled g st' /\ acc' <> ∅ /\ forall n, n ∈ l -> heads_safe g n)).
Proof.
  intros Hset Hbusy Hblank Hl H.
  pose (P := fun (st1 : state) (m : nat) (acc : gset string) =>
    frame st st1 r p
    /\ (forall k, (m <= k)%nat -> blank st1 r (k :: p))
    /\ (marked g st st1
        \/ (settled g st1 /\ ((0 < m)%nat -> acc <> ∅)
            /\ forall m' n, (m' < m)%nat -> l !! m' = Some n -> heads_safe g n))).
  assert (HP : P st' (length l) acc').
  { apply (alt_union_inv visit l P _ _ _ _ _ H).
    - split; [apply frame_refl|]. split; [intros; by apply blank_kid|].
      right. split; [done|]. split; intros; lia.
    - intros m n st1 acc1 st2 s Hm (HF & HB & HS) Hv. cbn in Hv.
      pose proof (visit_frame _ _ _ _ _ Hv) as HF2.
      pose proof (frame_busy _ _ _ _ HF Hbusy) as Hbusy1.
      split; [eapply frame_trans; [done|by eapply frame_child]|].
      split.
      { intros k Hk. eapply frame_blank; [done|done|lia|]. apply HB. lia. }
      destruct HS as [HS|(HS & Hacc & Hheads)].
      { left. eapply marked_grows_r; [done|apply HF2]. }
      destruct (visit_safe _ _ _ _ _ Hm HS Hbusy1 (HB m (le_n _)) Hv)
        as [Hmk|(HS2 & Hs & Hn)].
      { left. eapply marked_grows_l; [apply HF|done]. }
      right. split; [done|]. split; [set_solver|].
      intros m' n' Hlt Hm'. destruct (decide (m' = m)) as [->|].
      + by assert (n' = n) as -> by congruence.
      + eapply Hheads; [|done]. lia. }
  destruct HP as (HF & _ & HS). split; [done|].
  destruct HS as [HS|(HS & Hacc & Hheads)]; [by left|right].
  split; [done|]. split.
  - apply Hacc. destruct l; [done|cbn; lia].
  - intros n [m Hm]%list_elem_of_lookup_1. eapply Hheads; [|done].
    by eapply lookup_lt_Some.
Qed.

Lemma alt_shallow_safe (st st' : state) (s : gset string) :
  settled g st -> (1 <= recursed_of st r)%nat -> blank st r p -> l <> [] ->
  alt_shallow visit (IdNode r p) st l = Ok (st', s) ->
  frame st st' r p
  /\ (marked g st st'
      \/ (settled g st' /\ s <> ∅ /\ s = expect_of st' (IdNode r p)
          /\ forall n, n ∈ l -> heads_safe g n)).
Proof.
  intros Hset Hbusy Hblank Hl H. unfold alt_shallow in H.
  rewrite (Hblank p (below_refl p)) in H.
  replace (nonempty ∅) with false in H by (symmetry; by apply nonempty_false).
  apply bind_Ok in H as ([st1 acc] & Hu & H). injection H as <- <-.
  destruct (alt_union_safe _ _ _ Hset Hbusy Hblank Hl Hu) as [HF HS].
  split; [eapply frame_trans; [done|apply frame_import]|].
  destruct HS as [HS|(HS & Hacc & Hheads)].
  - left. eapply marked_grows_r; [done|apply grows_import].
  - right. split; [apply settled_import; [done|by eapply frame_busy]|].
    split; [|done]. rewrite expect_of_import_eq. set_solver.
Qed.

Lemma seq_shallow_safe (t : option string) (st st' : state) (s : gset string) :
  settled g st -> (1 <= recursed_of st r)%nat -> blank st r p ->
  seq_shallow visit (IdNode r p) st 0 l = Ok (st', s) ->
  marked g st st' \/ (settled g st' /\ s <> ∅ /\ heads_safe g (Seq l t)).
Proof.
  intros Hset Hbusy Hblank H.
  pose (P := fun (st1 : state) (m : nat) =>
    frame st st1 r p
    /\ (forall k, (m <= k)%nat -> blank st1 r (k :: p))
    /\ (marked g st st1
        \/ (settled g st1 /\ ((0 < m)%nat -> expect_of st1 (IdNode r p) <> ∅)
            /\ forall m' n, (m' < m)%nat -> l !! m' = Some n -> heads_safe g n))).
  destruct (seq_shallow_inv visit _ l P _ _ _ _ H)
    as (m & n & Hm & Hopt & Hbefore & (HF & _ & HS) & ->).
  - split; [apply frame_refl|]. split; [intros; by apply blank_kid|].
    right. split; [done|]. split; intros; lia.
  - intros m n st1 st2 s' Hm (HF & HB & HS) _ Hv. cbn in Hv.
    pose proof (visit_frame _ _ _ _ _ Hv) as HF2.
    pose proof (frame_busy _ _ _ _ HF Hbusy) as Hbusy1.
    assert (HF3 : frame st (import_expect (IdNode r p) s' st2) r p).
    { eapply frame_trans; [|apply frame_import].
      eapply frame_trans; [done|by eapply frame_child]. }
    split; [done|]. split.
    { intros k Hk. apply blank_import.
      eapply frame_blank; [done|done|lia|]. apply HB. lia. }
    destruct HS as [HS|(HS & Hacc & Hheads)].
    { left. eapply marked_grows_r; [done|].
      etrans; [apply HF2|apply grows_import]. }
    destruct (visit_safe _ _ _ _ _ Hm HS Hbusy1 (HB m (le_n _)) Hv)
      as [Hmk|(HS2 & Hs & Hn)].
    { left. eapply marked_grows_r; [|apply grows_import].
      eapply marked_grows_l; [apply HF|done]. }
    right. split; [apply settled_import; [done|by eapply frame_busy]|].
    split; [intros _; rewrite expect_of_import_eq; set_solver|].
    intros m' n' Hlt Hm'. destruct (decide (m' = m)) as [->|].
    + by assert (n' = n) as -> by congruence.
    + eapply Hheads; [|done]. lia.
  - destruct HS as [HS|(HS & Hacc & Hheads)]; [by left|right].
    split; [done|]. split; [apply Hacc; lia|].
    intros name (m' & n' & Hm' & Hname & Hopts)%heads_seq.
    assert (m' < S m)%nat.
    { destruct (decide (m' < S m)%nat); [done|].
      destruct (Hopts m) as (n'' & Hn'' & Hopt''); [lia|]. congruence. }
    by eapply Hheads.
Qed.

End Safe.

Lemma shallow_safe (g : Grammar) (fuel : nat) :
  wf_grammar g = true ->
  (forall st r p n st' s,
      wf n = true -> settled g st -> (1 <= recursed_of st r)%nat ->
      blank st r p -> shallow fuel g st r p n = Ok (st', s) ->
      marked g st st' \/ (settled g st' /\ s <> ∅ /\ heads_safe g n))
  /\ (forall st j st' s,
      settled g st -> rule_shallow fuel g st j = Ok (st', s) ->
      marked g st st'
      \/ (settled g st' /\ s <> ∅ /\ expect_of st' (IdNode j []) <> ∅
          /\ safe g j)).
Proof.
  intros Hg. induction fuel as [|fuel [IHn IHr]]; [split; intros; discriminate|].
  assert (Hframe : forall r p st k n st' s,
    shallow fuel g st r (k :: p) n = Ok (st', s) -> frame st st' r (k :: p)).
  { intros r p st k n st' s Hv. eapply (shallow_frame g fuel), Hv. }
  assert (Hkid : forall r p n st k c st' s,
    wf n = true ->
    kids n !! k = Some c -> settled g st -> (1 <= recursed_of st r)%nat ->
    blank st r (k :: p) -> shallow fuel g st r (k :: p) c = Ok (st', s) ->
    marked g st st' \/ (settled g st' /\ s <> ∅ /\ heads_safe g c)).
  { intros r p n st1 k c st2 s2 Hwf Hk Hset1 Hbusy1 Hblank1 Hv.
    eapply IHn; [|exact Hset1|exact Hbusy1|exact Hblank1|exact Hv].
    eapply wf_kid; [exact Hwf|exact Hk]. }
  assert (Halt : forall st r p n st' s,
    wf n = true -> is_container n = true -> is_seq n = false ->
    settled g st -> (1 <= recursed_of st r)%nat -> blank st r p ->
    alt_shallow (fun st k n => shallow fuel g st r (k :: p) n) (IdNode r p) st
      (kids n) = Ok (st', s) ->
    frame st st' r p
    /\ (marked g st st'
        \/ (settled g st' /\ s <> ∅ /\ s = expect_of st' (IdNode r p)
            /\ heads_safe g n))).
  { intros st r p n st' s Hwf Hc Hs Hset Hbusy Hblank H.
    destruct (alt_shallow_safe g (fun st k n => shallow fuel g st r (k :: p) n)
                r p (kids n) (Hframe r p)
                (fun st k c st' s => Hkid r p n st k c st' s Hwf) st st' s
                Hset Hbusy Hblank (wf_seqs n Hwf Hc Hs) H)
      as [HF [Hm|(H1 & H2 & H3 & H4)]]; clear H.
    - split; [exact HF|left; exact Hm].
    - split; [exact HF|]. right. split; [exact H1|]. split; [exact H2|].
      split; [exact H3|]. apply heads_alt; assumption. }
  split.
  - intros st r p n st' s Hwf Hset Hbusy Hblank H. cbn [shallow] in H.
    destruct n as [name|name|name|nodes t|seqs|seqs|seqs].
    + injection H as <- <-. right. split; [exact Hset|]. split; [apply non_empty_singleton_L|].
      intros name' Hn. by apply elem_of_nil in Hn.
    + injection H as <- <-. right. split; [exact Hset|]. split; [apply non_empty_singleton_L|].
      intros name' Hn. by apply elem_of_nil in Hn.
    + destruct (nt_rule g name) as [j|] eqn:Hj; [|discriminate].
      destruct (IHr _ _ _ _ Hset H) as [Hm|(H1 & H2 & _ & H4)]; clear H;
        [left; exact Hm|].
      right. split; [exact H1|]. split; [exact H2|].
      intros name' ->%list_elem_of_singleton. exists j. split; assumption.
    + rewrite (Hblank p (below_refl p)) in H.
      replace (nonempty ∅) with false in H
        by (symmetry; apply nonempty_false; reflexivity).
      exact (seq_shallow_safe g (fun st k n => shallow fuel g st r (k :: p) n)
               r p nodes (Hframe r p)
               (fun st k c st' s => Hkid r p (Seq nodes t) st k c st' s Hwf)
               t st st' s Hset Hbusy Hblank H).
    + destruct (Halt st r p (Alt seqs) st' s Hwf eq_refl eq_refl Hset Hbusy Hblank H)
        as [_ [Hm|(H1 & H2 & _ & H4)]]; clear H;
        [left; exact Hm|right; split; [exact H1|split; [exact H2|exact H4]]].
    + destruct (Halt st r p (Opt seqs) st' s Hwf eq_refl eq_refl Hset Hbusy Hblank H)
        as [_ [Hm|(H1 & H2 & _ & H4)]]; clear H;
        [left; exact Hm|right; split; [exact H1|split; [exact H2|exact H4]]].
    + destruct (Halt st r p (Some_ seqs) st' s Hwf eq_refl eq_refl Hset Hbusy Hblank H)
        as [_ [Hm|(H1 & H2 & _ & H4)]]; clear H;
        [left; exact Hm|right; split; [exact H1|split; [exact H2|exact H4]]].
  - intros st j st' s Hset H. cbn [rule_shallow] in H.
    destruct (rules g !! j) as [rule|] eqn:Hj; [|discriminate].
    pose proof (lookup_lt_Some _ _ _ Hj) as Hlt.
    destruct (Nat.eqb_spec (recursed_of st j) 0) as [Hc|Hc]; cbn [negb] in H.
    + apply bind_Ok in H as ([st2 s2] & Ha & H). injection H as <- <-.
      rewrite Hc in Ha.
      set (st1 := set_recursed j 1 st) in *.
      assert (Hset1 : settled g st1).
      { apply settled_set_recursed; [exact Hset|lia]. }
      assert (Hbusy1 : recursed_of st1 j = 1%nat).
      { unfold st1. rewrite recursed_of_set. by rewrite decide_True. }
      assert (Hsame : forall k, k <> j -> recursed_of st1 k = recursed_of st k).
      { intros k Hk. unfold st1. rewrite recursed_of_set.
        by rewrite decide_False. }
      set (st3 := import_expect (IdNode j []) s2 st2).
      assert (Hfin : forall k,
        recursed_of (set_recursed j (recursed_of st3 j - 1) st3) k
        = if decide (j = k) then (recursed_of st2 j - 1)%nat else recursed_of st2 k).
      { intros k. rewrite recursed_of_set. reflexivity. }
      assert (Hmark : marked g st1 st2 ->
        marked g st (set_recursed j (recursed_of st3 j - 1) st3)).
      { intros (k & Hk & Hlt'). exists k. split; [exact Hk|]. rewrite Hfin.
        case_decide; [subst; lia|]. rewrite <- Hsame; [lia|congruence]. }
      assert (Hdone : settled g st2 -> (1 <= recursed_of st2 j)%nat ->
        safe g j -> s2 <> ∅ ->
        settled g (set_recursed j (recursed_of st3 j - 1) st3)
        /\ expect_of st3 (IdNode j []) <> ∅
        /\ expect_of st3 (IdNode j []) <> ∅ /\ safe g j).
      { intros H1 H2 H3 H4.
        assert (H5 : expect_of st2 (IdNode j []) ∪ s2 <> ∅).
        { intros [_ E]%empty_union_L. exact (H4 E). }
        split; [apply settled_done; assumption|].
        unfold st3. rewrite expect_of_import_eq.
        split; [exact H5|split; [exact H5|exact H3]]. }
      destruct (decide (expect_of st (IdNode j []) = ∅)) as [He|He].
      * destruct (Hset j Hlt Hc) as [Hblank _]. specialize (Hblank He).
        assert (Hb1 : (1 <= recursed_of st1 j)%nat) by lia.
        destruct (Halt st1 j [] (Alt (rule_seqs rule)) st2 s2 (wf_rule g j rule Hg Hj)
                    eq_refl eq_refl Hset1 Hb1 Hblank Ha)
          as [HF [Hm|(H1 & H2 & H3 & H4)]]; clear Ha;
          [left; apply Hmark; exact Hm|].
        right. apply Hdone; [exact H1| |eapply safe_rule; eassumption|exact H2].
        eapply frame_busy; [exact HF|exact Hb1].
      * unfold alt_shallow in Ha.
        change (expect_of st1 (IdNode j [])) with (expect_of st (IdNode j [])) in Ha.
        replace (nonempty (expect_of st (IdNode j []))) with true in Ha
          by (symmetry; apply nonempty_true; exact He).
        injection Ha as <- <-. right.
        destruct (Hset j Hlt Hc) as [_ Hs]. specialize (Hs He).
        apply Hdone; [exact Hset1|lia|exact Hs|exact He].
    + injection H as <- <-. left. exists j. split; [exact Hlt|].
      rewrite recursed_of_set. rewrite decide_True by reflexivity. lia.
Qed.

(** *** All the rules *)

Lemma shallow_rules_grows (g : Grammar) (fuel : nat) (rs : list Rule) :
  forall st j st',
    shallow_rules fuel g st j rs = Ok st' -> grows st st'.
Proof.
  induction rs as [|rule rs IH]; intros st j st' H; cbn [shallow_rules] in H.
  - injection H as <-. reflexivity.
  - apply bind_Ok in H as ([st1 s1] & Hr & H).
    etrans; [|eapply IH, H]. eapply (shallow_frame g fuel), Hr.
Qed.

Lemma shallow_rules_safe (g : Grammar) (fuel : nat) (rs : list Rule) :
  wf_grammar g = true ->
  forall st j st',
    settled g st -> shallow_rules fuel g st j rs = Ok st' ->
    marked g st st'
    \/ (settled g st'
        /\ forall k, (j <= k < j + length rs)%nat ->
             expect_of st' (IdNode k []) <> ∅ /\ safe g k).
Proof.
  intros Hg. induction rs as [|rule rs IH]; intros st j st' Hset H;
    cbn [shallow_rules] in H.
  - injection H as <-. right. split; [exact Hset|]. cbn. intros k Hk. lia.
  - apply bind_Ok in H as ([st1 s1] & Hr & H).
    pose proof (shallow_rules_grows _ _ _ _ _ _ H) as Hgrow.
    pose proof (proj2 (shallow_frame g fuel) _ _ _ _ Hr) as [Hgrow1 _].
    destruct (proj2 (shallow_safe g fuel Hg) _ _ _ _ Hset Hr)
      as [Hm|(H1 & _ & H3 & H4)]; clear Hr.
    { left. eapply marked_grows_r; [exact Hm|exact Hgrow]. }
    destruct (IH _ _ _ H1 H) as [Hm|[H5 H6]]; clear H.
    { left. eapply marked_grows_l; [exact Hgrow1|exact Hm]. }
    right. split; [exact H5|]. intros k Hk. cbn in Hk.
    destruct (decide (k = j)) as [->|Hkj]; [|apply H6; lia].
    split; [|exact H4]. intros E. apply H3.
    destruct Hgrow as [He _]. specialize (He (IdNode j [])).
    rewrite E in He. apply elem_of_equiv_empty_L. intros x Hx.
    apply He in Hx. by apply elem_of_empty in Hx.
Qed.

Lemma rule_names_nil (g : Grammar) (test : nat -> bool) :
  rule_names g test = [] <->
  forall j, (j < length (rules g))%nat -> test j = false.
Proof.
  unfold rule_names. split.
  - intros H j Hj. destruct (test j) eqn:Ht; [exfalso|reflexivity].
    destruct (lookup_lt_is_Some_2 _ _ Hj) as [rule Hrule].
    assert (Hin : rule_nt rule ∈
      (fun jr : nat * Rule => rule_nt jr.2)
        <$> filter (fun jr : nat * Rule => test jr.1 = true) (imap pair (rules g))).
    { apply (list_elem_of_fmap_2' _ _ (j, rule)); [|reflexivity].
      apply list_elem_of_filter. split; [exact Ht|].
      by apply (elem_of_lookup_imap_2 pair). }
    rewrite H in Hin. by apply elem_of_nil in Hin.
  - intros H.
    destruct (filter (fun jr : nat * Rule => test jr.1 = true) (imap pair (rules g)))
      as [|[j rule] l] eqn:Hf; [reflexivity|exfalso].
    assert (Hin : (j, rule) ∈
      filter (fun jr : nat * Rule => test jr.1 = true) (imap pair (rules g))).
    { rewrite Hf. left. }
    apply list_elem_of_filter in Hin as [Ht Hin]. cbn in Ht.
    apply elem_of_lookup_imap_1 in Hin as (j' & rule' & [= -> ->] & Hj).
    apply lookup_lt_Some in Hj. rewrite (H _ Hj) in Ht. discriminate.
Qed.

(** *** [deep] only adds *)

Lemma alt_union_grows (visit : state -> nat -> node -> outcome (state * gset string))
    (l : list node) (st : state) (k : nat) (acc : gset string) (st' : state)
    (acc' : gset string) :
  (forall st k n st' s, visit st k n = Ok (st', s) -> grows st st') ->
  alt_union visit st k acc l = Ok (st', acc') -> grows st st'.
Proof.
  intros Hvisit H.
  apply (alt_union_inv visit l (fun st1 _ _ => grows st st1) _ _ _ _ _ H).
  - reflexivity.
  - intros m n st1 acc1 st2 s _ HP Hv. etrans; [exact HP|]. eapply Hvisit, Hv.
Qed.

Lemma seq_deep_grows (visit : state -> nat -> node -> outcome (state * gset string))
    (l : list node) :
  (forall st k n st' s, visit st k n = Ok (st', s) -> grows st st') ->
  forall st k st' s, seq_deep visit st k l = Ok (st', s) -> grows st st'.
Proof.
  intros Hvisit. induction l as [|n l IH]; intros st k st' s H; cbn [seq_deep] in H.
  - injection H as <- <-. reflexivity.
  - apply bind_Ok in H as ([st1 after] & Hd & H).
    apply bind_Ok in H as ([st2 s2] & Hv & H). injection H as <- <-.
    etrans; [eapply IH, Hd|eapply Hvisit, Hv].
Qed.

Lemma grows_set_reached (j : nat) (st : state) : grows st (set_reached j st).
Proof.
  split; [done|]. split; [done|]. split; [done|]. split; [|done].
  cbn. apply union_subseteq_r.
Qed.

Lemma deep_grows (g : Grammar) (fuel : nat) :
  (forall st r p n st' s, deep fuel g st r p n = Ok (st', s) -> grows st st')
  /\ (forall st j st' s, rule_deep fuel g st j = Ok (st', s) -> grows st st').
Proof.
  induction fuel as [|fuel [IHn IHr]]; [split; intros; discriminate|].
  assert (Halt : forall st r p seqs st' s,
    (alt_union (fun st k n => deep fuel g st r (k :: p) n) st 0 ∅ seqs
     ≫= fun '(st, acc) =>
          let st := import_expect (IdNode r p) acc st in
          Ok (st, expect_of st (IdNode r p))) = Ok (st', s) ->
    grows st st').
  { intros st r p seqs st' s H.
    apply bind_Ok in H as ([st1 acc] & Hu & H). injection H as <- <-.
    etrans; [|apply grows_import].
    eapply alt_union_grows; [|exact Hu]. intros ????? Hv. eapply IHn, Hv. }
  split.
  - intros st r p n st' s H. cbn [deep] in H.
    destruct n as [name|name|name|nodes t|seqs|seqs|seqs].
    + injection H as <- <-. reflexivity.
    + injection H as <- <-. reflexivity.
    + destruct (nt_rule g name) as [j|]; [|discriminate]. eapply IHr, H.
    + apply bind_Ok in H as ([st1 acc] & Hd & H). injection H as <- <-.
      etrans; [|apply grows_import].
      eapply seq_deep_grows; [|exact Hd]. intros ????? Hv. eapply IHn, Hv.
    + eapply Halt, H.
    + eapply Halt, H.
    + eapply Halt, H.
  - intros st j st' s H. cbn [rule_deep] in H.
    destruct (rules g !! j) as [rule|]; [|discriminate].
    destruct (bool_decide (j ∈ reached st)).
    + eapply alt_shallow_frame in H; [apply H|].
      intros ????? Hv. eapply (shallow_frame g fuel), Hv.
    + etrans; [apply (grows_set_reached j)|]. eapply Halt, H.
Qed.

(** *** Safe rules are not left-recursive *)



Lemma fresh_settled (g : Grammar) (st : state) : fresh st -> settled g st.
Proof.
  intros [He _] r _ _. unfold blank, expect_of. rewrite He.
  split; [intros _ p' _|intros H; exfalso; apply H]; by rewrite lookup_empty.
Qed.

Lemma grows_nonempty (st st' : state) (i : id) :
  grows st st' -> expect_of st i <> ∅ -> expect_of st' i <> ∅.
Proof.
  intros [He _] Hne E. apply Hne. specialize (He i). rewrite E in He.
  apply elem_of_equiv_empty_L. intros x Hx. apply He in Hx.
  by apply elem_of_empty in Hx.
Qed.

Lemma fresh_expect (st : state) (i : id) : fresh st -> expect_of st i = ∅.
Proof. intros [He _]. unfold expect_of. rewrite He. by rewrite lookup_empty. Qed.

Lemma fresh_recursed (st : state) (j : nat) : fresh st -> recursed_of st j = 0%nat.
Proof. intros [_ Hr]. unfold recursed_of. rewrite Hr. by rewrite lookup_empty. Qed.



Lemma node_at_root (g : Grammar) (j : nat) (rule : Rule) :
  rules g !! j = Some rule -> node_at g j [] = Some (Alt (rule_seqs rule)).
Proof. intros H. unfold node_at. by rewrite H. Qed.

Lemma node_at_kid (g : Grammar) (r : nat) (p : list nat) (n c : node) (k : nat) :
  node_at g r p = Some n -> kids n !! k = Some c ->
  node_at g r (k :: p) = Some c.
Proof.
  unfold node_at. destruct (rules g !! r); [|done]. cbn. by intros ->.
Qed.

Lemma wf_node_at (g : Grammar) (r : nat) (p : list nat) (n : node) :
  wf_grammar g = true -> node_at g r p = Some n -> wf n = true.
Proof.
  intros Hg. unfold node_at. destruct (rules g !! r) as [rule|] eqn:Hr; [|done].
  revert n. induction p as [|k p IH]; intros n H; cbn in H.
  - injection H as <-. by eapply wf_rule.
  - destruct (node_at_path (Alt (rule_seqs rule)) p) as [n'|]; [|done].
    eapply wf_kid; [by apply IH|exact H].
Qed.

Lemma wf_alt_kid (n c : node) (k : nat) :
  wf n = true -> is_container n = true -> is_seq n = false ->
  kids n !! k = Some c -> is_seq c = true.
Proof.
  intros Hwf Hc Hs Hk. apply list_elem_of_lookup_2, list_elem_of_In in Hk.
  destruct n; cbn in Hwf, Hk, Hc, Hs; try done;
    apply andb_true_iff in Hwf as [Hwf _];
    apply andb_true_iff in Hwf as [_ Hwf];
    by apply (proj1 (forallb_forall _ _) Hwf).
Qed.

Lemma is_seq_container (n : node) : is_seq n = true -> is_container n = true.
Proof. by destruct n. Qed.

(** *** What a node expects, its alternatives expect *)

Lemma covered_import (g : Grammar) (st : state) (r : nat) (p : list nat)
    (s : gset string) :
  covered g st ->
  (forall n, node_at g r p = Some n -> is_container n = true -> is_seq n = false ->
     forall x, x ∈ s ->
       exists k c, kids n !! k = Some c /\ x ∈ expect_of st (IdNode r (k :: p))) ->
  covered g (import_expect (IdNode r p) s st).
Proof.
  intros Hcov Hs r' p' n' Hn' Hc' Hs' x Hx.
  assert (Hkeep : forall k c,
    kids n' !! k = Some c /\ x ∈ expect_of st (IdNode r' (k :: p')) ->
    kids n' !! k = Some c
    /\ x ∈ expect_of (import_expect (IdNode r p) s st) (IdNode r' (k :: p'))).
  { intros k c [Hk Hin]. split; [exact Hk|].
    by apply (proj1 (grows_import (IdNode r p) s st)). }
  rewrite expect_of_import in Hx. case_decide as Hid.
  - injection Hid as -> ->. apply elem_of_union in Hx as [Hx|Hx].
    + destruct (Hcov _ _ _ Hn' Hc' Hs' x Hx) as (k & c & H). exists k, c. by apply Hkeep.
    + destruct (Hs _ Hn' Hc' Hs' x Hx) as (k & c & H). exists k, c. by apply Hkeep.
  - destruct (Hcov _ _ _ Hn' Hc' Hs' x Hx) as (k & c & H). exists k, c. by apply Hkeep.
Qed.

Lemma covered_import_seq (g : Grammar) (st : state) (r : nat) (p : list nat)
    (n : node) (s : gset string) :
  covered g st -> node_at g r p = Some n -> is_seq n = true ->
  covered g (import_expect (IdNode r p) s st).
Proof.
  intros Hcov Hn Hseq. apply covered_import; [exact Hcov|].
  intros n' Hn' _ Hs'. congruence.
Qed.

Lemma covered_same (g : Grammar) (st st' : state) :
  expects st' = expects st -> covered g st -> covered g st'.
Proof.
  intros He Hcov r p n Hn Hc Hs x. unfold expect_of. rewrite He.
  apply (Hcov r p n Hn Hc Hs x).
Qed.

Section Covered.
Variable g : Grammar.
Variable visit : state -> nat -> node -> outcome (state * gset string).
Variable r : nat.
Variable p : list nat.
Variable l : list node.

Hypothesis visit_grows : forall st k n st' s,
  visit st k n = Ok (st', s) -> grows st st'.

Lemma alt_union_covered (st st' : state) (acc : gset string) :
  (forall st k c st' s,
      l !! k = Some c -> covered g st -> visit st k c = Ok (st', s) ->
      covered g st' /\ s = expect_of st' (IdNode r (k :: p))) ->
  covered g st ->
  alt_union visit st 0 ∅ l = Ok (st', acc) ->
  grows st st' /\ covered g st'
  /\ forall x, x ∈ acc ->
       exists k c, l !! k = Some c /\ x ∈ expect_of st' (IdNode r (k :: p)).
Proof.
  intros visit_cov Hcov H.
  apply (alt_union_inv visit l (fun st1 _ acc1 =>
    grows st st1 /\ covered g st1
    /\ forall x, x ∈ acc1 ->
         exists k c, l !! k = Some c /\ x ∈ expect_of st1 (IdNode r (k :: p)))
    _ _ _ _ _ H).
  - split; [reflexivity|]. split; [exact Hcov|].
    intros x Hx. by apply elem_of_empty in Hx.
  - intros m c st1 acc1 st2 s Hm (Hg1 & Hc1 & Hacc) Hv. cbn in Hv.
    pose proof (visit_grows _ _ _ _ _ Hv) as Hg2.
    destruct (visit_cov _ _ _ _ _ Hm Hc1 Hv) as [Hc2 ->].
    split; [by etrans|]. split; [exact Hc2|].
    intros x [Hx|Hx]%elem_of_union.
    + destruct (Hacc x Hx) as (k & c' & Hk & Hin). exists k, c'.
      split; [exact Hk|]. by apply (proj1 Hg2).
    + by exists m, c.
Qed.

Lemma alt_shallow_covered (n : node) (st st' : state) (s : gset string) :
  (forall st k c st' s,
      l !! k = Some c -> covered g st -> visit st k c = Ok (st', s) ->
      covered g st' /\ s = expect_of st' (IdNode r (k :: p))) ->
  node_at g r p = Some n -> kids n = l ->
  covered g st ->
  alt_shallow visit (IdNode r p) st l = Ok (st', s) ->
  covered g st' /\ s = expect_of st' (IdNode r p).
Proof.
  intros visit_cov Hn Hl Hcov H. unfold alt_shallow in H.
  destruct (nonempty (expect_of st (IdNode r p))).
  - injection H as <- <-. by split.
  - apply bind_Ok in H as ([st1 acc] & Hu & H). injection H as <- <-.
    destruct (alt_union_covered _ _ _ visit_cov Hcov Hu) as (_ & Hc1 & Hacc).
    split; [|reflexivity]. apply covered_import; [exact Hc1|].
    intros n' Hn' _ _ x Hx. assert (n' = n) as -> by congruence.
    rewrite Hl. by apply Hacc.
Qed.

Lemma seq_shallow_covered (n : node) (st st' : state) (s : gset string) :
  (forall st k c st' s,
      l !! k = Some c -> covered g st -> visit st k c = Ok (st', s) ->
      covered g st') ->
  node_at g r p = Some n -> is_seq n = true ->
  covered g st ->
  seq_shallow visit (IdNode r p) st 0 l = Ok (st', s) ->
  covered g st' /\ s = expect_of st' (IdNode r p).
Proof.
  intros visit_cov Hn Hseq Hcov H.
  destruct (seq_shallow_inv visit _ l (fun st1 _ => covered g st1) _ _ _ _ H)
    as (_ & _ & _ & _ & _ & HP & Hs); [exact Hcov| |by split].
  intros m c st1 st2 s' Hm HP _ Hv. cbn in Hv.
  eapply covered_import_seq; [|exact Hn|exact Hseq].
  eapply visit_cov; [exact Hm|exact HP|exact Hv].
Qed.

End Covered.

Lemma shallow_grows (g : Grammar) (fuel : nat) (r : nat) (p : list nat) :
  forall st k n st' s,
    shallow fuel g st r (k :: p) n = Ok (st', s) -> grows st st'.
Proof.
  intros st k n st' s H.
  apply (proj1 (proj1 (shallow_frame g fuel) st r (k :: p) n st' s H)).
Qed.

Lemma shallow_covered (g : Grammar) (fuel : nat) :
  wf_grammar g = true ->
  (forall st r p n st' s,
      node_at g r p = Some n -> covered g st ->
      shallow fuel g st r p n = Ok (st', s) ->
      covered g st' /\ (is_container n = true -> s = expect_of st' (IdNode r p)))
  /\ (forall st j st' s,
      covered g st -> rule_shallow fuel g st j = Ok (st', s) -> covered g st').
Proof.
  intros Hg. induction fuel as [|fuel [IHn IHr]]; [split; intros; discriminate|].
  assert (Hkid : forall r p n st k c st' s,
    node_at g r p = Some n -> kids n !! k = Some c -> covered g st ->
    shallow fuel g st r (k :: p) c = Ok (st', s) ->
    covered g st' /\ (is_container c = true -> s = expect_of st' (IdNode r (k :: p)))).
  { intros r p n st k c st' s Hn Hk Hcov Hv.
    eapply IHn; [|exact Hcov|exact Hv]. eapply node_at_kid; [exact Hn|exact Hk]. }
  assert (Halt : forall st r p n st' s,
    node_at g r p = Some n -> is_container n = true -> is_seq n = false ->
    covered g st ->
    alt_shallow (fun st k n => shallow fuel g st r (k :: p) n) (IdNode r p) st
      (kids n) = Ok (st', s) ->
    covered g st' /\ s = expect_of st' (IdNode r p)).
  { intros st r p n st' s Hn Hc Hs Hcov H.
    refine (alt_shallow_covered g (fun st k n => shallow fuel g st r (k :: p) n)
              r p (kids n) (shallow_grows g fuel r p) n st st' s _ Hn eq_refl Hcov H).
    intros st1 k c st2 s2 Hk Hcov1 Hv.
    destruct (Hkid r p n st1 k c st2 s2 Hn Hk Hcov1 Hv) as [H1 H2].
    split; [exact H1|]. apply H2, is_seq_container.
    eapply wf_alt_kid; [|exact Hc|exact Hs|exact Hk].
    eapply wf_node_at; [exact Hg|exact Hn]. }
  split.
  - intros st r p n st' s Hn Hcov H. cbn [shallow] in H.
    destruct n as [name|name|name|nodes t|seqs|seqs|seqs].
    + injection H as <- <-. split; [exact Hcov|discriminate].
    + injection H as <- <-. split; [exact Hcov|discriminate].
    + destruct (nt_rule g name) as [j|]; [|discriminate].
      split; [eapply IHr; [exact Hcov|exact H]|discriminate].
    + destruct (nonempty (expect_of st (IdNode r p))).
      * injection H as <- <-. split; [exact Hcov|reflexivity].
      * intros. split; [|intros _];
          eapply (seq_shallow_covered g (fun st k n => shallow fuel g st r (k :: p) n)
                    r p nodes (Seq nodes t) st st' s); try exact H; try exact Hn;
            try exact Hcov; try reflexivity;
            intros st1 k c st2 s2 Hk Hcov1 Hv;
            apply (Hkid r p (Seq nodes t) st1 k c st2 s2 Hn Hk Hcov1 Hv).
    + destruct (Halt st r p (Alt seqs) st' s Hn eq_refl eq_refl Hcov H) as [H1 H2].
      split; [exact H1|intros _; exact H2].
    + destruct (Halt st r p (Opt seqs) st' s Hn eq_refl eq_refl Hcov H) as [H1 H2].
      split; [exact H1|intros _; exact H2].
    + destruct (Halt st r p (Some_ seqs) st' s Hn eq_refl eq_refl Hcov H) as [H1 H2].
      split; [exact H1|intros _; exact H2].
  - intros st j st' s Hcov H. cbn [rule_shallow] in H.
    destruct (rules g !! j) as [rule|] eqn:Hj; [|discriminate].
    destruct (negb (recursed_of st j =? 0)%nat).
    + injection H as <- <-. exact Hcov.
    + apply bind_Ok in H as ([st2 s2] & Ha & H). injection H as <- <-.
      destruct (Halt (set_recursed j (S (recursed_of st j)) st) j []
                  (Alt (rule_seqs rule)) st2 s2 (node_at_root g j rule Hj)
                  eq_refl eq_refl (covered_same g st _ eq_refl Hcov) Ha)
        as [H1 H2]; clear Ha.
      apply (covered_same g (import_expect (IdNode j []) s2 st2)); [reflexivity|].
      apply covered_import; [exact H1|].
      intros n Hn Hc Hs x Hx. rewrite H2 in Hx. exact (H1 j [] n Hn Hc Hs x Hx).
Qed.

Lemma seq_deep_covered (g : Grammar)
    (visit : state -> nat -> node -> outcome (state * gset string))
    (l : list node) :
  forall k st st' s,
    (forall st m c st' s,
        l !! m = Some c -> covered g st -> visit st (k + m)%nat c = Ok (st', s) ->
        covered g st') ->
    covered g st -> seq_deep visit st k l = Ok (st', s) -> covered g st'.
Proof.
  induction l as [|n l IH]; intros k st st' s Hvisit Hcov H; cbn [seq_deep] in H.
  - by injection H as <- <-.
  - apply bind_Ok in H as ([st1 after] & Hd & H).
    apply bind_Ok in H as ([st2 s2] & Hv & H). injection H as <- <-.
    apply (Hvisit st1 0%nat n st2 s2); [reflexivity| |by rewrite Nat.add_0_r].
    apply (IH (S k) st st1 after); [|exact Hcov|exact Hd].
    intros st3 m c st4 s4 Hm Hc3 Hv3.
    apply (Hvisit st3 (S m) c st4 s4); [exact Hm|exact Hc3|].
    by replace (k + S m)%nat with (S k + m)%nat by lia.
Qed.

Lemma deep_result (g : Grammar) (fuel : nat) (st : state) (r : nat)
    (p : list nat) (n : node) (st' : state) (s : gset string) :
  deep fuel g st r p n = Ok (st', s) -> is_container n = true ->
  s = expect_of st' (IdNode r p).
Proof.
  destruct fuel as [|fuel]; [discriminate|]. cbn [deep].
  destruct n; try discriminate; intros H _;
    apply bind_Ok in H as ([st1 acc] & _ & H); by injection H as <- <-.
Qed.

Lemma deep_covered (g : Grammar) (fuel : nat) :
  wf_grammar g = true ->
  (forall st r p n st' s,
      node_at g r p = Some n -> covered g st ->
      deep fuel g st r p n = Ok (st', s) -> covered g st')
  /\ (forall st j st' s,
      covered g st -> rule_deep fuel g st j = Ok (st', s) -> covered g st').
Proof.
  intros Hg. induction fuel as [|fuel [IHn IHr]]; [split; intros; discriminate|].
  assert (Halt : forall st r p n st' s,
    node_at g r p = Some n -> is_container n = true -> is_seq n = false ->
    covered g st ->
    (alt_union (fun st k n => deep fuel g st r (k :: p) n) st 0 ∅ (kids n)
     ≫= fun '(st, acc) =>
          let st := import_expect (IdNode r p) acc st in
          Ok (st, expect_of st (IdNode r p))) = Ok (st', s) ->
    covered g st').
  { intros st r p n st' s Hn Hc Hs Hcov H.
    apply bind_Ok in H as ([st1 acc] & Hu & H). injection H as <- <-.
    destruct (alt_union_covered g (fun st k n => deep fuel g st r (k :: p) n)
                r p (kids n)
                (fun st k n st' s => proj1 (deep_grows g fuel) st r (k :: p) n st' s)
                st st1 acc) as (_ & Hc1 & Hacc); [|exact Hcov|exact Hu|].
    - intros st2 k c st3 s3 Hk Hc2 Hv. split.
      + eapply IHn; [|exact Hc2|exact Hv]. eapply node_at_kid; [exact Hn|exact Hk].
      + eapply deep_result; [exact Hv|]. apply is_seq_container.
        eapply wf_alt_kid; [|exact Hc|exact Hs|exact Hk].
        eapply wf_node_at; [exact Hg|exact Hn].
    - apply covered_import; [exact Hc1|].
      intros n' Hn' _ _ x Hx. assert (n' = n) as -> by congruence.
      by apply Hacc. }
  split.
  - intros st r p n st' s Hn Hcov H. cbn [deep] in H.
    destruct n as [name|name|name|nodes t|seqs|seqs|seqs].
    + by injection H as <- <-.
    + by injection H as <- <-.
    + destruct (nt_rule g name) as [j|]; [|discriminate].
      eapply IHr; [exact Hcov|exact H].
    + apply bind_Ok in H as ([st1 acc] & Hd & H). injection H as <- <-.
      eapply covered_import_seq; [|exact Hn|reflexivity].
      eapply (seq_deep_covered g _ nodes 0%nat); [|exact Hcov|exact Hd].
      intros st2 m c st3 s3 Hm Hc2 Hv. cbn in Hv.
      eapply IHn; [|exact Hc2|exact Hv]. eapply node_at_kid; [exact Hn|exact Hm].
    + exact (Halt st r p (Alt seqs) st' s Hn eq_refl eq_refl Hcov H).
    + exact (Halt st r p (Opt seqs) st' s Hn eq_refl eq_refl Hcov H).
    + exact (Halt st r p (Some_ seqs) st' s Hn eq_refl eq_refl Hcov H).
  - intros st j st' s Hcov H. cbn [rule_deep] in H.
    destruct (rules g !! j) as [rule|] eqn:Hj; [|discriminate].
    pose proof (node_at_root g j rule Hj) as Hroot.
    destruct (bool_decide (j ∈ reached st)).
    + refine (proj1 (alt_shallow_covered g (fun st k n => shallow fuel g st j [k] n)
                j [] (rule_seqs rule) (shallow_grows g fuel j [])
                (Alt (rule_seqs rule)) st st' s _ Hroot eq_refl Hcov H)).
      intros st1 k c st2 s2 Hk Hc1 Hv.
      destruct (proj1 (shallow_covered g fuel Hg) st1 j [k] c st2 s2) as [H1 H2];
        [eapply node_at_kid; [exact Hroot|exact Hk]|exact Hc1|exact Hv|].
      split; [exact H1|]. apply H2, is_seq_container.
      eapply (wf_alt_kid (Alt (rule_seqs rule))); [|reflexivity|reflexivity|exact Hk].
      eapply wf_rule; [exact Hg|exact Hj].
    + apply (Halt (set_reached j st) j [] (Alt (rule_seqs rule)) st' s Hroot
               eq_refl eq_refl); [|exact H].
      apply (covered_same g st); [reflexivity|exact Hcov].
Qed.

(** *** [follow] leaves [expect] and the error counter alone *)

Lemma alt_follow_keeps (visit : state -> nat -> node -> gset string -> outcome state)
    (l : list node) (inc : gset string) :
  (forall st k n inc st', visit st k n inc = Ok st' ->
     expects st' = expects st /\ errors st' = errors st) ->
  forall st k st', alt_follow visit st k l inc = Ok st' ->
    expects st' = expects st /\ errors st' = errors st.
Proof.
  intros Hvisit. induction l as [|n l IH]; intros st k st' H; cbn [alt_follow] in H.
  - by injection H as <-.
  - apply bind_Ok in H as (st1 & Hv & H).
    destruct (Hvisit _ _ _ _ _ Hv) as [E1 E2].
    destruct (IH _ _ _ H) as [E3 E4]. split; congruence.
Qed.

Lemma seq_follow_keeps (visit : state -> nat -> node -> gset string -> outcome state)
    (expect : state -> nat -> node -> outcome (gset string))
    (l : list node) (inc : gset string) :
  (forall st k n inc st', visit st k n inc = Ok st' ->
     expects st' = expects st /\ errors st' = errors st) ->
  forall st k st' f, seq_follow visit expect st k l inc = Ok (st', f) ->
    expects st' = expects st /\ errors st' = errors st.
Proof.
  intros Hvisit. induction l as [|n l IH]; intros st k st' f H;
    cbn [seq_follow] in H.
  - by injection H as <- <-.
  - apply bind_Ok in H as ([st1 f1] & Hs & H).
    apply bind_Ok in H as (st2 & Hv & H).
    apply bind_Ok in H as (e & _ & H). injection H as <- <-.
    destruct (IH _ _ _ _ Hs) as [E1 E2].
    destruct (Hvisit _ _ _ _ _ Hv) as [E3 E4]. split; congruence.
Qed.

Lemma follow_keeps (g : Grammar) (fuel : nat) :
  (forall st r p n inc st', follow fuel g st r p n inc = Ok st' ->
     expects st' = expects st /\ errors st' = errors st)
  /\ (forall st j inc st', rule_follow fuel g st j inc = Ok st' ->
     expects st' = expects st /\ errors st' = errors st).
Proof.
  induction fuel as [|fuel [IHn IHr]]; [split; intros; discriminate|].
  assert (Halt : forall st r p seqs inc st',
    alt_follow (fun st k n inc => follow fuel g st r (k :: p) n inc) st 0 seqs inc
    = Ok st' ->
    expects st' = expects st /\ errors st' = errors st).
  { intros st r p seqs inc st' H.
    eapply (alt_follow_keeps (fun st k n inc => follow fuel g st r (k :: p) n inc));
      [|exact H].
    intros st1 k n inc1 st2 Hv. exact (IHn _ _ _ _ _ _ Hv). }
  split.
  - intros st r p n inc st' H. cbn [follow] in H.
    destruct n as [name|name|name|nodes t|seqs|seqs|seqs].
    + by injection H as <-.
    + by injection H as <-.
    + destruct (nt_rule g name) as [j|]; [|discriminate].
      destruct (follows st !! IdNode j []) as [old|].
      * destruct (bool_decide (inc ⊆ old)); [by injection H as <-|].
        exact (IHr _ _ _ _ H).
      * exact (IHr _ _ _ _ H).
    + apply bind_Ok in H as ([st1 f] & Hs & H). injection H as <-.
      eapply (seq_follow_keeps
                (fun st k n inc => follow fuel g st r (k :: p) n inc)) in Hs;
        [exact Hs|].
      intros st2 k n inc1 st3 Hv. exact (IHn _ _ _ _ _ _ Hv).
    + exact (Halt _ _ _ _ _ _ H).
    + exact (Halt _ _ _ _ _ _ H).
    + exact (Halt _ _ _ _ _ _ H).
  - intros st j inc st' H. cbn [rule_follow] in H.
    destruct (rules g !! j) as [rule|]; [|discriminate].
    exact (Halt _ _ _ _ _ _ H).
Qed.

(** *** Without an error message all the tests pass *)

Lemma node_nested_ind (P : node -> Prop) :
  (forall name, P (Lit name)) ->
  (forall name, P (Token name)) ->
  (forall name, P (NT name)) ->
  (forall nodes t, Forall P nodes -> P (Seq nodes t)) ->
  (forall seqs, Forall P seqs -> P (Alt seqs)) ->
  (forall seqs, Forall P seqs -> P (Opt seqs)) ->
  (forall seqs, Forall P seqs -> P (Some_ seqs)) ->
  forall n, P n.
Proof.
  intros HL HT HN HS HA HO HM.
  refine (fix IH (n : node) : P n :=
    let all := fix all (l : list node) : Forall P l :=
      match l with
      | [] => ListDef.Forall_nil P
      | c :: l' => ListDef.Forall_cons P c l' (IH c) (all l')
      end in
    match n with
    | Lit name => HL name
    | Token name => HT name
    | NT name => HN name
    | Seq nodes t => HS nodes t (all nodes)
    | Alt seqs => HA seqs (all seqs)
    | Opt seqs => HO seqs (all seqs)
    | Some_ seqs => HM seqs (all seqs)
    end).
Qed.

Lemma node_at_path_snoc (n : node) (q : list nat) (k : nat) :
  node_at_path n (q ++ [k])
  = match kids n !! k with Some c => node_at_path c q | None => None end.
Proof.
  induction q as [|m q IH]; cbn.
  - by destruct (kids n !! k).
  - rewrite IH. by destruct (kids n !! k).
Qed.

Lemma same_sets_refl (st : state) : same_sets st st.
Proof. by split. Qed.

Lemma same_sets_trans (st st1 st2 : state) :
  same_sets st st1 -> same_sets st1 st2 -> same_sets st st2.
Proof. intros [? ?] [? ?]. split; congruence. Qed.

Lemma same_sets_expect (st st' : state) (i : id) :
  same_sets st st' -> expect_of st' i = expect_of st i.
Proof. intros [E _]. unfold expect_of. by rewrite E. Qed.

Lemma sum_list_cons (x : nat) (l : list nat) :
  sum_list (x :: l) = (x + sum_list l)%nat.
Proof. reflexivity. Qed.

Lemma keep_error (e any : option message) :
  match e with Some _ => e | None => any end = None -> e = None /\ any = None.
Proof. destruct e; [discriminate|]. by intros ->. Qed.

Lemma seq_check_spec (visit : state -> nat -> node -> outcome (state * option message))
    (l : list node) :
  forall k st any st' e,
    (forall m c st1 st2 e1,
        l !! m = Some c -> visit st1 (k + m)%nat c = Ok (st2, e1) ->
        same_sets st1 st2 /\ (e1 = None -> st2 = st1)) ->
    seq_check visit st k any l = Ok (st', e) ->
    same_sets st st'
    /\ (e = None ->
        any = None /\ st' = st
        /\ forall m c, l !! m = Some c -> visit st (k + m)%nat c = Ok (st, None)).
Proof.
  induction l as [|n l IH]; intros k st any st' e Hvisit H; cbn [seq_check] in H.
  - injection H as <- <-. split; [apply same_sets_refl|].
    intros ->. repeat split. intros m c Hm. by rewrite lookup_nil in Hm.
  - apply bind_Ok in H as ([st1 e1] & Hv & H).
    destruct (Hvisit 0%nat n st st1 e1 eq_refl) as [Hs1 Hn1];
      [by rewrite Nat.add_0_r|].
    assert (Hvisit' : forall m c st2 st3 e2,
      l !! m = Some c -> visit st2 (S k + m)%nat c = Ok (st3, e2) ->
      same_sets st2 st3 /\ (e2 = None -> st3 = st2)).
    { intros m c st2 st3 e2 Hm Hv2. apply (Hvisit (S m) c); [exact Hm|].
      by replace (k + S m)%nat with (S k + m)%nat by lia. }
    destruct (IH _ _ _ _ _ Hvisit' H) as [Hs2 Hn2].
    split; [by eapply same_sets_trans|].
    intros ->. destruct (Hn2 eq_refl) as (Hany & -> & Hall).
    apply keep_error in Hany as [-> ->]. rewrite (Hn1 eq_refl) in *.
    repeat split. intros [|m] c Hm.
    + injection Hm as <-. by rewrite Nat.add_0_r.
    + replace (k + S m)%nat with (S k + m)%nat by lia. by apply Hall.
Qed.

Lemma alt_sum_spec (visit : state -> nat -> node -> outcome (state * option message))
    (expect : state -> nat -> node -> outcome (gset string))
    (E : nat -> gset string) (l : list node) :
  forall k st any sum st' e len,
    (forall m c st1 st2 e1,
        l !! m = Some c -> visit st1 (k + m)%nat c = Ok (st2, e1) ->
        same_sets st1 st2 /\ (e1 = None -> st2 = st1)) ->
    (forall m c st1,
        l !! m = Some c -> same_sets st st1 ->
        expect st1 (k + m)%nat c = Ok (E (k + m)%nat)) ->
    alt_sum visit expect st k any sum l = Ok (st', e, len) ->
    same_sets st st'
    /\ len = (sum + sum_list (size <$> imap (fun m _ => E (k + m)%nat) l))%nat
    /\ (e = None ->
        any = None /\ st' = st
        /\ forall m c, l !! m = Some c -> visit st (k + m)%nat c = Ok (st, None)).
Proof.
  induction l as [|n l IH]; intros k st any sum st' e len Hvisit Hexp H;
    cbn [alt_sum] in H.
  - injection H as <- <- <-. split; [apply same_sets_refl|]. split; [cbn; lia|].
    intros ->. repeat split. intros m c Hm. by rewrite lookup_nil in Hm.
  - apply bind_Ok in H as ([st1 e1] & Hv & H).
    apply bind_Ok in H as (s & He & H).
    destruct (Hvisit 0%nat n st st1 e1 eq_refl) as [Hs1 Hn1];
      [by rewrite Nat.add_0_r|].
    rewrite <- (Nat.add_0_r k) in He at 1.
    rewrite (Hexp 0%nat n st1 eq_refl Hs1) in He. injection He as <-.
    assert (Hvisit' : forall m c st2 st3 e2,
      l !! m = Some c -> visit st2 (S k + m)%nat c = Ok (st3, e2) ->
      same_sets st2 st3 /\ (e2 = None -> st3 = st2)).
    { intros m c st2 st3 e2 Hm Hv2. apply (Hvisit (S m) c); [exact Hm|].
      by replace (k + S m)%nat with (S k + m)%nat by lia. }
    assert (Hexp' : forall m c st2,
      l !! m = Some c -> same_sets st1 st2 ->
      expect st2 (S k + m)%nat c = Ok (E (S k + m)%nat)).
    { intros m c st2 Hm Hs. replace (S k + m)%nat with (k + S m)%nat by lia.
      apply (Hexp (S m) c); [exact Hm|]. by eapply same_sets_trans. }
    destruct (IH _ _ _ _ _ _ _ Hvisit' Hexp' H) as (Hs2 & Hlen & Hn2).
    split; [by eapply same_sets_trans|]. split.
    + rewrite Hlen, imap_cons, fmap_cons, sum_list_cons.
      rewrite (imap_ext (fun m _ => E (S k + m)%nat)
                 ((fun m (_ : node) => E (k + m)%nat) ∘ S) l); [lia|].
      intros m c _. cbn. f_equal. lia.
    + intros ->. destruct (Hn2 eq_refl) as (Hany & -> & Hall).
      apply keep_error in Hany as [-> ->]. rewrite (Hn1 eq_refl) in *.
      repeat split. intros [|m] c Hm.
      * injection Hm as <-. by rewrite Nat.add_0_r.
      * replace (k + S m)%nat with (S k + m)%nat by lia. by apply Hall.
Qed.

Lemma node_expect_seq (g : Grammar) (st : state) (r : nat) (p : list nat)
    (c : node) :
  is_seq c = true -> node_expect g st r p c = Ok (expect_of st (IdNode r p)).
Proof. by destruct c. Qed.

Lemma same_sets_error (m : message) (st : state) : same_sets st (error m st).
Proof. by split. Qed.

Lemma leaf_path (n : node) (q : list nat) (n' : node) :
  kids n = [] -> node_at_path n q = Some n' -> q = [] /\ n' = n.
Proof.
  intros Hk. revert n'. induction q as [|k q IH]; intros n' H; cbn in H.
  - by injection H as <-.
  - destruct (node_at_path n q) as [n''|]; [|discriminate].
    destruct (IH n'' eq_refl) as [_ ->]. rewrite Hk in H.
    by rewrite lookup_nil in H.
Qed.

Section Check.
Variable g : Grammar.
Variable name : string.
Variable r : nat.

Lemma promise_kids (n : node) (p : list nat) (st : state) :
  wf n = true -> Forall (check_promise g name r) (kids n) -> passes st r p n ->
  (forall m c, kids n !! m = Some c ->
     check_node g name r c (m :: p) st = Ok (st, None)) ->
  forall q n', node_at_path n q = Some n' -> passes st r (q ++ p) n'.
Proof.
  intros Hwf Hall Hhere Hkids q n' Hq.
  destruct (decide (q = [])) as [->|Hne].
  - cbn in Hq. by injection Hq as <-.
  - destruct (exists_last Hne) as (q' & k & ->).
    rewrite node_at_path_snoc in Hq.
    destruct (kids n !! k) as [c|] eqn:Hk; [|discriminate].
    rewrite <- app_assoc. cbn.
    pose proof (proj1 (Forall_lookup _ _) Hall k c Hk) as Hc.
    destruct (Hc (k :: p) st st None (wf_kid n c k Hwf Hk) (Hkids k c Hk))
      as [_ Hsub].
    by apply (Hsub eq_refl).
Qed.

Lemma visit_promise (n : node) (p : list nat) :
  wf n = true -> Forall (check_promise g name r) (kids n) ->
  forall m c st1 st2 e1,
    kids n !! m = Some c ->
    check_node g name r c ((0 + m)%nat :: p) st1 = Ok (st2, e1) ->
    same_sets st1 st2 /\ (e1 = None -> st2 = st1).
Proof.
  intros Hwf Hall m c st1 st2 e1 Hm Hv.
  pose proof (proj1 (Forall_lookup _ _) Hall m c Hm) as Hc.
  destruct (Hc _ _ _ _ (wf_kid n c m Hwf Hm) Hv) as [H1 H2].
  split; [exact H1|]. intros He. by apply H2.
Qed.

Lemma alt_check_promise (n : node) (p : list nat) (st st' : state)
    (e : option message) :
  wf n = true -> is_container n = true -> is_seq n = false ->
  Forall (check_promise g name r) (kids n) ->
  alt_check (fun st k n => check_node g name r n (k :: p) st)
    (fun st k n => node_expect g st r (k :: p) n) (IdNode r p) name st (kids n)
  = Ok (st', e) ->
  same_sets st st'
  /\ (e = None ->
      st' = st
      /\ size (expect_of st (IdNode r p)) = sum_list (size <$> alternatives st r p n)
      /\ forall m c, kids n !! m = Some c ->
           check_node g name r c (m :: p) st = Ok (st, None)).
Proof.
  intros Hwf Hc Hs Hall H. unfold alt_check in H.
  apply bind_Ok in H as ([[st1 any] len] & Hsum & H).
  destruct (alt_sum_spec (fun st k n => check_node g name r n (k :: p) st)
              (fun st k n => node_expect g st r (k :: p) n)
              (fun k => expect_of st (IdNode r (k :: p))) (kids n)
              0%nat st None 0%nat st1 any len
              (visit_promise n p Hwf Hall)) as (Hs1 & Hlen & Hnone);
    [|exact Hsum|].
  { intros m c st2 Hm Hs2. cbn.
    rewrite node_expect_seq by (by eapply wf_alt_kid).
    by rewrite (same_sets_expect _ _ _ Hs2). }
  destruct (Nat.eqb_spec (size (expect_of st1 (IdNode r p))) len) as [Hsize|Hsize];
    cbn [negb] in H; injection H as <- <-.
  - split; [exact Hs1|]. intros ->. destruct (Hnone eq_refl) as (_ & -> & Hkids).
    split; [reflexivity|]. split; [|exact Hkids].
    rewrite Hsize, Hlen. reflexivity.
  - split; [|discriminate]. eapply same_sets_trans; [exact Hs1|apply same_sets_error].
Qed.

Lemma opt_check_promise (n : node) (p : list nat)
    (ambiguous : string -> gset string -> message) (st st' : state)
    (e : option message) :
  wf n = true -> is_container n = true -> is_seq n = false ->
  Forall (check_promise g name r) (kids n) ->
  opt_check (fun st k n => check_node g name r n (k :: p) st)
    (fun st k n => node_expect g st r (k :: p) n) ambiguous (IdNode r p) name st
    (kids n)
  = Ok (st', e) ->
  same_sets st st'
  /\ (e = None ->
      st' = st
      /\ size (expect_of st (IdNode r p)) = sum_list (size <$> alternatives st r p n)
      /\ expect_of st (IdNode r p) ∩ follow_of st (IdNode r p) = ∅
      /\ forall m c, kids n !! m = Some c ->
           check_node g name r c (m :: p) st = Ok (st, None)).
Proof.
  intros Hwf Hc Hs Hall H. unfold opt_check in H.
  apply bind_Ok in H as ([st1 any] & Halt & H).
  apply bind_Ok in H as (overlap & Hov & H).
  destruct (alt_check_promise n p st st1 any Hwf Hc Hs Hall Halt) as [Hs1 Hnone].
  destruct (nonempty overlap) eqn:Hne; injection H as <- <-.
  - split; [|discriminate]. eapply same_sets_trans; [exact Hs1|apply same_sets_error].
  - split; [exact Hs1|]. intros ->. destruct (Hnone eq_refl) as (-> & Hsize & Hkids).
    split; [reflexivity|]. split; [exact Hsize|]. split; [|exact Hkids].
    apply nonempty_false in Hne. subst overlap.
    unfold overlap_follow in Hov. unfold follow_of.
    destruct (follows st !! IdNode r p) as [f|]; cbn.
    + by injection Hov as ->.
    + destruct (nonempty (expect_of st (IdNode r p))) eqn:Hex; [discriminate|].
      apply nonempty_false in Hex. rewrite Hex. apply intersection_empty_l_L.
Qed.

Lemma check_node_promise (n : node) : check_promise g name r n.
Proof.
  induction n as [nm|nm|nm|nodes t IH|seqs IH|seqs IH|seqs IH] using node_nested_ind;
    intros p st st' e Hwf H; cbn [check_node] in H.
  - injection H as <- <-. split; [apply same_sets_refl|]. intros _.
    split; [reflexivity|]. intros q n' Hq.
    apply leaf_path in Hq as [-> ->]; [|reflexivity]. split; discriminate.
  - injection H as <- <-. split; [apply same_sets_refl|]. intros _.
    split; [reflexivity|]. intros q n' Hq.
    apply leaf_path in Hq as [-> ->]; [|reflexivity]. split; discriminate.
  - injection H as <- <-. split; [apply same_sets_refl|]. intros _.
    split; [reflexivity|]. intros q n' Hq.
    apply leaf_path in Hq as [-> ->]; [|reflexivity]. split; discriminate.
  - destruct (seq_check_spec (fun st k n => check_node g name r n (k :: p) st)
                nodes 0%nat st None st' e
                (visit_promise (Seq nodes t) p Hwf IH) H) as [Hs Hnone].
    split; [exact Hs|]. intros ->. destruct (Hnone eq_refl) as (_ & -> & Hkids).
    split; [reflexivity|].
    apply (promise_kids (Seq nodes t) p st Hwf IH); [split; discriminate|exact Hkids].
  - destruct (alt_check_promise (Alt seqs) p st st' e Hwf eq_refl eq_refl IH H)
      as [Hs Hnone].
    split; [exact Hs|]. intros ->. destruct (Hnone eq_refl) as (-> & Hsize & Hkids).
    split; [reflexivity|].
    apply (promise_kids (Alt seqs) p st Hwf IH); [|exact Hkids].
    split; [intros _ _; exact Hsize|discriminate].
  - destruct (opt_check_promise (Opt seqs) p AmbiguousOpt st st' e Hwf
                eq_refl eq_refl IH H) as [Hs Hnone].
    split; [exact Hs|]. intros ->.
    destruct (Hnone eq_refl) as (-> & Hsize & Hov & Hkids).
    split; [reflexivity|].
    apply (promise_kids (Opt seqs) p st Hwf IH); [|exact Hkids].
    split; [intros _ _; exact Hsize|intros _; exact Hov].
  - destruct (opt_check_promise (Some_ seqs) p AmbiguousSome st st' e Hwf
                eq_refl eq_refl IH H) as [Hs Hnone].
    split; [exact Hs|]. intros ->.
    destruct (Hnone eq_refl) as (-> & Hsize & Hov & Hkids).
    split; [reflexivity|].
    apply (promise_kids (Some_ seqs) p st Hwf IH); [|exact Hkids].
    split; [intros _ _; exact Hsize|intros _; exact Hov].
Qed.

End Check.

(** *** Sizes that add up belong to disjoint sets *)




(** *** All the rules *)

Lemma check_rules_spec (g : Grammar) (rs : list Rule) :
  wf_grammar g = true ->
  forall st j count st' count',
    (forall m rule, rs !! m = Some rule -> rules g !! (j + m)%nat = Some rule) ->
    check_rules g st j count rs = Ok (st', count') ->
    same_sets st st' /\ (count <= count')%nat
    /\ (count' = count ->
        st' = st
        /\ forall m rule, rs !! m = Some rule ->
             forall q n', node_at_path (Alt (rule_seqs rule)) q = Some n' ->
               passes st (j + m)%nat q n').
Proof.
  intros Hg. induction rs as [|rule rs IH]; intros st j count st' count' Hrs H;
    cbn [check_rules] in H.
  - injection H as <- <-. split; [apply same_sets_refl|]. split; [lia|].
    intros _. split; [reflexivity|]. intros m rule Hm. by rewrite lookup_nil in Hm.
  - apply bind_Ok in H as ([st1 e] & Hc & H).
    assert (Hrule : rules g !! j = Some rule).
    { rewrite <- (Nat.add_0_r j). by apply Hrs. }
    destruct (check_node_promise g (rule_nt rule) j (Alt (rule_seqs rule)) [] st st1 e
                (wf_rule g j rule Hg Hrule) Hc) as [Hs1 Hnone]; clear Hc.
    assert (Hrs' : forall m rule', rs !! m = Some rule' ->
      rules g !! (S j + m)%nat = Some rule').
    { intros m rule' Hm. replace (S j + m)%nat with (j + S m)%nat by lia.
      by apply Hrs. }
    destruct (IH _ _ _ _ _ Hrs' H) as (Hs2 & Hle & Hsame); clear H.
    split; [by eapply same_sets_trans|]. destruct e as [msg|].
    + split; [lia|]. intros ->. lia.
    + split; [exact Hle|]. intros ->.
      destruct (Hnone eq_refl) as [-> Hpass].
      destruct (Hsame eq_refl) as [-> Hrest]. split; [reflexivity|].
      intros [|m] rule' Hm q n' Hq.
      * injection Hm as <-. rewrite Nat.add_0_r.
        rewrite <- (app_nil_r q). by apply Hpass.
      * replace (j + S m)%nat with (S j + m)%nat by lia. by eapply Hrest.
Qed.

Lemma shallow_rules_covered (g : Grammar) (fuel : nat) (rs : list Rule) :
  wf_grammar g = true ->
  forall st j st',
    covered g st -> shallow_rules fuel g st j rs = Ok st' -> covered g st'.
Proof.
  intros Hg. induction rs as [|rule rs IH]; intros st j st' Hcov H;
    cbn [shallow_rules] in H.
  - by injection H as <-.
  - apply bind_Ok in H as ([st1 s1] & Hr & H).
    eapply IH; [|exact H].
    eapply (proj2 (shallow_covered g fuel Hg)); [exact Hcov|exact Hr].
Qed.

Lemma expect_covered (g : Grammar) (fuel : nat) (st st' : state) :
  wf_grammar g = true -> covered g st ->
  expect fuel g st = Ok (st', None) ->
  covered g st' /\ errors st' = errors st /\ follows st' = follows st.
Proof.
  intros Hg Hcov H. unfold expect in H.
  destruct (rules g) as [|r0 rs] eqn:Hrs; [discriminate H|].
  rewrite <- Hrs in H. clear Hrs r0 rs.
  destruct (nonempty (expect_of st (IdNode 0 []))); [discriminate H|].
  destruct (negb (length (levels g) =? 0)%nat); [discriminate H|].
  destruct (length (nts g) <? length (rules g))%nat; [discriminate H|].
  destruct (length (rules g) <? length (nts g))%nat; [discriminate H|].
  apply bind_Ok in H as (st1 & Hsh & H).
  destruct (negb (bool_decide
    (rule_names g (fun j => negb (recursed_of st1 j =? 0)%nat) = [])));
    [discriminate H|].
  apply bind_Ok in H as ([st2 s2] & Hdeep & H).
  destruct (negb (bool_decide
    (rule_names g (fun j => negb (bool_decide (j ∈ reached st2))) = [])));
    [discriminate H|]. injection H as <-.
  pose proof (shallow_rules_grows _ _ _ _ _ _ Hsh) as (_ & _ & F1 & _ & E1 & _).
  pose proof (proj2 (deep_grows g fuel) _ _ _ _ Hdeep) as (_ & _ & F2 & _ & E2 & _).
  split; [|split; congruence].
  eapply (proj2 (deep_covered g fuel Hg)); [|exact Hdeep].
  eapply shallow_rules_covered; [exact Hg|exact Hcov|exact Hsh].
Qed.

Lemma fresh_covered (g : Grammar) (st : state) : fresh st -> covered g st.
Proof.
  intros Hf r p n _ _ _ x Hx. rewrite (fresh_expect st _ Hf) in Hx.
  by apply elem_of_empty in Hx.
Qed.







End EBNFFacts.

Module FromEBNFFacts.
Import FromEBNF.

Lemma bind_Return {A B} (m : result A) (f : A -> result B) (b : B) :
  m ≫= f = Return b -> exists a, m = Return a /\ f a = Return b.
Proof. destruct m; cbn; [eauto|done]. Qed.

Lemma prefix_app (p s : string) : String.prefix p (p +:+ s) = true.
Proof.
  induction p as [|c p IH]; simpl; [by destruct s|].
  destruct (ascii_dec c c) as [_|Hc]; [exact IH|by destruct Hc].
Qed.

Lemma names_set_empty (name : string) (l : list NT) :
  nt_name <$> set_empty name l = nt_name <$> l.
Proof.
  unfold set_empty. rewrite <- list_fmap_compose. apply list_fmap_ext.
  intros i n _. cbn. by destruct (String.eqb (nt_name n) name).
Qed.

Section Config.
Variable uniq : string.
Variable config_error : bool.
Variable valid_lit valid_token valid_nt : string -> bool.

#[local] Abbreviation item := (item uniq config_error valid_lit valid_token valid_nt).
#[local] Abbreviation nt := (nt uniq valid_nt).
#[local] Abbreviation lit := (lit valid_lit).
#[local] Abbreviation token := (token valid_token).
#[local] Abbreviation names_ok := (names_ok uniq).
#[local] Abbreviation user_names := (user_names uniq).
#[local] Abbreviation matches := (matches uniq).
#[local] Abbreviation alternative := (alternative uniq).

(** *** The names *)

Lemma generated_spec (name : string) (n : nat) :
  generated uniq name n = true <->
  exists k, (k < n)%nat /\ name = uniq +:+ pretty k.
Proof.
  unfold generated. rewrite existsb_exists. split.
  - intros (k & Hk & He). apply in_seq in Hk. apply String.eqb_eq in He.
    exists k. split; [lia|exact He].
  - intros (k & Hk & He). exists k. split; [apply in_seq; lia|].
    by apply String.eqb_eq.
Qed.

Lemma names_ok_spec (g : Grammar) :
  names_ok g = true <->
  forall name, name ∈ names g -> String.prefix uniq name = true ->
    exists k, (k < length (names g))%nat /\ name = uniq +:+ pretty k.
Proof.
  unfold FromEBNF.names_ok. rewrite forallb_forall.
  replace (length (nts g)) with (length (names g))
    by (unfold names; by rewrite length_fmap).
  split.
  - intros H name Hin Hp. apply list_elem_of_In, H in Hin.
    rewrite Hp in Hin. cbn in Hin. by apply generated_spec.
  - intros H name Hin. apply list_elem_of_In in Hin.
    destruct (String.prefix uniq name) eqn:Hp; [cbn|done].
    apply generated_spec. by apply H.
Qed.

Lemma closed_spec (g : Grammar) :
  closed g = true <-> forall r, r ∈ rules g -> r_nt r ∈ names g.
Proof.
  unfold closed. rewrite forallb_forall. split.
  - intros H r Hin. apply list_elem_of_In, H in Hin.
    by apply bool_decide_eq_true in Hin.
  - intros H r Hin. apply bool_decide_eq_true, H. by apply list_elem_of_In.
Qed.

Lemma names_ok_grow (g g' : Grammar) (name : string) :
  names_ok g = true -> names g' = names g ++ [name] ->
  (String.prefix uniq name = true -> name = uniq +:+ pretty (length (names g))) ->
  names_ok g' = true.
Proof.
  intros Hok Hn Hname. apply names_ok_spec. intros x Hx Hp.
  rewrite Hn in Hx |- *. rewrite length_app. cbn.
  apply elem_of_app in Hx as [Hx|Hx].
  - destruct (proj1 (names_ok_spec g) Hok x Hx Hp) as (k & Hk & ->).
    exists k. split; [lia|reflexivity].
  - apply list_elem_of_singleton in Hx as ->.
    exists (length (names g)). split; [lia|by apply Hname].
Qed.

Lemma names_ok_same (g g' : Grammar) :
  names_ok g = true -> names g' = names g -> names_ok g' = true.
Proof.
  intros Hok Hn. apply names_ok_spec. rewrite Hn.
  by apply names_ok_spec.
Qed.

Lemma closed_grow (g g' : Grammar) (more : list string) (new : list Rule) :
  closed g = true -> names g' = names g ++ more -> rules g' = rules g ++ new ->
  (forall r, r ∈ new -> r_nt r ∈ names g') ->
  closed g' = true.
Proof.
  intros Hc Hn Hr Hnew. apply closed_spec. intros r Hin. rewrite Hr in Hin.
  apply elem_of_app in Hin as [Hin|Hin]; [|by apply Hnew].
  rewrite Hn. apply elem_of_app. left. by apply (proj1 (closed_spec g) Hc).
Qed.

(** *** The factory methods *)

Lemma lit_spec (literal : string) (used : bool) (g g' : Grammar) (x : symbol) :
  lit literal used g = Return (g', x) ->
  names g' = names g /\ rules g' = rules g /\ x = SLit literal.
Proof.
  unfold FromEBNF.lit. intros H. apply bind_Return in H as (g1 & H1 & H).
  injection H as <- <-.
  assert (names g1 = names g /\ rules g1 = rules g) as [Hn Hr].
  { destruct (named literal (lits g)); [by injection H1 as <-|].
    destruct (negb _); [discriminate|]. by injection H1 as <-. }
  by destruct used.
Qed.

Lemma token_spec (name : string) (used : bool) (g g' : Grammar) (x : symbol) :
  token name used g = Return (g', x) ->
  names g' = names g /\ rules g' = rules g /\ x = SToken name.
Proof.
  unfold FromEBNF.token. intros H. apply bind_Return in H as (g1 & H1 & H).
  injection H as <- <-.
  assert (names g1 = names g /\ rules g1 = rules g) as [Hn Hr].
  { destruct (named name (tokens g)); [by injection H1 as <-|].
    destruct (negb (String.eqb name "") && bool_decide (name ∈ names g));
      (destruct (negb _); [discriminate|]); by injection H1 as <-. }
  by destruct used.
Qed.

Lemma nt_spec (name : option string) (g g' : Grammar) (u : string) :
  nt name g = Return (g', u) ->
  u = match name with
      | Some s => s
      | None => uniq +:+ pretty (length (names g))
      end
  /\ rules g' = rules g
  /\ (if bool_decide (u ∈ names g) then names g' = names g
      else names g' = names g ++ [u]).
Proof.
  unfold FromEBNF.nt.
  replace (length (nts g)) with (length (names g))
    by (unfold names; by rewrite length_fmap).
  set (n := match name with Some s => s | None => _ end).
  destruct (bool_decide (n ∈ names g)) eqn:Hin.
  - intros [= <- <-]. rewrite Hin. by repeat split.
  - destruct (negb (String.eqb n "") && named n (tokens g));
      (destruct (negb _); [discriminate|]); intros [= <- <-]; rewrite Hin;
      repeat split; unfold names; cbn; by rewrite fmap_app.
Qed.

Lemma rule_spec (u : string) (symbols : list symbol) (terminal : option symbol)
    (g : Grammar) :
  names (rule u symbols terminal g) = names g
  /\ exists p, rules (rule u symbols terminal g) = rules g ++ [mkRule u symbols p].
Proof.
  unfold rule.
  match goal with
  | |- context [let '(_, _) := ?m in _] => destruct m as [g1 t1] eqn:Hp
  end.
  assert (nts g1 = nts g /\ rules g1 = rules g) as [Hn Hr].
  { destruct terminal as [t|]; [destruct (prec_of g t)|];
      injection Hp as <- <-; by split. }
  split.
  - unfold names. simpl.
    destruct (negb (length (rules g1) =? 0)%nat && (length symbols =? 0)%nat);
      by rewrite ?names_set_empty, Hn.
  - simpl. rewrite Hr. by eexists.
Qed.

Lemma rule_empty (u : string) (g : Grammar) :
  rules (rule u [] None g) = rules g ++ [mkRule u [] None].
Proof. reflexivity. Qed.

(** *** The grammar grows *)

Lemma grown_refl (g : Grammar) : grown g g.
Proof.
  split; [exists []; by rewrite app_nil_r|]. exists []. rewrite app_nil_r.
  split; [reflexivity|]. intros r Hr. by apply elem_of_nil in Hr.
Qed.

Lemma grown_trans (g g1 g2 : Grammar) :
  grown g g1 -> grown g1 g2 -> grown g g2.
Proof.
  intros [[m1 Hn1] (new1 & Hr1 & Hf1)] [[m2 Hn2] (new2 & Hr2 & Hf2)]. split.
  - exists (m1 ++ m2). by rewrite Hn2, Hn1, app_assoc.
  - exists (new1 ++ new2). split; [by rewrite Hr2, Hr1, app_assoc|].
    intros r [Hr|Hr]%elem_of_app; [by apply Hf1|].
    intros Hin. apply (Hf2 r Hr). rewrite Hn1. apply elem_of_app. by left.
Qed.

Lemma grown_same (g g' : Grammar) :
  names g' = names g -> rules g' = rules g -> grown g g'.
Proof.
  intros Hn Hr. split; [exists []; by rewrite app_nil_r|].
  exists []. rewrite app_nil_r. split; [exact Hr|].
  intros r Hin. by apply elem_of_nil in Hin.
Qed.

Lemma grown_names (g g' : Grammar) (u : string) :
  grown g g' -> u ∈ names g -> u ∈ names g'.
Proof. intros [[m ->] _] Hu. apply elem_of_app. by left. Qed.

Lemma filter_none {A} (P : A -> Prop) `{!forall x, Decision (P x)} (l : list A) :
  (forall x, x ∈ l -> ~ P x) -> filter P l = [].
Proof.
  induction l as [|a l IH]; intros Hall; [reflexivity|].
  rewrite filter_cons_False by (apply Hall; left).
  apply IH. intros x Hx. apply Hall. by right.
Qed.

Lemma filter_all {A} (P : A -> Prop) `{!forall x, Decision (P x)} (l : list A) :
  Forall P l -> filter P l = l.
Proof.
  induction 1 as [|a l Ha _ IH]; [reflexivity|].
  by rewrite filter_cons_True, IH.
Qed.

Lemma nt_fresh (g g' : Grammar) (u : string) :
  names_ok g = true -> closed g = true -> nt None g = Return (g', u) ->
  String.prefix uniq u = true /\ (u ∉ names g)
  /\ names g' = names g ++ [u] /\ rules g' = rules g
  /\ names_ok g' = true /\ closed g' = true.
Proof.
  intros Hok Hc H. apply nt_spec in H as (-> & Hr & Hn).
  assert (Hfresh : uniq +:+ pretty (length (names g)) ∉ names g).
  { intros Hin.
    destruct (proj1 (names_ok_spec g) Hok _ Hin (prefix_app _ _)) as (k & Hk & He).
    apply String.app_inj, pretty_nat_inj in He. lia. }
  rewrite bool_decide_eq_false_2 in Hn by exact Hfresh.
  split; [apply prefix_app|]. split; [exact Hfresh|]. split; [exact Hn|].
  split; [exact Hr|]. split.
  - eapply names_ok_grow; [exact Hok|exact Hn|done].
  - eapply (closed_grow g g' _ []); [exact Hc|exact Hn|by rewrite app_nil_r|].
    intros r Hin. by apply elem_of_nil in Hin.
Qed.

Lemma nt_user (name : string) (g g' : Grammar) (u : string) :
  names_ok g = true -> closed g = true -> String.prefix uniq name = false ->
  nt (Some name) g = Return (g', u) ->
  u = name /\ names_ok g' = true /\ closed g' = true /\ grown g g'
  /\ name ∈ names g'.
Proof.
  intros Hok Hc Hp H. apply nt_spec in H as (-> & Hr & Hn).
  split; [reflexivity|]. destruct (bool_decide_reflect (name ∈ names g)) as [Hin|Hin].
  - split; [by eapply names_ok_same|]. split.
    + eapply (closed_grow g g' [] []); [exact Hc|by rewrite app_nil_r
                                        |by rewrite app_nil_r|].
      intros r Hr'. by apply elem_of_nil in Hr'.
    + split; [by apply grown_same|]. by rewrite Hn.
  - split.
    { eapply names_ok_grow; [exact Hok|exact Hn|]. intros Hp'. congruence. }
    split.
    { eapply (closed_grow g g' _ []); [exact Hc|exact Hn|by rewrite app_nil_r|].
      intros r Hr'. by apply elem_of_nil in Hr'. }
    split.
    { split; [by eexists|]. exists []. rewrite app_nil_r. split; [exact Hr|].
      intros r Hr'. by apply elem_of_nil in Hr'. }
    rewrite Hn. apply elem_of_app. right. by left.
Qed.

Lemma rule_keeps (u : string) (symbols : list symbol) (terminal : option symbol)
    (g : Grammar) :
  names_ok g = true -> closed g = true -> u ∈ names g ->
  names_ok (rule u symbols terminal g) = true
  /\ closed (rule u symbols terminal g) = true.
Proof.
  intros Hok Hc Hu.
  destruct (rule_spec u symbols terminal g) as [Hn [p Hr]]. split.
  - by eapply names_ok_same.
  - eapply (closed_grow g _ []); [exact Hc|by rewrite app_nil_r|exact Hr|].
    intros r ->%list_elem_of_singleton. by rewrite Hn.
Qed.

(** *** Sequences and alternatives *)

Lemma seq_nodes_spec (nodes : list EBNF.node) :
  Forall (item_promise uniq config_error valid_lit valid_token valid_nt) nodes ->
  forall g g' xs,
    names_ok g = true -> closed g = true -> forallb user_names nodes = true ->
    seq_nodes item nodes g = Return (g', xs) ->
    names_ok g' = true /\ closed g' = true /\ grown g g'
    /\ Forall2 matches nodes xs.
Proof.
  induction 1 as [|n nodes Hn _ IH]; intros g g' xs Hok Hc Hu H;
    cbn [seq_nodes] in H.
  - injection H as <- <-. split; [exact Hok|]. split; [exact Hc|].
    split; [apply grown_refl|constructor].
  - apply andb_true_iff in Hu as [Hu1 Hu2].
    apply bind_Return in H as ([g1 x] & Hv & H).
    apply bind_Return in H as ([g2 xs'] & Hs & H). injection H as <- <-.
    destruct (Hn g g1 x Hok Hc Hu1 Hv) as (Hok1 & Hc1 & Hg1 & Hm & _).
    destruct (IH g1 g2 xs' Hok1 Hc1 Hu2 Hs) as (Hok2 & Hc2 & Hg2 & Hms).
    split; [exact Hok2|]. split; [exact Hc2|].
    split; [by eapply grown_trans|]. by constructor.
Qed.

Lemma alternatives_spec (u : string) (seqs : list EBNF.node) :
  Forall (seq_promise uniq config_error valid_lit valid_token valid_nt) seqs ->
  forall g g',
    names_ok g = true -> closed g = true -> u ∈ names g ->
    forallb user_names seqs = true ->
    alternatives item u seqs g = Return g' ->
    names_ok g' = true /\ closed g' = true
    /\ (exists more, names g' = names g ++ more)
    /\ exists new,
         rules g' = rules g ++ new
         /\ (forall r, r ∈ new -> r_nt r = u \/ r_nt r ∉ names g)
         /\ Forall2 (alternative u) seqs (filter (fun r => r_nt r = u) new).
Proof.
  induction 1 as [|s seqs Hs _ IH]; intros g g' Hok Hc Hin Hu H;
    cbn [alternatives] in H.
  - injection H as <-. split; [exact Hok|]. split; [exact Hc|].
    split; [exists []; by rewrite app_nil_r|]. exists [].
    split; [by rewrite app_nil_r|]. split; [|constructor].
    intros r Hr. by apply elem_of_nil in Hr.
  - apply andb_true_iff in Hu as [Hu1 Hu2].
    apply bind_Return in H as ([g1 xs] & Hv & H).
    destruct (Hs g g1 xs Hok Hc Hu1 Hv)
      as (Hok1 & Hc1 & Hg1 & nodes & t & -> & Hms).
    pose proof (grown_names _ _ _ Hg1 Hin) as Hin1.
    destruct (rule_spec u xs None g1) as [Hn2 [p Hr2]].
    destruct (rule_keeps u xs None g1 Hok1 Hc1 Hin1) as [Hok2 Hc2].
    assert (Hin2 : u ∈ names (rule u xs None g1)) by (by rewrite Hn2).
    destruct (IH _ g' Hok2 Hc2 Hin2 Hu2 H)
      as (Hok3 & Hc3 & [m3 Hn3] & new3 & Hr3 & Hf3 & Hb3).
    destruct Hg1 as [[m1 Hn1] (new1 & Hr1 & Hf1)].
    split; [exact Hok3|]. split; [exact Hc3|]. split.
    { exists (m1 ++ m3). by rewrite Hn3, Hn2, Hn1, app_assoc. }
    exists (new1 ++ [mkRule u xs p] ++ new3). split.
    { by rewrite Hr3, Hr2, Hr1, <- !app_assoc. }
    split.
    { intros r [Hr|[Hr|Hr]%elem_of_app]%elem_of_app.
      - right. by apply Hf1.
      - apply list_elem_of_singleton in Hr as ->. by left.
      - destruct (Hf3 r Hr) as [?|Hnot]; [by left|right].
        intros Hrin. apply Hnot. rewrite Hn2, Hn1. apply elem_of_app. by left. }
    rewrite !filter_app. rewrite (filter_none _ new1).
    + rewrite filter_cons_True by reflexivity. rewrite filter_nil. cbn.
      constructor; [|exact Hb3]. split; [reflexivity|]. by exists nodes, t.
    + intros r Hr He. apply (Hf1 r Hr). by rewrite He.
Qed.

Lemma seq_promise_of (s : EBNF.node) :
  Forall (item_promise uniq config_error valid_lit valid_token valid_nt)
    (EBNF.kids s) ->
  seq_promise uniq config_error valid_lit valid_token valid_nt s.
Proof.
  intros Hall g g' xs Hok Hc Hu H. destruct s; try discriminate H.
  cbn in H, Hu, Hall.
  destruct (seq_nodes_spec _ Hall g g' xs Hok Hc Hu H) as (H1 & H2 & H3 & H4).
  split; [exact H1|]. split; [exact H2|]. split; [exact H3|]. by eexists _, _.
Qed.

(** *** [[...]] and [{...}] *)

Lemma rules_of_fresh (u : string) (g : Grammar) :
  closed g = true -> u ∉ names g -> filter (fun r => r_nt r = u) (rules g) = [].
Proof.
  intros Hc Hu. apply filter_none. intros r Hr He. apply Hu. rewrite <- He.
  by apply (proj1 (closed_spec g) Hc).
Qed.

Lemma opt_spec (seqs : list EBNF.node) (g g' : Grammar) (x : symbol) :
  Forall (seq_promise uniq config_error valid_lit valid_token valid_nt) seqs ->
  names_ok g = true -> closed g = true -> forallb user_names seqs = true ->
  item (EBNF.Opt seqs) g = Return (g', x) ->
  exists u bodies,
    x = SNT u /\ String.prefix uniq u = true /\ (u ∉ names g) /\ u ∈ names g'
    /\ rules_of u g' = mkRule u [] None :: bodies
    /\ Forall2 (alternative u) seqs bodies
    /\ names_ok g' = true /\ closed g' = true /\ grown g g'.
Proof.
  intros Hall Hok Hc Hu H. cbn [FromEBNF.item] in H.
  apply bind_Return in H as ([g1 u] & Hnt & H).
  apply bind_Return in H as (g2 & Halt & H). injection H as <- <-.
  destruct (nt_fresh g g1 u Hok Hc Hnt) as (Hp & Hfresh & Hn1 & Hr1 & Hok1 & Hc1).
  assert (Hin1 : u ∈ names g1) by (rewrite Hn1; apply elem_of_app; right; left).
  destruct (rule_keeps u [] None g1 Hok1 Hc1 Hin1) as [Hok2 Hc2].
  destruct (rule_spec u [] None g1) as [Hn2 _].
  pose proof (rule_empty u g1) as Hr2.
  assert (Hin2 : u ∈ names (rule u [] None g1)) by (by rewrite Hn2).
  destruct (alternatives_spec u seqs Hall _ g2 Hok2 Hc2 Hin2 Hu Halt)
    as (Hok3 & Hc3 & [m3 Hn3] & new & Hr3 & Hf3 & Hb3).
  exists u, (filter (fun r => r_nt r = u) new).
  split; [reflexivity|]. split; [exact Hp|]. split; [exact Hfresh|].
  split; [rewrite Hn3, Hn2; apply elem_of_app; by left|].
  split.
  { unfold rules_of. rewrite Hr3, Hr2, Hr1, !filter_app.
    rewrite (rules_of_fresh u g Hc Hfresh).
    by rewrite filter_cons_True, filter_nil by reflexivity. }
  split; [exact Hb3|]. split; [exact Hok3|]. split; [exact Hc3|]. split.
  - exists ([u] ++ m3). by rewrite Hn3, Hn2, Hn1, app_assoc.
  - exists ([mkRule u [] None] ++ new).
    split; [by rewrite Hr3, Hr2, Hr1, app_assoc|].
    intros r [Hr|Hr]%elem_of_app.
    + by apply list_elem_of_singleton in Hr as ->.
    + destruct (Hf3 r Hr) as [->|Hnot]; [exact Hfresh|].
      intros Hrin. apply Hnot. rewrite Hn2, Hn1. apply elem_of_app. by left.
Qed.

Lemma some_spec (seqs : list EBNF.node) (g g' : Grammar) (x : symbol) :
  Forall (seq_promise uniq config_error valid_lit valid_token valid_nt) seqs ->
  names_ok g = true -> closed g = true -> forallb user_names seqs = true ->
  item (EBNF.Some_ seqs) g = Return (g', x) ->
  exists u2 u1 bodies,
    x = SNT u2 /\ String.prefix uniq u2 = true /\ u1 <> u2
    /\ (u1 ∉ names g) /\ (u2 ∉ names g) /\ u1 ∈ names g' /\ u2 ∈ names g'
    /\ rules_of u1 g' = bodies
    /\ Forall2 (alternative u1) seqs bodies
    /\ shape <$> rules_of u2 g'
       = [(u2, [SNT u1]); (u2, [SNT u2; SNT u1])] ++ error_rules config_error u2
    /\ names_ok g' = true /\ closed g' = true /\ grown g g'.
Proof.
  intros Hall Hok Hc Hu H. cbn [FromEBNF.item] in H.
  apply bind_Return in H as ([g1 u2] & Hnt2 & H).
  apply bind_Return in H as ([g2 u1] & Hnt1 & H).
  apply bind_Return in H as (g3 & Halt & H).
  destruct (nt_fresh g g1 u2 Hok Hc Hnt2) as (Hp2 & Hf2 & Hn1 & Hr1 & Hok1 & Hc1).
  destruct (nt_fresh g1 g2 u1 Hok1 Hc1 Hnt1) as (Hp1 & Hf1 & Hn2 & Hr2 & Hok2 & Hc2).
  assert (Hne : u1 <> u2).
  { intros ->. apply Hf1. rewrite Hn1. apply elem_of_app. right. left. }
  assert (Hf1' : u1 ∉ names g).
  { intros Hin. apply Hf1. rewrite Hn1. apply elem_of_app. by left. }
  assert (Hin1 : u1 ∈ names g2) by (rewrite Hn2; apply elem_of_app; right; left).
  assert (Hin2 : u2 ∈ names g2).
  { rewrite Hn2, Hn1. apply elem_of_app. left. apply elem_of_app. right. left. }
  destruct (alternatives_spec u1 seqs Hall g2 g3 Hok2 Hc2 Hin1 Hu Halt)
    as (Hok3 & Hc3 & [m3 Hn3] & new & Hr3 & Hnew & Hb3).
  assert (Hin3 : u2 ∈ names g3) by (rewrite Hn3; apply elem_of_app; by left).
  assert (Hnew2 : filter (fun r => r_nt r = u2) new = []).
  { apply filter_none. intros r Hr He. destruct (Hnew r Hr) as [E|Hnot].
    - congruence.
    - apply Hnot. by rewrite He. }
  assert (Hnew1 : forall r, r ∈ new -> r_nt r ∉ names g).
  { intros r Hr. destruct (Hnew r Hr) as [->|Hnot]; [exact Hf1'|].
    intros Hin. apply Hnot. rewrite Hn2, Hn1.
    apply elem_of_app. left. apply elem_of_app. by left. }
  (* the two rules of the list *)
  set (g4 := rule u2 [SNT u1] None g3) in *.
  destruct (rule_spec u2 [SNT u1] None g3) as [Hn4 [p4 Hr4]].
  destruct (rule_keeps u2 [SNT u1] None g3 Hok3 Hc3 Hin3) as [Hok4 Hc4].
  fold g4 in Hn4, Hr4, Hok4, Hc4.
  assert (Hin4 : u2 ∈ names g4) by (by rewrite Hn4).
  set (g5 := rule u2 [SNT u2; SNT u1] None g4) in *.
  destruct (rule_spec u2 [SNT u2; SNT u1] None g4) as [Hn5 [p5 Hr5]].
  destruct (rule_keeps u2 [SNT u2; SNT u1] None g4 Hok4 Hc4 Hin4) as [Hok5 Hc5].
  fold g5 in Hn5, Hr5, Hok5, Hc5.
  assert (Hin5 : u2 ∈ names g5) by (by rewrite Hn5).
  assert (Hn5' : names g5 = names g ++ ([u2; u1] ++ m3)).
  { rewrite Hn5, Hn4, Hn3, Hn2, Hn1. by rewrite <- !app_assoc. }
  assert (Hr5' : rules g5
    = rules g ++ (new ++ [mkRule u2 [SNT u1] p4; mkRule u2 [SNT u2; SNT u1] p5])).
  { rewrite Hr5, Hr4, Hr3, Hr2, Hr1. by rewrite <- !app_assoc. }
  assert (Hmore : exists rs,
    rules g' = rules g5 ++ rs /\ names g' = names g5
    /\ names_ok g' = true /\ closed g' = true /\ x = SNT u2
    /\ Forall (fun r => r_nt r = u2) rs
    /\ shape <$> rs = error_rules config_error u2).
  { unfold error_rules. destruct config_error.
    - apply bind_Return in H as ([g6 e] & Htok & H). injection H as <- <-.
      apply token_spec in Htok as (Hn6 & Hr6 & ->).
      assert (Hok6 : names_ok g6 = true) by (by eapply names_ok_same).
      assert (Hc6 : closed g6 = true).
      { eapply (closed_grow g5 g6 [] []); [exact Hc5|by rewrite app_nil_r
                                           |by rewrite app_nil_r|].
        intros r Hr. by apply elem_of_nil in Hr. }
      assert (Hin6 : u2 ∈ names g6) by (by rewrite Hn6).
      set (g7 := rule u2 [SToken ""] None g6) in *.
      destruct (rule_spec u2 [SToken ""] None g6) as [Hn7 [p7 Hr7]].
      destruct (rule_keeps u2 [SToken ""] None g6 Hok6 Hc6 Hin6) as [Hok7 Hc7].
      fold g7 in Hn7, Hr7, Hok7, Hc7.
      assert (Hin7 : u2 ∈ names g7) by (by rewrite Hn7).
      destruct (rule_spec u2 [SNT u2; SToken ""] None g7) as [Hn8 [p8 Hr8]].
      destruct (rule_keeps u2 [SNT u2; SToken ""] None g7 Hok7 Hc7 Hin7)
        as [Hok8 Hc8].
      exists [mkRule u2 [SToken ""] p7; mkRule u2 [SNT u2; SToken ""] p8].
      split; [rewrite Hr8, Hr7, Hr6; by rewrite <- app_assoc|].
      split; [by rewrite Hn8, Hn7, Hn6|].
      split; [exact Hok8|]. split; [exact Hc8|]. split; [reflexivity|].
      split; [by repeat constructor|reflexivity].
    - injection H as <- <-. exists []. rewrite app_nil_r.
      split; [reflexivity|]. split; [reflexivity|]. split; [exact Hok5|].
      split; [exact Hc5|]. split; [reflexivity|]. split; [constructor|reflexivity]. }
  destruct Hmore as (rs & Hr' & Hn' & Hok' & Hc' & -> & Hrs & Hshape).
  exists u2, u1, (filter (fun r => r_nt r = u1) new).
  split; [reflexivity|]. split; [exact Hp2|]. split; [exact Hne|].
  split; [exact Hf1'|]. split; [exact Hf2|].
  split; [rewrite Hn', Hn5, Hn4, Hn3; apply elem_of_app; by left|].
  split; [by rewrite Hn'|].
  split.
  { unfold rules_of. rewrite Hr', Hr5', !filter_app.
    rewrite (rules_of_fresh u1 g Hc Hf1').
    rewrite (filter_none _ rs).
    - rewrite filter_cons_False by (cbn; congruence).
      rewrite filter_cons_False by (cbn; congruence).
      by rewrite filter_nil, !app_nil_r.
    - intros r Hr He. apply Hne. rewrite <- He.
      by apply (proj1 (Forall_forall _ _) Hrs). }
  split; [exact Hb3|].
  split.
  { unfold rules_of. rewrite Hr', Hr5', !filter_app.
    rewrite (rules_of_fresh u2 g Hc Hf2), Hnew2.
    rewrite filter_cons_True by reflexivity.
    rewrite filter_cons_True by reflexivity.
    rewrite filter_nil. cbn [app].
    rewrite (filter_all _ rs) by exact Hrs.
    rewrite !fmap_cons, Hshape. reflexivity. }
  split; [exact Hok'|]. split; [exact Hc'|]. split.
  - exists ([u2; u1] ++ m3). by rewrite Hn', Hn5'.
  - exists ((new ++ [mkRule u2 [SNT u1] p4; mkRule u2 [SNT u2; SNT u1] p5]) ++ rs).
    split; [rewrite Hr', Hr5'; symmetry; apply app_assoc|].
    intros r [[Hr|Hr]%elem_of_app|Hr]%elem_of_app.
    + by apply Hnew1.
    + apply elem_of_cons in Hr as [->|Hr]; [exact Hf2|].
      apply list_elem_of_singleton in Hr as ->. exact Hf2.
    + by rewrite (proj1 (Forall_forall _ _) Hrs r Hr).
Qed.

(** *** Every element of a sequence *)

Lemma kept (g g' : Grammar) :
  names g' = names g -> rules g' = rules g ->
  names_ok g = true -> closed g = true ->
  names_ok g' = true /\ closed g' = true /\ grown g g'.
Proof.
  intros Hn Hr Hok Hc. split; [by eapply names_ok_same|]. split.
  - eapply (closed_grow g g' [] []); [exact Hc|by rewrite app_nil_r
                                      |by rewrite app_nil_r|].
    intros r Hin. by apply elem_of_nil in Hin.
  - by apply grown_same.
Qed.

Lemma item_promise_all (n : EBNF.node) :
  item_promise uniq config_error valid_lit valid_token valid_nt n
  /\ seq_promise uniq config_error valid_lit valid_token valid_nt n.
Proof.
  induction n as [name|name|name|nodes t IH|seqs IH|seqs IH|seqs IH]
    using EBNFFacts.node_nested_ind.
  - split; [|intros g g' xs _ _ _ H; discriminate H].
    intros g g' x Hok Hc _ H. apply lit_spec in H as (Hn & Hr & ->).
    destruct (kept g g' Hn Hr Hok Hc) as (H1 & H2 & H3).
    split; [exact H1|]. split; [exact H2|]. split; [exact H3|].
    split; [reflexivity|]. intros u Hu. discriminate Hu.
  - split; [|intros g g' xs _ _ _ H; discriminate H].
    intros g g' x Hok Hc _ H. apply token_spec in H as (Hn & Hr & ->).
    destruct (kept g g' Hn Hr Hok Hc) as (H1 & H2 & H3).
    split; [exact H1|]. split; [exact H2|]. split; [exact H3|].
    split; [reflexivity|]. intros u Hu. discriminate Hu.
  - split; [|intros g g' xs _ _ _ H; discriminate H].
    intros g g' x Hok Hc Hu H. cbn [FromEBNF.item] in H.
    apply bind_Return in H as ([g1 u] & Hnt & H). injection H as <- <-.
    apply negb_true_iff in Hu.
    destruct (nt_user name g g1 u Hok Hc Hu Hnt) as (-> & H1 & H2 & H3 & H4).
    split; [exact H1|]. split; [exact H2|]. split; [exact H3|].
    split; [reflexivity|]. intros u [= <-]. exact H4.
  - split; [intros g g' x _ _ _ H; discriminate H|].
    apply seq_promise_of. cbn. eapply Forall_impl; [exact IH|].
    intros n Hn. exact (proj1 Hn).
  - split; [intros g g' x _ _ _ H; discriminate H|].
    intros g g' xs _ _ _ H. discriminate H.
  - split; [|intros g g' xs _ _ _ H; discriminate H].
    intros g g' x Hok Hc Hu H.
    assert (Hall : Forall (seq_promise uniq config_error valid_lit valid_token
                             valid_nt) seqs).
    { eapply Forall_impl; [exact IH|]. intros n Hn. exact (proj2 Hn). }
    destruct (opt_spec seqs g g' x Hall Hok Hc Hu H)
      as (u & bodies & -> & Hp & _ & Hin & _ & _ & H1 & H2 & H3).
    split; [exact H1|]. split; [exact H2|]. split; [exact H3|].
    split; [by exists u|]. intros u' [= <-]. exact Hin.
  - split; [|intros g g' xs _ _ _ H; discriminate H].
    intros g g' x Hok Hc Hu H.
    assert (Hall : Forall (seq_promise uniq config_error valid_lit valid_token
                             valid_nt) seqs).
    { eapply Forall_impl; [exact IH|]. intros n Hn. exact (proj2 Hn). }
    destruct (some_spec seqs g g' x Hall Hok Hc Hu H)
      as (u2 & u1 & bodies & -> & Hp & _ & _ & _ & _ & Hin & _ & _ & _ & H1 & H2 & H3).
    split; [exact H1|]. split; [exact H2|]. split; [exact H3|].
    split; [by exists u2|]. intros u' [= <-]. exact Hin.
Qed.

Lemma seq_promise_all (seqs : list EBNF.node) :
  Forall (seq_promise uniq config_error valid_lit valid_token valid_nt) seqs.
Proof. apply Forall_forall. intros s _. apply item_promise_all. Qed.

(** *** The whole grammar *)

Lemma each_inv {A} (P : Grammar -> Prop) (Q : A -> Prop)
    (f : A -> Grammar -> result Grammar) (l : list A) :
  (forall a g g', Q a -> P g -> f a g = Return g' -> P g') ->
  Forall Q l ->
  forall g g', P g -> each f l g = Return g' -> P g'.
Proof.
  intros Hf. induction 1 as [|a l Ha _ IH]; intros g g' HP H; cbn [each] in H.
  - by injection H as <-.
  - apply bind_Return in H as (g1 & H1 & H). eapply IH; [|exact H].
    by eapply Hf.
Qed.

Lemma assign_same (p : BNF.prec) (ts : list symbol) :
  forall g g', assign p ts g = Return g' ->
    names g' = names g /\ rules g' = rules g.
Proof.
  induction ts as [|t ts IH]; intros g g' H; cbn [assign] in H.
  - by injection H as <-.
  - destruct (prec_of g t); [discriminate H|].
    apply IH in H as [Hn Hr]. by destruct t.
Qed.

Lemma precedence_same (a : BNF.assoc) (ts : list (option symbol))
    (g g' : Grammar) :
  precedence a ts g = Return g' -> names g' = names g /\ rules g' = rules g.
Proof.
  unfold precedence. destruct (existsb _ ts); [discriminate|].
  destruct (omap (fun t => t) ts) as [|t ts']; [by intros [= <-]|].
  intros H. apply bind_Return in H as (g1 & H1 & H). injection H as <-.
  by apply assign_same in H1.
Qed.

Lemma one_rule_keeps (n : string) (s : EBNF.node) (g g' : Grammar) :
  user_names s = true ->
  (names_ok g = true /\ closed g = true) /\ n ∈ names g ->
  one_rule uniq config_error valid_lit valid_token valid_nt n s g = Return g' ->
  (names_ok g' = true /\ closed g' = true) /\ n ∈ names g'.
Proof.
  intros Hu [[Hok Hc] Hin] H.
  assert (Hseq : forall terminal,
    (seq item s g ≫= fun '(g, symbols) => Return (rule n symbols terminal g))
    = Return g' ->
    (names_ok g' = true /\ closed g' = true) /\ n ∈ names g').
  { intros terminal H'. apply bind_Return in H' as ([g1 xs] & Hs & H').
    injection H' as <-.
    destruct (proj2 (item_promise_all s) g g1 xs Hok Hc Hu Hs)
      as (Hok1 & Hc1 & Hg1 & _).
    pose proof (grown_names _ _ _ Hg1 Hin) as Hin1.
    split; [by apply rule_keeps|].
    by rewrite (proj1 (rule_spec n xs terminal g1)). }
  unfold one_rule in H.
  destruct s as [| | |nodes [t|]| | |]; try (by apply (Hseq None)).
  by apply (Hseq (lookup_terminal g t)).
Qed.

Lemma fromEBNF_keeps (ebnf : EBNF.Grammar) (g : Grammar) :
  names_ok new_Grammar = true -> user_grammar uniq ebnf = true ->
  fromEBNF uniq config_error valid_lit valid_token valid_nt ebnf = Return g ->
  names_ok g = true /\ closed g = true.
Proof.
  intros Hok0 Hu H. unfold fromEBNF in H.
  apply bind_Return in H as (g1 & H1 & H).
  apply bind_Return in H as (g2 & H2 & H).
  apply bind_Return in H as (g3 & H3 & H).
  destruct (EBNF.rules ebnf) as [|first rs] eqn:Hrs; [discriminate H|].
  rewrite <- Hrs in H.
  apply bind_Return in H as ([g4 start] & H4 & H).
  set (P := fun g : Grammar => names_ok g = true /\ closed g = true).
  assert (P1 : P g1).
  { eapply (each_inv P (fun _ => True)); [|by apply Forall_forall| |exact H1].
    - intros l g0 g0' _ [Hok Hc] Hl.
      apply bind_Return in Hl as ([g0'' x] & Hl & Hr). injection Hr as <-.
      apply lit_spec in Hl as (Hn & Hr & _).
      destruct (kept g0 g0'' Hn Hr Hok Hc) as (? & ? & _). by split.
    - by split. }
  assert (P2 : P g2).
  { eapply (each_inv P (fun _ => True)); [|by apply Forall_forall|exact P1|exact H2].
    intros l g0 g0' _ [Hok Hc] Hl.
    apply bind_Return in Hl as ([g0'' x] & Hl & Hr). injection Hr as <-.
    apply token_spec in Hl as (Hn & Hr & _).
    destruct (kept g0 g0'' Hn Hr Hok Hc) as (? & ? & _). by split. }
  assert (P3 : P g3).
  { eapply (each_inv P (fun _ => True)); [|by apply Forall_forall|exact P2|exact H3].
    intros l g0 g0' _ [Hok Hc] Hl. apply precedence_same in Hl as [Hn Hr].
    destruct (kept g0 g0' Hn Hr Hok Hc) as (? & ? & _). by split. }
  assert (Hrules : Forall (fun r =>
    String.prefix uniq (EBNF.rule_nt r) = false
    /\ Forall (fun s => user_names s = true) (EBNF.rule_seqs r)) (EBNF.rules ebnf)).
  { apply Forall_forall. intros r Hr. apply list_elem_of_In in Hr.
    apply (proj1 (forallb_forall _ _) Hu) in Hr.
    apply andb_true_iff in Hr as [Hr1 Hr2]. split; [by apply negb_true_iff|].
    apply Forall_forall. intros s Hs. apply list_elem_of_In in Hs.
    by apply (proj1 (forallb_forall _ _) Hr2). }
  assert (P4 : P g4).
  { destruct P3 as [Hok Hc].
    assert (Hfirst : String.prefix uniq (EBNF.rule_nt first) = false).
    { rewrite Hrs in Hrules. by inversion Hrules as [|? ? [? _] _]. }
    destruct (nt_user _ g3 g4 start Hok Hc Hfirst H4) as (_ & ? & ? & _).
    by split. }
  refine (each_inv P _ _ _ _ Hrules g4 g P4 H).
  intros r g0 g0' [Hr1 Hr2] [Hok Hc] Hr.
  apply bind_Return in Hr as ([g5 n] & Hnt & Hr).
  destruct (nt_user _ g0 g5 n Hok Hc Hr1 Hnt) as (-> & Hok5 & Hc5 & _ & Hin5).
  apply (each_inv (fun g => P g /\ EBNF.rule_nt r ∈ names g) _ _ _
           (fun s g g' => one_rule_keeps (EBNF.rule_nt r) s g g') Hr2 g5 g0');
    [by repeat split|exact Hr].
Qed.

(** Where the names do not clash.  Let every non-terminal name with
    the prefix [uniq] have been made by [nt()] itself, and let no
    non-terminal in the construct have such a name.  Then [fromEBNF]
    translates [[S1 | S2 | ...]] into one new non-terminal [U] with the
    rules [U: ;] and [U: Si;] for each alternative, in this order, and
    [{S1 | S2 | ...}] into two new non-terminals [U1] and [U2] with the
    rules [U1: Si;] for each alternative, [U2: U1;] and [U2: U2 U1;], and in
    error mode with [U2: $error;] and [U2: U2 $error;] after them.  The next
    construct is translated in such a state again, and so is every construct
    of an EBNF grammar in which no non-terminal has a name with the
    prefix. *)
Theorem fromEBNF_constructs (g g' : Grammar) (seqs : list EBNF.node) (x : symbol) :
  names_ok g = true -> closed g = true -> forallb user_names seqs = true ->
  (item (EBNF.Opt seqs) g = Return (g', x) ->
     exists u bodies,
       x = SNT u /\ String.prefix uniq u = true
       /\ (u ∉ names g) /\ u ∈ names g'
       /\ rules_of u g' = mkRule u [] None :: bodies
       /\ Forall2 (alternative u) seqs bodies)
  /\ (item (EBNF.Some_ seqs) g = Return (g', x) ->
     exists u2 u1 bodies,
       x = SNT u2 /\ String.prefix uniq u2 = true /\ u1 <> u2
       /\ (u1 ∉ names g) /\ (u2 ∉ names g) /\ u1 ∈ names g' /\ u2 ∈ names g'
       /\ rules_of u1 g' = bodies
       /\ Forall2 (alternative u1) seqs bodies
       /\ shape <$> rules_of u2 g'
          = [(u2, [SNT u1]); (u2, [SNT u2; SNT u1])] ++ error_rules config_error u2)
  /\ (item (EBNF.Opt seqs) g = Return (g', x)
      \/ item (EBNF.Some_ seqs) g = Return (g', x) ->
      names_ok g' = true /\ closed g' = true)
  /\ (forall ebnf g0,
        names_ok new_Grammar = true -> user_grammar uniq ebnf = true ->
        fromEBNF uniq config_error valid_lit valid_token valid_nt ebnf = Return g0 ->
        names_ok g0 = true /\ closed g0 = true).
Proof.
  intros Hok Hc Hu. pose proof (seq_promise_all seqs) as Hall.
  split; [|split; [|split]].
  - intros H.
    destruct (opt_spec seqs g g' x Hall Hok Hc Hu H)
      as (u & bodies & H1 & H2 & H3 & H4 & H5 & H6 & _).
    exists u, bodies. by repeat split.
  - intros H.
    destruct (some_spec seqs g g' x Hall Hok Hc Hu H)
      as (u2 & u1 & bodies & H1 & H2 & H3 & H4 & H5 & H6 & H7 & H8 & H9 & H10 & _).
    exists u2, u1, bodies. by repeat split.
  - intros [H|H].
    + destruct (opt_spec seqs g g' x Hall Hok Hc Hu H)
        as (u & bodies & _ & _ & _ & _ & _ & _ & H1 & H2 & _). by split.
    + destruct (some_spec seqs g g' x Hall Hok Hc Hu H)
        as (u2 & u1 & bodies & _ & _ & _ & _ & _ & _ & _ & _ & _ & _ & H1 & H2 & _).
      by split.
  - intros ebnf g0. apply fromEBNF_keeps.
Qed.

End Config.

Lemma fromEBNF_constructs_witness :
  item "$-" true any_name any_name any_name (EBNF.Opt list_opt) list_start
  = Return (list_translated, SNT "$-3")
  /\ exists u bodies,
       SNT "$-3" = SNT u /\ String.prefix "$-" u = true
       /\ (u ∉ names list_start) /\ u ∈ names list_translated
       /\ rules_of u list_translated = mkRule u [] None :: bodies
       /\ Forall2 (alternative "$-" u) list_opt bodies.
Proof.
  assert (H : item "$-" true any_name any_name any_name (EBNF.Opt list_opt) list_start
              = Return (list_translated, SNT "$-3")) by (vm_compute; reflexivity).
  split; [exact H|].
  exact (proj1 (fromEBNF_constructs "$-" true any_name any_name any_name
                  list_start list_translated list_opt (SNT "$-3")
                  ltac:(vm_compute; reflexivity) ltac:(vm_compute; reflexivity)
                  ltac:(vm_compute; reflexivity)) H).
Defined.

(** C2.  [fromEBNF] does not always translate [[S1 | ...]] into a new
    non-terminal.  The non-terminal of [x: [ 'a' ] 'b';] has the name
    [$-2], which [add()] accepts as it starts with the prefix, and [$-2] is
    the name that [nt({})] makes for [[ 'a' ]] and that the code calls
    unique: [nt()] finds the name and returns the non-terminal of the rule.  No
    non-terminal is created, and [fromEBNF] returns a grammar with the
    rules [$-2: ;], [$-2: 'a';] and [$-2: $-2 'b';]: the rules of the
    construct are rules of [x], which can now be empty. *)
Theorem fromEBNF_name_clash :
  outline (fromEBNF "$-" false any_name any_name any_name clash_grammar)
  = Some ([""; "$-2"],
          [("", []); ("$-2", []); ("$-2", [SLit "'a'"]);
           ("$-2", [SNT "$-2"; SLit "'b'"])])
  /\ closed clash_state = true
  /\ item "$-" false any_name any_name any_name
       (EBNF.Opt [EBNF.Seq [EBNF.Lit "'a'"] None]) clash_state
     = Return (clash_translated, SNT "$-2")
  /\ "$-2" ∈ names clash_state
  /\ names clash_translated = names clash_state.
Proof.
  split; [vm_compute; reflexivity|]. split; [vm_compute; reflexivity|].
  split; [vm_compute; reflexivity|].
  split; [|vm_compute; reflexivity].
  apply (bool_decide_unpack _). vm_compute. exact I.
Qed.

End FromEBNFFacts.

Module LeftRecursion.
Import EBNF EBNFFacts.

Lemma raised_refl (g : Grammar) (st : state) : raised g st st.
Proof. intros k H. by destruct H. Qed.

Lemma raised_trans (g : Grammar) (st st1 st2 : state) :
  raised g st st1 -> raised g st1 st2 -> raised g st st2.
Proof.
  intros H1 H2 k Hk.
  destruct (decide (recursed_of st1 k = recursed_of st k)) as [E|E].
  - apply H2. congruence.
  - by apply H1.
Qed.

Lemma raised_import (g : Grammar) (i : id) (s : gset string) (st : state) :
  raised g st (import_expect i s st).
Proof. intros k H. by destruct H. Qed.

Lemma entered_raised (g : Grammar) (via : nat -> Prop) (st st' : state) :
  entered g via st -> raised g st st' -> entered g via st'.
Proof.
  intros He Hr k Hk.
  destruct (decide (recursed_of st' k = recursed_of st k)) as [E|E].
  - apply He. lia.
  - left. by apply Hr.
Qed.

Lemma heads_kid_seq (nodes : list node) (t : option string) (m : nat) (n : node)
    (name : string) :
  nodes !! m = Some n ->
  (forall m', (m' < m)%nat -> exists n', nodes !! m' = Some n' /\ is_opt n' = true) ->
  name ∈ heads n -> name ∈ heads (Seq nodes t).
Proof.
  revert m. induction nodes as [|c nodes IH]; intros m Hm Hbefore Hn; [done|].
  cbn. apply elem_of_app. destruct m as [|m].
  - injection Hm as ->. by left.
  - right. destruct (Hbefore 0%nat) as (n' & [= <-] & ->); [lia|].
    apply (IH m); [done| |done].
    intros m' Hlt. apply (Hbefore (S m')). lia.
Qed.

Lemma heads_kid_alt (n c : node) (k : nat) (name : string) :
  is_container n = true -> is_seq n = false ->
  kids n !! k = Some c -> name ∈ heads c -> name ∈ heads n.
Proof.
  intros Hc Hs Hk Hn.
  assert (In name (flat_map heads (kids n))).
  { apply in_flat_map. exists c. split; apply list_elem_of_In; [|done].
    by eapply list_elem_of_lookup_2. }
  apply list_elem_of_In. by destruct n.
Qed.

Lemma leads_kid_alt (g : Grammar) (r : nat) (n c : node) (k : nat) :
  is_container n = true -> is_seq n = false ->
  kids n !! k = Some c -> leads g r n -> leads g r c.
Proof.
  intros Hc Hs Hk H name j Hn Hj. apply (H name j); [|done].
  by eapply heads_kid_alt.
Qed.

Section Raised.
Variable g : Grammar.
Variable visit : state -> nat -> node -> outcome (state * gset string).
Variable via : nat -> Prop.
Variable l : list node.
Variable ok : nat -> node -> Prop.
Hypothesis Hvisit : forall st k n st' s,
  ok k n -> entered g via st -> visit st k n = Ok (st', s) -> raised g st st'.

Lemma alt_union_raised (st st' : state) (acc acc' : gset string) :
  (forall k n, l !! k = Some n -> ok k n) ->
  entered g via st ->
  alt_union visit st 0 acc l = Ok (st', acc') -> raised g st st'.
Proof.
  intros Hok He H.
  apply (alt_union_inv visit l (fun st1 _ _ => raised g st st1) _ _ _ _ _ H).
  - apply raised_refl.
  - intros m n st1 acc1 st2 s Hm HP Hv. eapply raised_trans; [exact HP|].
    eapply Hvisit; [|eapply entered_raised; [exact He|exact HP]|exact Hv].
    apply Hok. exact Hm.
Qed.

Lemma alt_shallow_raised (i : id) (st st' : state) (s : gset string) :
  (forall k n, l !! k = Some n -> ok k n) ->
  entered g via st ->
  alt_shallow visit i st l = Ok (st', s) -> raised g st st'.
Proof.
  intros Hok He H. unfold alt_shallow in H.
  destruct (nonempty (expect_of st i)).
  - injection H as <- <-. apply raised_refl.
  - apply bind_Ok in H as ([st1 acc] & Hu & H). injection H as <- <-.
    eapply raised_trans; [|apply raised_import].
    eapply alt_union_raised; [exact Hok|exact He|exact Hu].
Qed.

Lemma seq_shallow_raised (i : id) (st st' : state) (s : gset string) :
  (forall m n, l !! m = Some n ->
     (forall m', (m' < m)%nat -> exists n', l !! m' = Some n' /\ is_opt n' = true) ->
     ok m n) ->
  entered g via st ->
  seq_shallow visit i st 0 l = Ok (st', s) -> raised g st st'.
Proof.
  intros Hok He H.
  destruct (seq_shallow_inv visit i l (fun st1 _ => raised g st st1) _ _ _ _ H)
    as (_ & _ & _ & _ & _ & HP & _); [apply raised_refl| |exact HP].
  intros m n st1 st2 s' Hm HP Hbefore Hv.
  eapply raised_trans; [|apply raised_import].
  eapply raised_trans; [exact HP|].
  eapply Hvisit; [|eapply entered_raised; [exact He|exact HP]|exact Hv].
  by apply Hok.
Qed.

End Raised.

Lemma shallow_raised (g : Grammar) (fuel : nat) :
  (forall st r p n st' s,
      leads g r n -> entered g (fun k => rtc (begins_with g) k r) st ->
      shallow fuel g st r p n = Ok (st', s) -> raised g st st')
  /\ (forall st j st' s,
      entered g (fun k => tc (begins_with g) k j) st ->
      rule_shallow fuel g st j = Ok (st', s) -> raised g st st').
Proof.
  induction fuel as [|fuel [IHn IHr]]; [split; intros; discriminate|].
  assert (Halt : forall st r p n st' s,
    is_container n = true -> is_seq n = false ->
    leads g r n -> entered g (fun k => rtc (begins_with g) k r) st ->
    alt_shallow (fun st k n => shallow fuel g st r (k :: p) n) (IdNode r p) st
      (kids n) = Ok (st', s) ->
    raised g st st').
  { intros st r p n st' s Hc Hs Hl He H.
    eapply (alt_shallow_raised g _ (fun k => rtc (begins_with g) k r) (kids n)
              (fun _ c => leads g r c)); [| |exact He|exact H].
    - intros st1 k c st2 s2 Hlc He1 Hv. eapply IHn; [exact Hlc|exact He1|exact Hv].
    - intros k c Hk. eapply leads_kid_alt; [exact Hc|exact Hs|exact Hk|exact Hl]. }
  split.
  - intros st r p n st' s Hl He H. cbn [shallow] in H.
    destruct n as [name|name|name|nodes t|seqs|seqs|seqs].
    + injection H as <- <-. apply raised_refl.
    + injection H as <- <-. apply raised_refl.
    + destruct (nt_rule g name) as [j|] eqn:Hj; [|discriminate].
      eapply IHr; [|exact H]. intros k Hk.
      destruct (He k Hk) as [Hc|Hc]; [left; exact Hc|right].
      eapply tc_rtc_l; [exact Hc|]. apply tc_once.
      apply (Hl name j); [|exact Hj]. cbn. apply list_elem_of_singleton. reflexivity.
    + destruct (nonempty (expect_of st (IdNode r p))).
      * injection H as <- <-. apply raised_refl.
      * eapply (seq_shallow_raised g _ (fun k => rtc (begins_with g) k r) nodes
                  (fun _ c => leads g r c)); [| |exact He|exact H].
        -- intros st1 k c st2 s2 Hlc He1 Hv.
           eapply IHn; [exact Hlc|exact He1|exact Hv].
        -- intros m c Hm Hbefore name j Hn Hj. apply (Hl name j); [|exact Hj].
           eapply heads_kid_seq; [exact Hm|exact Hbefore|exact Hn].
    + eapply (Halt st r p (Alt seqs)); [reflexivity|reflexivity|exact Hl|exact He|exact H].
    + eapply (Halt st r p (Opt seqs)); [reflexivity|reflexivity|exact Hl|exact He|exact H].
    + eapply (Halt st r p (Some_ seqs)); [reflexivity|reflexivity|exact Hl|exact He|exact H].
  - intros st j st' s He H. cbn [rule_shallow] in H.
    destruct (rules g !! j) as [rule|] eqn:Hj; [|discriminate].
    destruct (Nat.eqb_spec (recursed_of st j) 0) as [Hc|Hc]; cbn [negb] in H.
    + apply bind_Ok in H as ([st2 s2] & Ha & H). injection H as <- <-.
      rewrite Hc in Ha.
      set (st1 := set_recursed j 1 st) in *.
      assert (He1 : entered g (fun k => rtc (begins_with g) k j) st1).
      { intros k Hk. unfold st1 in Hk. rewrite recursed_of_set in Hk.
        case_decide as Hkj; [subst k; right; reflexivity|].
        destruct (He k Hk) as [Hs|Hs]; [left; exact Hs|right].
        apply tc_rtc. exact Hs. }
      assert (Hr : raised g st1 st2).
      { eapply (Halt st1 j [] (Alt (rule_seqs rule)));
          [reflexivity|reflexivity| |exact He1|exact Ha].
        intros name j' Hn Hj'. exists rule, name. split; [exact Hj|].
        split; [exact Hn|exact Hj']. }
      clear Ha. intros k Hk. rewrite recursed_of_set in Hk.
      change (recursed_of (import_expect (IdNode j []) s2 st2)) with (recursed_of st2) in Hk.
      apply Hr. unfold st1. rewrite recursed_of_set.
      case_decide as Hkj; [subst k; lia|exact Hk].
    + injection H as <- <-. intros k Hk. rewrite recursed_of_set in Hk.
      case_decide as Hkj; [subst k|by destruct Hk].
      destruct (He j) as [Hs|Hs]; [lia|exact Hs|exact Hs].
Qed.

Lemma shallow_rules_raised (g : Grammar) (fuel : nat) (rs : list Rule) :
  forall st j st',
    entered g (fun _ => False) st ->
    shallow_rules fuel g st j rs = Ok st' -> raised g st st'.
Proof.
  induction rs as [|rule rs IH]; intros st j st' He H; cbn [shallow_rules] in H.
  - injection H as <-. apply raised_refl.
  - apply bind_Ok in H as ([st1 s1] & Hr & H).
    assert (H1 : raised g st st1).
    { eapply (proj2 (shallow_raised g fuel)); [|exact Hr].
      intros k Hk. destruct (He k Hk) as [Hs|[]]. left. exact Hs. }
    eapply raised_trans; [exact H1|]. eapply IH; [|exact H].
    eapply entered_raised; [exact He|exact H1].
Qed.

(** X1.  [expect()] reports no left recursion that is not there: if no
    rule is being computed when [expect()] is called, every name in the
    message "left recursive" is the name of a rule that can begin with
    itself. *)
Theorem left_recursion_reported (g : Grammar) (fuel : nat) (st st' : state)
    (names : list string) :
  (forall j, recursed_of st j = 0%nat) ->
  expect fuel g st = Ok (st', Some (LeftRecursive names)) ->
  forall name, name ∈ names ->
    exists j rule, rules g !! j = Some rule /\ rule_nt rule = name
      /\ tc (begins_with g) j j.
Proof.
  intros Hzero H name Hname. unfold expect in H.
  destruct (rules g) as [|r0 rs] eqn:Hrs; [discriminate H|].
  rewrite <- Hrs in H |- *. clear Hrs r0 rs.
  destruct (nonempty (expect_of st (IdNode 0 []))); [discriminate H|].
  destruct (negb (length (levels g) =? 0)%nat); [discriminate H|].
  destruct (length (nts g) <? length (rules g))%nat; [discriminate H|].
  destruct (length (rules g) <? length (nts g))%nat; [discriminate H|].
  apply bind_Ok in H as (st1 & Hsh & H).
  apply shallow_rules_raised in Hsh;
    [|intros k Hk; rewrite Hzero in Hk; lia].
  destruct (negb (bool_decide
    (rule_names g (fun j => negb (recursed_of st1 j =? 0)%nat) = []))).
  - injection H as <- <-. unfold rule_names in Hname.
    apply list_elem_of_fmap in Hname as ([j rule] & -> & Hin).
    apply list_elem_of_filter in Hin as [Ht Hin]. cbn in Ht.
    apply elem_of_lookup_imap_1 in Hin as (j' & rule' & [= -> ->] & Hj).
    exists j', rule'. split; [exact Hj|]. split; [reflexivity|].
    apply Hsh. rewrite Hzero. apply negb_true_iff, Nat.eqb_neq in Ht. exact Ht.
  - apply bind_Ok in H as ([st2 s2] & _ & H).
    destruct (negb (bool_decide
      (rule_names g (fun j => negb (bool_decide (j ∈ reached st2))) = [])));
      discriminate H.
Qed.

Lemma left_recursion_reported_witness :
  expect 20 left_recursive_grammar (new_state 0)
  = Ok (left_recursive_state, Some (LeftRecursive ["a"%string]))
  /\ exists j rule,
       rules left_recursive_grammar !! j = Some rule /\ rule_nt rule = "a"%string
       /\ tc (begins_with left_recursive_grammar) j j.
Proof.
  assert (H : expect 20 left_recursive_grammar (new_state 0)
              = Ok (left_recursive_state, Some (LeftRecursive ["a"%string])))
    by (vm_compute; reflexivity).
  split; [exact H|].
  apply (left_recursion_reported left_recursive_grammar 20 (new_state 0)
           left_recursive_state ["a"%string]).
  - intros j. reflexivity.
  - exact H.
  - apply list_elem_of_here.
Defined.

End LeftRecursion.

Module Reachability.
Import EBNF EBNFFacts.

Lemma seq_deep_inv (visit : state -> nat -> node -> outcome (state * gset string))
    (l : list node) :
  forall (P : state -> nat -> Prop) st k st' s,
    seq_deep visit st k l = Ok (st', s) ->
    P st (length l) ->
    (forall m n st1 st2 s,
        l !! m = Some n -> P st1 (S m) ->
        visit st1 (k + m)%nat n = Ok (st2, s) -> P st2 m) ->
    P st' 0%nat.
Proof.
  induction l as [|n l IH]; intros P st k st' s H H0 Hstep; cbn [seq_deep] in H.
  - injection H as <- <-. exact H0.
  - apply bind_Ok in H as ([st1 after] & Hd & H).
    apply bind_Ok in H as ([st2 s2] & Hv & H). injection H as <- <-.
    apply (Hstep 0%nat n st1 st2 s2); [reflexivity| |by rewrite Nat.add_0_r].
    apply (IH (fun st m => P st (S m)) _ _ _ _ Hd); [exact H0|].
    intros m n' st3 st4 s' Hm HP Hv'.
    apply (Hstep (S m) n' st3 st4 s'); [exact Hm|exact HP|].
    by replace (k + S m)%nat with (S k + m)%nat by lia.
Qed.

(** *** [shallow] leaves the [reached] flags alone *)

Lemma shallow_reached (g : Grammar) (fuel : nat) :
  (forall st r p n st' s,
      shallow fuel g st r p n = Ok (st', s) -> reached st' = reached st)
  /\ (forall st j st' s,
      rule_shallow fuel g st j = Ok (st', s) -> reached st' = reached st).
Proof.
  induction fuel as [|fuel [IHn IHr]]; [split; intros; discriminate|].
  assert (Halt : forall st r p l st' s,
    alt_shallow (fun st k n => shallow fuel g st r (k :: p) n) (IdNode r p) st l
      = Ok (st', s) -> reached st' = reached st).
  { intros st r p l st' s H. unfold alt_shallow in H.
    destruct (nonempty (expect_of st (IdNode r p))).
    - by injection H as <- <-.
    - apply bind_Ok in H as ([st1 acc] & Hu & H). injection H as <- <-. cbn.
      apply (alt_union_inv _ l (fun st1 _ _ => reached st1 = reached st) _ _ _ _ _ Hu);
        [reflexivity|].
      intros m n st2 acc2 st3 s3 _ HP Hv. rewrite <- HP. eapply IHn, Hv. }
  split.
  - intros st r p n st' s H. cbn [shallow] in H.
    destruct n as [name|name|name|nodes t|seqs|seqs|seqs].
    + by injection H as <- <-.
    + by injection H as <- <-.
    + destruct (nt_rule g name) as [j|]; [|discriminate]. eapply IHr, H.
    + destruct (nonempty (expect_of st (IdNode r p))).
      * by injection H as <- <-.
      * destruct (seq_shallow_inv _ _ nodes (fun st1 _ => reached st1 = reached st)
                    _ _ _ _ H) as (_ & _ & _ & _ & _ & HP & _);
          [reflexivity| |exact HP].
        intros m n st1 st2 s' _ HP _ Hv. cbn. rewrite <- HP. eapply IHn, Hv.
    + eapply Halt, H.
    + eapply Halt, H.
    + eapply Halt, H.
  - intros st j st' s H. cbn [rule_shallow] in H.
    destruct (rules g !! j) as [rule|]; [|discriminate].
    destruct (negb (recursed_of st j =? 0)%nat).
    + by injection H as <- <-.
    + apply bind_Ok in H as ([st2 s2] & Ha & H). injection H as <- <-. cbn.
      apply Halt in Ha. exact Ha.
Qed.

Lemma shallow_rules_reached (g : Grammar) (fuel : nat) (rs : list Rule) :
  forall st j st',
    shallow_rules fuel g st j rs = Ok st' -> reached st' = reached st.
Proof.
  induction rs as [|rule rs IH]; intros st j st' H; cbn [shallow_rules] in H.
  - by injection H as <-.
  - apply bind_Ok in H as ([st1 s1] & Hr & H).
    rewrite (IH _ _ _ H). eapply (proj2 (shallow_reached g fuel)), Hr.
Qed.

(** *** [deep] reaches what is mentioned *)

Lemma visits_refl (g : Grammar) (busy : gset nat) (st : state) :
  visits g busy (fun _ => False) st st.
Proof.
  split; [done|]. split; [done|]. split; [by intros j []|]. intros k Hk. by left.
Qed.

Lemma visits_trans (g : Grammar) (busy : gset nat) (f1 f2 f : nat -> Prop)
    (st st1 st2 : state) :
  visits g busy f1 st st1 -> visits g busy f2 st1 st2 ->
  (forall j, f j <-> f1 j \/ f2 j) ->
  visits g busy f st st2.
Proof.
  intros (A1 & B1 & C1 & D1) (A2 & B2 & C2 & D2) Hf.
  split; [etrans; [exact A1|exact A2]|]. split; [auto|]. split.
  - intros j Hj. apply Hf in Hj as [Hj|Hj]; [apply A2, C1, Hj|apply C2, Hj].
  - intros k Hk. destruct (D2 k Hk) as [Hk1|(j & Hj & Hr)].
    + destruct (D1 k Hk1) as [Hk0|(j & Hj & Hr)]; [by left|right].
      exists j. split; [apply Hf; by left|exact Hr].
    + right. exists j. split; [apply Hf; by right|exact Hr].
Qed.

Lemma visits_same (g : Grammar) (busy : gset nat) (f : nat -> Prop)
    (st st1 st2 : state) :
  visits g busy f st st1 -> reached st2 = reached st1 -> visits g busy f st st2.
Proof.
  intros (A & B & C & D) E. unfold visits, closed_but in *. rewrite E.
  split; [exact A|]. split; [exact B|]. split; [exact C|exact D].
Qed.

Lemma targets_kids (g : Grammar) (n : node) (j : nat) :
  is_container n = true ->
  targets g n j <-> exists k c, kids n !! k = Some c /\ targets g c j.
Proof.
  intros Hc. unfold targets.
  assert (Hrefs : forall name, name ∈ refs n <-> In name (flat_map refs (kids n))).
  { intros name. rewrite <- list_elem_of_In. by destruct n. }
  split.
  - intros (name & Hn & Hj). apply Hrefs, in_flat_map in Hn as (c & Hin & Hn).
    apply list_elem_of_In, list_elem_of_lookup_1 in Hin as [k Hk].
    exists k, c. split; [exact Hk|]. exists name. split; [|exact Hj].
    by apply list_elem_of_In.
  - intros (k & c & Hk & name & Hn & Hj). exists name. split; [|exact Hj].
    apply Hrefs, in_flat_map. exists c. split; apply list_elem_of_In; [|exact Hn].
    eapply list_elem_of_lookup_2, Hk.
Qed.

Lemma alt_union_visits (g : Grammar) (busy : gset nat)
    (visit : state -> nat -> node -> outcome (state * gset string))
    (n : node) (st st' : state) (acc acc' : gset string) :
  is_container n = true ->
  (forall st k c st' s, visit st k c = Ok (st', s) ->
     visits g busy (targets g c) st st') ->
  alt_union visit st 0 acc (kids n) = Ok (st', acc') ->
  visits g busy (targets g n) st st'.
Proof.
  intros Hc Hvisit H.
  pose (upto := fun m j => exists k c, (k < m)%nat /\ kids n !! k = Some c
                                       /\ targets g c j).
  assert (HP : visits g busy (upto (length (kids n))) st st').
  { apply (alt_union_inv visit (kids n)
             (fun st1 m _ => visits g busy (upto m) st st1) _ _ _ _ _ H).
    - eapply visits_trans; [apply visits_refl|apply visits_refl|].
      intros j. split; [|tauto]. intros (k & c & Hk & _). lia.
    - intros m c st1 acc1 st2 s Hm HP Hv.
      eapply visits_trans; [exact HP|eapply Hvisit, Hv|].
      intros j. split.
      + intros (k & c' & Hk & Hc' & Ht).
        destruct (decide (k = m)) as [->|Hne].
        * right. rewrite Hm in Hc'. by injection Hc' as <-.
        * left. exists k, c'. split; [lia|done].
      + intros [(k & c' & Hk & Hc' & Ht)|Ht].
        * exists k, c'. split; [lia|done].
        * exists m, c. split; [lia|done]. }
  eapply visits_trans; [exact HP|apply visits_refl|].
  intros j. rewrite (targets_kids g n j Hc). split.
  - intros (k & c & Hk & Ht). left. exists k, c. split; [|done].
    by eapply lookup_lt_Some.
  - intros [(k & c & _ & Hk & Ht)|[]]. by exists k, c.
Qed.

Lemma seq_deep_visits (g : Grammar) (busy : gset nat)
    (visit : state -> nat -> node -> outcome (state * gset string))
    (n : node) (st st' : state) (s : gset string) :
  is_container n = true ->
  (forall st k c st' s, visit st k c = Ok (st', s) ->
     visits g busy (targets g c) st st') ->
  seq_deep visit st 0 (kids n) = Ok (st', s) ->
  visits g busy (targets g n) st st'.
Proof.
  intros Hc Hvisit H.
  pose (from := fun m j => exists k c, (m <= k)%nat /\ kids n !! k = Some c
                                       /\ targets g c j).
  assert (HP : visits g busy (from 0%nat) st st').
  { apply (seq_deep_inv visit (kids n)
             (fun st1 m => visits g busy (from m) st st1) _ _ _ _ H).
    - eapply visits_trans; [apply visits_refl|apply visits_refl|].
      intros j. split; [|tauto]. intros (k & c & Hk & Hl & _).
      apply lookup_lt_Some in Hl. lia.
    - intros m c st1 st2 s2 Hm HP Hv.
      eapply visits_trans; [exact HP|eapply Hvisit, Hv|].
      intros j. split.
      + intros (k & c' & Hk & Hc' & Ht).
        destruct (decide (k = m)) as [->|Hne].
        * right. rewrite Hm in Hc'. by injection Hc' as <-.
        * left. exists k, c'. split; [lia|done].
      + intros [(k & c' & Hk & Hc' & Ht)|Ht].
        * exists k, c'. split; [lia|done].
        * exists m, c. split; [lia|done]. }
  eapply visits_trans; [exact HP|apply visits_refl|].
  intros j. rewrite (targets_kids g n j Hc). split.
  - intros (k & c & Hk & Ht). left. exists k, c. split; [lia|done].
  - intros [(k & c & _ & Hk & Ht)|[]]. by exists k, c.
Qed.

Lemma deep_visits (g : Grammar) (fuel : nat) :
  (forall busy st r p n st' s,
      deep fuel g st r p n = Ok (st', s) -> visits g busy (targets g n) st st')
  /\ (forall busy st j st' s,
      rule_deep fuel g st j = Ok (st', s) -> visits g busy (eq j) st st').
Proof.
  induction fuel as [|fuel [IHn IHr]]; [split; intros; discriminate|].
  assert (Halt : forall busy st r p n st' s,
    is_container n = true ->
    (alt_union (fun st k n => deep fuel g st r (k :: p) n) st 0 ∅ (kids n)
     ≫= fun '(st, acc) =>
          let st := import_expect (IdNode r p) acc st in
          Ok (st, expect_of st (IdNode r p))) = Ok (st', s) ->
    visits g busy (targets g n) st st').
  { intros busy st r p n st' s Hc H.
    apply bind_Ok in H as ([st1 acc] & Hu & H). injection H as <- <-.
    apply (visits_same g busy _ st st1); [|reflexivity].
    eapply alt_union_visits; [exact Hc| |exact Hu].
    intros ????? Hv. eapply IHn, Hv. }
  split.
  - intros busy st r p n st' s H. cbn [deep] in H.
    destruct n as [name|name|name|nodes t|seqs|seqs|seqs].
    + injection H as <- <-. eapply visits_trans; [apply visits_refl|apply visits_refl|].
      intros j. split; [|tauto]. intros (name' & Hn & _). by apply elem_of_nil in Hn.
    + injection H as <- <-. eapply visits_trans; [apply visits_refl|apply visits_refl|].
      intros j. split; [|tauto]. intros (name' & Hn & _). by apply elem_of_nil in Hn.
    + destruct (nt_rule g name) as [j|] eqn:Hj; [|discriminate].
      eapply visits_trans; [apply visits_refl|eapply IHr, H|].
      intros j'. split.
      * intros (name' & ->%list_elem_of_singleton & Hj'). right. congruence.
      * intros [[]|<-]. exists name. split; [apply list_elem_of_here|exact Hj].
    + apply bind_Ok in H as ([st1 acc] & Hd & H). injection H as <- <-.
      apply (visits_same g busy _ st st1); [|reflexivity].
      eapply (seq_deep_visits g busy _ (Seq nodes t)); [reflexivity| |exact Hd].
      intros ????? Hv. eapply IHn, Hv.
    + eapply (Halt busy st r p (Alt seqs)); [reflexivity|exact H].
    + eapply (Halt busy st r p (Opt seqs)); [reflexivity|exact H].
    + eapply (Halt busy st r p (Some_ seqs)); [reflexivity|exact H].
  - intros busy st j st' s H. cbn [rule_deep] in H.
    destruct (rules g !! j) as [rule|] eqn:Hj; [|discriminate].
    destruct (bool_decide_reflect (j ∈ reached st)) as [Hin|Hin].
    + assert (E : reached st' = reached st).
      { unfold alt_shallow in H. destruct (nonempty (expect_of st (IdNode j []))).
        - by injection H as <- <-.
        - apply bind_Ok in H as ([st1 acc] & Hu & H). injection H as <- <-. cbn.
          apply (alt_union_inv _ _ (fun st1 _ _ => reached st1 = reached st)
                   _ _ _ _ _ Hu); [reflexivity|].
          intros m n st2 acc2 st3 s3 _ HP Hv. rewrite <- HP.
          eapply (proj1 (shallow_reached g fuel)), Hv. }
      unfold visits, closed_but. rewrite E.
      split; [done|]. split; [done|]. split; [by intros ? <-|]. intros k Hk. by left.
    + assert (Hkids : forall busy', visits g busy' (targets g (Alt (rule_seqs rule)))
                        (set_reached j st) st').
      { intros busy'. eapply (Halt busy' _ j [] (Alt (rule_seqs rule)));
          [reflexivity|exact H]. }
      clear H.
      assert (Hrefers : forall k', refers g j k' <-> targets g (Alt (rule_seqs rule)) k').
      { intros k'. split.
        - intros (rule' & name & Hr & Hn & Hk'). rewrite Hj in Hr.
          injection Hr as <-. by exists name.
        - intros (name & Hn & Hk'). by exists rule, name. }
      destruct (Hkids busy) as (A & _ & C & D).
      split; [|split; [|split]].
      * etrans; [|exact A]. cbn. apply union_subseteq_r.
      * intros Hcl. destruct (Hkids ({[j]} ∪ busy)) as (_ & B & _ & _).
        assert (Hcl1 : closed_but g ({[j]} ∪ busy) (set_reached j st)).
        { intros k k' Hk Hb Hr. cbn in Hk |- *.
          apply not_elem_of_union in Hb as [Hkj Hb].
          apply elem_of_union in Hk as [Hk|Hk]; [by destruct Hkj|].
          apply elem_of_union_r. apply (Hcl k k'); [exact Hk|exact Hb|exact Hr]. }
        specialize (B Hcl1). intros k k' Hk Hb Hr.
        destruct (decide (k = j)) as [->|Hne].
        -- apply C, Hrefers, Hr.
        -- apply (B k k'); [exact Hk| |exact Hr].
           apply not_elem_of_union. split; [|exact Hb].
           by apply not_elem_of_singleton.
      * intros ? <-. apply A. cbn. apply elem_of_union_l.
        by apply elem_of_singleton.
      * intros k Hk. destruct (D k Hk) as [Hk1|(j' & Hj' & Hr)].
        -- cbn in Hk1. apply elem_of_union in Hk1 as [Hk1|Hk1].
           ++ apply elem_of_singleton in Hk1 as ->. right. by exists j.
           ++ by left.
        -- right. exists j. split; [reflexivity|].
           eapply rtc_l; [apply Hrefers, Hj'|exact Hr].
Qed.

(** After [expect()] has traversed the grammar, the rules that are marked
    as reached are those that rule 0 leads to. *)
Lemma reached_spec (g : Grammar) (fuel : nat) (st st1 st2 : state)
    (s : gset string) :
  reached st = ∅ ->
  shallow_rules fuel g st 0 (rules g) = Ok st1 ->
  rule_deep fuel g st1 0 = Ok (st2, s) ->
  forall j, j ∈ reached st2 <-> rtc (refers g) 0%nat j.
Proof.
  intros Hempty Hsh Hdeep.
  apply shallow_rules_reached in Hsh. rewrite Hempty in Hsh.
  destruct (proj2 (deep_visits g fuel) ∅ _ _ _ _ Hdeep) as (_ & B & C & D).
  assert (Hcl : closed_but g ∅ st2).
  { apply B. intros k k' Hk. rewrite Hsh in Hk. by apply elem_of_empty in Hk. }
  intros j. split.
  - intros Hj. destruct (D j Hj) as [Hj1|(? & <- & Hr)]; [|exact Hr].
    rewrite Hsh in Hj1. by apply elem_of_empty in Hj1.
  - intros Hr.
    apply (rtc_ind_r (R := refers g) (fun j => j ∈ reached st2) 0%nat);
      [by apply C| |exact Hr].
    intros k k' _ Hkk' IH.
    apply (Hcl k k'); [exact IH|apply not_elem_of_empty|exact Hkk'].
Qed.

(** X2.  If no rule is marked as reached when [expect()] is called and
    [expect()] returns without an error message, every rule can be reached
    from the first rule through the non-terminals the rules mention. *)
Theorem expect_reaches_all (g : Grammar) (fuel : nat) (st st' : state) :
  reached st = ∅ ->
  expect fuel g st = Ok (st', None) ->
  forall j, (j < length (rules g))%nat -> rtc (refers g) 0%nat j.
Proof.
  intros Hempty H j Hj. unfold expect in H.
  destruct (rules g) as [|r0 rs] eqn:Hrs; [discriminate H|].
  rewrite <- Hrs in H, Hj. clear Hrs r0 rs.
  destruct (nonempty (expect_of st (IdNode 0 []))); [discriminate H|].
  destruct (negb (length (levels g) =? 0)%nat); [discriminate H|].
  destruct (length (nts g) <? length (rules g))%nat; [discriminate H|].
  destruct (length (rules g) <? length (nts g))%nat; [discriminate H|].
  apply bind_Ok in H as (st1 & Hsh & H).
  destruct (negb (bool_decide
    (rule_names g (fun j => negb (recursed_of st1 j =? 0)%nat) = [])));
    [discriminate H|].
  apply bind_Ok in H as ([st2 s2] & Hdeep & H).
  destruct (bool_decide_reflect
    (rule_names g (fun j => negb (bool_decide (j ∈ reached st2))) = [])) as [Hbad|Hbad];
    cbn [negb] in H; [|discriminate H].
  apply (reached_spec g fuel st st1 st2 s2 Hempty Hsh Hdeep).
  apply (proj1 (rule_names_nil g _) Hbad) in Hj.
  apply negb_false_iff, bool_decide_eq_true in Hj. exact Hj.
Qed.

Lemma expect_reaches_all_witness :
  expect 20 chain_grammar (new_state 0) = Ok (chain_state, None)
  /\ forall j, (j < length (rules chain_grammar))%nat ->
       rtc (refers chain_grammar) 0%nat j.
Proof.
  assert (H : expect 20 chain_grammar (new_state 0) = Ok (chain_state, None))
    by (vm_compute; reflexivity).
  split; [exact H|].
  apply (expect_reaches_all chain_grammar 20 (new_state 0) chain_state);
    [reflexivity|exact H].
Defined.

(** X3.  [expect()] reports no rule as not reached that can be reached: if
    no rule is marked as reached when [expect()] is called, every name in
    the message "not reached" is the name of a rule to which no chain of
    non-terminals leads from the first rule. *)
Theorem unreached_reported (g : Grammar) (fuel : nat) (st st' : state)
    (names : list string) :
  reached st = ∅ ->
  expect fuel g st = Ok (st', Some (NotReached names)) ->
  forall name, name ∈ names ->
    exists j rule, rules g !! j = Some rule /\ rule_nt rule = name
      /\ ~ rtc (refers g) 0%nat j.
Proof.
  intros Hempty H name Hname. unfold expect in H.
  destruct (rules g) as [|r0 rs] eqn:Hrs; [discriminate H|].
  rewrite <- Hrs in H |- *. clear Hrs r0 rs.
  destruct (nonempty (expect_of st (IdNode 0 []))); [discriminate H|].
  destruct (negb (length (levels g) =? 0)%nat); [discriminate H|].
  destruct (length (nts g) <? length (rules g))%nat; [discriminate H|].
  destruct (length (rules g) <? length (nts g))%nat; [discriminate H|].
  apply bind_Ok in H as (st1 & Hsh & H).
  destruct (negb (bool_decide
    (rule_names g (fun j => negb (recursed_of st1 j =? 0)%nat) = [])));
    [discriminate H|].
  apply bind_Ok in H as ([st2 s2] & Hdeep & H).
  destruct (negb (bool_decide
    (rule_names g (fun j => negb (bool_decide (j ∈ reached st2))) = [])));
    [|discriminate H].
  injection H as <- <-. unfold rule_names in Hname.
  apply list_elem_of_fmap in Hname as ([j rule] & -> & Hin).
  apply list_elem_of_filter in Hin as [Ht Hin]. cbn in Ht.
  apply elem_of_lookup_imap_1 in Hin as (j' & rule' & [= -> ->] & Hj).
  exists j', rule'. split; [exact Hj|]. split; [reflexivity|].
  intros Hr. apply (reached_spec g fuel st st1 st2 s2 Hempty Hsh Hdeep) in Hr.
  apply negb_true_iff, bool_decide_eq_false in Ht. exact (Ht Hr).
Qed.

Lemma unreached_reported_witness :
  expect 20 unreached_grammar (new_state 0)
  = Ok (unreached_state, Some (NotReached ["b"%string]))
  /\ exists j rule,
       rules unreached_grammar !! j = Some rule /\ rule_nt rule = "b"%string
       /\ ~ rtc (refers unreached_grammar) 0%nat j.
Proof.
  assert (H : expect 20 unreached_grammar (new_state 0)
              = Ok (unreached_state, Some (NotReached ["b"%string])))
    by (vm_compute; reflexivity).
  split; [exact H|].
  apply (unreached_reported unreached_grammar 20 (new_state 0) unreached_state
           ["b"%string]); [reflexivity|exact H|apply list_elem_of_here].
Defined.

End Reachability.

Module FirstSets.
Import EBNF EBNFFacts Reachability.

Lemma sound_import (g : Grammar) (st : state) (r : nat) (p : list nat)
    (s : gset string) :
  sound g st ->
  (forall n x, node_at g r p = Some n -> x ∈ s -> first g n x) ->
  sound g (import_expect (IdNode r p) s st).
Proof.
  intros Hs H r' p' n x Hn Hx. rewrite expect_of_import in Hx.
  case_decide as Hid; [|by eapply Hs].
  injection Hid as -> ->. apply elem_of_union in Hx as [Hx|Hx].
  - by eapply Hs.
  - by eapply H.
Qed.

Lemma sound_same (g : Grammar) (st st' : state) :
  expects st' = expects st -> sound g st -> sound g st'.
Proof.
  intros He Hs r p n x Hn. unfold expect_of. rewrite He. by apply Hs.
Qed.

Section Sound.
Variable g : Grammar.
Variable visit : state -> nat -> node -> outcome (state * gset string).
Variable r : nat.
Variable p : list nat.
Variable n : node.
Hypothesis Hn : node_at g r p = Some n.
Hypothesis Hvisit : forall st k c st' s,
  kids n !! k = Some c -> sound g st -> visit st k c = Ok (st', s) ->
  sound g st' /\ forall x, x ∈ s -> first g c x.

Lemma alt_union_sound (st st' : state) (acc : gset string) :
  is_container n = true -> is_seq n = false ->
  sound g st ->
  alt_union visit st 0 ∅ (kids n) = Ok (st', acc) ->
  sound g st' /\ forall x, x ∈ acc -> first g n x.
Proof.
  intros Hc Hseq Hs H.
  apply (alt_union_inv visit (kids n)
           (fun st1 _ acc1 => sound g st1 /\ forall x, x ∈ acc1 -> first g n x)
           _ _ _ _ _ H).
  - split; [exact Hs|]. intros x Hx. by apply elem_of_empty in Hx.
  - intros m c st1 acc1 st2 s Hm [Hs1 Hacc] Hv. cbn in Hv.
    destruct (Hvisit _ _ _ _ _ Hm Hs1 Hv) as [Hs2 Hc2].
    split; [exact Hs2|]. intros x [Hx|Hx]%elem_of_union; [by apply Hacc|].
    eapply first_alt; [exact Hc|exact Hseq|exact Hm|by apply Hc2].
Qed.

Lemma alt_shallow_sound (st st' : state) (s : gset string) :
  is_container n = true -> is_seq n = false ->
  sound g st ->
  alt_shallow visit (IdNode r p) st (kids n) = Ok (st', s) ->
  sound g st' /\ forall x, x ∈ s -> first g n x.
Proof.
  intros Hc Hseq Hs H. unfold alt_shallow in H.
  destruct (nonempty (expect_of st (IdNode r p))).
  - injection H as <- <-. split; [exact Hs|]. intros x Hx. by eapply Hs.
  - apply bind_Ok in H as ([st1 acc] & Hu & H). injection H as <- <-.
    destruct (alt_union_sound _ _ _ Hc Hseq Hs Hu) as [Hs1 Hacc].
    assert (Hs2 : sound g (import_expect (IdNode r p) acc st1)).
    { apply sound_import; [exact Hs1|]. intros n' x Hn' Hx.
      assert (n' = n) as -> by congruence. by apply Hacc. }
    split; [exact Hs2|]. intros x Hx. by eapply Hs2.
Qed.

Lemma seq_shallow_sound (st st' : state) (s : gset string) :
  is_seq n = true ->
  sound g st ->
  seq_shallow visit (IdNode r p) st 0 (kids n) = Ok (st', s) ->
  sound g st' /\ forall x, x ∈ s -> first g n x.
Proof.
  intros Hseq Hs H.
  destruct (seq_shallow_inv visit _ (kids n) (fun st1 _ => sound g st1) _ _ _ _ H)
    as (_ & _ & _ & _ & _ & HP & ->); [exact Hs| |].
  - intros m c st1 st2 s' Hm HP Hbefore Hv. cbn in Hv.
    destruct (Hvisit _ _ _ _ _ Hm HP Hv) as [Hs2 Hc2].
    apply sound_import; [exact Hs2|]. intros n' x Hn' Hx.
    assert (n' = n) as -> by congruence.
    destruct n as [| | |nodes t| | |]; try discriminate Hseq.
    eapply first_seq; [exact Hm|exact Hbefore|by apply Hc2].
  - split; [exact HP|]. intros x Hx. by eapply HP.
Qed.

End Sound.

Lemma seq_deep_sound (g : Grammar)
    (visit : state -> nat -> node -> outcome (state * gset string))
    (l : list node) :
  forall k st st' s,
    (forall st m c st' s,
        l !! m = Some c -> sound g st -> visit st (k + m)%nat c = Ok (st', s) ->
        sound g st' /\ forall x, x ∈ s -> first g c x) ->
    sound g st ->
    seq_deep visit st k l = Ok (st', s) ->
    sound g st'
    /\ forall x, x ∈ s ->
         exists m c, l !! m = Some c /\ first g c x
           /\ forall m', (m' < m)%nat ->
                exists n', l !! m' = Some n' /\ is_opt n' = true.
Proof.
  induction l as [|c l IH]; intros k st st' s Hvisit Hs H; cbn [seq_deep] in H.
  - injection H as <- <-. split; [exact Hs|]. intros x Hx. by apply elem_of_empty in Hx.
  - apply bind_Ok in H as ([st1 after] & Hd & H).
    apply bind_Ok in H as ([st2 s2] & Hv & H). injection H as <- <-.
    destruct (IH (S k) st st1 after) as [Hs1 Hafter]; [|exact Hs|exact Hd|].
    { intros st3 m c' st4 s4 Hm Hs3 Hv3.
      apply (Hvisit st3 (S m) c' st4 s4); [exact Hm|exact Hs3|].
      by replace (k + S m)%nat with (S k + m)%nat by lia. }
    destruct (Hvisit st1 0%nat c st2 s2 eq_refl Hs1) as [Hs2 Hc2].
    { by rewrite Nat.add_0_r. }
    split; [exact Hs2|]. intros x Hx.
    assert (Hhere : x ∈ s2 ->
      exists m c0, (c :: l) !! m = Some c0 /\ first g c0 x
        /\ forall m', (m' < m)%nat ->
             exists n', (c :: l) !! m' = Some n' /\ is_opt n' = true).
    { intros Hx2. exists 0%nat, c. split; [reflexivity|]. split; [by apply Hc2|].
      intros m' Hlt. lia. }
    destruct (is_opt c) eqn:Hopt; [|by apply Hhere].
    apply elem_of_union in Hx as [Hx|Hx]; [|by apply Hhere].
    destruct (Hafter x Hx) as (m & c0 & Hm & Hf & Hbefore).
    exists (S m), c0. split; [exact Hm|]. split; [exact Hf|].
    intros [|m'] Hlt; [by exists c|]. apply Hbefore. lia.
Qed.


Lemma shallow_sound (g : Grammar) (fuel : nat) :
  (forall st r p n st' s,
      node_at g r p = Some n -> sound g st ->
      shallow fuel g st r p n = Ok (st', s) ->
      sound g st' /\ forall x, x ∈ s -> first g n x)
  /\ (forall st j rule st' s,
      rules g !! j = Some rule -> sound g st ->
      rule_shallow fuel g st j = Ok (st', s) ->
      sound g st' /\ forall x, x ∈ s -> first g (Alt (rule_seqs rule)) x).
Proof.
  induction fuel as [|fuel [IHn IHr]]; [split; intros; discriminate|].
  assert (Hkid : forall r p n st k c st' s,
    node_at g r p = Some n -> kids n !! k = Some c -> sound g st ->
    shallow fuel g st r (k :: p) c = Ok (st', s) ->
    sound g st' /\ forall x, x ∈ s -> first g c x).
  { intros r p n st k c st' s Hn Hk Hs Hv.
    eapply IHn; [|exact Hs|exact Hv]. eapply node_at_kid; [exact Hn|exact Hk]. }
  split.
  - intros st r p n st' s Hn Hs H. cbn [shallow] in H.
    destruct n as [name|name|name|nodes t|seqs|seqs|seqs].
    + injection H as <- <-. split; [exact Hs|].
      intros x ->%elem_of_singleton. constructor.
    + injection H as <- <-. split; [exact Hs|].
      intros x ->%elem_of_singleton. constructor.
    + destruct (nt_rule g name) as [j|] eqn:Hj; [|discriminate].
      destruct (rules g !! j) as [rule|] eqn:Hrule.
      * destruct (IHr _ _ _ _ _ Hrule Hs H) as [Hs' Hx]. split; [exact Hs'|].
        intros x Hin. eapply first_nt; [exact Hj|exact Hrule|by apply Hx].
      * destruct fuel as [|fuel']; [discriminate H|]. cbn [rule_shallow] in H.
        rewrite Hrule in H. discriminate H.
    + destruct (nonempty (expect_of st (IdNode r p))).
      * injection H as <- <-. split; [exact Hs|]. intros x Hx. by eapply Hs.
      * eapply (seq_shallow_sound g _ r p (Seq nodes t) Hn); [|reflexivity|exact Hs|exact H].
        intros st1 k c st2 s2 Hk Hs1 Hv. eapply Hkid; [exact Hn|exact Hk|exact Hs1|exact Hv].
    + eapply (alt_shallow_sound g _ r p (Alt seqs) Hn);
        [|reflexivity|reflexivity|exact Hs|exact H].
      intros st1 k c st2 s2 Hk Hs1 Hv. eapply Hkid; [exact Hn|exact Hk|exact Hs1|exact Hv].
    + eapply (alt_shallow_sound g _ r p (Opt seqs) Hn);
        [|reflexivity|reflexivity|exact Hs|exact H].
      intros st1 k c st2 s2 Hk Hs1 Hv. eapply Hkid; [exact Hn|exact Hk|exact Hs1|exact Hv].
    + eapply (alt_shallow_sound g _ r p (Some_ seqs) Hn);
        [|reflexivity|reflexivity|exact Hs|exact H].
      intros st1 k c st2 s2 Hk Hs1 Hv. eapply Hkid; [exact Hn|exact Hk|exact Hs1|exact Hv].
  - intros st j rule st' s Hj Hs H. cbn [rule_shallow] in H. rewrite Hj in H.
    pose proof (node_at_root g j rule Hj) as Hroot.
    destruct (negb (recursed_of st j =? 0)%nat).
    + injection H as <- <-. split; [exact Hs|]. intros x Hx. by apply elem_of_empty in Hx.
    + apply bind_Ok in H as ([st2 s2] & Ha & H). injection H as <- <-.
      assert (Hv : forall st1 k c st3 s3,
        kids (Alt (rule_seqs rule)) !! k = Some c -> sound g st1 ->
        shallow fuel g st1 j [k] c = Ok (st3, s3) ->
        sound g st3 /\ forall x, x ∈ s3 -> first g c x).
      { intros st1 k c st3 s3 Hk Hs1 Hv.
        eapply Hkid; [exact Hroot|exact Hk|exact Hs1|exact Hv]. }
      destruct (alt_shallow_sound g _ j [] (Alt (rule_seqs rule)) Hroot Hv
                  (set_recursed j (S (recursed_of st j)) st) st2 s2 eq_refl eq_refl
                  (sound_same g st _ eq_refl Hs) Ha) as [Hs2 Hx2].
      assert (Hs3 : sound g (import_expect (IdNode j []) s2 st2)).
      { apply sound_import; [exact Hs2|]. intros n' x Hn' Hx.
        assert (n' = Alt (rule_seqs rule)) as -> by congruence. by apply Hx2. }
      split; [apply (sound_same g _ _ eq_refl Hs3)|].
      intros x Hx. by eapply Hs3.
Qed.

Lemma deep_sound (g : Grammar) (fuel : nat) :
  (forall st r p n st' s,
      node_at g r p = Some n -> sound g st ->
      deep fuel g st r p n = Ok (st', s) ->
      sound g st' /\ forall x, x ∈ s -> first g n x)
  /\ (forall st j rule st' s,
      rules g !! j = Some rule -> sound g st ->
      rule_deep fuel g st j = Ok (st', s) ->
      sound g st' /\ forall x, x ∈ s -> first g (Alt (rule_seqs rule)) x).
Proof.
  induction fuel as [|fuel [IHn IHr]]; [split; intros; discriminate|].
  assert (Hkid : forall r p n st k c st' s,
    node_at g r p = Some n -> kids n !! k = Some c -> sound g st ->
    deep fuel g st r (k :: p) c = Ok (st', s) ->
    sound g st' /\ forall x, x ∈ s -> first g c x).
  { intros r p n st k c st' s Hn Hk Hs Hv.
    eapply IHn; [|exact Hs|exact Hv]. eapply node_at_kid; [exact Hn|exact Hk]. }
  assert (Halt : forall st r p n st' s,
    node_at g r p = Some n -> is_container n = true -> is_seq n = false ->
    sound g st ->
    (alt_union (fun st k n => deep fuel g st r (k :: p) n) st 0 ∅ (kids n)
     ≫= fun '(st, acc) =>
          let st := import_expect (IdNode r p) acc st in
          Ok (st, expect_of st (IdNode r p))) = Ok (st', s) ->
    sound g st' /\ forall x, x ∈ s -> first g n x).
  { intros st r p n st' s Hn Hc Hseq Hs H.
    apply bind_Ok in H as ([st1 acc] & Hu & H). injection H as <- <-.
    assert (Hv : forall st2 k c st3 s3,
      kids n !! k = Some c -> sound g st2 ->
      deep fuel g st2 r (k :: p) c = Ok (st3, s3) ->
      sound g st3 /\ forall x, x ∈ s3 -> first g c x).
    { intros st2 k c st3 s3 Hk Hs2 Hv.
      eapply Hkid; [exact Hn|exact Hk|exact Hs2|exact Hv]. }
    destruct (alt_union_sound g _ n Hv st st1 acc Hc Hseq Hs Hu) as [Hs1 Hacc].
    assert (Hs2 : sound g (import_expect (IdNode r p) acc st1)).
    { apply sound_import; [exact Hs1|]. intros n' x Hn' Hx.
      assert (n' = n) as -> by congruence. by apply Hacc. }
      split; [exact Hs2|]. intros x Hx. by eapply Hs2. }
  split.
  - intros st r p n st' s Hn Hs H. cbn [deep] in H.
    destruct n as [name|name|name|nodes t|seqs|seqs|seqs].
    + injection H as <- <-. split; [exact Hs|].
      intros x ->%elem_of_singleton. constructor.
    + injection H as <- <-. split; [exact Hs|].
      intros x ->%elem_of_singleton. constructor.
    + destruct (nt_rule g name) as [j|] eqn:Hj; [|discriminate].
      destruct (rules g !! j) as [rule|] eqn:Hrule.
      * destruct (IHr _ _ _ _ _ Hrule Hs H) as [Hs' Hx]. split; [exact Hs'|].
        intros x Hin. eapply first_nt; [exact Hj|exact Hrule|by apply Hx].
      * destruct fuel as [|fuel']; [discriminate H|]. cbn [rule_deep] in H.
        rewrite Hrule in H. discriminate H.
    + apply bind_Ok in H as ([st1 acc] & Hd & H). injection H as <- <-.
      destruct (seq_deep_sound g (fun st k n => deep fuel g st r (k :: p) n)
                  nodes 0%nat st st1 acc) as [Hs1 Hacc]; [|exact Hs|exact Hd|].
      * intros st2 k c st3 s3 Hk Hs2 Hv.
        eapply (Hkid r p (Seq nodes t)); [exact Hn|exact Hk|exact Hs2|exact Hv].
      * assert (Hs2 : sound g (import_expect (IdNode r p) acc st1)).
        { apply sound_import; [exact Hs1|]. intros n' x Hn' Hx.
          assert (n' = Seq nodes t) as -> by congruence.
          destruct (Hacc x Hx) as (m & c & Hm & Hf & Hbefore).
          eapply first_seq; [exact Hm|exact Hbefore|exact Hf]. }
        split; [exact Hs2|]. intros x Hx. by eapply Hs2.
    + exact (Halt st r p (Alt seqs) st' s Hn eq_refl eq_refl Hs H).
    + exact (Halt st r p (Opt seqs) st' s Hn eq_refl eq_refl Hs H).
    + exact (Halt st r p (Some_ seqs) st' s Hn eq_refl eq_refl Hs H).
  - intros st j rule st' s Hj Hs H. cbn [rule_deep] in H. rewrite Hj in H.
    pose proof (node_at_root g j rule Hj) as Hroot.
    destruct (bool_decide (j ∈ reached st)).
    + eapply (alt_shallow_sound g _ j [] (Alt (rule_seqs rule)) Hroot);
        [|reflexivity|reflexivity|exact Hs|exact H].
      intros st1 k c st2 s2 Hk Hs1 Hv.
      eapply (proj1 (shallow_sound g fuel)); [|exact Hs1|exact Hv].
      eapply node_at_kid; [exact Hroot|exact Hk].
    + apply (Halt (set_reached j st) j [] (Alt (rule_seqs rule)) st' s Hroot
               eq_refl eq_refl); [|exact H].
      apply (sound_same g st); [reflexivity|exact Hs].
Qed.

Lemma shallow_rules_sound (g : Grammar) (fuel : nat) (rs : list Rule) :
  forall st j st',
    (forall k, (k < length rs)%nat -> (j + k < length (rules g))%nat) ->
    sound g st -> shallow_rules fuel g st j rs = Ok st' -> sound g st'.
Proof.
  induction rs as [|rule rs IH]; intros st j st' Hlen Hs H; cbn [shallow_rules] in H.
  - by injection H as <-.
  - apply bind_Ok in H as ([st1 s1] & Hr & H).
    destruct (lookup_lt_is_Some_2 (rules g) j) as [rule' Hj].
    { specialize (Hlen 0%nat). cbn in Hlen. lia. }
    eapply (IH _ (S j)); [| |exact H].
    + intros k Hk. specialize (Hlen (S k)). cbn in Hlen. lia.
    + eapply (proj2 (shallow_sound g fuel)); [exact Hj|exact Hs|exact Hr].
Qed.

Lemma expect_keeps_sound (g : Grammar) (fuel : nat) (st st' : state)
    (e : option message) :
  sound g st -> expect fuel g st = Ok (st', e) -> sound g st'.
Proof.
  intros Hs H.
  assert (Herr : forall m, sound g (error m st)).
  { intros m. apply (sound_same g st); [reflexivity|exact Hs]. }
  unfold expect in H.
  destruct (rules g) as [|r0 rs] eqn:Hrs; [discriminate H|].
  rewrite <- Hrs in H.
  destruct (nonempty (expect_of st (IdNode 0 []))); [injection H as <- <-; apply Herr|].
  destruct (negb (length (levels g) =? 0)%nat); [injection H as <- <-; apply Herr|].
  destruct (length (nts g) <? length (rules g))%nat; [injection H as <- <-; apply Herr|].
  destruct (length (rules g) <? length (nts g))%nat; [injection H as <- <-; apply Herr|].
  apply bind_Ok in H as (st1 & Hsh & H).
  apply shallow_rules_sound in Hsh; [|intros k Hk; exact Hk|exact Hs].
  destruct (negb (bool_decide
    (rule_names g (fun j => negb (recursed_of st1 j =? 0)%nat) = []))).
  { injection H as <- <-. apply (sound_same g st1); [reflexivity|exact Hsh]. }
  apply bind_Ok in H as ([st2 s2] & Hdeep & H).
  assert (Hs2 : sound g st2).
  { eapply (proj2 (deep_sound g fuel) st1 0%nat r0); [|exact Hsh|exact Hdeep].
    rewrite Hrs. reflexivity. }
  destruct (negb (bool_decide
    (rule_names g (fun j => negb (bool_decide (j ∈ reached st2))) = []))).
  - injection H as <- <-. apply (sound_same g st2); [reflexivity|exact Hs2].
  - injection H as <- <-. exact Hs2.
Qed.

(** X4.  What [expect()] puts into an [expect] set is right: if the sets
    are empty when [expect()] is called, then afterwards, with or without
    an error message, every terminal in the [expect] set of a rule or of a
    node of a rule stands at the beginning of the rule or node by the
    structure of the grammar, as [first] defines it: the name of a literal
    or token itself, for a non-terminal what its rule begins with, for a
    sequence what an element begins with that has only optional elements
    before it, and for a rule, an [Alt], an [Opt] and a [Some] what one of
    the alternatives begins with. *)
Theorem expect_sound (g : Grammar) (fuel : nat) (st st' : state)
    (e : option message) :
  expects st = ∅ ->
  expect fuel g st = Ok (st', e) ->
  forall r p n x,
    node_at g r p = Some n -> x ∈ expect_of st' (IdNode r p) -> first g n x.
Proof.
  intros Hempty H. apply (expect_keeps_sound g fuel st st' e); [|exact H].
  intros r p n x _ Hx. unfold expect_of in Hx. rewrite Hempty in Hx.
  rewrite lookup_empty in Hx. by apply elem_of_empty in Hx.
Qed.

Lemma expect_sound_witness :
  expect 20 chain_grammar (new_state 0) = Ok (chain_state, None)
  /\ (forall r p n x,
        node_at chain_grammar r p = Some n ->
        x ∈ expect_of chain_state (IdNode r p) -> first chain_grammar n x)
  /\ expect 20 left_recursive_grammar (new_state 0)
     = Ok (left_recursive_state, Some (LeftRecursive ["a"%string]))
  /\ (forall r p n x,
        node_at left_recursive_grammar r p = Some n ->
        x ∈ expect_of left_recursive_state (IdNode r p) ->
        first left_recursive_grammar n x).
Proof.
  assert (H : expect 20 chain_grammar (new_state 0) = Ok (chain_state, None))
    by (vm_compute; reflexivity).
  assert (H' : expect 20 left_recursive_grammar (new_state 0)
               = Ok (left_recursive_state, Some (LeftRecursive ["a"%string])))
    by (vm_compute; reflexivity).
  split; [exact H|]. split.
  - apply (expect_sound chain_grammar 20 (new_state 0) chain_state None);
      [reflexivity|exact H].
  - split; [exact H'|].
    apply (expect_sound left_recursive_grammar 20 (new_state 0)
             left_recursive_state (Some (LeftRecursive ["a"%string])));
      [reflexivity|exact H'].
Defined.

End FirstSets.

Module FirstComplete.
Import EBNF EBNFFacts Reachability FirstSets.

#[local] Existing Instance grows_preorder.

Lemma first_leaf_inv (g : Grammar) (n : node) (x : string) :
  first g n x ->
  match n with
  | Lit name | Token name => x = name
  | _ => True
  end.
Proof. intros H. destruct H; try done. by destruct n. Qed.

Lemma first_nt_inv (g : Grammar) (name x : string) :
  first g (NT name) x ->
  exists j rule, nt_rule g name = Some j /\ rules g !! j = Some rule
    /\ first g (Alt (rule_seqs rule)) x.
Proof.
  intros H. inversion H as [| |? j rule ? Hj Hr Hf| |? ? ? ? Hc]; subst.
  - by exists j, rule.
  - discriminate Hc.
Qed.

Lemma first_seq_inv (g : Grammar) (nodes : list node) (t : option string)
    (x : string) :
  first g (Seq nodes t) x ->
  exists m n, nodes !! m = Some n /\ first g n x
    /\ forall m', (m' < m)%nat -> exists n', nodes !! m' = Some n' /\ is_opt n' = true.
Proof.
  intros H. inversion H as [| | |? ? m n ? Hm Hb Hf|? ? ? ? _ Hs]; subst.
  - by exists m, n.
  - discriminate Hs.
Qed.

Lemma first_alt_inv (g : Grammar) (n : node) (x : string) :
  is_container n = true -> is_seq n = false -> first g n x ->
  exists k c, kids n !! k = Some c /\ first g c x.
Proof.
  intros Hc Hs H. destruct H as [| | | |n k c x _ _ Hk Hf]; try discriminate.
  by exists k, c.
Qed.

Lemma full_set_recursed (g : Grammar) (st : state) (j n : nat) :
  full g st -> (1 <= n)%nat -> full g (set_recursed j n st).
Proof.
  intros H Hn r rule Hr Hz. rewrite recursed_of_set in Hz.
  case_decide; [lia|]. by apply H.
Qed.

Lemma full_import (g : Grammar) (st : state) (r : nat) (p : list nat)
    (s : gset string) :
  full g st -> (1 <= recursed_of st r)%nat ->
  full g (import_expect (IdNode r p) s st).
Proof.
  intros H Hbusy r0 rule Hr0 Hz.
  assert (r <> r0) by (intros ->; change (recursed_of st r0 = 0%nat) in Hz; lia).
  rewrite expect_of_import_ne by congruence. by apply H.
Qed.

Lemma full_done (g : Grammar) (st : state) (j n : nat) (s : gset string) :
  full g st -> (1 <= recursed_of st j)%nat ->
  (forall rule x, rules g !! j = Some rule -> first g (Alt (rule_seqs rule)) x ->
     x ∈ expect_of st (IdNode j []) ∪ s) ->
  full g (set_recursed j n (import_expect (IdNode j []) s st)).
Proof.
  intros H Hbusy Hall r rule Hr Hz. rewrite recursed_of_set in Hz.
  change (expect_of (set_recursed j n (import_expect (IdNode j []) s st)))
    with (expect_of (import_expect (IdNode j []) s st)).
  destruct (decide (j = r)) as [->|Hjr].
  - rewrite expect_of_import_eq. intros _ x Hx. by eapply Hall.
  - change (recursed_of st r = 0%nat) in Hz.
    rewrite expect_of_import_ne by congruence. by apply H.
Qed.

(** *** Without a mark, what [shallow] computes is complete *)

Section Full.
Variable g : Grammar.
Variable visit : state -> nat -> node -> outcome (state * gset string).
Variable r : nat.
Variable p : list nat.
Variable l : list node.

Hypothesis visit_frame : forall st k n st' s,
  visit st k n = Ok (st', s) -> frame st st' r (k :: p).

Hypothesis visit_full : forall st k n st' s,
  l !! k = Some n -> settled g st -> full g st -> (1 <= recursed_of st r)%nat ->
  blank st r (k :: p) -> visit st k n = Ok (st', s) ->
  marked g st st'
  \/ (settled g st' /\ full g st' /\ forall x, first g n x -> x ∈ s).

Lemma alt_union_full (st st' : state) (acc' : gset string) :
  settled g st -> full g st -> (1 <= recursed_of st r)%nat -> blank st r p ->
  alt_union visit st 0 ∅ l = Ok (st', acc') ->
  frame st st' r p
  /\ (marked g st st'
      \/ (full g st'
          /\ forall m n, l !! m = Some n -> forall x, first g n x -> x ∈ acc')).
Proof.
  intros Hset Hfull Hbusy Hblank H.
  pose (P := fun (st1 : state) (m : nat) (acc : gset string) =>
    frame st st1 r p
    /\ (forall k, (m <= k)%nat -> blank st1 r (k :: p))
    /\ (marked g st st1
        \/ (settled g st1 /\ full g st1
            /\ forall m' n, (m' < m)%nat -> l !! m' = Some n ->
                 forall x, first g n x -> x ∈ acc))).
  assert (HP : P st' (length l) acc').
  { apply (alt_union_inv visit l P _ _ _ _ _ H).
    - split; [apply frame_refl|]. split; [intros; by apply blank_kid|].
      right. split; [exact Hset|]. split; [exact Hfull|]. intros; lia.
    - intros m n st1 acc1 st2 s Hm (HF & HB & HS) Hv. cbn in Hv.
      pose proof (visit_frame _ _ _ _ _ Hv) as HF2.
      pose proof (frame_busy _ _ _ _ HF Hbusy) as Hbusy1.
      split; [eapply frame_trans; [exact HF|eapply frame_child; exact HF2]|].
      split.
      { intros k Hk. eapply frame_blank; [exact HF2|exact Hbusy1|lia|]. apply HB. lia. }
      destruct HS as [HS|(HS & HU & Hacc)].
      { left. eapply marked_grows_r; [exact HS|apply HF2]. }
      destruct (visit_full _ _ _ _ _ Hm HS HU Hbusy1 (HB m (le_n _)) Hv)
        as [Hmk|(HS2 & HU2 & Hs)].
      { left. eapply marked_grows_l; [apply HF|exact Hmk]. }
      right. split; [exact HS2|]. split; [exact HU2|].
      intros m' n' Hlt Hm' x Hx. apply elem_of_union.
      destruct (decide (m' = m)) as [->|Hne].
      + right. assert (n' = n) as -> by congruence. by apply Hs.
      + left. eapply Hacc; [|exact Hm'|exact Hx]. lia. }
  destruct HP as (HF & _ & HS). split; [exact HF|].
  destruct HS as [HS|(_ & HU & Hacc)]; [by left|right].
  split; [exact HU|]. intros m n Hm x Hx. eapply Hacc; [|exact Hm|exact Hx].
  by eapply lookup_lt_Some.
Qed.

Lemma alt_shallow_full (n : node) (st st' : state) (s : gset string) :
  is_container n = true -> is_seq n = false -> kids n = l ->
  settled g st -> full g st -> (1 <= recursed_of st r)%nat -> blank st r p ->
  alt_shallow visit (IdNode r p) st l = Ok (st', s) ->
  marked g st st' \/ (full g st' /\ forall x, first g n x -> x ∈ s).
Proof.
  intros Hc Hseq Hl Hset Hfull Hbusy Hblank H. unfold alt_shallow in H.
  rewrite (Hblank p (below_refl p)) in H.
  replace (nonempty ∅) with false in H by (symmetry; by apply nonempty_false).
  apply bind_Ok in H as ([st1 acc] & Hu & H). injection H as <- <-.
  destruct (alt_union_full _ _ _ Hset Hfull Hbusy Hblank Hu) as [HF HS].
  destruct HS as [HS|(HU & Hacc)].
  - left. eapply marked_grows_r; [exact HS|apply grows_import].
  - right. split; [apply full_import; [exact HU|by eapply frame_busy]|].
    intros x Hx. rewrite expect_of_import_eq. apply elem_of_union_r.
    destruct (first_alt_inv g n x Hc Hseq Hx) as (k & c & Hk & Hf).
    rewrite Hl in Hk. by eapply Hacc.
Qed.

Lemma seq_shallow_full (t : option string) (st st' : state) (s : gset string) :
  settled g st -> full g st -> (1 <= recursed_of st r)%nat -> blank st r p ->
  seq_shallow visit (IdNode r p) st 0 l = Ok (st', s) ->
  marked g st st' \/ (full g st' /\ forall x, first g (Seq l t) x -> x ∈ s).
Proof.
  intros Hset Hfull Hbusy Hblank H.
  pose (P := fun (st1 : state) (m : nat) =>
    frame st st1 r p
    /\ (forall k, (m <= k)%nat -> blank st1 r (k :: p))
    /\ (marked g st st1
        \/ (settled g st1 /\ full g st1
            /\ forall m' n, (m' < m)%nat -> l !! m' = Some n ->
                 forall x, first g n x -> x ∈ expect_of st1 (IdNode r p)))).
  destruct (seq_shallow_inv visit _ l P _ _ _ _ H)
    as (m & n & Hm & Hopt & Hbefore & (HF & _ & HS) & ->).
  - split; [apply frame_refl|]. split; [intros; by apply blank_kid|].
    right. split; [exact Hset|]. split; [exact Hfull|]. intros; lia.
  - intros m n st1 st2 s' Hm (HF & HB & HS) _ Hv. cbn in Hv.
    pose proof (visit_frame _ _ _ _ _ Hv) as HF2.
    pose proof (frame_busy _ _ _ _ HF Hbusy) as Hbusy1.
    assert (HF3 : frame st (import_expect (IdNode r p) s' st2) r p).
    { eapply frame_trans; [|apply frame_import].
      eapply frame_trans; [exact HF|eapply frame_child; exact HF2]. }
    split; [exact HF3|]. split.
    { intros k Hk. apply blank_import.
      eapply frame_blank; [exact HF2|exact Hbusy1|lia|]. apply HB. lia. }
    destruct HS as [HS|(HS & HU & Hacc)].
    { left. eapply marked_grows_r; [exact HS|].
      etrans; [apply HF2|apply grows_import]. }
    destruct (visit_full _ _ _ _ _ Hm HS HU Hbusy1 (HB m (le_n _)) Hv)
      as [Hmk|(HS2 & HU2 & Hs)].
    { left. eapply marked_grows_r; [|apply grows_import].
      eapply marked_grows_l; [apply HF|exact Hmk]. }
    assert (Hbusy2 : (1 <= recursed_of st2 r)%nat).
    { eapply frame_busy; [exact HF2|exact Hbusy1]. }
    right. split; [apply settled_import; [exact HS2|exact Hbusy2]|].
    split; [apply full_import; [exact HU2|exact Hbusy2]|].
    intros m' n' Hlt Hm' x Hx. rewrite expect_of_import_eq. apply elem_of_union.
    destruct (decide (m' = m)) as [->|Hne].
    + right. assert (n' = n) as -> by congruence. by apply Hs.
    + left. apply (proj1 (proj1 HF2)). eapply Hacc; [|exact Hm'|exact Hx]. lia.
  - destruct HS as [HS|(_ & HU & Hacc)]; [by left|right].
    split; [exact HU|]. intros x Hx.
    destruct (first_seq_inv g l t x Hx) as (m' & n' & Hm' & Hf & Hopts).
    assert (m' < S m)%nat.
    { destruct (decide (m' < S m)%nat); [done|].
      destruct (Hopts m) as (n'' & Hn'' & Hopt''); [lia|]. congruence. }
    by eapply Hacc.
Qed.

End Full.

Lemma shallow_full (g : Grammar) (fuel : nat) :
  wf_grammar g = true ->
  (forall st r p n st' s,
      wf n = true -> settled g st -> full g st -> (1 <= recursed_of st r)%nat ->
      blank st r p -> shallow fuel g st r p n = Ok (st', s) ->
      marked g st st'
      \/ (settled g st' /\ full g st' /\ forall x, first g n x -> x ∈ s))
  /\ (forall st j rule st' s,
      rules g !! j = Some rule -> settled g st -> full g st ->
      rule_shallow fuel g st j = Ok (st', s) ->
      marked g st st'
      \/ (settled g st' /\ full g st'
          /\ forall x, first g (Alt (rule_seqs rule)) x -> x ∈ s)).
Proof.
  intros Hg. induction fuel as [|fuel [IHn IHr]]; [split; intros; discriminate|].
  assert (Hframe : forall r p st k n st' s,
    shallow fuel g st r (k :: p) n = Ok (st', s) -> frame st st' r (k :: p)).
  { intros r p st k n st' s Hv. eapply (proj1 (shallow_frame g fuel)), Hv. }
  assert (Hkid : forall r p n st k c st' s,
    wf n = true ->
    kids n !! k = Some c -> settled g st -> full g st ->
    (1 <= recursed_of st r)%nat ->
    blank st r (k :: p) -> shallow fuel g st r (k :: p) c = Ok (st', s) ->
    marked g st st'
    \/ (settled g st' /\ full g st' /\ forall x, first g c x -> x ∈ s)).
  { intros r p n st1 k c st2 s2 Hwf Hk Hset1 Hfull1 Hbusy1 Hblank1 Hv.
    eapply IHn; [|exact Hset1|exact Hfull1|exact Hbusy1|exact Hblank1|exact Hv].
    eapply wf_kid; [exact Hwf|exact Hk]. }
  assert (Halt : forall st r p n st' s,
    wf n = true -> is_container n = true -> is_seq n = false ->
    settled g st -> full g st -> (1 <= recursed_of st r)%nat -> blank st r p ->
    alt_shallow (fun st k n => shallow fuel g st r (k :: p) n) (IdNode r p) st
      (kids n) = Ok (st', s) ->
    marked g st st' \/ (full g st' /\ forall x, first g n x -> x ∈ s)).
  { intros st r p n st' s Hwf Hc Hs Hset Hfull Hbusy Hblank H.
    exact (alt_shallow_full g (fun st k n => shallow fuel g st r (k :: p) n)
             r p (kids n) (Hframe r p)
             (fun st k c st' s => Hkid r p n st k c st' s Hwf) n st st' s
             Hc Hs eq_refl Hset Hfull Hbusy Hblank H). }
  split.
  - intros st r p n st' s Hwf Hset Hfull Hbusy Hblank H.
    destruct (proj1 (shallow_safe g (S fuel) Hg) st r p n st' s Hwf Hset Hbusy
                Hblank H) as [Hm|(Hset' & _)]; [left; exact Hm|].
    cbn [shallow] in H.
    destruct n as [name|name|name|nodes t|seqs|seqs|seqs].
    + injection H as <- <-. right. split; [exact Hset|]. split; [exact Hfull|].
      intros x Hx. apply (first_leaf_inv g (Lit name)) in Hx.
      by apply elem_of_singleton.
    + injection H as <- <-. right. split; [exact Hset|]. split; [exact Hfull|].
      intros x Hx. apply (first_leaf_inv g (Token name)) in Hx.
      by apply elem_of_singleton.
    + destruct (nt_rule g name) as [j|] eqn:Hj; [|discriminate].
      destruct (rules g !! j) as [rule|] eqn:Hrule.
      * destruct (IHr _ _ _ _ _ Hrule Hset Hfull H) as [Hm|(H1 & H2 & H3)]; clear H;
          [left; exact Hm|].
        right. split; [exact H1|]. split; [exact H2|].
        intros x (j' & rule' & Hj' & Hrule' & Hx)%first_nt_inv.
        assert (j' = j) as -> by congruence.
        assert (rule' = rule) as -> by congruence. by apply H3.
      * destruct fuel as [|fuel']; [discriminate H|]. cbn [rule_shallow] in H.
        rewrite Hrule in H. discriminate H.
    + rewrite (Hblank p (below_refl p)) in H.
      replace (nonempty ∅) with false in H
        by (symmetry; apply nonempty_false; reflexivity).
      destruct (seq_shallow_full g (fun st k n => shallow fuel g st r (k :: p) n)
                  r p nodes (Hframe r p)
                  (fun st k c st' s => Hkid r p (Seq nodes t) st k c st' s Hwf)
                  t st st' s Hset Hfull Hbusy Hblank H) as [Hm|[H1 H2]]; clear H;
        [left; exact Hm|right; split; [exact Hset'|split; [exact H1|exact H2]]].
    + destruct (Halt st r p (Alt seqs) st' s Hwf eq_refl eq_refl Hset Hfull Hbusy
                  Hblank H) as [Hm|[H1 H2]]; clear H;
        [left; exact Hm|right; split; [exact Hset'|split; [exact H1|exact H2]]].
    + destruct (Halt st r p (Opt seqs) st' s Hwf eq_refl eq_refl Hset Hfull Hbusy
                  Hblank H) as [Hm|[H1 H2]]; clear H;
        [left; exact Hm|right; split; [exact Hset'|split; [exact H1|exact H2]]].
    + destruct (Halt st r p (Some_ seqs) st' s Hwf eq_refl eq_refl Hset Hfull Hbusy
                  Hblank H) as [Hm|[H1 H2]]; clear H;
        [left; exact Hm|right; split; [exact Hset'|split; [exact H1|exact H2]]].
  - intros st j rule st' s Hj Hset Hfull H.
    destruct (proj2 (shallow_safe g (S fuel) Hg) st j st' s Hset H)
      as [Hm|(Hset' & _)]; [left; exact Hm|].
    cbn [rule_shallow] in H. rewrite Hj in H.
    pose proof (lookup_lt_Some _ _ _ Hj) as Hlt.
    destruct (Nat.eqb_spec (recursed_of st j) 0) as [Hc|Hc]; cbn [negb] in H.
    + apply bind_Ok in H as ([st2 s2] & Ha & H). injection H as <- <-.
      rewrite Hc in Ha.
      set (st1 := set_recursed j 1 st) in *.
      assert (Hset1 : settled g st1).
      { apply settled_set_recursed; [exact Hset|lia]. }
      assert (Hfull1 : full g st1).
      { apply full_set_recursed; [exact Hfull|lia]. }
      assert (Hb1 : (1 <= recursed_of st1 j)%nat).
      { unfold st1. rewrite recursed_of_set. rewrite decide_True by reflexivity. lia. }
      assert (Hsame : forall k, k <> j -> recursed_of st1 k = recursed_of st k).
      { intros k Hk. unfold st1. rewrite recursed_of_set.
        by rewrite decide_False. }
      set (st3 := import_expect (IdNode j []) s2 st2).
      assert (Hfin : forall k,
        recursed_of (set_recursed j (recursed_of st3 j - 1) st3) k
        = if decide (j = k) then (recursed_of st2 j - 1)%nat else recursed_of st2 k).
      { intros k. rewrite recursed_of_set. reflexivity. }
      assert (Hmark : marked g st1 st2 ->
        marked g st (set_recursed j (recursed_of st3 j - 1) st3)).
      { intros (k & Hk & Hlt'). exists k. split; [exact Hk|]. rewrite Hfin.
        case_decide; [subst; lia|]. rewrite <- Hsame; [lia|congruence]. }
      assert (Hdone : full g st2 -> (1 <= recursed_of st2 j)%nat ->
        (forall x, first g (Alt (rule_seqs rule)) x -> x ∈ s2) ->
        full g (set_recursed j (recursed_of st3 j - 1) st3)
        /\ forall x, first g (Alt (rule_seqs rule)) x ->
             x ∈ expect_of st3 (IdNode j [])).
      { intros H1 H2 H3.
        assert (H4 : forall x, first g (Alt (rule_seqs rule)) x ->
                       x ∈ expect_of st2 (IdNode j []) ∪ s2).
        { intros x Hx. apply elem_of_union_r. by apply H3. }
        split.
        - apply full_done; [exact H1|exact H2|].
          intros rule' x Hrule'. assert (rule' = rule) as -> by congruence.
          apply H4.
        - unfold st3. intros x Hx. rewrite expect_of_import_eq. by apply H4. }
      destruct (decide (expect_of st (IdNode j []) = ∅)) as [He|He].
      * destruct (Hset j Hlt Hc) as [Hblank _]. specialize (Hblank He).
        pose proof (alt_shallow_frame _ j [] _ _ _ _ (Hframe j []) Ha) as HF.
        destruct (Halt st1 j [] (Alt (rule_seqs rule)) st2 s2 (wf_rule g j rule Hg Hj)
                    eq_refl eq_refl Hset1 Hfull1 Hb1 Hblank Ha)
          as [Hm|(H1 & H2)]; clear Ha.
        -- left. apply Hmark. exact Hm.
        -- right. split; [exact Hset'|]. apply Hdone; [exact H1| |exact H2].
           eapply frame_busy; [exact HF|exact Hb1].
      * unfold alt_shallow in Ha.
        change (expect_of st1 (IdNode j [])) with (expect_of st (IdNode j [])) in Ha.
        replace (nonempty (expect_of st (IdNode j []))) with true in Ha
          by (symmetry; apply nonempty_true; exact He).
        injection Ha as <- <-. right. split; [exact Hset'|].
        apply Hdone; [exact Hfull1|lia|].
        intros x Hx. eapply Hfull; [exact Hj|exact Hc|exact He|exact Hx].
    + injection H as <- <-. left. exists j. split; [exact Hlt|].
      rewrite recursed_of_set. rewrite decide_True by reflexivity. lia.
Qed.


Lemma rule_shallow_Some (g : Grammar) (fuel : nat) (st : state) (j : nat)
    (x : state * gset string) :
  rule_shallow fuel g st j = Ok x -> exists rule, rules g !! j = Some rule.
Proof.
  destruct fuel as [|fuel]; [discriminate|]. cbn [rule_shallow].
  destruct (rules g !! j) as [rule|]; [by exists rule|discriminate].
Qed.

Lemma shallow_rules_full (g : Grammar) (fuel : nat) (rs : list Rule) :
  wf_grammar g = true ->
  forall st j st',
    settled g st -> full g st -> shallow_rules fuel g st j rs = Ok st' ->
    marked g st st' \/ (settled g st' /\ full g st').
Proof.
  intros Hg. induction rs as [|rule rs IH]; intros st j st' Hset Hfull H;
    cbn [shallow_rules] in H.
  - injection H as <-. right. by split.
  - apply bind_Ok in H as ([st1 s1] & Hr & H).
    pose proof (shallow_rules_grows _ _ _ _ _ _ H) as Hgrow.
    pose proof (proj2 (shallow_frame g fuel) _ _ _ _ Hr) as [Hgrow1 _].
    destruct (rule_shallow_Some _ _ _ _ _ Hr) as [rule' Hj].
    destruct (proj2 (shallow_full g fuel Hg) _ _ _ _ _ Hj Hset Hfull Hr)
      as [Hm|(H1 & H2 & _)]; clear Hr.
    { left. eapply marked_grows_r; [exact Hm|exact Hgrow]. }
    destruct (IH _ _ _ H1 H2 H) as [Hm|H3]; clear H.
    { left. eapply marked_grows_l; [exact Hgrow1|exact Hm]. }
    right. exact H3.
Qed.

(** *** [deep] completes every node *)

Lemma roots_grows (g : Grammar) (st st' : state) :
  roots g st -> grows st st' -> roots g st'.
Proof. intros H [He _] j rule x Hj Hx. apply He. by eapply H. Qed.

Lemma below_complete_grows (g : Grammar) (st st' : state) (r : nat)
    (p : list nat) :
  below_complete g st r p -> grows st st' -> below_complete g st' r p.
Proof. intros H [He _] p' n Hp Hn Hc x Hx. apply He. by eapply H. Qed.

Lemma done_but_grows (g : Grammar) (busy : gset nat) (st st' : state) :
  done_but g busy st -> grows st st' -> reached st' = reached st ->
  done_but g busy st'.
Proof.
  intros H Hg Hr k Hk Hb. rewrite Hr in Hk.
  eapply below_complete_grows; [by apply H|exact Hg].
Qed.

Lemma node_at_app (g : Grammar) (r : nat) (p q : list nat) :
  node_at g r (q ++ p)
  = match node_at g r p with
    | Some n => node_at_path n q
    | None => None
    end.
Proof.
  unfold node_at. destruct (rules g !! r) as [rule|]; [|reflexivity].
  induction q as [|k q IH]; cbn.
  - by destruct (node_at_path (Alt (rule_seqs rule)) p).
  - rewrite IH. by destruct (node_at_path (Alt (rule_seqs rule)) p).
Qed.

Lemma below_cases (p p' : list nat) :
  below p p' -> p' = p \/ exists k, below (k :: p) p'.
Proof.
  intros [q ->]. destruct q as [|k q _] using rev_ind; [by left|right].
  exists k, q. by rewrite <- app_assoc.
Qed.

Lemma node_at_below (g : Grammar) (r : nat) (p p' : list nat) (k : nat)
    (n n' : node) :
  node_at g r p = Some n -> below (k :: p) p' -> node_at g r p' = Some n' ->
  exists c, kids n !! k = Some c.
Proof.
  intros Hn [q ->] Hn'. rewrite node_at_app in Hn'.
  destruct (node_at g r (k :: p)) as [c|] eqn:Hc; [|discriminate].
  exists c. unfold node_at in Hn, Hc. destruct (rules g !! r); [|discriminate].
  cbn in Hc. by rewrite Hn in Hc.
Qed.

(** The [expect] sets at and below a node are complete once the node's own
    set and those below its descendants are. *)
Lemma below_complete_node (g : Grammar) (st : state) (r : nat) (p : list nat)
    (n : node) :
  node_at g r p = Some n ->
  (is_container n = true ->
   forall x, first g n x -> x ∈ expect_of st (IdNode r p)) ->
  (forall k c, kids n !! k = Some c -> below_complete g st r (k :: p)) ->
  below_complete g st r p.
Proof.
  intros Hn Hown Hkids p' n' Hp Hn' Hc x Hx.
  destruct (below_cases p p' Hp) as [->|[k Hk]].
  - assert (n' = n) as -> by congruence. by apply Hown.
  - destruct (node_at_below g r p p' k n n' Hn Hk Hn') as [c Hkc].
    by eapply (Hkids k c Hkc).
Qed.

Lemma alt_shallow_result
    (visit : state -> nat -> node -> outcome (state * gset string))
    (i : id) (st : state) (l : list node) (st' : state) (s : gset string) :
  alt_shallow visit i st l = Ok (st', s) -> s = expect_of st' i.
Proof.
  unfold alt_shallow. destruct (nonempty (expect_of st i)); intros H.
  - by injection H as <- <-.
  - apply bind_Ok in H as ([st1 acc] & _ & H). by injection H as <- <-.
Qed.

Lemma alt_shallow_reached (g : Grammar) (fuel : nat) (r : nat) (p : list nat)
    (st : state) (l : list node) (st' : state) (s : gset string) :
  alt_shallow (fun st k n => shallow fuel g st r (k :: p) n) (IdNode r p) st l
    = Ok (st', s) ->
  reached st' = reached st.
Proof.
  unfold alt_shallow. destruct (nonempty (expect_of st (IdNode r p))); intros H.
  - by injection H as <- <-.
  - apply bind_Ok in H as ([st1 acc] & Hu & H). injection H as <- <-. cbn.
    apply (alt_union_inv _ _ (fun st1 _ _ => reached st1 = reached st)
             _ _ _ _ _ Hu); [reflexivity|].
    intros m n st2 acc2 st3 s3 _ HP Hv. rewrite <- HP.
    eapply (proj1 (shallow_reached g fuel)), Hv.
Qed.

Section Deep.
Variable g : Grammar.
Variable busy : gset nat.
Variable visit : state -> nat -> node -> outcome (state * gset string).
Variable r : nat.
Variable p : list nat.

Lemma alt_union_done (l : list node) (st st' : state) (acc : gset string) :
  (forall st m c st' s,
      l !! m = Some c -> roots g st -> done_but g busy st ->
      visit st m c = Ok (st', s) ->
      grows st st' /\ done_but g busy st'
      /\ (forall x, first g c x -> x ∈ s) /\ below_complete g st' r (m :: p)) ->
  roots g st -> done_but g busy st ->
  alt_union visit st 0 ∅ l = Ok (st', acc) ->
  grows st st' /\ done_but g busy st'
  /\ forall m c, l !! m = Some c ->
       (forall x, first g c x -> x ∈ acc) /\ below_complete g st' r (m :: p).
Proof.
  intros Hvisit Hroots Hdone H.
  pose (P := fun (st1 : state) (m : nat) (acc1 : gset string) =>
    grows st st1 /\ done_but g busy st1
    /\ forall m' c, (m' < m)%nat -> l !! m' = Some c ->
         (forall x, first g c x -> x ∈ acc1) /\ below_complete g st1 r (m' :: p)).
  assert (HP : P st' (length l) acc).
  { apply (alt_union_inv visit l P _ _ _ _ _ H).
    - split; [reflexivity|]. split; [exact Hdone|]. intros; lia.
    - intros m c st1 acc1 st2 s Hm (HG & HD & Hacc) Hv. cbn in Hv.
      destruct (Hvisit _ _ _ _ _ Hm (roots_grows _ _ _ Hroots HG) HD Hv)
        as (HG2 & HD2 & Hs & Hb).
      split; [by etrans|]. split; [exact HD2|].
      intros m' c' Hlt Hm'. destruct (decide (m' = m)) as [->|Hne].
      + assert (c' = c) as -> by congruence. split; [|exact Hb].
        intros x Hx. apply elem_of_union_r. by apply Hs.
      + destruct (Hacc m' c') as [H1 H2]; [lia|exact Hm'|]. split.
        * intros x Hx. apply elem_of_union_l. by apply H1.
        * eapply below_complete_grows; [exact H2|exact HG2]. }
  destruct HP as (HG & HD & Hacc). split; [exact HG|]. split; [exact HD|].
  intros m c Hm. apply Hacc; [|exact Hm]. by eapply lookup_lt_Some.
Qed.

End Deep.

Lemma seq_deep_done (g : Grammar) (busy : gset nat)
    (visit : state -> nat -> node -> outcome (state * gset string))
    (r : nat) (p : list nat) (l : list node) :
  forall k st st' s,
    (forall st m c st' s,
        l !! m = Some c -> roots g st -> done_but g busy st ->
        visit st (k + m)%nat c = Ok (st', s) ->
        grows st st' /\ done_but g busy st'
        /\ (forall x, first g c x -> x ∈ s)
        /\ below_complete g st' r ((k + m)%nat :: p)) ->
    roots g st -> done_but g busy st ->
    seq_deep visit st k l = Ok (st', s) ->
    grows st st' /\ done_but g busy st'
    /\ (forall m c x, l !! m = Some c ->
          (forall m', (m' < m)%nat ->
             exists n', l !! m' = Some n' /\ is_opt n' = true) ->
          first g c x -> x ∈ s)
    /\ (forall m c, l !! m = Some c ->
          below_complete g st' r ((k + m)%nat :: p)).
Proof.
  induction l as [|c l IH]; intros k st st' s Hvisit Hroots Hdone H;
    cbn [seq_deep] in H.
  - injection H as <- <-. split; [reflexivity|]. split; [exact Hdone|].
    split; intros; discriminate.
  - apply bind_Ok in H as ([st1 after] & Hd & H).
    apply bind_Ok in H as ([st2 s2] & Hv & H). injection H as <- <-.
    destruct (IH (S k) st st1 after) as (HG1 & HD1 & Hafter & Hb1);
      [|exact Hroots|exact Hdone|exact Hd|].
    { intros st3 m c' st4 s4 Hm Hr3 Hd3 Hv3.
      replace (S k + m)%nat with (k + S m)%nat in * by lia.
      by apply (Hvisit st3 (S m) c' st4 s4). }
    destruct (Hvisit st1 0%nat c st2 s2 eq_refl (roots_grows _ _ _ Hroots HG1) HD1)
      as (HG2 & HD2 & Hs2 & Hb2).
    { by rewrite Nat.add_0_r. }
    split; [by etrans|]. split; [exact HD2|]. split.
    + intros [|m] c' x Hm Hopts Hx.
      * injection Hm as <-. destruct (is_opt c); [apply elem_of_union_r|];
          by apply Hs2.
      * destruct (Hopts 0%nat) as (n' & [= <-] & ->); [lia|].
        apply elem_of_union_l. eapply (Hafter m c' x Hm); [|exact Hx].
        intros m' Hlt. apply (Hopts (S m')). lia.
    + intros [|m] c' Hm.
      * exact Hb2.
      * replace (k + S m)%nat with (S k + m)%nat by lia.
        eapply below_complete_grows; [by eapply Hb1|exact HG2].
Qed.

Lemma deep_done (g : Grammar) (fuel : nat) :
  (forall busy st r p n st' s,
      node_at g r p = Some n -> roots g st -> done_but g busy st ->
      deep fuel g st r p n = Ok (st', s) ->
      done_but g busy st' /\ (forall x, first g n x -> x ∈ s)
      /\ below_complete g st' r p)
  /\ (forall busy st j rule st' s,
      rules g !! j = Some rule -> roots g st -> done_but g busy st ->
      rule_deep fuel g st j = Ok (st', s) ->
      done_but g busy st' /\ (forall x, first g (Alt (rule_seqs rule)) x -> x ∈ s)).
Proof.
  induction fuel as [|fuel [IHn IHr]]; [split; intros; discriminate|].
  assert (Hkid : forall busy r p n st k c st' s,
    node_at g r p = Some n -> kids n !! k = Some c ->
    roots g st -> done_but g busy st ->
    deep fuel g st r (k :: p) c = Ok (st', s) ->
    grows st st' /\ done_but g busy st'
    /\ (forall x, first g c x -> x ∈ s) /\ below_complete g st' r (k :: p)).
  { intros busy r p n st k c st' s Hn Hk Hr Hd Hv.
    split; [eapply (proj1 (deep_grows g fuel)), Hv|].
    eapply IHn; [|exact Hr|exact Hd|exact Hv].
    eapply node_at_kid; [exact Hn|exact Hk]. }
  assert (Halt : forall busy st r p n st' s,
    node_at g r p = Some n -> is_container n = true -> is_seq n = false ->
    roots g st -> done_but g busy st ->
    (alt_union (fun st k n => deep fuel g st r (k :: p) n) st 0 ∅ (kids n)
     ≫= fun '(st, acc) =>
          let st := import_expect (IdNode r p) acc st in
          Ok (st, expect_of st (IdNode r p))) = Ok (st', s) ->
    done_but g busy st' /\ (forall x, first g n x -> x ∈ s)
    /\ below_complete g st' r p).
  { intros busy st r p n st' s Hn Hc Hseq Hr Hd H.
    apply bind_Ok in H as ([st1 acc] & Hu & H). injection H as <- <-.
    destruct (alt_union_done g busy (fun st k n => deep fuel g st r (k :: p) n)
                r p (kids n) st st1 acc) as (HG & HD & Hacc);
      [|exact Hr|exact Hd|exact Hu|].
    { intros st2 m c st3 s3 Hm Hr2 Hd2 Hv.
      eapply Hkid; [exact Hn|exact Hm|exact Hr2|exact Hd2|exact Hv]. }
    assert (Hown : forall x, first g n x ->
      x ∈ expect_of (import_expect (IdNode r p) acc st1) (IdNode r p)).
    { intros x Hx. rewrite expect_of_import_eq. apply elem_of_union_r.
      destruct (first_alt_inv g n x Hc Hseq Hx) as (k & c & Hk & Hf).
      by apply (proj1 (Hacc k c Hk)). }
    split; [eapply done_but_grows; [exact HD|apply grows_import|reflexivity]|].
    split; [exact Hown|].
    apply (below_complete_node g _ r p n Hn); [intros _; exact Hown|].
    intros k c Hk. eapply below_complete_grows; [|apply grows_import].
    by apply (proj2 (Hacc k c Hk)). }
  assert (Hleaf : forall st r p n,
    node_at g r p = Some n -> kids n = [] -> is_container n = false ->
    below_complete g st r p).
  { intros st r p n Hn Hk Hc. apply (below_complete_node g st r p n Hn).
    - rewrite Hc. discriminate.
    - intros k c Hkc. rewrite Hk in Hkc. discriminate. }
  split.
  - intros busy st r p n st' s Hn Hr Hd H. cbn [deep] in H.
    destruct n as [name|name|name|nodes t|seqs|seqs|seqs].
    + injection H as <- <-. split; [exact Hd|]. split.
      * intros x Hx. apply (first_leaf_inv g (Lit name)) in Hx.
        by apply elem_of_singleton.
      * by eapply Hleaf.
    + injection H as <- <-. split; [exact Hd|]. split.
      * intros x Hx. apply (first_leaf_inv g (Token name)) in Hx.
        by apply elem_of_singleton.
      * by eapply Hleaf.
    + destruct (nt_rule g name) as [j|] eqn:Hj; [|discriminate].
      destruct (rules g !! j) as [rule|] eqn:Hrule.
      * destruct (IHr _ _ _ _ _ _ Hrule Hr Hd H) as [H1 H2]. split; [exact H1|].
        split; [|by eapply Hleaf].
        intros x (j' & rule' & Hj' & Hrule' & Hx)%first_nt_inv.
        assert (j' = j) as -> by congruence.
        assert (rule' = rule) as -> by congruence. by apply H2.
      * destruct fuel as [|fuel']; [discriminate H|]. cbn [rule_deep] in H.
        rewrite Hrule in H. discriminate H.
    + apply bind_Ok in H as ([st1 acc] & Hsd & H). injection H as <- <-.
      destruct (seq_deep_done g busy (fun st k n => deep fuel g st r (k :: p) n)
                  r p nodes 0%nat st st1 acc) as (HG & HD & Hacc & Hb);
        [|exact Hr|exact Hd|exact Hsd|].
      { intros st2 m c st3 s3 Hm Hr2 Hd2 Hv.
        eapply (Hkid busy r p (Seq nodes t));
          [exact Hn|exact Hm|exact Hr2|exact Hd2|exact Hv]. }
      assert (Hown : forall x, first g (Seq nodes t) x ->
        x ∈ expect_of (import_expect (IdNode r p) acc st1) (IdNode r p)).
      { intros x Hx. rewrite expect_of_import_eq. apply elem_of_union_r.
        destruct (first_seq_inv g nodes t x Hx) as (m & c & Hm & Hf & Hopts).
        by eapply Hacc. }
      split; [eapply done_but_grows; [exact HD|apply grows_import|reflexivity]|].
      split; [exact Hown|].
      apply (below_complete_node g _ r p (Seq nodes t) Hn); [intros _; exact Hown|].
      intros k c Hk. eapply below_complete_grows; [|apply grows_import].
      by apply (Hb k c Hk).
    + exact (Halt busy st r p (Alt seqs) st' s Hn eq_refl eq_refl Hr Hd H).
    + exact (Halt busy st r p (Opt seqs) st' s Hn eq_refl eq_refl Hr Hd H).
    + exact (Halt busy st r p (Some_ seqs) st' s Hn eq_refl eq_refl Hr Hd H).
  - intros busy st j rule st' s Hj Hr Hd H. cbn [rule_deep] in H. rewrite Hj in H.
    pose proof (node_at_root g j rule Hj) as Hroot.
    destruct (bool_decide_reflect (j ∈ reached st)) as [Hin|Hin].
    + pose proof (alt_shallow_result _ _ _ _ _ _ H) as ->.
      pose proof (alt_shallow_reached g fuel j [] _ _ _ _ H) as Hre.
      assert (HG : grows st st').
      { eapply alt_shallow_frame in H; [apply H|].
        intros ????? Hv. eapply (proj1 (shallow_frame g fuel)), Hv. }
      split; [eapply done_but_grows; [exact Hd|exact HG|exact Hre]|].
      intros x Hx. apply (proj1 HG). by eapply Hr.
    + assert (Hd1 : done_but g ({[j]} ∪ busy) (set_reached j st)).
      { intros k Hk Hb. cbn in Hk.
        apply not_elem_of_union in Hb as [Hkj Hb].
        apply elem_of_union in Hk as [Hk|Hk]; [by destruct Hkj|].
        apply (below_complete_grows g st); [by apply Hd|apply grows_set_reached]. }
      assert (Hr1 : roots g (set_reached j st)).
      { eapply roots_grows; [exact Hr|apply grows_set_reached]. }
      destruct (Halt ({[j]} ∪ busy) (set_reached j st) j [] (Alt (rule_seqs rule))
                  st' s Hroot eq_refl eq_refl Hr1 Hd1 H) as (HD & Hs & Hb).
      split; [|exact Hs]. intros k Hk Hkb.
      destruct (decide (k = j)) as [->|Hne]; [exact Hb|].
      apply HD; [exact Hk|]. apply not_elem_of_union. split; [|exact Hkb].
      by apply not_elem_of_singleton.
Qed.

(** After the two passes of [expect()] over a grammar without left
    recursion the [expect] sets of all rules and of their nodes are
    complete. *)
Lemma expect_complete (g : Grammar) (fuel : nat) (st st' : state) :
  wf_grammar g = true -> fresh st -> reached st = ∅ ->
  expect fuel g st = Ok (st', None) ->
  forall r, (r < length (rules g))%nat -> below_complete g st' r [].
Proof.
  intros Hg Hfresh Hre H. unfold expect in H.
  destruct (rules g) as [|r0 rs] eqn:Hrs; [discriminate H|].
  rewrite <- Hrs in H |- *.
  destruct (nonempty (expect_of st (IdNode 0 []))); [discriminate H|].
  destruct (negb (length (levels g) =? 0)%nat); [discriminate H|].
  destruct (length (nts g) <? length (rules g))%nat; [discriminate H|].
  destruct (length (rules g) <? length (nts g))%nat; [discriminate H|].
  apply bind_Ok in H as (st1 & Hsh & H).
  destruct (bool_decide_reflect
    (rule_names g (fun j => negb (recursed_of st1 j =? 0)%nat) = [])) as [Hbad|Hbad];
    cbn [negb] in H; [|discriminate H].
  apply bind_Ok in H as ([st2 s2] & Hdeep & H).
  destruct (bool_decide_reflect
    (rule_names g (fun j => negb (bool_decide (j ∈ reached st2))) = [])) as [Hun|Hun];
    cbn [negb] in H; [|discriminate H].
  injection H as <-.
  assert (Hzero : forall j, (j < length (rules g))%nat -> recursed_of st1 j = 0%nat).
  { intros j Hj. apply (proj1 (rule_names_nil g _) Hbad) in Hj.
    apply negb_false_iff in Hj. by apply Nat.eqb_eq in Hj. }
  assert (Hunmarked : ~ marked g st st1).
  { intros (k & Hk & Hlt). rewrite (Hzero k Hk) in Hlt. lia. }
  assert (Hfull0 : full g st).
  { intros r rule _ _ Hne. destruct Hne. by apply fresh_expect. }
  destruct (shallow_rules_safe g fuel (rules g) Hg _ _ _ (fresh_settled g st Hfresh) Hsh)
    as [Hm|[_ Hsafe]]; [by destruct Hunmarked|].
  destruct (shallow_rules_full g fuel (rules g) Hg _ _ _ (fresh_settled g st Hfresh)
              Hfull0 Hsh) as [Hm|[_ Hfull1]]; [by destruct Hunmarked|].
  assert (Hroots : roots g st1).
  { intros j rule x Hj Hx. pose proof (lookup_lt_Some _ _ _ Hj) as Hlt.
    eapply Hfull1; [exact Hj|by apply Hzero| |exact Hx]. apply Hsafe. lia. }
  assert (Hd1 : done_but g ∅ st1).
  { intros k Hk. apply shallow_rules_reached in Hsh. rewrite Hsh, Hre in Hk.
    by apply elem_of_empty in Hk. }
  assert (Hr0 : rules g !! 0%nat = Some r0) by (by rewrite Hrs).
  destruct (proj2 (deep_done g fuel) ∅ st1 0%nat r0 st2 s2 Hr0 Hroots Hd1 Hdeep)
    as [Hd2 _].
  intros r Hr. apply Hd2; [|apply not_elem_of_empty].
  apply (proj1 (rule_names_nil g _) Hun) in Hr.
  apply negb_false_iff, bool_decide_eq_true in Hr. exact Hr.
Qed.

(** X5.  Let the grammar be built by the factory methods and not analysed
    yet.  If [expect()] returns without an error message, the [expect] set
    of every rule and of every sequence, [Alt], [Opt] and [Some] in a rule
    consists of exactly the terminals that stand at its beginning by the
    structure of the grammar, as [first] defines it: the name of a literal
    or token itself, for a non-terminal what its rule begins with, for a
    sequence what an element begins with that has only optional elements
    before it, and for a rule, an [Alt], an [Opt] and a [Some] what one of
    the alternatives begins with. *)
Theorem expect_first_sets (g : Grammar) (fuel : nat) (st st' : state) :
  wf_grammar g = true -> fresh st -> reached st = ∅ ->
  expect fuel g st = Ok (st', None) ->
  forall r p n x,
    node_at g r p = Some n -> is_container n = true ->
    (x ∈ expect_of st' (IdNode r p) <-> first g n x).
Proof.
  intros Hg Hfresh Hre H r p n x Hn Hc. split.
  - intros Hx. eapply (expect_keeps_sound g fuel st st' None); [|exact H|exact Hn|exact Hx].
    intros r' p' n' x' _ Hx'. rewrite (fresh_expect st _ Hfresh) in Hx'.
    by apply elem_of_empty in Hx'.
  - intros Hx.
    assert (Hr : (r < length (rules g))%nat).
    { unfold node_at in Hn. destruct (rules g !! r) eqn:E; [|discriminate].
      by eapply lookup_lt_Some. }
    eapply (expect_complete g fuel st st' Hg Hfresh Hre H r Hr);
      [|exact Hn|exact Hc|exact Hx].
    exists p. by rewrite app_nil_r.
Qed.

Lemma expect_first_sets_witness :
  expect 20 chain_grammar (new_state 0) = Ok (chain_state, None)
  /\ forall r p n x,
       node_at chain_grammar r p = Some n -> is_container n = true ->
       (x ∈ expect_of chain_state (IdNode r p) <-> first chain_grammar n x).
Proof.
  assert (H : expect 20 chain_grammar (new_state 0) = Ok (chain_state, None))
    by (vm_compute; reflexivity).
  split; [exact H|].
  apply (expect_first_sets chain_grammar 20 (new_state 0) chain_state);
    [reflexivity|split; reflexivity|reflexivity|exact H].
Defined.

End FirstComplete.

Module Again.
Import EBNF EBNFFacts.

(** Without an error message the first rule expects something. *)
Lemma expect_nonempty (g : Grammar) (fuel : nat) (st st' : state) :
  wf_grammar g = true -> fresh st ->
  expect fuel g st = Ok (st', None) ->
  rules g <> [] /\ expect_of st' (IdNode 0 []) <> ∅.
Proof.
  intros Hg Hfresh H. unfold expect in H.
  destruct (rules g) as [|r0 rs] eqn:Hrs; [discriminate H|].
  split; [discriminate|].
  rewrite <- Hrs in H.
  destruct (nonempty (expect_of st (IdNode 0 []))); [discriminate H|].
  destruct (negb (length (levels g) =? 0)%nat); [discriminate H|].
  destruct (length (nts g) <? length (rules g))%nat; [discriminate H|].
  destruct (length (rules g) <? length (nts g))%nat; [discriminate H|].
  apply bind_Ok in H as (st1 & Hsh & H).
  destruct (bool_decide_reflect
    (rule_names g (fun j => negb (recursed_of st1 j =? 0)%nat) = [])) as [Hbad|Hbad];
    cbn [negb] in H; [|discriminate H].
  apply bind_Ok in H as ([st2 s2] & Hdeep & H).
  destruct (negb (bool_decide
    (rule_names g (fun j => negb (bool_decide (j ∈ reached st2))) = [])));
    [discriminate H|]. injection H as <-.
  apply (proj2 (deep_grows g fuel)) in Hdeep.
  assert (Hlen : (0 < length (rules g))%nat) by (rewrite Hrs; cbn; lia).
  destruct (shallow_rules_safe g fuel (rules g) Hg _ _ _ (fresh_settled g st Hfresh) Hsh)
    as [(k & Hk & Hlt)|[_ Hsafe]]; clear Hsh.
  { apply (proj1 (rule_names_nil g _) Hbad) in Hk.
    apply negb_false_iff in Hk. apply Nat.eqb_eq in Hk. lia. }
  eapply grows_nonempty; [exact Hdeep|]. apply Hsafe. lia.
Qed.

(** X6.  [expect()] can only be called once: after it has accepted a
    grammar, built by the factory methods and not analysed before, every
    further call counts an error and reports "already called", and changes
    nothing else. *)
Theorem expect_only_once (g : Grammar) (fuel fuel' : nat) (st st' : state) :
  wf_grammar g = true -> fresh st ->
  expect fuel g st = Ok (st', None) ->
  expect fuel' g st' = Ok (error AlreadyCalled st', Some AlreadyCalled).
Proof.
  intros Hg Hfresh H.
  destruct (expect_nonempty g fuel st st' Hg Hfresh H) as [Hrules Hne].
  unfold expect. destruct (rules g) as [|r0 rs]; [by destruct Hrules|].
  replace (nonempty (expect_of st' (IdNode 0 []))) with true
    by (symmetry; apply nonempty_true; exact Hne).
  reflexivity.
Qed.

Lemma expect_only_once_witness :
  expect 8 small_grammar (new_state 0) = Ok (small_state, None)
  /\ expect 1 small_grammar small_state
     = Ok (error AlreadyCalled small_state, Some AlreadyCalled).
Proof.
  assert (H : expect 8 small_grammar (new_state 0) = Ok (small_state, None))
    by (vm_compute; reflexivity).
  split; [exact H|].
  apply (expect_only_once small_grammar 8 1 (new_state 0) small_state);
    [reflexivity|split; reflexivity|exact H].
Defined.

(** *** [follow] keeps the sets it has made *)

Lemma import_follow_keys (i i' : id) (s : gset string) (st : state) :
  is_Some (follows st !! i') -> is_Some (follows (import_follow i s st) !! i').
Proof.
  intros H. cbn. destruct (decide (i = i')) as [->|Hne].
  - rewrite lookup_insert_eq. by eexists.
  - by rewrite lookup_insert_ne.
Qed.

Lemma import_follow_key (i : id) (s : gset string) (st : state) :
  is_Some (follows (import_follow i s st) !! i).
Proof. cbn. rewrite lookup_insert_eq. by eexists. Qed.

Lemma alt_follow_keys (visit : state -> nat -> node -> gset string -> outcome state)
    (l : list node) (inc : gset string) (i : id) :
  (forall st k n inc st', visit st k n inc = Ok st' ->
     is_Some (follows st !! i) -> is_Some (follows st' !! i)) ->
  forall st k st', alt_follow visit st k l inc = Ok st' ->
    is_Some (follows st !! i) -> is_Some (follows st' !! i).
Proof.
  intros Hvisit. induction l as [|n l IH]; intros st k st' H Hi; cbn [alt_follow] in H.
  - by injection H as <-.
  - apply bind_Ok in H as (st1 & Hv & H).
    eapply IH; [exact H|]. eapply Hvisit; [exact Hv|exact Hi].
Qed.

Lemma seq_follow_keys (visit : state -> nat -> node -> gset string -> outcome state)
    (expect : state -> nat -> node -> outcome (gset string))
    (l : list node) (inc : gset string) (i : id) :
  (forall st k n inc st', visit st k n inc = Ok st' ->
     is_Some (follows st !! i) -> is_Some (follows st' !! i)) ->
  forall st k st' f, seq_follow visit expect st k l inc = Ok (st', f) ->
    is_Some (follows st !! i) -> is_Some (follows st' !! i).
Proof.
  intros Hvisit. induction l as [|n l IH]; intros st k st' f H Hi;
    cbn [seq_follow] in H.
  - by injection H as <- <-.
  - apply bind_Ok in H as ([st1 f1] & Hs & H).
    apply bind_Ok in H as (st2 & Hv & H).
    apply bind_Ok in H as (e & _ & H). injection H as <- <-.
    eapply Hvisit; [exact Hv|]. eapply IH; [exact Hs|exact Hi].
Qed.

Lemma follow_keys (g : Grammar) (fuel : nat) (i : id) :
  (forall st r p n inc st', follow fuel g st r p n inc = Ok st' ->
     is_Some (follows st !! i) -> is_Some (follows st' !! i))
  /\ (forall st j inc st', rule_follow fuel g st j inc = Ok st' ->
     is_Some (follows st !! i) -> is_Some (follows st' !! i)).
Proof.
  induction fuel as [|fuel [IHn IHr]]; [split; intros; discriminate|].
  assert (Halt : forall st r p seqs inc st',
    alt_follow (fun st k n inc => follow fuel g st r (k :: p) n inc) st 0 seqs inc
    = Ok st' ->
    is_Some (follows st !! i) -> is_Some (follows st' !! i)).
  { intros st r p seqs inc st' H.
    eapply (alt_follow_keys (fun st k n inc => follow fuel g st r (k :: p) n inc));
      [|exact H].
    intros st1 k n inc1 st2 Hv. exact (IHn _ _ _ _ _ _ Hv). }
  split.
  - intros st r p n inc st' H Hi. cbn [follow] in H.
    destruct n as [name|name|name|nodes t|seqs|seqs|seqs].
    + injection H as <-. by apply import_follow_keys.
    + injection H as <-. by apply import_follow_keys.
    + destruct (nt_rule g name) as [j|]; [|discriminate].
      destruct (follows st !! IdNode j []) as [old|].
      * destruct (bool_decide (inc ⊆ old)); [by injection H as <-|].
        exact (IHr _ _ _ _ H Hi).
      * exact (IHr _ _ _ _ H Hi).
    + apply bind_Ok in H as ([st1 f] & Hs & H). injection H as <-.
      eapply (seq_follow_keys
                (fun st k n inc => follow fuel g st r (k :: p) n inc)) in Hs;
        [exact Hs| |by apply import_follow_keys].
      intros st2 k n inc1 st3 Hv. exact (IHn _ _ _ _ _ _ Hv).
    + eapply Halt; [exact H|by apply import_follow_keys].
    + eapply Halt; [exact H|by apply import_follow_keys].
    + eapply Halt; [exact H|by apply import_follow_keys].
  - intros st j inc st' H Hi. cbn [rule_follow] in H.
    destruct (rules g !! j) as [rule|]; [|discriminate].
    eapply Halt; [exact H|by apply import_follow_keys].
Qed.

Lemma rule_follow_key (g : Grammar) (fuel : nat) (st : state) (j : nat)
    (inc : gset string) (st' : state) :
  rule_follow fuel g st j inc = Ok st' -> is_Some (follows st' !! IdNode j []).
Proof.
  destruct fuel as [|fuel]; [discriminate|]. cbn [rule_follow].
  destruct (rules g !! j) as [rule|]; [|discriminate]. intros H.
  eapply (alt_follow_keys (fun st k n inc => follow fuel g st j [k] n inc));
    [|exact H|apply import_follow_key].
  intros st1 k n inc1 st2 Hv. exact (proj1 (follow_keys g fuel _) _ _ _ _ _ _ Hv).
Qed.

(** X7.  [check()] can be called again: after it has accepted a grammar,
    built by the factory methods and not analysed before, a further call
    computes no set again, repeats the ambiguity tests, returns without a
    message and leaves the grammar as it is. *)
Theorem check_again (g : Grammar) (fuel fuel' : nat) (st st' : state) :
  wf_grammar g = true -> fresh st -> errors st = 0%nat ->
  check fuel g st = Ok (st', None) ->
  check fuel' g st' = Ok (st', None).
Proof.
  intros Hg Hfresh Herr H. unfold check in H |- *.
  destruct (rules g) as [|r0 rs] eqn:Hrs; [discriminate H|].
  rewrite <- Hrs in H |- *. clear Hrs r0 rs.
  rewrite (fresh_expect st _ Hfresh) in H.
  replace (nonempty ∅) with false in H
    by (symmetry; apply nonempty_false; reflexivity).
  apply bind_Ok in H as ([st1 e] & Hexp & H).
  destruct e as [msg|]; [discriminate H|].
  destruct (expect_nonempty g fuel st st1 Hg Hfresh Hexp) as [_ Hne].
  destruct (expect_covered g fuel st st1 Hg (fresh_covered g st Hfresh) Hexp)
    as (_ & Herr1 & _); clear Hexp.
  apply bind_Ok in H as (st2 & Hfol & H).
  assert (Hkeep : expects st2 = expects st1 /\ errors st2 = errors st1
                  /\ is_Some (follows st2 !! IdNode 0 [])).
  { destruct (follows st1 !! IdNode 0 []) as [f|] eqn:Hf.
    - injection Hfol as <-. rewrite Hf. split; [done|]. split; [done|by eexists].
    - destruct (proj2 (follow_keeps g fuel) _ _ _ _ Hfol) as [E1 E2].
      split; [exact E1|]. split; [exact E2|]. by eapply rule_follow_key. }
  clear Hfol. destruct Hkeep as (Hexp2 & Herr2 & [f Hkey]).
  assert (Hz2 : errors st2 = 0%nat) by congruence.
  rewrite Hz2 in H. cbn [Nat.eqb negb] in H.
  apply bind_Ok in H as ([st3 count] & Hck & H).
  destruct (check_rules_spec g (rules g) Hg st2 0%nat 0%nat st3 count
              (fun m rule Hm => Hm) Hck) as (_ & _ & Hpass).
  destruct (Nat.eqb_spec count 0) as [Hz|Hcount]; cbn [negb] in H;
    [|discriminate H]. injection H as <-.
  destruct (Hpass Hz) as [-> _]. subst count.
  replace (nonempty (expect_of st2 (IdNode 0 []))) with true.
  2:{ symmetry. apply nonempty_true. unfold expect_of. rewrite Hexp2. exact Hne. }
  cbn. rewrite Hkey. cbn. rewrite Hz2. cbn [Nat.eqb negb].
  rewrite Hck. reflexivity.
Qed.

Lemma check_again_witness :
  check 8 small_grammar (new_state 0) = Ok (small_checked, None)
  /\ check 1 small_grammar small_checked = Ok (small_checked, None).
Proof.
  assert (H : check 8 small_grammar (new_state 0) = Ok (small_checked, None))
    by (vm_compute; reflexivity).
  split; [exact H|].
  apply (check_again small_grammar 8 1 (new_state 0) small_checked);
    [reflexivity|split; reflexivity|reflexivity|exact H].
Defined.

End Again.

Module ParserFacts.
Import EBNF EBNFFacts.

#[local] Open Scope Z_scope.

Lemma bind_PReturn {A B} (m : presult A) (f : A -> presult B) (b : B) :
  m ≫= f = PReturn b -> exists a, m = PReturn a /\ f a = PReturn b.
Proof. destruct m; cbn; [eauto|done|done]. Qed.

(** *** Reading the input *)

Lemma remaining_step (ps : Parser) (rs : list string) (e : nat) :
  -1 <= index ps ->
  remaining ps = here ps ++ remaining (mkParser (tuples ps) (index ps + 1) rs e).
Proof.
  intros Hi. unfold remaining, here, current. cbn [tuples index].
  destruct (Z.leb_spec 0 (index ps)) as [H0|H0].
  - replace (Z.to_nat (index ps + 1)) with (S (Z.to_nat (index ps))) by lia.
    destruct (tuples ps !! Z.to_nat (index ps)) as [x|] eqn:Hx.
    + rewrite (drop_S _ _ _ Hx). cbn. destruct x as [tu|]; cbn; [|reflexivity].
      by destruct (tuple_t tu).
    + apply lookup_ge_None in Hx. rewrite !drop_ge by lia. reflexivity.
  - by replace (index ps) with (-1) by lia.
Qed.

Lemma remaining_push (ts : list (option Tuple)) (i : Z) (rs : list string) (e : nat) :
  i <= Z.of_nat (length ts) ->
  remaining (mkParser (ts ++ [None]) i rs e) = remaining (mkParser ts i rs e).
Proof.
  intros Hi. unfold remaining. cbn [tuples index].
  rewrite drop_app_le by lia. rewrite omap_app. cbn. by rewrite app_nil_r.
Qed.

Lemma current_push (ts : list (option Tuple)) (i : Z) (rs : list string) (e : nat) :
  i < Z.of_nat (length ts) ->
  current (mkParser (ts ++ [None]) i rs e) = current (mkParser ts i rs e).
Proof.
  intros Hi. unfold current. cbn [tuples index].
  destruct (0 <=? i) eqn:H0; [|reflexivity].
  apply Z.leb_le in H0. rewrite lookup_app_l by lia. reflexivity.
Qed.

Lemma here_illegal (ps : Parser) (tu : Tuple) :
  current ps = Some tu -> tuple_t tu = None -> here ps = [].
Proof. unfold here. intros -> ->. reflexivity. Qed.

(** At the end of the input nothing remains. *)
Lemma end_of_input (ps : Parser) :
  parser_ok ps -> 0 <= index ps -> current ps = None -> remaining ps = [].
Proof.
  intros [(scanned & tl & Ht & Htl & _) Hi] H0 Hc. unfold remaining, current in *.
  destruct (Z.leb_spec 0 (index ps)); [|lia].
  destruct (tuples ps !! Z.to_nat (index ps)) as [x|] eqn:Hx.
  - cbn in Hc. subst x. rewrite Ht in Hx |- *.
    destruct (decide (Z.to_nat (index ps) < length scanned)%nat) as [Hlt|Hge].
    + rewrite lookup_app_l in Hx by (by rewrite length_fmap).
      rewrite list_lookup_fmap in Hx.
      destruct (scanned !! Z.to_nat (index ps)); discriminate Hx.
    + rewrite drop_app_ge by (rewrite length_fmap; lia).
      destruct Htl as [->| ->]; [by rewrite drop_nil|].
      by destruct (Z.to_nat (index ps) - length (Some <$> scanned))%nat as [|[|?]].
  - apply lookup_ge_None in Hx. by rewrite drop_ge.
Qed.

(** [next()] passes over the current tuple and over illegal tuples. *)
Lemma next_loop_spec (fuel : nat) :
  forall report ps ps',
    parser_ok ps -> next_loop fuel report ps = PReturn ps' ->
    parser_ok ps' /\ settled_input ps'
    /\ remaining ps = here ps ++ remaining ps'
    /\ ruleStack ps' = ruleStack ps.
Proof.
  induction fuel as [|fuel IH]; intros report ps ps' Hok H; [discriminate H|].
  cbn [next_loop] in H. apply bind_PReturn in H as (ps1 & Hsw & H).
  destruct Hok as [(scanned & tl & Ht & Htl & Hplain) Hi].
  assert (H1 : parser_ok (mkParser (tuples ps1) (index ps1 + 1) (ruleStack ps1)
                            (p_errors ps1))
               /\ remaining ps
                  = here ps ++ remaining (mkParser (tuples ps1) (index ps1 + 1)
                                            (ruleStack ps1) (p_errors ps1))
               /\ ruleStack ps1 = ruleStack ps /\ index ps1 = index ps).
  { destruct (Z.eqb_spec (index ps) (Z.of_nat (length (tuples ps)))) as [E|E];
      [discriminate Hsw|].
    destruct (Z.eqb_spec (index ps) (Z.of_nat (length (tuples ps)) - 1)) as [E1|E1].
    - destruct (current ps) as [tu|] eqn:Hc; [|discriminate Hsw].
      injection Hsw as <-. cbn [tuples index ruleStack p_errors].
      assert (tl = []) as ->.
      { destruct Htl as [->| ->]; [reflexivity|exfalso].
        unfold current in Hc. destruct (0 <=? index ps); [|discriminate Hc].
        rewrite Ht in Hc, E1. rewrite length_app in E1. cbn in E1.
        rewrite lookup_app_r in Hc by lia.
        replace (Z.to_nat (index ps) - length (Some <$> scanned))%nat with 0%nat in Hc
          by lia. discriminate Hc. }
      split; [|split; [|split; reflexivity]].
      + split.
        * exists scanned, [None]. split; [|split; [by right|exact Hplain]].
          rewrite Ht. by rewrite app_nil_r.
        * cbn [tuples index]. rewrite length_app. cbn. lia.
      + rewrite remaining_push by lia.
        apply (remaining_step ps). lia.
    - destruct (Z.leb_spec (index ps) (Z.of_nat (length (tuples ps)))) as [E2|E2];
        [|discriminate Hsw]. injection Hsw as <-.
      split; [|split; [|split; reflexivity]].
      + split; [by exists scanned, tl|]. cbn [tuples index]. lia.
      + apply (remaining_step ps). lia. }
  clear Hsw. destruct H1 as (Hok2 & Hrem & Hrs & Hidx).
  set (ps2 := mkParser (tuples ps1) (index ps1 + 1) (ruleStack ps1) (p_errors ps1)) in *.
  assert (H0 : 0 <= index ps2).
  { unfold ps2. cbn [index]. lia. }
  destruct (current ps2) as [tu|] eqn:Hc.
  - destruct (tuple_t tu) as [name|] eqn:Hname.
    + injection H as <-. split; [exact Hok2|]. split; [|split; [exact Hrem|exact Hrs]].
      split; [exact H0|]. rewrite Hc. by rewrite Hname.
    + set (ps3 := if report
                  then mkParser (tuples ps2) (index ps2) (ruleStack ps2)
                         (S (p_errors ps2))
                  else ps2) in *.
      assert (E3 : tuples ps3 = tuples ps2 /\ index ps3 = index ps2
                   /\ ruleStack ps3 = ruleStack ps2).
      { unfold ps3. by destruct report. }
      destruct E3 as (Et & Ei & Er).
      assert (Hok3 : parser_ok ps3).
      { unfold parser_ok. rewrite Et, Ei. exact Hok2. }
      destruct (IH false ps3 ps' Hok3 H) as (A & B & C & D).
      split; [exact A|]. split; [exact B|]. split; [|rewrite D, Er; exact Hrs].
      rewrite Hrem. f_equal.
      assert (Hrem3 : remaining ps3 = remaining ps2).
      { unfold remaining. by rewrite Et, Ei. }
      assert (Hhere3 : here ps3 = []).
      { apply (here_illegal ps3 tu); [|exact Hname].
        unfold current. rewrite Et, Ei. exact Hc. }
      rewrite <- Hrem3, C, Hhere3. reflexivity.
  - injection H as <-. split; [exact Hok2|]. split; [|split; [exact Hrem|exact Hrs]].
    split; [exact H0|]. by rewrite Hc.
Qed.

Lemma next_spec (ps ps' : Parser) :
  parser_ok ps -> next ps = PReturn ps' ->
  parser_ok ps' /\ settled_input ps'
  /\ remaining ps = here ps ++ remaining ps'
  /\ ruleStack ps' = ruleStack ps.
Proof. apply next_loop_spec. Qed.

Lemma current_plain (ps : Parser) (tu : Tuple) (name : string) :
  parser_ok ps -> current ps = Some tu -> tuple_t tu = Some name ->
  inherited name = false.
Proof.
  intros [(scanned & tl & Ht & Htl & Hplain) _] Hc Hname. unfold current in Hc.
  destruct (0 <=? index ps); [|discriminate Hc].
  destruct (tuples ps !! Z.to_nat (index ps)) as [x|] eqn:Hx; [|discriminate Hc].
  cbn in Hc. subst x. apply list_elem_of_lookup_2 in Hx. rewrite Ht in Hx.
  apply elem_of_app in Hx as [Hx|Hx].
  - apply list_elem_of_fmap in Hx as (tu' & [= <-] & Hin). by eapply Hplain.
  - destruct Htl as [->| ->]; [by apply elem_of_nil in Hx|].
    apply list_elem_of_singleton in Hx. discriminate Hx.
Qed.

Lemma set_match_true (s : gset string) (ps : Parser) :
  parser_ok ps ->
  set_match s (current ps) = PReturn true ->
  exists name, here ps = [name] /\ name ∈ s.
Proof.
  intros Hok. unfold set_match, here.
  destruct (current ps) as [tu|] eqn:Hc; [|discriminate].
  destruct (tuple_t tu) as [name|] eqn:Hname; [|discriminate].
  intros [= H]. rewrite (current_plain ps tu name Hok Hc Hname) in H.
  rewrite orb_false_r in H. apply bool_decide_eq_true in H. by exists name.
Qed.

(** A node that expects the current tuple can be asked to parse. *)
Lemma expected_terminal (g : Grammar) (st : state) (r : nat) (p : list nat)
    (n : node) (e : gset string) (ps : Parser) :
  parser_ok ps ->
  lift (node_expect g st r p n) = PReturn e ->
  set_match e (current ps) = PReturn true ->
  at_terminal n ps.
Proof.
  intros Hok He Hm. destruct (set_match_true e ps Hok Hm) as (name & Hh & Hin).
  destruct n as [name'|name'| | | | |]; try exact I; cbn in He;
    injection He as <-; apply elem_of_singleton in Hin; by subst.
Qed.

(** *** What [parse] consumes is a phrase *)

Lemma terminal_parse_passed (g : Grammar) (n : node) (ps ps' : Parser)
    (v : Js.value) :
  is_container n = false -> (forall name, n <> NT name) ->
  parser_ok ps -> at_terminal n ps ->
  terminal_parse ps = PReturn (ps', v) -> passed g n ps ps'.
Proof.
  intros Hc Hnt Hok Hat H. unfold terminal_parse in H.
  destruct (current ps) as [tu|]; [|discriminate H].
  apply bind_PReturn in H as (ps1 & Hn & H). injection H as <- <-.
  destruct (next_spec ps ps1 Hok Hn) as (A & B & C & _).
  split; [exact A|]. split; [exact B|].
  destruct n as [name|name|name| | | |]; try discriminate Hc.
  - exists [name]. split; [constructor|]. cbn in Hat. by rewrite <- Hat.
  - exists [name]. split; [constructor|]. cbn in Hat. by rewrite <- Hat.
  - by destruct (Hnt name).
Qed.

Section Loops.
Variable g : Grammar.
Variable visit : Parser -> nat -> node -> presult (Parser * Js.value).
Variable expect : nat -> node -> presult (gset string).

Hypothesis visit_passed : forall ps k n ps' v,
  parser_ok ps -> settled_input ps -> at_terminal n ps ->
  visit ps k n = PReturn (ps', v) -> passed g n ps ps'.

Hypothesis expect_terminal : forall k n e ps,
  parser_ok ps ->
  expect k n = PReturn e -> set_match e (current ps) = PReturn true ->
  at_terminal n ps.

Lemma seq_parse_passed (r : nat) (p : list nat) (nodes : list node) :
  forall ps k result ps' l,
    parser_ok ps -> settled_input ps ->
    seq_parse visit expect r p ps k result nodes = PReturn (ps', l) ->
    parser_ok ps' /\ settled_input ps'
    /\ exists tss, Forall2 (phrase g) nodes tss
         /\ remaining ps = concat tss ++ remaining ps'.
Proof.
  induction nodes as [|n nodes IH]; intros ps k result ps' l Hok Hset H;
    cbn [seq_parse] in H.
  - injection H as <- <-. split; [exact Hok|]. split; [exact Hset|].
    exists []. split; [constructor|reflexivity].
  - apply bind_PReturn in H as (e & He & H).
    apply bind_PReturn in H as (m & Hm & H). destruct m.
    + apply bind_PReturn in H as ([ps1 v] & Hv & H).
      destruct (visit_passed _ _ _ _ _ Hok Hset (expect_terminal _ _ _ _ Hok He Hm) Hv)
        as (Hok1 & Hset1 & ts & Hts & Hrem).
      destruct (IH _ _ _ _ _ Hok1 Hset1 H) as (A & B & tss & Htss & Hrem').
      split; [exact A|]. split; [exact B|]. exists (ts :: tss).
      split; [by constructor|]. cbn. rewrite Hrem, Hrem'.
      by rewrite app_assoc.
    + destruct n as [| | | | |seqs|]; try discriminate H. cbn [is_opt] in H.
      destruct (IH _ _ _ _ _ Hok Hset H) as (A & B & tss & Htss & Hrem').
      split; [exact A|]. split; [exact B|]. exists ([] :: tss).
      split; [constructor; [constructor|exact Htss]|]. exact Hrem'.
Qed.

Lemma alt_find_spec (cur : option Tuple) (seqs : list node) :
  forall k k' n,
    alt_find expect cur k seqs = PReturn (Some (k', n)) ->
    exists m e, k' = (k + m)%nat /\ seqs !! m = Some n
      /\ expect k' n = PReturn e /\ set_match e cur = PReturn true.
Proof.
  induction seqs as [|c seqs IH]; intros k k' n H; cbn [alt_find] in H;
    [discriminate H|].
  apply bind_PReturn in H as (e & He & H).
  apply bind_PReturn in H as (m & Hm & H). destruct m.
  - injection H as <- <-. exists 0%nat, e. rewrite Nat.add_0_r. by repeat split.
  - destruct (IH _ _ _ H) as (m & e' & -> & Hl & He' & Hm').
    exists (S m), e'. split; [lia|]. by repeat split.
Qed.

Lemma alt_parse_passed (seqs : list node) (ps ps' : Parser) (v : Js.value) :
  parser_ok ps -> settled_input ps ->
  alt_parse visit expect ps seqs = PReturn (ps', v) ->
  passed g (Alt seqs) ps ps'.
Proof.
  intros Hok Hset H. unfold alt_parse in H.
  apply bind_PReturn in H as (found & Hf & H).
  destruct found as [[k n]|]; [|discriminate H].
  destruct (alt_find_spec _ _ _ _ _ Hf) as (m & e & _ & Hm & He & Hmatch).
  destruct (visit_passed _ _ _ _ _ Hok Hset (expect_terminal _ _ _ _ Hok He Hmatch) H)
    as (A & B & ts & Hts & Hrem).
  split; [exact A|]. split; [exact B|]. exists ts. split; [|exact Hrem].
  eapply phrase_alt; [exact Hm|exact Hts].
Qed.

End Loops.

Lemma some_loop_passed (g : Grammar) (seqs : list node)
    (again : Parser -> presult (Parser * Js.value)) (own : gset string)
    (iter : nat) :
  (forall ps ps' v, parser_ok ps -> settled_input ps ->
     again ps = PReturn (ps', v) -> passed g (Alt seqs) ps ps') ->
  forall ps result ps' l,
    parser_ok ps -> settled_input ps ->
    some_loop iter again own ps result = PReturn (ps', l) ->
    parser_ok ps' /\ settled_input ps'
    /\ exists tss, Forall (phrase g (Alt seqs)) tss
         /\ remaining ps = concat tss ++ remaining ps'.
Proof.
  intros Hagain. induction iter as [|iter IH]; intros ps result ps' l Hok Hset H;
    cbn [some_loop] in H; apply bind_PReturn in H as (m & _ & H); destruct m;
    try discriminate H.
  - injection H as <- <-. split; [exact Hok|]. split; [exact Hset|].
    exists []. split; [constructor|reflexivity].
  - apply bind_PReturn in H as ([ps1 v] & Hv & H).
    destruct (Hagain _ _ _ Hok Hset Hv) as (Hok1 & Hset1 & ts & Hts & Hrem).
    destruct (IH _ _ _ _ Hok1 Hset1 H) as (A & B & tss & Htss & Hrem').
    split; [exact A|]. split; [exact B|]. exists (ts :: tss).
    split; [by constructor|]. cbn. rewrite Hrem, Hrem'. by rewrite app_assoc.
  - injection H as <- <-. split; [exact Hok|]. split; [exact Hset|].
    exists []. split; [constructor|reflexivity].
Qed.

Lemma parse_passed (g : Grammar) (st : state)
    (act : string -> Js.value -> presult Js.value) (fuel : nat) :
  (forall ps r p n ps' v,
      parser_ok ps -> settled_input ps -> at_terminal n ps ->
      parse fuel g st act ps r p n = PReturn (ps', v) -> passed g n ps ps')
  /\ (forall ps j rule ps' v,
      rules g !! j = Some rule -> parser_ok ps -> settled_input ps ->
      rule_parse fuel g st act ps j = PReturn (ps', v) ->
      passed g (Alt (rule_seqs rule)) ps ps').
Proof.
  induction fuel as [|fuel [IHn IHr]]; [split; intros; discriminate|].
  assert (Hvisit : forall r p ps k n ps' v,
    parser_ok ps -> settled_input ps -> at_terminal n ps ->
    parse fuel g st act ps r (k :: p) n = PReturn (ps', v) -> passed g n ps ps').
  { intros r p ps k n ps' v. apply IHn. }
  assert (Hexpect : forall r p k n e ps,
    parser_ok ps ->
    lift (node_expect g st r (k :: p) n) = PReturn e ->
    set_match e (current ps) = PReturn true -> at_terminal n ps).
  { intros r p k n e ps. apply expected_terminal. }
  split.
  - intros ps r p n ps' v Hok Hset Hat H. cbn [parse] in H.
    destruct n as [name|name|name|nodes t|seqs|seqs|seqs].
    + eapply terminal_parse_passed; [reflexivity|discriminate|exact Hok|exact Hat|exact H].
    + eapply terminal_parse_passed; [reflexivity|discriminate|exact Hok|exact Hat|exact H].
    + destruct (nt_rule g name) as [j|] eqn:Hj; [|discriminate H].
      destruct (rules g !! j) as [rule|] eqn:Hrule.
      * destruct (IHr _ _ _ _ _ Hrule Hok Hset H) as (A & B & ts & Hts & Hrem).
        split; [exact A|]. split; [exact B|]. exists ts. split; [|exact Hrem].
        eapply phrase_nt; [exact Hj|exact Hrule|exact Hts].
      * destruct fuel as [|fuel']; [discriminate H|]. cbn [rule_parse] in H.
        rewrite Hrule in H. discriminate H.
    + apply bind_PReturn in H as ([ps1 l] & Hs & H). injection H as <- <-.
      destruct (seq_parse_passed g _ _ (Hvisit r p) (Hexpect r p) r p nodes
                  _ _ _ _ _ Hok Hset Hs) as (A & B & tss & Htss & Hrem).
      split; [exact A|]. split; [exact B|]. exists (concat tss).
      split; [by constructor|exact Hrem].
    + exact (alt_parse_passed g _ _ (Hvisit r p) (Hexpect r p) seqs ps ps' v
               Hok Hset H).
    + destruct (alt_parse_passed g _ _ (Hvisit r p) (Hexpect r p) seqs ps ps' v
                  Hok Hset H) as (A & B & ts & Hts & Hrem).
      split; [exact A|]. split; [exact B|]. exists ts. split; [|exact Hrem].
      by constructor.
    + apply bind_PReturn in H as ([ps1 v1] & Ha & H).
      apply bind_PReturn in H as ([ps2 l] & Hl & H). injection H as <- <-.
      destruct (alt_parse_passed g _ _ (Hvisit r p) (Hexpect r p) seqs ps ps1 v1
                  Hok Hset Ha) as (Hok1 & Hset1 & ts & Hts & Hrem).
      destruct (some_loop_passed g seqs _ _ fuel
                  (fun ps ps' v => alt_parse_passed g _ _ (Hvisit r p) (Hexpect r p)
                                     seqs ps ps' v)
                  _ _ _ _ Hok1 Hset1 Hl) as (A & B & tss & Htss & Hrem').
      split; [exact A|]. split; [exact B|]. exists (concat (ts :: tss)).
      split; [constructor; [discriminate|by constructor]|].
      cbn. rewrite Hrem, Hrem'. by rewrite app_assoc.
  - intros ps j rule ps' v Hj Hok Hset H. cbn [rule_parse] in H. rewrite Hj in H.
    apply bind_PReturn in H as ([ps1 v1] & Ha & H).
    apply bind_PReturn in H as (v2 & _ & H). injection H as <- <-.
    set (ps0 := mkParser (tuples ps) (index ps) (rule_nt rule :: ruleStack ps)
                  (p_errors ps)) in *.
    assert (Hok0 : parser_ok ps0) by exact Hok.
    assert (Hset0 : settled_input ps0) by exact Hset.
    destruct (alt_parse_passed g _ _ (Hvisit j []) (Hexpect j []) _ _ _ _
                Hok0 Hset0 Ha) as (A & B & ts & Hts & Hrem).
    split; [exact A|]. split; [exact B|]. exists ts. split; [exact Hts|exact Hrem].
Qed.

Lemma remaining_scanned (scanned : list Tuple) (rs : list string) (e : nat) :
  remaining (mkParser (Some <$> scanned) (-1) rs e) = omap tuple_t scanned.
Proof.
  unfold remaining. cbn [tuples index]. change (Z.to_nat (-1)) with 0%nat.
  rewrite drop_0. induction scanned as [|tu l IH]; [reflexivity|].
  rewrite fmap_cons. cbn [omap list_omap]. rewrite IH. reflexivity.
Qed.

(** X8.  The parser accepts nothing but sentences: let no terminal of
    the input have a name that every object inherits ([constructor],
    [toString], ...).  If [parser.parse()] returns a value, whatever the
    actions are, the terminals among the tuples that the scanner has made
    are, in their order, a phrase of the first rule.  (Illegal character
    sequences are reported and passed over.) *)
Theorem parse_accepts_sentences (g : Grammar) (st : state)
    (act : string -> Js.value -> presult Js.value) (fuel : nat)
    (scanned : list Tuple) (ps : Parser) (v : Js.value) :
  plain scanned ->
  parse_input fuel g st act scanned = PReturn (ps, v) ->
  exists start,
    rules g !! 0%nat = Some start
    /\ phrase g (Alt (rule_seqs start)) (omap tuple_t scanned).
Proof.
  intros Hplain H. unfold parse_input in H.
  destruct (rules g) as [|start rs] eqn:Hrs; [discriminate H|].
  exists start. split; [reflexivity|].
  destruct (negb (nonempty (expect_of st (IdNode 0 [])))); [discriminate H|].
  apply bind_PReturn in H as (ps1 & Hn & H).
  apply bind_PReturn in H as (m & _ & H).
  destruct (negb m); [discriminate H|].
  apply bind_PReturn in H as ([ps2 v2] & Hp & H).
  destruct (current ps2) as [tu|] eqn:Hc; [discriminate H|]. injection H as <- <-.
  assert (Hok0 : parser_ok (mkParser (Some <$> scanned) (-1) [] 0)).
  { split; [|cbn; lia]. exists scanned, [].
    split; [by rewrite app_nil_r|]. split; [by left|exact Hplain]. }
  destruct (next_spec _ _ Hok0 Hn) as (Hok1 & Hset1 & Hrem1 & _).
  assert (Hstart : rules g !! 0%nat = Some start) by (by rewrite Hrs).
  destruct (proj2 (parse_passed g st act fuel) _ _ _ _ _ Hstart Hok1 Hset1 Hp)
    as (Hok2 & [H0 _] & ts & Hts & Hrem2).
  rewrite (end_of_input ps2 Hok2 H0 Hc), app_nil_r in Hrem2.
  rewrite remaining_scanned in Hrem1. cbn in Hrem1.
  replace (omap tuple_t scanned) with ts by congruence. exact Hts.
Qed.

Lemma parse_accepts_sentences_witness :
  plain small_input
  /\ parse_input 8 small_grammar small_state no_actions small_input
     = PReturn small_parsed
  /\ exists start,
       rules small_grammar !! 0%nat = Some start
       /\ phrase small_grammar (Alt (rule_seqs start)) ["'a'"; "'b'"]%string.
Proof.
  assert (H : parse_input 8 small_grammar small_state no_actions small_input
              = PReturn small_parsed) by (vm_compute; reflexivity).
  assert (Hp : plain small_input).
  { intros tu name Hin Hname. unfold small_input in Hin.
    repeat (apply elem_of_cons in Hin as [->|Hin];
            [cbn in Hname; first [discriminate Hname|by injection Hname as <-]|]).
    by apply elem_of_nil in Hin. }
  split; [exact Hp|]. split; [exact H|].
  apply (parse_accepts_sentences small_grammar small_state no_actions 8 small_input
           small_parsed.1 small_parsed.2); [exact Hp|].
  rewrite H. by destruct small_parsed.
Defined.

(** Why the names have to be plain.  A token with an inherited name passes
    for any terminal: for a grammar with the sentences [a b] and
    [constructor c] only, the parser accepts [constructor b].  ([Factory.add]
    asserts that a new name is not [in] the inventory, which rules such names
    out for the grammars the factory methods make.) *)
Lemma inherited_name_accepted :
  exists ps v,
    parse_input 8 inherited_grammar inherited_state no_actions inherited_input
    = PReturn (ps, v)
    /\ ~ phrase inherited_grammar
          (Alt [Seq [Lit "'a'"; Lit "'b'"] None;
                Seq [Token "constructor"; Lit "'c'"] None])
          (omap tuple_t inherited_input).
Proof.
  eexists _, _. split; [vm_compute; reflexivity|].
  intros H. inversion H as [| | | |seqs k c ts Hk Hc| | |]; subst.
  destruct k as [|[|k]]; cbn in Hk; try discriminate Hk; injection Hk as <-.
  - inversion Hc as [| | |nodes t tss Hf| | | |]; subst.
    inversion Hf as [|? ? ? ? Ha Hrest]; subst.
    inversion Ha; subst. cbn in *. discriminate.
  - inversion Hc as [| | |nodes t tss Hf| | | |]; subst.
    inversion Hf as [|? ? ? ? Ha Hrest]; subst.
    inversion Hrest as [|? ? ? ? Hb Hnil]; subst.
    inversion Ha; subst. inversion Hb; subst. inversion Hnil; subst.
    cbn in *. discriminate.
Qed.

End ParserFacts.

Module Translation.
Import FromEBNF FromEBNFFacts.

Section Config.
Variable uniq : string.
Variable config_error : bool.
Variable valid_lit valid_token valid_nt : string -> bool.

#[local] Abbreviation item := (item uniq config_error valid_lit valid_token valid_nt).
#[local] Abbreviation nt := (nt uniq valid_nt).
#[local] Abbreviation one_rule :=
  (one_rule uniq config_error valid_lit valid_token valid_nt).
#[local] Abbreviation added := (added uniq).
#[local] Abbreviation matches := (matches uniq).
#[local] Abbreviation alternative := (alternative uniq).
#[local] Abbreviation item_shape :=
  (item_shape uniq config_error valid_lit valid_token valid_nt).

Lemma added_refl (g : Grammar) : added g g.
Proof.
  exists []. split; [by rewrite app_nil_r|]. intros r Hr. by apply elem_of_nil in Hr.
Qed.

Lemma added_same (g g' : Grammar) : rules g' = rules g -> added g g'.
Proof.
  intros H. exists []. split; [by rewrite app_nil_r|].
  intros r Hr. by apply elem_of_nil in Hr.
Qed.

Lemma added_trans (g g1 g2 : Grammar) : added g g1 -> added g1 g2 -> added g g2.
Proof.
  intros (n1 & H1 & F1) (n2 & H2 & F2). exists (n1 ++ n2). split.
  - by rewrite H2, H1, app_assoc.
  - intros r [Hr|Hr]%elem_of_app; [by apply F1|by apply F2].
Qed.

Lemma added_rule (u : string) (symbols : list symbol) (terminal : option symbol)
    (g : Grammar) :
  String.prefix uniq u = true -> added g (rule u symbols terminal g).
Proof.
  intros Hu. destruct (rule_spec u symbols terminal g) as [_ [p Hr]].
  exists [mkRule u symbols p]. split; [exact Hr|].
  intros r ->%list_elem_of_singleton. exact Hu.
Qed.

Lemma nt_unique (g g' : Grammar) (u : string) :
  nt None g = Return (g', u) -> String.prefix uniq u = true /\ rules g' = rules g.
Proof.
  intros H. apply nt_spec in H as (-> & Hr & _). split; [apply prefix_app|exact Hr].
Qed.

Lemma seq_nodes_shape (nodes : list EBNF.node) :
  Forall item_shape nodes ->
  forall g g' xs,
    seq_nodes item nodes g = Return (g', xs) ->
    added g g' /\ Forall2 matches nodes xs.
Proof.
  induction 1 as [|n nodes Hn _ IH]; intros g g' xs H; cbn [seq_nodes] in H.
  - injection H as <- <-. split; [apply added_refl|constructor].
  - apply bind_Return in H as ([g1 x] & Hv & H).
    apply bind_Return in H as ([g2 xs'] & Hs & H). injection H as <- <-.
    destruct (proj1 Hn g g1 x Hv) as [Hm Ha].
    destruct (IH g1 g2 xs' Hs) as [Ha' Hms].
    split; [by eapply added_trans|by constructor].
Qed.

Lemma alternatives_added (u : string) (seqs : list EBNF.node) :
  Forall item_shape seqs -> String.prefix uniq u = true ->
  forall g g', alternatives item u seqs g = Return g' -> added g g'.
Proof.
  intros Hall Hu. induction Hall as [|s seqs Hs _ IH]; intros g g' H;
    cbn [alternatives] in H.
  - injection H as <-. apply added_refl.
  - apply bind_Return in H as ([g1 xs] & Hv & H).
    destruct (proj2 Hs g g1 xs Hv) as [Ha _].
    eapply added_trans; [exact Ha|].
    eapply added_trans; [by apply added_rule|by apply IH].
Qed.

Lemma item_shape_all (n : EBNF.node) : item_shape n.
Proof.
  induction n as [name|name|name|nodes t IH|seqs IH|seqs IH|seqs IH]
    using EBNFFacts.node_nested_ind.
  - split; [|intros g g' xs H; discriminate H].
    intros g g' x H. apply lit_spec in H as (_ & Hr & ->).
    split; [reflexivity|by apply added_same].
  - split; [|intros g g' xs H; discriminate H].
    intros g g' x H. apply token_spec in H as (_ & Hr & ->).
    split; [reflexivity|by apply added_same].
  - split; [|intros g g' xs H; discriminate H].
    intros g g' x H. cbn [FromEBNF.item] in H.
    apply bind_Return in H as ([g1 u] & Hnt & H). injection H as <- <-.
    apply nt_spec in Hnt as (-> & Hr & _).
    split; [reflexivity|by apply added_same].
  - split; [intros g g' x H; discriminate H|].
    intros g g' xs H. cbn [seq] in H.
    destruct (seq_nodes_shape nodes) with (g := g) (g' := g') (xs := xs)
      as [Ha Hm]; [|exact H|].
    + eapply Forall_impl; [exact IH|]. intros n Hn. exact Hn.
    + split; [exact Ha|]. by exists nodes, t.
  - split; [intros g g' x H; discriminate H|intros g g' xs H; discriminate H].
  - split; [|intros g g' xs H; discriminate H].
    intros g g' x H. cbn [FromEBNF.item] in H.
    apply bind_Return in H as ([g1 u] & Hnt & H).
    apply bind_Return in H as (g2 & Halt & H). injection H as <- <-.
    apply nt_unique in Hnt as [Hu Hr].
    split; [by exists u|].
    eapply added_trans; [by apply added_same|].
    eapply added_trans; [by apply (added_rule u [] None)|].
    eapply alternatives_added; [exact IH|exact Hu|exact Halt].
  - split; [|intros g g' xs H; discriminate H].
    intros g g' x H. cbn [FromEBNF.item] in H.
    apply bind_Return in H as ([g1 u] & Hnt & H).
    apply bind_Return in H as ([g2 u1] & Hnt1 & H).
    apply bind_Return in H as (g3 & Halt & H).
    apply nt_unique in Hnt as [Hu Hr].
    apply nt_unique in Hnt1 as [Hu1 Hr1].
    assert (Ha3 : added g (rule u [SNT u; SNT u1] None (rule u [SNT u1] None g3))).
    { eapply added_trans; [by apply added_same|].
      eapply added_trans; [by apply added_same|].
      eapply added_trans; [eapply alternatives_added; [exact IH|exact Hu1|exact Halt]|].
      eapply added_trans; by apply added_rule. }
    destruct config_error.
    + apply bind_Return in H as ([g4 e] & Ht & H). injection H as <- <-.
      apply token_spec in Ht as (_ & Hr4 & ->).
      split; [by exists u|].
      eapply added_trans; [exact Ha3|].
      eapply added_trans; [by apply added_same|].
      eapply added_trans; by apply added_rule.
    + injection H as <- <-. split; [by exists u|exact Ha3].
Qed.

(** *** The rules of one non-terminal *)

Lemma rules_of_added (name : string) (g g' : Grammar) :
  String.prefix uniq name = false -> added g g' ->
  rules_of name g' = rules_of name g.
Proof.
  intros Hn (new & Hr & Hf). unfold rules_of. rewrite Hr, filter_app.
  rewrite (filter_none _ new); [by rewrite app_nil_r|].
  intros r Hin He. apply Hf in Hin. rewrite He in Hin. congruence.
Qed.

Lemma rules_of_rule (name u : string) (symbols : list symbol)
    (terminal : option symbol) (g : Grammar) :
  exists p,
    rules_of name (rule u symbols terminal g)
    = rules_of name g ++ (if decide (u = name) then [mkRule u symbols p] else []).
Proof.
  destruct (rule_spec u symbols terminal g) as [_ [p Hr]]. exists p.
  unfold rules_of. by rewrite Hr, filter_app.
Qed.

Lemma one_rule_translated (name n : string) (s : EBNF.node) (g g' : Grammar)
    (l : list EBNF.node) :
  String.prefix uniq name = false ->
  Forall2 (alternative name) l (rules_of name g) ->
  one_rule n s g = Return g' ->
  Forall2 (alternative name) (l ++ (if decide (n = name) then [s] else []))
    (rules_of name g').
Proof.
  intros Hn Hinv H.
  assert (Hseq : forall terminal nodes t g1 xs,
    s = EBNF.Seq nodes t -> added g g1 -> Forall2 matches nodes xs ->
    Forall2 (alternative name) (l ++ (if decide (n = name) then [s] else []))
      (rules_of name (rule n xs terminal g1))).
  { intros terminal nodes t g1 xs -> Ha Hm.
    destruct (rules_of_rule name n xs terminal g1) as [p ->].
    rewrite (rules_of_added name g g1 Hn Ha).
    apply Forall2_app; [exact Hinv|].
    destruct (decide (n = name)) as [->|Hne]; [|constructor].
    constructor; [|constructor]. split; [reflexivity|]. by exists nodes, t. }
  unfold FromEBNF.one_rule in H.
  destruct s as [name'|name'|name'|nodes [t|]|seqs|seqs|seqs];
    try (apply bind_Return in H as ([g1 xs] & Hs & H); discriminate Hs).
  - apply bind_Return in H as ([g1 xs] & Hs & H). injection H as <-.
    destruct (seq_nodes_shape nodes) with (g := g) (g' := g1) (xs := xs)
      as [Ha Hm]; [apply Forall_forall; intros; apply item_shape_all|exact Hs|].
    by eapply Hseq.
  - apply bind_Return in H as ([g1 xs] & Hs & H). injection H as <-.
    destruct (proj2 (item_shape_all (EBNF.Seq nodes None)) g g1 xs Hs)
      as (Ha & nodes' & t' & [= <-] & Hm).
    by eapply Hseq.
Qed.

Lemma each_one_rule (name n : string) (seqs : list EBNF.node) :
  String.prefix uniq name = false ->
  forall g g' l,
    Forall2 (alternative name) l (rules_of name g) ->
    each (one_rule n) seqs g = Return g' ->
    Forall2 (alternative name) (l ++ (if decide (n = name) then seqs else []))
      (rules_of name g').
Proof.
  intros Hn. induction seqs as [|s seqs IH]; intros g g' l Hinv H; cbn [each] in H.
  - injection H as <-. destruct (decide (n = name)); by rewrite app_nil_r.
  - apply bind_Return in H as (g1 & H1 & H).
    pose proof (one_rule_translated name n s g g1 l Hn Hinv H1) as Hinv1.
    pose proof (IH g1 g' _ Hinv1 H) as Hinv2.
    destruct (decide (n = name)); [|by rewrite app_nil_r in Hinv2].
    by rewrite <- app_assoc in Hinv2.
Qed.

Lemma each_rule (name : string) (rs : list EBNF.Rule) :
  String.prefix uniq name = false ->
  forall g g' l,
    Forall2 (alternative name) l (rules_of name g) ->
    each (fun r g =>
            '(g, n) ← nt (Some (EBNF.rule_nt r)) g;
            each (one_rule n) (EBNF.rule_seqs r) g) rs g = Return g' ->
    Forall2 (alternative name) (l ++ alternatives_of name rs) (rules_of name g').
Proof.
  intros Hn. induction rs as [|r rs IH]; intros g g' l Hinv H; cbn [each] in H.
  - injection H as <-. unfold alternatives_of. cbn. by rewrite app_nil_r.
  - apply bind_Return in H as (g1 & H1 & H).
    apply bind_Return in H1 as ([g0 n] & Hnt & H1).
    apply nt_spec in Hnt as (-> & Hr & _).
    assert (Hinv0 : Forall2 (alternative name) l (rules_of name g0)).
    { unfold rules_of. by rewrite Hr. }
    pose proof (each_one_rule name _ _ Hn g0 g1 l Hinv0 H1) as Hinv1.
    pose proof (IH g1 g' _ Hinv1 H) as Hinv2.
    unfold alternatives_of in *. destruct (decide (EBNF.rule_nt r = name)) as [E|E].
    + rewrite filter_cons_True by exact E. cbn [flat_map].
      by rewrite <- app_assoc in Hinv2.
    + rewrite filter_cons_False by exact E. by rewrite app_nil_r in Hinv2.
Qed.

(** X9.  The rules of the EBNF grammar, translated: for a name that is
    not empty and does not begin with [config.uniq], the BNF grammar that
    [fromEBNF] builds has one rule for each alternative of the EBNF rules
    for that name, in their order, and no other; the rule has one symbol for
    each element of the alternative: the terminal or non-terminal of the
    same name, and for [[...]] and [{...}] a non-terminal with the prefix
    [config.uniq]. *)
Theorem user_rules_translated (ebnf : EBNF.Grammar) (g : Grammar)
    (name : string) :
  name <> ""%string -> String.prefix uniq name = false ->
  fromEBNF uniq config_error valid_lit valid_token valid_nt ebnf = Return g ->
  Forall2 (alternative name) (alternatives_of name (EBNF.rules ebnf))
    (rules_of name g).
Proof.
  intros Hne Hn H. unfold fromEBNF in H.
  apply bind_Return in H as (g1 & H1 & H).
  apply bind_Return in H as (g2 & H2 & H).
  apply bind_Return in H as (g3 & H3 & H).
  destruct (EBNF.rules ebnf) as [|first rs] eqn:Hrs; [discriminate H|].
  rewrite <- Hrs in H |- *.
  apply bind_Return in H as ([g4 start] & H4 & H).
  set (P := fun g : Grammar => rules g = rules new_Grammar).
  assert (P1 : P g1).
  { eapply (each_inv P (fun _ => True)); [|by apply Forall_forall| |exact H1].
    - intros l g0 g0' _ HP Hl.
      apply bind_Return in Hl as ([g0'' x] & Hl & Hr). injection Hr as <-.
      apply lit_spec in Hl as (_ & Hr & _). unfold P. by rewrite Hr.
    - reflexivity. }
  assert (P2 : P g2).
  { eapply (each_inv P (fun _ => True)); [|by apply Forall_forall|exact P1|exact H2].
    intros l g0 g0' _ HP Hl.
    apply bind_Return in Hl as ([g0'' x] & Hl & Hr). injection Hr as <-.
    apply token_spec in Hl as (_ & Hr & _). unfold P. by rewrite Hr. }
  assert (P3 : P g3).
  { eapply (each_inv P (fun _ => True)); [|by apply Forall_forall|exact P2|exact H3].
    intros l g0 g0' _ HP Hl. apply precedence_same in Hl as [_ Hr].
    unfold P. by rewrite Hr. }
  apply nt_spec in H4 as (_ & Hr4 & _).
  assert (Hinv : Forall2 (alternative name) [] (rules_of name g4)).
  { unfold rules_of. rewrite Hr4, P3. cbn [rules new_Grammar].
    rewrite filter_cons_False by (cbn; congruence). constructor. }
  exact (each_rule name _ Hn g4 g [] Hinv H).
Qed.

End Config.

Lemma user_rules_translated_witness :
  fromEBNF "$-" true any_name any_name any_name EBNF.list_grammar = Return list_bnf
  /\ Forall2 (alternative "$-" "list")
       (alternatives_of "list" (EBNF.rules EBNF.list_grammar))
       (rules_of "list" list_bnf).
Proof.
  assert (H : fromEBNF "$-" true any_name any_name any_name EBNF.list_grammar
              = Return list_bnf) by (vm_compute; reflexivity).
  split; [exact H|].
  apply (user_rules_translated "$-" true any_name any_name any_name
           EBNF.list_grammar list_bnf "list"); [discriminate|reflexivity|exact H].
Defined.

End Translation.

Module EscapeFacts.
Import Js Base BaseFacts.

Lemma reads_back_block_spec (k : nat) :
  forall base c,
    reads_back_block k base = true ->
    (base <= c < base + 2 ^ N.of_nat k)%N -> reads_back c = true.
Proof.
  induction k as [|k IH]; intros base c H Hc; cbn [reads_back_block] in H.
  - change (2 ^ N.of_nat 0)%N with 1%N in Hc.
    by replace c with base by lia.
  - apply andb_true_iff in H as [H1 H2].
    replace (N.of_nat (S k)) with (N.succ (N.of_nat k)) in Hc by lia.
    rewrite N.pow_succ_r' in Hc.
    destruct (N.lt_ge_cases c (base + 2 ^ N.of_nat k)) as [Hlt|Hge].
    + apply (IH base); [exact H1|lia].
    + apply (IH (base + 2 ^ N.of_nat k)%N); [exact H2|lia].
Qed.

Lemma reads_back_code_units : reads_back_block 16 0 = true.
Proof. vm_compute. reflexivity. Qed.

Lemma reads_back_all (c : N) : (c < 65536)%N -> reads_back c = true.
Proof.
  intros Hc. apply (reads_back_block_spec 16 0 c reads_back_code_units).
  change (2 ^ N.of_nat 16)%N with 65536%N. lia.
Qed.

Lemma escape_char_unescaped (c : N) (r o : jsstr) :
  (c < 65536)%N -> Unescaped is_hex_lower r o ->
  Unescaped is_hex_lower (escape_char c ++ r) (c :: o).
Proof.
  intros Hc Hr. pose proof (reads_back_all c Hc) as H. unfold reads_back in H.
  destruct (escape_char c) as [|x [|e [|h1 [|h2 [|h3 [|h4 [|? ?]]]]]]];
    try discriminate H; cbn [app].
  - apply andb_true_iff in H as [->%N.eqb_eq Hx%negb_true_iff%N.eqb_neq].
    by apply U_plain.
  - apply andb_true_iff in H as [->%N.eqb_eq H].
    destruct (simple_escape e) as [k|] eqn:Hk.
    + apply N.eqb_eq in H as ->. by apply U_simple.
    + apply andb_true_iff in H as [H Hu%negb_true_iff].
      apply andb_true_iff in H as [->%N.eqb_eq Hx%negb_true_iff].
      apply U_other; [exact Hk| |exact Hr].
      unfold hex_escape_follows. by rewrite Hx, Hu.
  - repeat (apply andb_true_iff in H as [H ?]).
    apply N.eqb_eq in H as ->.
    repeat match goal with E : (_ =? _)%N = true |- _ => apply N.eqb_eq in E end.
    subst. by apply U_x.
  - repeat (apply andb_true_iff in H as [H ?]).
    apply N.eqb_eq in H as ->.
    repeat match goal with E : (_ =? _)%N = true |- _ => apply N.eqb_eq in E end.
    subst. by apply U_u.
Qed.

Lemma charCodeAt_skip (pre l : jsstr) :
  charCodeAt (pre ++ l) (len pre) = charCodeAt l 0.
Proof.
  unfold charCodeAt, len. rewrite Nat2Z.id.
  pose proof (lookup_app_r pre l (length pre) (le_n _)) as E.
  rewrite Nat.sub_diag in E. unfold jsstr in *. by rewrite E.
Qed.

Lemma escape_step_at (pre rest result : jsstr) (c : N) :
  escape_step (pre ++ c :: rest) result (len pre) = result ++ escape_char c.
Proof.
  unfold escape_char, escape_step.
  rewrite (charAt_in pre (c :: rest) (len pre) 0 c) by (try reflexivity; lia).
  rewrite charCodeAt_skip.
  change (charAt [c] 0) with [c].
  change (charCodeAt (c :: rest) 0) with c. change (charCodeAt [c] 0) with c.
  repeat case_match; reflexivity.
Qed.

Lemma escape_loop_spec (rest : jsstr) :
  forall pre result,
    foldl (escape_step (pre ++ rest)) result (seqZ (len pre) (len rest))
    = result ++ flat_map escape_char rest.
Proof.
  induction rest as [|c rest IH]; intros pre result.
  - cbn [flat_map]. rewrite !app_nil_r. reflexivity.
  - rewrite seqZ_cons by (unfold len; cbn [length]; lia).
    cbn [foldl flat_map]. rewrite escape_step_at.
    replace (Z.succ (len pre)) with (len (pre ++ [c])) by solve_len.
    replace (Z.pred (len (c :: rest))) with (len rest) by solve_len.
    rewrite (cons_middle c pre rest), app_assoc, IH. by rewrite <- app_assoc.
Qed.

Lemma escape_body (s : jsstr) :
  Tuple_escape (Some s) = [34%N] ++ flat_map escape_char s ++ [34%N].
Proof.
  unfold Tuple_escape. pose proof (escape_loop_spec s [] [34%N]) as E.
  cbn [app] in E. change (len []) with 0 in E. rewrite E. reflexivity.
Qed.

Lemma escape_unescaped (s : jsstr) :
  Forall (fun c => (c < 65536)%N) s ->
  Unescaped is_hex_lower (flat_map escape_char s) s.
Proof.
  induction 1 as [|c s Hc _ IH]; cbn [flat_map]; [apply U_end|].
  by apply escape_char_unescaped.
Qed.

(** X10.  [Lit.unescape] undoes [Tuple.escape]: for every string [s] (of
    16-bit code units), the quoted text that [escape(s)] returns is read
    back by [unescape] as [s]. *)
Theorem unescape_escape (s : jsstr) :
  Forall (fun c => (c < 65536)%N) s ->
  unescape (Tuple_escape (Some s)) = Some s.
Proof.
  intros Hs. rewrite escape_body. unfold unescape.
  apply (unescape_loop_spec _ s (escape_unescaped s Hs) [34%N] 34%N []).
  cbn [app length]. rewrite length_app. lia.
Qed.

Lemma unescape_escape_witness :
  Forall (fun c => (c < 65536)%N) [97; 10; 34; 39; 92; 7; 233; 955; 65535]%N
  /\ unescape (Tuple_escape (Some [97; 10; 34; 39; 92; 7; 233; 955; 65535]%N))
     = Some [97; 10; 34; 39; 92; 7; 233; 955; 65535]%N.
Proof.
  assert (H : Forall (fun c => (c < 65536)%N)
                [97; 10; 34; 39; 92; 7; 233; 955; 65535]%N)
    by (repeat constructor).
  split; [exact H|]. exact (unescape_escape _ H).
Defined.

End EscapeFacts.

Module ScanLayout.
Import Js Base.
#[local] Open Scope nat_scope.

Lemma nl_app (a b : jsstr) : nl (a ++ b) = nl a + nl b.
Proof.
  unfold nl. pose proof (filter_app (fun c : N => c = 10%N) a b) as E.
  unfold jsstr in *. by rewrite E, length_app.
Qed.

Lemma firstn_add (input : jsstr) (i n : nat) :
  firstn (i + n) input = firstn i input ++ firstn n (skipn i input).
Proof.
  revert input. induction i as [|i IH]; intros [|c input]; cbn; try done.
  - by destruct n.
  - by rewrite IH.
Qed.

Lemma nl_firstn (input : jsstr) (i n : nat) :
  nl (firstn (i + n) input) = nl (firstn i input) + nl (firstn n (skipn i input)).
Proof. by rewrite firstn_add, nl_app. Qed.

Lemma laid_out_from (input : jsstr) (from from' : nat) (l : list Tuple) :
  from' <= from -> laid_out input from l -> laid_out input from' l.
Proof.
  intros Hle H. destruct H as [from|from pos tu rest Hp Hpl Hr]; [constructor|].
  apply (laid_cons input from' pos); [lia|exact Hpl|exact Hr].
Qed.

Lemma firstn_length_firstn (l : jsstr) (n : nat) :
  firstn (length (firstn n l)) l = firstn n l.
Proof.
  rewrite length_firstn. destruct (Nat.le_gt_cases n (length l)) as [H|H].
  - by rewrite Nat.min_l.
  - rewrite Nat.min_r by lia. by rewrite !firstn_all2 by lia.
Qed.

(** The text of a match is where the match is. *)
Lemma placed_at (input : jsstr) (ln pos n : nat) (t : option terminal) :
  firstn n (skipn pos input) <> [] ->
  ln = S (nl (firstn pos input)) ->
  placed input (mkTuple ln t (firstn n (skipn pos input))) pos.
Proof.
  intros Hne ->. split; [exact Hne|split; [|reflexivity]].
  cbn [tuple_value]. apply firstn_length_firstn.
Qed.

Lemma master_exec_from (gs : list pattern) (s : jsstr) :
  forall fuel i index k n,
    master_exec fuel gs s i = Some (index, k, n) -> i <= index <= i + fuel.
Proof.
  induction fuel as [|fuel IH]; intros i index k n H; cbn [master_exec] in H;
    destruct (first_group gs 0 s i) as [[k' n']|].
  - injection H as <- <- <-. lia.
  - discriminate H.
  - injection H as <- <- <-. lia.
  - apply IH in H. lia.
Qed.

Lemma group_tuple_placed (sc : Scanner) (input : jsstr) (ln k pos n : nat) :
  ln = S (nl (firstn pos input)) ->
  group_tuple sc ln k (firstn n (skipn pos input)) = []
  \/ exists tu, group_tuple sc ln k (firstn n (skipn pos input)) = [tu]
       /\ placed input tu pos
       /\ tuple_value tu = firstn n (skipn pos input).
Proof.
  intros Hln. unfold group_tuple. destruct k as [|j]; [by left|].
  case_bool_decide as Hne; [by left|].
  destruct (terminals sc !! j) as [[l|tok]|]; [| |by left].
  - right. eexists. split; [reflexivity|]. split; [by apply placed_at|reflexivity].
  - destruct (token_screen tok) as [screen|];
      [destruct (screen !! _) as [lit|]|];
      right; (eexists; split; [reflexivity|]);
      (split; [by apply placed_at|reflexivity]).
Qed.

Lemma scan_loop_laid_out (sc : Scanner) (input : jsstr) :
  forall fuel b ln acc result,
    ln = S (nl (firstn b input)) ->
    scan_loop fuel sc input b b ln acc = Some result ->
    exists rest, result = acc ++ rest /\ laid_out input b rest.
Proof.
  induction fuel as [|fuel IH]; intros b ln acc result Hln H;
    cbn [scan_loop] in H;
    destruct (Nat.ltb_spec b (length input)) as [Hb|Hb];
    try discriminate H;
    try (injection H as <-; exists []; split;
         [by rewrite app_nil_r|constructor]).
  destruct (master_exec _ _ _ _) as [[[index k] n]|] eqn:Hm.
  - apply master_exec_from in Hm as Hi.
    set (illegal := firstn (index - b) (skipn b input)) in *.
    set (m0 := firstn n (skipn index input)) in *.
    assert (Hidx : nl (firstn index input) = nl (firstn b input) + nl illegal).
    { replace index with (b + (index - b)) at 1 by lia. apply nl_firstn. }
    assert (Hstep : forall acc1 ln1,
      ln1 = S (nl (firstn index input)) ->
      scan_loop fuel sc input (index + n) (index + n) (ln1 + nl m0)
        (acc1 ++ group_tuple sc ln1 k m0) = Some result ->
      exists rest, result = acc1 ++ rest /\ laid_out input index rest).
    { intros acc1 ln1 Hln1 Hr.
      apply IH in Hr as (rest & -> & Hrest);
        [|rewrite Hln1; unfold m0; rewrite nl_firstn; lia].
      destruct (group_tuple_placed sc input ln1 k index n Hln1)
        as [E|(tu & E & Hpl & Hv)]; fold m0 in E; rewrite E.
      - exists rest. split; [by rewrite app_nil_r|].
        eapply laid_out_from; [|exact Hrest]. lia.
      - exists (tu :: rest). split; [by rewrite <- app_assoc|].
        apply (laid_cons input index index); [lia|exact Hpl|].
        eapply laid_out_from; [|exact Hrest].
        rewrite Hv, length_firstn. lia. }
    destruct (Nat.ltb_spec b index) as [Hlt|Hge].
    + destruct (Hstep (acc ++ [mkTuple ln None illegal]) (ln + nl illegal)
                  ltac:(lia) H) as (rest & -> & Hrest).
      exists (mkTuple ln None illegal :: rest).
      split; [by rewrite <- app_assoc|].
      assert (Hlen : length illegal = index - b).
      { unfold illegal. rewrite length_firstn, length_skipn. lia. }
      apply (laid_cons input b b); [lia| |].
      * apply placed_at; [|exact Hln]. fold illegal.
        intros E. rewrite E in Hlen. cbn in Hlen. lia.
      * cbn [tuple_value]. rewrite Hlen.
        eapply laid_out_from; [|exact Hrest]. lia.
    + assert (index = b) as -> by lia.
      destruct (Hstep acc ln ltac:(lia) H) as (rest & -> & Hrest).
      by exists rest.
  - injection H as <-. eexists. split; [reflexivity|].
    apply (laid_cons input b b); [lia| |constructor].
    replace (skipn b input) with (firstn (length input - b) (skipn b input))
      by (apply firstn_all2; rewrite length_skipn; lia).
    apply placed_at; [|exact Hln].
    rewrite firstn_all2 by (rewrite length_skipn; lia).
    intros E. apply (f_equal length) in E. rewrite length_skipn in E.
    cbn in E. lia.
Qed.

(** X11.  The tuples that [scan] returns are pieces of the input, in their
    order in the input and without overlap; none is empty, and [lineno] is
    the number of the line the piece begins in, counted from 1. *)
Theorem scan_laid_out (fuel : nat) (sc : Scanner) (input : jsstr)
    (result : list Tuple) :
  scan fuel sc input = Some result -> laid_out input 0 result.
Proof.
  intros H. unfold scan in H.
  apply scan_loop_laid_out in H as (rest & -> & Hrest); [exact Hrest|reflexivity].
Qed.

Lemma scan_laid_out_witness :
  scan 5 two_lines_scanner two_lines
  = Some [mkTuple 1 (Some (TLit lit_b)) [98%N];
          mkTuple 2 None [63%N];
          mkTuple 2 (Some (TLit lit_ab)) [97; 98]%N]
  /\ laid_out two_lines 0
       [mkTuple 1 (Some (TLit lit_b)) [98%N];
        mkTuple 2 None [63%N];
        mkTuple 2 (Some (TLit lit_ab)) [97; 98]%N].
Proof.
  assert (H : scan 5 two_lines_scanner two_lines
              = Some [mkTuple 1 (Some (TLit lit_b)) [98%N];
                      mkTuple 2 None [63%N];
                      mkTuple 2 (Some (TLit lit_ab)) [97; 98]%N])
    by (vm_compute; reflexivity).
  split; [exact H|]. exact (scan_laid_out 5 two_lines_scanner two_lines _ H).
Defined.

End ScanLayout.

Module ScannerTerminals.
Import Js Base ScannerFacts.

Lemma screen_token_flags (p : pattern) (lits : list (Lit * bool)) :
  forall map keep rest map' keep',
    screen_token p lits map keep = Some (rest, map', keep') ->
    (forall v, is_Some (map !! v) -> is_Some (map' !! v))
    /\ (keep = true -> keep' = true)
    /\ (forall i l, rest !! i = Some (l, true) ->
          lits !! i = Some (l, true)
          \/ (is_Some (map' !! lit_value l) /\ keep' = true)).
Proof.
  induction lits as [|[lit screened] lits IH]; intros map keep rest map' keep' H;
    cbn [screen_token] in H.
  - injection H as <- <- <-. split; [done|]. split; [done|].
    intros i l Hi. by rewrite lookup_nil in Hi.
  - destruct (covers p (lit_value lit)) eqn:Hc.
    + destruct screened; [discriminate H|].
      destruct (screen_token p lits _ true) as [[[rest1 map1] keep1]|] eqn:E;
        [|discriminate H].
      injection H as <- <- <-.
      destruct (IH _ _ _ _ _ E) as (Hmap & Hkeep & Hflag).
      split; [|split; [intros _; by apply Hkeep|]].
      * intros v Hv. apply Hmap.
        destruct (decide (lit_value lit = v)) as [->|Hne].
        -- rewrite lookup_insert_eq. by eexists.
        -- by rewrite lookup_insert_ne.
      * intros [|i] l Hi.
        -- injection Hi as <-. right. split; [|by apply Hkeep].
           apply Hmap. rewrite lookup_insert_eq. by eexists.
        -- destruct (Hflag i l Hi) as [Hl|Hr]; [by left|by right].
    + destruct (screen_token p lits map keep) as [[[rest1 map1] keep1]|] eqn:E;
        [|discriminate H].
      injection H as <- <- <-.
      destruct (IH _ _ _ _ _ E) as (Hmap & Hkeep & Hflag).
      split; [exact Hmap|split; [exact Hkeep|]].
      intros [|i] l Hi.
      * injection Hi as <- <-. by left.
      * destruct (Hflag i l Hi) as [Hl|Hr]; [by left|by right].
Qed.

Lemma screen_tokens_flags (tokens : list Token) :
  forall lits tokens' lits',
    screen_tokens tokens lits = Some (tokens', lits') ->
    forall i l, lits' !! i = Some (l, true) ->
      lits !! i = Some (l, true)
      \/ exists tok m, tok ∈ tokens' /\ token_screen tok = Some m
           /\ is_Some (m !! lit_value l).
Proof.
  induction tokens as [|token tokens IH]; intros lits tokens' lits' H i l Hi;
    cbn [screen_tokens] in H.
  - injection H as <- <-. by left.
  - destruct (screen_token _ lits ∅ false) as [[[lits1 map] keep]|] eqn:E;
      [|discriminate H].
    destruct (screen_tokens tokens lits1) as [[rest lits2]|] eqn:E2;
      [|discriminate H].
    injection H as <- <-.
    destruct (IH _ _ _ E2 i l Hi) as [H1|(tok & m & Hin & Hs & Hm)].
    + destruct (screen_token_flags _ _ _ _ _ _ _ E) as (_ & _ & Hflag).
      destruct (Hflag i l H1) as [Hl|[Hm ->]]; [by left|].
      right. eexists _, map. split; [apply list_elem_of_here|]. by split.
    + right. exists tok, m. split; [by apply list_elem_of_further|]. by split.
Qed.

(** X12.  The scanner loses no literal: every literal of the grammar that
    is used and has a name is one of the terminals of the new scanner, or
    one of its tokens screens for a literal with this value. *)
Theorem literals_kept (lits : list Lit) (tokens : list Token) (skip : pattern)
    (sc : Scanner) (l : Lit) :
  new_Scanner lits tokens skip = Some sc ->
  l ∈ lits -> lit_used l = true -> lit_name l <> [] ->
  TLit l ∈ terminals sc
  \/ exists tok m, TToken tok ∈ terminals sc /\ token_screen tok = Some m
       /\ is_Some (m !! lit_value l).
Proof.
  unfold new_Scanner. intros H Hl Hu Hn.
  destruct (screen_tokens _ _) as [[tokens' lits']|] eqn:E; [|discriminate H].
  injection H as <-. cbn [terminals].
  assert (Hs : l ∈ scanned_lits lits).
  { destruct (scanned_lits_sorted lits) as [_ Hp]. rewrite Hp.
    apply list_elem_of_filter. by split. }
  apply list_elem_of_lookup_1 in Hs as [i Hi].
  destruct (screen_tokens_spec _ _ _ _ E) as [Hfst _].
  assert (Hi' : exists f, lits' !! i = Some (l, f)).
  { assert (Hx : lits'.*1 !! i = Some l).
    { rewrite Hfst, !list_lookup_fmap, Hi. reflexivity. }
    rewrite list_lookup_fmap in Hx.
    destruct (lits' !! i) as [[l' f]|]; [|discriminate Hx].
    injection Hx as ->. by exists f. }
  destruct Hi' as [[|] Hf].
  - destruct (screen_tokens_flags _ _ _ _ E i l Hf) as [H0|(tok & m & Hin & Hsc & Hm)].
    + rewrite list_lookup_fmap, Hi in H0. discriminate H0.
    + right. exists tok, m. split; [|by split].
      apply elem_of_app. left. by apply list_elem_of_fmap_2.
  - left. apply elem_of_app. right.
    apply list_elem_of_fmap_2. apply list_elem_of_fmap.
    exists (l, false). split; [done|].
    apply list_elem_of_filter. split; [done|]. by eapply list_elem_of_lookup_2.
Qed.

Lemma literals_kept_witness :
  exists sc,
    new_Scanner [lit_ab; lit_b] [] blank = Some sc
    /\ (TLit lit_b ∈ terminals sc
        \/ exists tok m, TToken tok ∈ terminals sc /\ token_screen tok = Some m
             /\ is_Some (m !! lit_value lit_b)).
Proof.
  eexists. split; [vm_compute; reflexivity|].
  apply (literals_kept [lit_ab; lit_b] [] blank).
  - vm_compute. reflexivity.
  - apply list_elem_of_further, list_elem_of_here.
  - reflexivity.
  - discriminate.
Defined.

End ScannerTerminals.

Module StackMachineFacts.
Import Six SixFacts.

(** [continue] is written when a run returns, and never read. *)
Lemma exec_continue (i : instr) (c : list value) (p : Z) (k k' : option bool) :
  exec i (Memory c p k')
  = (Memory (cells (exec i (Memory c p k)).1) (pc (exec i (Memory c p k)).1) k',
     (exec i (Memory c p k)).2).
Proof.
  destruct i; cbn; try reflexivity.
  destruct (truthy _); reflexivity.
Qed.

Lemma exec_keeps_continue (i : instr) (m : memory) :
  continue (exec i m).1 = continue m.
Proof.
  destruct i; cbn; try reflexivity.
  destruct (truthy _); reflexivity.
Qed.

Lemma machine_loop_continue (fuel : nat) (code : list instr) (t : option tracer) :
  forall steps c p k k' out,
    machine_loop fuel code t steps (Memory c p k) out
    = machine_loop fuel code t steps (Memory c p k') out.
Proof.
  induction fuel as [|fuel IH]; intros steps c p k k' out; cbn [machine_loop pc cells].
  - reflexivity.
  - destruct (_ && _); [|reflexivity].
    destruct (p <? 0); [reflexivity|].
    destruct (code !! Z.to_nat p) as [i|]; [|reflexivity].
    unfold set_pc. cbn [cells pc continue].
    rewrite (exec_continue i c (p + 1) k k').
    destruct (exec i (Memory c (p + 1) k)) as [[c2 p2 k2] o] eqn:E.
    cbn [fst snd cells pc].
    pose proof (exec_keeps_continue i (Memory c (p + 1) k)) as Hk.
    rewrite E in Hk. cbn in Hk. subst k2. apply IH.
Qed.

Lemma prepend_app (a b : output) (r : result) :
  prepend (a ++ b) r = prepend a (prepend b r).
Proof. destruct r; cbn [prepend]; by rewrite <- ?app_assoc. Qed.

Lemma machine_loop_prepend (fuel : nat) (code : list instr) (t : option tracer) :
  forall steps m out,
    machine_loop fuel code t steps m out
    = prepend out (machine_loop fuel code t steps m []).
Proof.
  induction fuel as [|fuel IH]; intros steps m out; cbn [machine_loop].
  - destruct (_ && _); cbn [prepend]; [reflexivity|by rewrite app_nil_r].
  - destruct (_ && _); cbn [prepend]; [|by rewrite app_nil_r].
    destruct (pc m <? 0); cbn [prepend]; [by rewrite app_nil_r|].
    destruct (code !! Z.to_nat (pc m)) as [i|]; cbn [prepend];
      [|by rewrite app_nil_r].
    destruct (exec i _) as [m2 o].
    rewrite IH. rewrite (IH _ _ ([] ++ _)). cbn [app].
    apply prepend_app.
Qed.

Lemma machine_loop_split (code : list instr) (t : option tracer) (fuel1 : nat) :
  forall a m out m1 t1 out1,
    0 <= a ->
    machine_loop fuel1 code t (Steps a) m out = Returned m1 t1 out1 ->
    t1 = t
    /\ forall fuel2 b m2 t2 out2,
        0 <= b ->
        machine_loop fuel2 code t (Steps b) m1 [] = Returned m2 t2 out2 ->
        machine_loop (fuel1 + fuel2) code t (Steps (a + b)) m out
        = Returned m2 t2 (out1 ++ out2).
Proof.
  induction fuel1 as [|fuel1 IH]; intros a m out m1 t1 out1 Ha H.
  - cbn [machine_loop] in H.
    destruct (Z.eqb_spec a 0) as [->|Hne]; cbn [negb andb] in H.
    + injection H as <- <- <-. split; [reflexivity|].
      intros fuel2 b m2 t2 out2 Hb H2. cbn [Nat.add]. rewrite Z.add_0_l.
      destruct m as [c p k]. cbn [cells pc] in H2.
      rewrite (machine_loop_continue _ _ _ _ c p _ k) in H2.
      rewrite machine_loop_prepend, H2. reflexivity.
    + destruct (pc m <? Z.of_nat (length code)) eqn:Hpc; [discriminate H|].
      injection H as <- <- <-. split; [reflexivity|].
      intros fuel2 b m2 t2 out2 Hb H2.
      assert (E2 : machine_loop fuel2 code t (Steps b)
                     (Memory (cells m) (pc m) (Some false)) []
                   = Returned (Memory (cells m) (pc m) (Some false)) t []).
      { destruct fuel2; cbn [machine_loop cells pc]; rewrite Hpc, andb_false_r;
          reflexivity. }
      rewrite E2 in H2. injection H2 as <- <- <-.
      rewrite app_nil_r.
      destruct (0 + fuel2)%nat; cbn [machine_loop]; rewrite Hpc, andb_false_r;
        reflexivity.
  - cbn [machine_loop] in H.
    destruct (Z.eqb_spec a 0) as [->|Hne]; cbn [negb andb] in H.
    + injection H as <- <- <-. split; [reflexivity|].
      intros fuel2 b m2 t2 out2 Hb H2. rewrite Z.add_0_l.
      destruct m as [c p k]. cbn [cells pc] in H2.
      rewrite (machine_loop_continue _ _ _ _ c p _ k) in H2.
      rewrite machine_loop_prepend.
      rewrite (machine_loop_mono fuel2 (S fuel1 + fuel2))
        by first [lia|rewrite H2; discriminate].
      rewrite H2. reflexivity.
    + destruct (pc m <? Z.of_nat (length code)) eqn:Hpc.
      * destruct (pc m <? 0) eqn:Hneg; [discriminate H|].
        destruct (code !! Z.to_nat (pc m)) as [i|] eqn:Hi; [|discriminate H].
        destruct (exec i _) as [m' o] eqn:Hex.
        destruct (IH (a - 1) _ _ _ _ _ ltac:(lia) H) as [-> Hrest].
        split; [reflexivity|].
        intros fuel2 b m2 t2 out2 Hb H2.
        cbn [Nat.add machine_loop].
        replace (negb (a + b =? 0)) with true
          by (symmetry; apply negb_true_iff, Z.eqb_neq; lia).
        rewrite Hpc, Hneg, Hi, Hex. cbn [andb].
        replace (a + b - 1) with (a - 1 + b) by lia.
        by apply Hrest.
      * injection H as <- <- <-. split; [reflexivity|].
        intros fuel2 b m2 t2 out2 Hb H2.
        assert (E2 : machine_loop fuel2 code t (Steps b)
                       (Memory (cells m) (pc m) (Some false)) []
                     = Returned (Memory (cells m) (pc m) (Some false)) t []).
        { destruct fuel2; cbn [machine_loop cells pc]; rewrite Hpc, andb_false_r;
            reflexivity. }
        rewrite E2 in H2. injection H2 as <- <- <-.
        rewrite app_nil_r. cbn [Nat.add machine_loop].
        rewrite Hpc, andb_false_r. reflexivity.
Qed.

(** X13.  Stepping composes: when a new run with [a] steps is suspended
    and then continued with [b] steps, memory, program counter and
    [continue] are in the end what a new run with [a + b] steps leaves, and
    the output of that run is the output of the two, one after the other. *)
Theorem stepping_composes (code : list instr) (size : nat) (startAddr : Z)
    (traceAddr : option nat) (fuel1 fuel2 : nat) (a b : Z)
    (m1 m2 : memory) (t1 t2 : option tracer) (out1 out2 : output) :
  0 < a -> 0 <= b ->
  run code size startAddr traceAddr fuel1 None (Some a) = Returned m1 t1 out1 ->
  StackMachine fuel2 code size startAddr traceAddr t1 (Some m1) (Some b)
    = Returned m2 t2 out2 ->
  run code size startAddr traceAddr (fuel1 + fuel2) None (Some (a + b))
    = Returned m2 t2 (out1 ++ out2).
Proof.
  intros Ha Hb H1 H2. unfold run, StackMachine in *.
  replace (a =? 0) with false in H1 by (symmetry; apply Z.eqb_neq; lia).
  replace (a + b =? 0) with false by (symmetry; apply Z.eqb_neq; lia).
  apply machine_loop_split in H1 as [-> Hrest]; [|lia].
  by apply Hrest.
Qed.

Lemma stepping_composes_witness :
  exists m1 t1 out1 m2 t2 out2,
    run countdown 1 0 None 10 None (Some 7) = Returned m1 t1 out1
    /\ StackMachine 10 countdown 1 0 None t1 (Some m1) (Some 5)
       = Returned m2 t2 out2
    /\ run countdown 1 0 None (10 + 10) None (Some (7 + 5))
       = Returned m2 t2 (out1 ++ out2).
Proof.
  destruct (run countdown 1 0 None 10 None (Some 7)) as [m1 t1 out1| |] eqn:H1;
    [|vm_compute in H1; discriminate H1..].
  destruct (StackMachine 10 countdown 1 0 None t1 (Some m1) (Some 5))
    as [m2 t2 out2| |] eqn:H2.
  - exists m1, t1, out1, m2, t2, out2. split; [reflexivity|]. split; [exact H2|].
    apply (stepping_composes countdown 1 0 None 10 10 7 5 m1 m2 t1 t2 out1 out2);
      [lia|lia|exact H1|exact H2].
  - vm_compute in H1. injection H1 as <- <- <-. vm_compute in H2. discriminate H2.
  - vm_compute in H1. injection H1 as <- <- <-. vm_compute in H2. discriminate H2.
Defined.

(** A run that is not to be suspended returns at the end of the code. *)
Lemma machine_loop_Infinity (code : list instr) (t : option tracer) (fuel : nat) :
  forall m out m' t' out',
    machine_loop fuel code t Infinity m out = Returned m' t' out' ->
    continue m' = Some false /\ Z.of_nat (length code) <= pc m'.
Proof.
  induction fuel as [|fuel IH]; intros m out m' t' out' H; cbn [machine_loop] in H;
    cbn [andb] in H;
    destruct (Z.ltb_spec (pc m) (Z.of_nat (length code))) as [Hlt|Hge];
    try discriminate H;
    try (injection H as <- <- <-; cbn [continue pc]; split; [reflexivity|lia]).
  destruct (pc m <? 0); [discriminate H|].
  destruct (code !! Z.to_nat (pc m)) as [i|]; [|discriminate H].
  destruct (exec i _) as [m2 o]. by eapply IH.
Qed.

(** X14.  Without a number of steps (or with zero steps) a new run is not
    suspended: when it returns, the program counter is at or past the end of
    the code and [continue] is [false]. *)
Theorem run_to_the_end (code : list instr) (size : nat) (startAddr : Z)
    (traceAddr : option nat) (fuel : nat) (steps : option Z)
    (m : memory) (t : option tracer) (out : output) :
  steps = None \/ steps = Some 0 ->
  run code size startAddr traceAddr fuel None steps = Returned m t out ->
  continue m = Some false /\ Z.of_nat (length code) <= pc m.
Proof.
  intros Hs H. unfold run, StackMachine in H.
  destruct Hs as [-> | ->]; cbn [Z.eqb] in H; by eapply machine_loop_Infinity.
Qed.

Lemma run_to_the_end_witness :
  exists m t out,
    run countdown 1 0 None 120 None None = Returned m t out
    /\ continue m = Some false /\ Z.of_nat (length countdown) <= pc m.
Proof.
  destruct (run countdown 1 0 None 120 None None) as [m t out| |] eqn:H;
    [|vm_compute in H; discriminate H..].
  exists m, t, out. split; [reflexivity|].
  apply (run_to_the_end countdown 1 0 None 120 None m t out); [by left|exact H].
Defined.

End StackMachineFacts.

Module MemoryFacts.
Import Six.
#[local] Open Scope nat_scope.

Lemma store_at_lookup (a : nat) (v : value) (m : list value) :
  store_at a v m !! a = Some v.
Proof.
  unfold store_at. destruct (Nat.ltb_spec a (length m)) as [Hlt|Hge].
  - by apply list_lookup_insert_eq.
  - rewrite lookup_app_r by lia.
    rewrite lookup_app_r by (rewrite length_replicate; lia).
    rewrite length_replicate. by replace (a - length m - (a - length m)) with 0 by lia.
Qed.

Lemma store_at_other (a b : nat) (v : value) (m : list value) :
  b <> a -> b < length m -> store_at a v m !! b = m !! b.
Proof.
  intros Hne Hb. unfold store_at.
  destruct (Nat.ltb_spec a (length m)) as [Hlt|Hge].
  - by apply list_lookup_insert_ne.
  - by apply lookup_app_l.
Qed.

Lemma at_back_snoc (m : list value) (v : value) : at_back (m ++ [v]) 1 = v.
Proof.
  unfold at_back. rewrite length_app. cbn [length].
  replace (length m + 1 - 1) with (length m) by lia.
  by rewrite list_lookup_middle.
Qed.

(** X15.  A variable keeps its value: [Store(a)] writes the top of the stack
    to the address [a], also when [a] is past the end of the memory, and
    leaves the other cells as they are; a [Load(a)] that follows pushes this
    value.  Neither prints anything or changes the program counter. *)
Theorem store_then_load (a : nat) (m : memory) :
  let m1 := (exec (Store a) m).1 in
  let m2 := (exec (Load a) m1).1 in
  cells m1 !! a = Some (at_back (cells m) 1)
  /\ (forall b, b <> a -> b < length (cells m) -> cells m1 !! b = cells m !! b)
  /\ length (cells m) <= length (cells m1)
  /\ cells m2 = cells m1 ++ [at_back (cells m) 1]
  /\ at_back (cells m2) 1 = at_back (cells m) 1
  /\ pc m2 = pc m
  /\ (exec (Store a) m).2 = [] /\ (exec (Load a) m1).2 = [].
Proof.
  cbn [exec fst snd set_cells cells pc].
  split; [apply store_at_lookup|].
  split; [intros b Hne Hb; by apply store_at_other|].
  split.
  { unfold store_at. destruct (Nat.ltb_spec a (length (cells m))).
    - by rewrite length_insert.
    - rewrite length_app. lia. }
  rewrite store_at_lookup. cbn.
  split; [reflexivity|]. split; [apply at_back_snoc|]. by repeat split.
Qed.

End MemoryFacts.

Module Reached.
Import Js BNF.

Lemma shape_rule (g0 g : Grammar) (j : nat) (rule : Rule) :
  same_shape g0 g -> rules g !! j = Some rule ->
  exists rule0, rules g0 !! j = Some rule0 /\ rule_shape rule0 = rule_shape rule.
Proof.
  intros [Hs _] Hj. apply (f_equal (fun l => l !! j)) in Hs.
  rewrite !list_lookup_fmap, Hj in Hs. cbn in Hs.
  destruct (rules g0 !! j) as [rule0|]; [|discriminate Hs].
  exists rule0. split; [reflexivity|]. cbn in Hs. congruence.
Qed.

Lemma shape_rule_back (g0 g : Grammar) (j : nat) (rule0 : Rule) :
  same_shape g0 g -> rules g0 !! j = Some rule0 ->
  exists rule, rules g !! j = Some rule /\ rule_shape rule0 = rule_shape rule.
Proof.
  intros [Hs _] Hj. apply (f_equal (fun l => l !! j)) in Hs.
  rewrite !list_lookup_fmap, Hj in Hs. cbn in Hs.
  destruct (rules g !! j) as [rule|]; [|discriminate Hs].
  exists rule. split; [reflexivity|]. cbn in Hs. congruence.
Qed.

Lemma shape_nt (g0 g : Grammar) (i : nat) (nt : NT) :
  same_shape g0 g -> nts g !! i = Some nt ->
  exists nt0, nts g0 !! i = Some nt0 /\ nt_rules nt0 = nt_rules nt.
Proof.
  intros [_ Hs] Hi. apply (f_equal (fun l => l !! i)) in Hs.
  rewrite !list_lookup_fmap, Hi in Hs. cbn in Hs.
  destruct (nts g0 !! i) as [nt0|]; [|discriminate Hs].
  exists nt0. split; [reflexivity|]. cbn in Hs. congruence.
Qed.

Lemma shape_nt_back (g0 g : Grammar) (i : nat) (nt0 : NT) :
  same_shape g0 g -> nts g0 !! i = Some nt0 ->
  exists nt, nts g !! i = Some nt /\ nt_rules nt0 = nt_rules nt.
Proof.
  intros [_ Hs] Hi. apply (f_equal (fun l => l !! i)) in Hs.
  rewrite !list_lookup_fmap, Hi in Hs. cbn in Hs.
  destruct (nts g !! i) as [nt|]; [|discriminate Hs].
  exists nt. split; [reflexivity|]. cbn in Hs. congruence.
Qed.

Lemma shape_lengths (g0 g : Grammar) :
  same_shape g0 g ->
  length (rules g) = length (rules g0) /\ length (nts g) = length (nts g0).
Proof.
  intros [H1 H2]. apply (f_equal length) in H1. apply (f_equal length) in H2.
  rewrite !length_fmap in H1. rewrite !length_fmap in H2. by split.
Qed.

Lemma same_shape_refl (g : Grammar) : same_shape g g.
Proof. by split. Qed.

Lemma mark_shape (g0 g : Grammar) (rule : Rule) :
  same_shape g0 g -> same_shape g0 (mark_reached rule g).
Proof.
  intros [H1 H2]. split; cbn [mark_reached rules nts].
  - rewrite <- H1. apply list_eq. intros k. rewrite !list_lookup_fmap.
    destruct (decide (r_index rule = k)) as [<-|Hne].
    + rewrite list_lookup_alter_eq. by destruct (rules g !! _).
    + by rewrite list_lookup_alter_ne.
  - rewrite <- H2. apply list_eq. intros k. rewrite !list_lookup_fmap.
    destruct (decide (r_nt rule = k)) as [<-|Hne].
    + rewrite list_lookup_alter_eq. by destruct (nts g !! _).
    + by rewrite list_lookup_alter_ne.
Qed.

Lemma unreached_alter (rs : list Rule) (j : nat) (rule : Rule) :
  rs !! j = Some rule -> r_reached rule = false ->
  S (length (filter (fun r => r_reached r = false)
               (alter (Rule_set_reached (VBool true)) j rs)))
  = length (filter (fun r => r_reached r = false) rs).
Proof.
  revert j. induction rs as [|r rs IH]; intros [|j] Hj Hr; try discriminate Hj.
  - injection Hj as ->. cbn [alter list_alter].
    rewrite filter_cons_False by (cbn; congruence).
    by rewrite filter_cons_True.
  - cbn [alter list_alter]. cbn in Hj.
    destruct (decide (r_reached r = false)) as [E|E].
    + rewrite !filter_cons_True by exact E. cbn [length]. f_equal. by apply IH.
    + rewrite !filter_cons_False by exact E. by apply IH.
Qed.

Lemma reach_grows_refl (g : Grammar) : reach_grows g g.
Proof. by split. Qed.

Lemma reach_grows_trans (g g1 g2 : Grammar) :
  reach_grows g g1 -> reach_grows g1 g2 -> reach_grows g g2.
Proof.
  intros [H1 U1] [H2 U2]. split; [intros j Hj; by apply H2, H1|lia].
Qed.

Section Reach.
Variable g0 : Grammar.
Hypothesis Hlinked : linked g0.

(** A rule is marked, together with its non-terminal. *)
Lemma mark_inv (busy : list nat) (g : Grammar) (j : nat) (rule : Rule) :
  reach_inv g0 busy g -> rules g !! j = Some rule -> r_reached rule = false ->
  rtc (leads_to g0) 0%nat j ->
  reach_inv g0 (j :: busy) (mark_reached rule g)
  /\ reach_grows g (mark_reached rule g)
  /\ rule_reached (mark_reached rule g) j
  /\ S (unreached (mark_reached rule g)) = unreached g.
Proof.
  intros (Hs & Hsound & Hnt & Hlink & Hclosed) Hj Hr Hreach.
  destruct (shape_rule _ _ _ _ Hs Hj) as (rule0 & Hj0 & Hsh).
  destruct Hlinked as [Hl1 Hl2].
  destruct (Hl1 j rule0 Hj0) as (Hidx & Hntlt & _).
  injection Hsh as Hsh1 Hsh2 Hsh3.
  assert (Hidx' : r_index rule = j) by congruence.
  assert (Hntlt' : (r_nt rule < length (nts g))%nat).
  { destruct (shape_lengths _ _ Hs) as [_ ->]. congruence. }
  assert (Hrule : forall k, rule_reached (mark_reached rule g) k
                            <-> k = j \/ rule_reached g k).
  { intros k. unfold rule_reached. cbn [mark_reached rules]. rewrite Hidx'.
    destruct (decide (j = k)) as [<-|Hne].
    - rewrite list_lookup_alter_eq, Hj. cbn. split; [by left|].
      intros _. by eexists.
    - rewrite list_lookup_alter_ne by exact Hne. split; [by right|].
      intros [->|H]; [done|exact H]. }
  assert (Hnts : forall i, nt_is_reached (mark_reached rule g) i
                           <-> i = r_nt rule \/ nt_is_reached g i).
  { intros i. unfold nt_is_reached. cbn [mark_reached nts].
    destruct (decide (r_nt rule = i)) as [<-|Hne].
    - rewrite list_lookup_alter_eq.
      destruct (lookup_lt_is_Some_2 _ _ Hntlt') as [nt Hnt'].
      rewrite Hnt'. cbn. split; [by left|]. intros _. by eexists.
    - rewrite list_lookup_alter_ne by exact Hne. split; [by right|].
      intros [->|H]; [done|exact H]. }
  assert (Hlook : forall k r', rules (mark_reached rule g) !! k = Some r' ->
            exists r, rules g !! k = Some r /\ r_nt r' = r_nt r
                      /\ (r_reached r' = true -> k = j \/ r_reached r = true)).
  { intros k r'. cbn [mark_reached rules]. rewrite Hidx'.
    destruct (decide (j = k)) as [<-|Hne].
    - rewrite list_lookup_alter_eq, Hj. cbn. intros [= <-].
      exists rule. split; [done|]. split; [done|]. by left.
    - rewrite list_lookup_alter_ne by exact Hne. intros Hk.
      exists r'. split; [done|]. split; [done|]. by right. }
  split; [|split; [|split]].
  - split; [by apply mark_shape|]. split; [|split; [|split]].
    + intros k [->|Hk]%Hrule; [exact Hreach|by apply Hsound].
    + intros i [->|Hi]%Hnts.
      * exists j. eexists. split; [apply Hrule; by left|].
        cbn [mark_reached rules]. rewrite Hidx', list_lookup_alter_eq, Hj.
        by split.
      * destruct (Hnt i Hi) as (k & r & Hk & Hkr & Hki).
        exists k. destruct (decide (j = k)) as [<-|Hne].
        -- eexists. split; [apply Hrule; by left|].
           cbn [mark_reached rules]. rewrite Hidx', list_lookup_alter_eq, Hkr.
           by split.
        -- exists r. split; [apply Hrule; by right|].
           cbn [mark_reached rules]. rewrite Hidx'.
           by rewrite list_lookup_alter_ne.
    + intros k r' Hk Hr'. destruct (Hlook k r' Hk) as (r & Hkr & -> & Hcase).
      apply Hnts. destruct (Hcase Hr') as [->|Hrr].
      * left. congruence.
      * right. by eapply Hlink.
    + intros k [->|Hk]%Hrule Hbusy; [by apply not_elem_of_cons in Hbusy as [? _]|].
      apply not_elem_of_cons in Hbusy as [_ Hbusy].
      intros k' Hl. apply Hrule. right. by eapply Hclosed.
  - split; [intros k Hk; apply Hrule; by right|].
    unfold unreached. cbn [mark_reached rules]. rewrite Hidx'.
    pose proof (unreached_alter _ _ _ Hj Hr). lia.
  - apply Hrule. by left.
  - unfold unreached. cbn [mark_reached rules]. rewrite Hidx'.
    by apply (unreached_alter _ _ rule).
Qed.

(** The loop over the rules of a non-terminal. *)
Lemma each_rule_reached (fuel : nat) (busy : list nat) :
  (forall g j,
      reach_inv g0 busy g -> rtc (leads_to g0) 0%nat j ->
      (j < length (rules g0))%nat -> (unreached g < fuel)%nat ->
      exists g', setReached fuel g j = Some g' /\ reach_inv g0 busy g'
                 /\ reach_grows g g' /\ rule_reached g' j) ->
  forall ks g,
    reach_inv g0 busy g ->
    Forall (fun k => rtc (leads_to g0) 0%nat k /\ (k < length (rules g0))%nat) ks ->
    (unreached g < fuel)%nat ->
    exists g', for_each (setReached fuel) ks g = Some g' /\ reach_inv g0 busy g'
               /\ reach_grows g g' /\ forall k, k ∈ ks -> rule_reached g' k.
Proof.
  intros Hcall. induction ks as [|k ks IH]; intros g Hinv Hks Hfuel.
  - exists g. split; [done|]. split; [done|]. split; [apply reach_grows_refl|].
    intros k Hk. by apply elem_of_nil in Hk.
  - apply Forall_cons in Hks as [[Hk Hlt] Hks].
    destruct (Hcall g k Hinv Hk Hlt Hfuel) as (g1 & E1 & Hinv1 & Hg1 & Hr1).
    destruct (IH g1 Hinv1 Hks) as (g2 & E2 & Hinv2 & Hg2 & Hr2);
      [destruct Hg1; lia|].
    exists g2. cbn [for_each]. rewrite E1. cbn. split; [exact E2|].
    split; [exact Hinv2|]. split; [by eapply reach_grows_trans|].
    intros k' [->|Hin]%elem_of_cons; [by apply Hg2|by apply Hr2].
Qed.

(** The loop over the right-hand side of a rule. *)
Lemma each_symbol_reached (fuel : nat) (busy : list nat) (j : nat) :
  (forall g j,
      reach_inv g0 busy g -> rtc (leads_to g0) 0%nat j ->
      (j < length (rules g0))%nat -> (unreached g < fuel)%nat ->
      exists g', setReached fuel g j = Some g' /\ reach_inv g0 busy g'
                 /\ reach_grows g g' /\ rule_reached g' j) ->
  rtc (leads_to g0) 0%nat j ->
  forall syms g,
    reach_inv g0 busy g ->
    (forall i nt0 k, SNT i ∈ syms -> nts g0 !! i = Some nt0 -> k ∈ nt_rules nt0 ->
        leads_to g0 j k) ->
    (forall i, SNT i ∈ syms -> (i < length (nts g0))%nat) ->
    (unreached g < fuel)%nat ->
    exists g',
      for_each (fun g sym =>
                  match sym with
                  | ST _ => Some g
                  | SNT i => nt ← nts g !! i; for_each (setReached fuel) (nt_rules nt) g
                  end) syms g = Some g'
      /\ reach_inv g0 busy g' /\ reach_grows g g'
      /\ forall i nt0 k, SNT i ∈ syms -> nts g0 !! i = Some nt0 -> k ∈ nt_rules nt0 ->
           rule_reached g' k.
Proof.
  intros Hcall Hj. destruct Hlinked as [_ Hl2].
  induction syms as [|sym syms IH]; intros g Hinv Hleads Hlt Hfuel.
  - exists g. split; [done|]. split; [done|]. split; [apply reach_grows_refl|].
    intros i nt0 k Hi. by apply elem_of_nil in Hi.
  - assert (Hstep : exists g1,
      match sym with
      | ST _ => Some g
      | SNT i => nt ← nts g !! i; for_each (setReached fuel) (nt_rules nt) g
      end = Some g1
      /\ reach_inv g0 busy g1 /\ reach_grows g g1
      /\ forall i nt0 k, sym = SNT i -> nts g0 !! i = Some nt0 -> k ∈ nt_rules nt0 ->
           rule_reached g1 k).
    { destruct sym as [o|i].
      - exists g. split; [done|]. split; [done|]. split; [apply reach_grows_refl|].
        intros i nt0 k Hi. discriminate Hi.
      - assert (Hi : (i < length (nts g0))%nat) by (apply Hlt, list_elem_of_here).
        destruct (lookup_lt_is_Some_2 _ _ Hi) as [nt0 Hnt0].
        destruct Hinv as (Hs & Hrest).
        destruct (shape_nt_back _ _ _ _ Hs Hnt0) as (nt & Hnt & Hsame).
        rewrite Hnt. cbn.
        destruct (each_rule_reached fuel busy Hcall (nt_rules nt) g)
          as (g1 & E1 & Hinv1 & Hg1 & Hr1); [by split| |exact Hfuel|].
        + apply Forall_forall. intros k Hk. rewrite <- Hsame in Hk. split.
          * eapply rtc_r; [exact Hj|].
            eapply Hleads; [apply list_elem_of_here|exact Hnt0|exact Hk].
          * by eapply Hl2.
        + exists g1. split; [exact E1|]. split; [exact Hinv1|].
          split; [exact Hg1|].
          intros i' nt0' k [= <-] Hnt0' Hk. apply Hr1.
          rewrite Hnt0 in Hnt0'. injection Hnt0' as <-. by rewrite <- Hsame. }
    destruct Hstep as (g1 & E1 & Hinv1 & Hg1 & Hr1).
    destruct (IH g1 Hinv1) as (g2 & E2 & Hinv2 & Hg2 & Hr2).
    + intros i nt0 k Hi. apply Hleads. by apply list_elem_of_further.
    + intros i Hi. apply Hlt. by apply list_elem_of_further.
    + destruct Hg1. lia.
    + exists g2. cbn [for_each]. rewrite E1. cbn. split; [exact E2|].
      split; [exact Hinv2|]. split; [by eapply reach_grows_trans|].
      intros i nt0 k [Hi|Hin]%elem_of_cons Hnt0 Hk.
      * apply Hg2. by eapply Hr1.
      * by eapply Hr2.
Qed.

End Reach.

Lemma busy_done (g0 : Grammar) (busy : list nat) (g : Grammar) (j : nat) :
  reach_inv g0 (j :: busy) g ->
  (forall k, leads_to g0 j k -> rule_reached g k) ->
  reach_inv g0 busy g.
Proof.
  intros (Hs & Hsound & Hnt & Hlink & Hclosed) Hall.
  split; [exact Hs|]. split; [exact Hsound|]. split; [exact Hnt|].
  split; [exact Hlink|].
  intros k Hk Hbusy k' Hl. destruct (decide (k = j)) as [->|Hne].
  - by apply Hall.
  - eapply Hclosed; [exact Hk| |exact Hl].
    apply not_elem_of_cons. by split.
Qed.

Lemma setReached_inv (g0 : Grammar) :
  linked g0 ->
  forall fuel busy g j,
    reach_inv g0 busy g -> rtc (leads_to g0) 0%nat j ->
    (j < length (rules g0))%nat -> (unreached g < fuel)%nat ->
    exists g', setReached fuel g j = Some g' /\ reach_inv g0 busy g'
               /\ reach_grows g g' /\ rule_reached g' j.
Proof.
  intros Hlinked.
  induction fuel as [|fuel IH]; intros busy g j Hinv Hreach Hlt Hfuel; [lia|].
  cbn [setReached].
  destruct (shape_lengths _ _ (proj1 Hinv)) as [Hlen _].
  destruct (lookup_lt_is_Some_2 (rules g) j ltac:(lia)) as [rule Hj].
  rewrite Hj. cbn.
  destruct (r_reached rule) eqn:Hr.
  - exists g. split; [done|]. split; [done|]. split; [apply reach_grows_refl|].
    by exists rule.
  - destruct (mark_inv g0 Hlinked busy g j rule Hinv Hj Hr Hreach)
      as (Hinv1 & Hg1 & Hr1 & Hu1).
    destruct (shape_rule _ _ _ _ (proj1 Hinv) Hj) as (rule0 & Hj0 & Hsh).
    injection Hsh as Hsh1 Hsh2 Hsh3.
    destruct (each_symbol_reached g0 Hlinked fuel (j :: busy) j
                (IH (j :: busy)) Hreach (r_symbols rule) (mark_reached rule g) Hinv1)
      as (g' & E & Hinv' & Hg' & Hall).
    + intros i nt0 k Hi Hnt0 Hk. exists rule0, i, nt0. rewrite Hsh2. by repeat split.
    + intros i Hi. destruct Hlinked as [Hl1 _].
      destruct (Hl1 j rule0 Hj0) as (_ & _ & Hsym). apply Hsym. by rewrite Hsh2.
    + lia.
    + exists g'. split; [exact E|]. split; [|split].
      * apply (busy_done g0 busy g' j Hinv').
        intros k (rule0' & i & nt0 & Hj0' & Hi & Hnt0 & Hk).
        rewrite Hj0 in Hj0'. injection Hj0' as <-.
        eapply Hall; [|exact Hnt0|exact Hk]. by rewrite <- Hsh2.
      * by eapply reach_grows_trans.
      * by apply Hg'.
Qed.

(** X16.  [setReached], as [Grammar.check] calls it for rule zero of a
    grammar in which nothing has been reached yet, returns, and then marks
    as reached the rules that rule zero leads to through the non-terminals
    on right-hand sides, and no other; a non-terminal is marked if and only
    if one of its rules is. *)
Theorem setReached_exact (g : Grammar) (fuel : nat) :
  linked g -> unmarked g -> rules g <> [] ->
  (length (rules g) < fuel)%nat ->
  exists g',
    setReached fuel g 0%nat = Some g'
    /\ (forall j rule', rules g' !! j = Some rule' ->
          (r_reached rule' = true <-> rtc (leads_to g) 0%nat j))
    /\ (forall i nt', nts g' !! i = Some nt' ->
          (nt_reached nt' = true
           <-> exists j rule, rtc (leads_to g) 0%nat j
                 /\ rules g !! j = Some rule /\ r_nt rule = i)).
Proof.
  intros Hlinked [Hur Hun] Hne Hfuel.
  assert (Hinv : reach_inv g [] g).
  { split; [apply same_shape_refl|].
    assert (Hno : forall j, ~ rule_reached g j).
    { intros j (rule & Hj & Hr). apply list_elem_of_lookup_2 in Hj.
      apply Hur in Hj. congruence. }
    assert (Hnont : forall i, ~ nt_is_reached g i).
    { intros i (nt & Hi & Hr). apply list_elem_of_lookup_2 in Hi.
      apply Hun in Hi. congruence. }
    split; [intros j Hj; by apply Hno in Hj|].
    split; [intros i Hi; by apply Hnont in Hi|].
    split; [|intros j Hj; by apply Hno in Hj].
    intros j rule Hj Hr. apply list_elem_of_lookup_2 in Hj. apply Hur in Hj.
    congruence. }
  destruct (setReached_inv g Hlinked fuel [] g 0 Hinv)
    as (g' & E & (Hs & Hsound & Hnt & Hlink & Hclosed) & Hg & Hr0).
  { apply rtc_refl. }
  { destruct (rules g); [done|cbn; lia]. }
  { unfold unreached. pose proof (length_filter (fun r => r_reached r = false) (rules g)).
    lia. }
  assert (Hcomplete : forall j, rtc (leads_to g) 0%nat j -> rule_reached g' j).
  { intros j Hj.
    apply (rtc_ind_r (R := leads_to g) (fun j => rule_reached g' j) 0%nat);
      [exact Hr0| |exact Hj].
    intros k k' _ Hl Hk. eapply Hclosed; [exact Hk|apply not_elem_of_nil|exact Hl]. }
  exists g'. split; [exact E|]. split.
  - intros j rule' Hj. split.
    + intros Hr. apply Hsound. by exists rule'.
    + intros Hreach. destruct (Hcomplete j Hreach) as (r & Hjr & Hr).
      congruence.
  - intros i nt' Hi. split.
    + intros Hr. destruct (Hnt i) as (j & rule' & Hj & Hjr & Hjn); [by exists nt'|].
      destruct (shape_rule _ _ _ _ Hs Hjr) as (rule0 & Hj0 & Hsh).
      injection Hsh as Hsh1 _ _.
      exists j, rule0. split; [by apply Hsound|]. split; [exact Hj0|congruence].
    + intros (j & rule0 & Hreach & Hj0 & Hjn).
      destruct (Hcomplete j Hreach) as (r & Hjr & Hr).
      destruct (shape_rule _ _ _ _ Hs Hjr) as (rule0' & Hj0' & Hsh).
      rewrite Hj0 in Hj0'. injection Hj0' as <-. injection Hsh as Hsh1 _ _.
      destruct (Hlink j r Hjr Hr) as (nt & Hnt' & Hntr).
      rewrite <- Hsh1, Hjn, Hi in Hnt'. by injection Hnt' as <-.
Qed.

Lemma setReached_exact_witness :
  exists g',
    setReached 4 loose_grammar 0%nat = Some g'
    /\ (forall j rule', rules g' !! j = Some rule' ->
          (r_reached rule' = true <-> rtc (leads_to loose_grammar) 0%nat j))
    /\ (forall i nt', nts g' !! i = Some nt' ->
          (nt_reached nt' = true
           <-> exists j rule, rtc (leads_to loose_grammar) 0%nat j
                 /\ rules loose_grammar !! j = Some rule /\ r_nt rule = i)).
Proof.
  apply (setReached_exact loose_grammar 4).
  - split.
    + intros [|[|[|j]]] rule Hj; try discriminate Hj; injection Hj as <-;
        (split; [reflexivity|]); (split; [cbn; lia|]);
        intros i Hi; cbn in Hi;
        repeat (apply elem_of_cons in Hi as [Hi|Hi];
                [first [discriminate Hi|injection Hi as ->; cbn; lia]|]);
        by apply elem_of_nil in Hi.
    + intros [|[|[|i]]] nt k Hi Hk; try discriminate Hi; injection Hi as <-;
        cbn in Hk; apply list_elem_of_singleton in Hk as ->; cbn; lia.
  - split.
    + intros rule Hr. cbn in Hr.
      repeat (apply elem_of_cons in Hr as [->|Hr]; [reflexivity|]).
      by apply elem_of_nil in Hr.
    + intros nt Hn. cbn in Hn.
      repeat (apply elem_of_cons in Hn as [->|Hn]; [reflexivity|]).
      by apply elem_of_nil in Hn.
  - discriminate.
  - cbn. lia.
Defined.

End Reached.

Module Finite.
Import Js BNF Reached.

Lemma mark_finite_shape (g0 g : Grammar) (rule : Rule) :
  same_shape g0 g -> same_shape g0 (mark_finite rule g).
Proof.
  intros [H1 H2]. split; cbn [mark_finite rules nts].
  - rewrite <- H1. apply list_eq. intros k. rewrite !list_lookup_fmap.
    destruct (decide (r_index rule = k)) as [<-|Hne].
    + rewrite list_lookup_alter_eq. by destruct (rules g !! _).
    + by rewrite list_lookup_alter_ne.
  - rewrite <- H2. apply list_eq. intros k. rewrite !list_lookup_fmap.
    destruct (decide (r_nt rule = k)) as [<-|Hne].
    + rewrite list_lookup_alter_eq. by destruct (nts g !! _).
    + by rewrite list_lookup_alter_ne.
Qed.

Lemma unfinished_alter (ns : list NT) (i : nat) (nt : NT) :
  ns !! i = Some nt -> nt_finite nt = false ->
  S (length (filter (fun nt => nt_finite nt = false)
               (alter (NT_set_finite (VBool true)) i ns)))
  = length (filter (fun nt => nt_finite nt = false) ns).
Proof.
  revert i. induction ns as [|n ns IH]; intros [|i] Hi Hf; try discriminate Hi.
  - injection Hi as ->. cbn [alter list_alter].
    rewrite filter_cons_False by (cbn; congruence).
    by rewrite filter_cons_True.
  - cbn [alter list_alter]. cbn in Hi.
    destruct (decide (nt_finite n = false)) as [E|E].
    + rewrite !filter_cons_True by exact E. cbn [length]. f_equal. by apply IH.
    + rewrite !filter_cons_False by exact E. by apply IH.
Qed.

Lemma nt_finite_flag (g : Grammar) (i : nat) :
  default false (nt_finite <$> nts g !! i) = true <-> nt_is_finite g i.
Proof.
  unfold nt_is_finite. destruct (nts g !! i) as [nt|]; cbn.
  - split; [intros H; by exists nt|by intros (nt' & [= <-] & H)].
  - split; [done|by intros (nt' & H & _)].
Qed.

Lemma mark_finite_nts (g : Grammar) (rule : Rule) (i : nat) :
  (r_nt rule < length (nts g))%nat ->
  nt_is_finite (mark_finite rule g) i <-> i = r_nt rule \/ nt_is_finite g i.
Proof.
  intros Hlt. unfold nt_is_finite. cbn [mark_finite nts].
  destruct (decide (r_nt rule = i)) as [<-|Hne].
  - rewrite list_lookup_alter_eq.
    destruct (lookup_lt_is_Some_2 _ _ Hlt) as [nt Hnt]. rewrite Hnt. cbn.
    split; [by left|]. intros _. by eexists.
  - rewrite list_lookup_alter_ne by exact Hne. split; [by right|].
    intros [->|H]; [done|exact H].
Qed.

Lemma sym_finite_fin (g0 g : Grammar) (sym : symbol) :
  finite_inv g0 g -> sym_finite g sym = true ->
  match sym with ST _ => True | SNT k => fin g0 k end.
Proof.
  intros [_ Hs] H. destruct sym as [o|k]; [done|].
  apply Hs. by apply nt_finite_flag.
Qed.

(** [changed] is not reset within a pass. *)
Lemma pass_changed (rs : list Rule) (g : Grammar) :
  (foldl (fun gc rule =>
            if undecided gc.1 rule then (mark_finite rule gc.1, true) else gc)
     (g, true) rs).2 = true.
Proof.
  revert g. induction rs as [|r rs IH]; intros g; cbn [foldl fst snd]; [done|].
  destruct (undecided g r); apply IH.
Qed.

Section Pass.
Variable g0 : Grammar.
Hypothesis Hlinked : linked g0.

(** One rule in a pass. *)
Lemma mark_finite_inv (g : Grammar) (j : nat) (rule0 rule : Rule) :
  finite_inv g0 g -> rules g0 !! j = Some rule0 ->
  rule_shape rule = rule_shape rule0 -> undecided g rule = true ->
  finite_inv g0 (mark_finite rule g)
  /\ S (unfinished (mark_finite rule g)) = unfinished g
  /\ forall i, nt_is_finite g i -> nt_is_finite (mark_finite rule g) i.
Proof.
  intros Hinv Hj0 Hsh Hu. pose proof Hinv as [Hs Hsound].
  injection Hsh as Hsh1 Hsh2 Hsh3.
  destruct Hlinked as [Hl1 _]. destruct (Hl1 j rule0 Hj0) as (_ & Hntlt & _).
  assert (Hlt : (r_nt rule < length (nts g))%nat).
  { destruct (shape_lengths _ _ Hs) as [_ ->]. congruence. }
  apply andb_true_iff in Hu as [Hnot Hsome].
  apply existsb_exists in Hsome as (sym & Hin & Hsym).
  apply list_elem_of_In in Hin.
  split; [|split].
  - split; [by apply mark_finite_shape|].
    intros i [->|Hi]%mark_finite_nts; [|by apply Hsound|exact Hlt].
    pose proof (sym_finite_fin g0 g sym Hinv Hsym) as Hfin.
    destruct sym as [o|k].
    + apply (fin_terminal g0 _ j rule0 o); [exact Hj0|congruence|congruence].
    + apply (fin_nt g0 _ j rule0 k); [exact Hj0|congruence|congruence|exact Hfin].
  - unfold unfinished. cbn [mark_finite nts].
    destruct (lookup_lt_is_Some_2 _ _ Hlt) as [nt Hnt].
    apply (unfinished_alter _ _ nt Hnt).
    rewrite Hnt in Hnot. cbn in Hnot. by destruct (nt_finite nt).
  - intros i Hi. apply mark_finite_nts; [exact Hlt|by right].
Qed.

(** The rules of a pass, one after the other. *)
Lemma pass_inv (rs : list Rule) :
  Forall (fun rule => exists j rule0,
            rules g0 !! j = Some rule0 /\ rule_shape rule = rule_shape rule0) rs ->
  forall g changed,
    finite_inv g0 g ->
    let gc := foldl (fun gc rule =>
                       if undecided gc.1 rule then (mark_finite rule gc.1, true)
                       else gc) (g, changed) rs in
    finite_inv g0 gc.1
    /\ (forall i, nt_is_finite g i -> nt_is_finite gc.1 i)
    /\ (unfinished gc.1 <= unfinished g)%nat
    /\ (gc.2 = true -> changed = true \/ (unfinished gc.1 < unfinished g)%nat)
    /\ (gc.2 = false ->
          gc.1 = g /\ Forall (fun rule => undecided g rule = false) rs).
Proof.
  induction 1 as [|rule rs (j & rule0 & Hj0 & Hsh) _ IH]; intros g changed Hinv;
    cbn [foldl fst snd].
  - split; [exact Hinv|]. split; [done|]. split; [lia|].
    split; [by left|]. intros _. by split.
  - destruct (undecided g rule) eqn:Hu.
    + destruct (mark_finite_inv g j rule0 rule Hinv Hj0 Hsh Hu)
        as (Hinv1 & Hu1 & Hg1).
      destruct (IH (mark_finite rule g) true Hinv1) as (Hi2 & Hg2 & Hu2 & Hc2 & Hn2).
      split; [exact Hi2|]. split; [intros i Hi; by apply Hg2, Hg1|].
      split; [lia|]. split; [intros _; right; lia|].
      intros Hf. rewrite pass_changed in Hf. discriminate Hf.
    + destruct (IH g changed Hinv) as (Hi2 & Hg2 & Hu2 & Hc2 & Hn2).
      split; [exact Hi2|]. split; [exact Hg2|]. split; [exact Hu2|].
      split; [exact Hc2|]. intros Hf. destruct (Hn2 Hf) as [E Hall].
      split; [exact E|]. by constructor.
Qed.

End Pass.

Lemma rules_shapes (g0 g : Grammar) :
  same_shape g0 g ->
  Forall (fun rule => exists j rule0,
            rules g0 !! j = Some rule0 /\ rule_shape rule = rule_shape rule0)
    (rules g).
Proof.
  intros Hs. apply Forall_forall. intros rule [j Hj]%list_elem_of_lookup_1.
  destruct (shape_rule _ _ _ _ Hs Hj) as (rule0 & Hj0 & Hsh). by exists j, rule0.
Qed.

Lemma finite_loop_inv (g0 : Grammar) :
  linked g0 ->
  forall fuel g,
    finite_inv g0 g -> (unfinished g < fuel)%nat ->
    exists g', finite_loop fuel g = Some g' /\ finite_inv g0 g'
               /\ Forall (fun rule => undecided g' rule = false) (rules g').
Proof.
  intros Hlinked. induction fuel as [|fuel IH]; intros g Hinv Hfuel; [lia|].
  cbn [finite_loop]. unfold finite_pass.
  destruct (pass_inv g0 Hlinked (rules g) (rules_shapes _ _ (proj1 Hinv)) g false Hinv)
    as (Hi & _ & Hu & Hc & Hn).
  destruct (foldl _ (g, false) (rules g)) as [g1 [|]] eqn:E; cbn [fst snd] in *.
  - apply IH; [exact Hi|]. destruct (Hc eq_refl) as [H|H]; [discriminate H|lia].
  - destruct (Hn eq_refl) as [-> Hall]. by exists g.
Qed.

(** X17.  The loop of [Grammar.check] that looks for finite non-terminals,
    started on a grammar in which none is marked, ends, and then marks as
    finite the non-terminals that have a rule with a terminal, or with a
    non-terminal that is marked, on its right-hand side, and no other. *)
Theorem finite_exact (g : Grammar) (fuel : nat) :
  linked g -> (forall nt, nt ∈ nts g -> nt_finite nt = false) ->
  (length (nts g) < fuel)%nat ->
  exists g',
    finite_loop fuel g = Some g'
    /\ forall i nt', nts g' !! i = Some nt' ->
         (nt_finite nt' = true <-> fin g i).
Proof.
  intros Hlinked Hun Hfuel.
  assert (Hinv : finite_inv g g).
  { split; [apply same_shape_refl|].
    intros i (nt & Hi & Hf). apply list_elem_of_lookup_2 in Hi. apply Hun in Hi.
    congruence. }
  destruct (finite_loop_inv g Hlinked fuel g Hinv) as (g' & E & [Hs Hsound] & Hall).
  { unfold unfinished.
    pose proof (length_filter (fun nt => nt_finite nt = false) (nts g)). lia. }
  assert (Hcomplete : forall i, fin g i -> nt_is_finite g' i).
  { assert (Hrule : forall j rule0 sym,
      rules g !! j = Some rule0 -> sym ∈ r_symbols rule0 ->
      sym_finite g' sym = true -> nt_is_finite g' (r_nt rule0)).
    { intros j rule0 sym Hj0 Hin Hsym.
      destruct (shape_rule_back _ _ _ _ Hs Hj0) as (rule & Hj & Hsh).
      injection Hsh as Hsh1 Hsh2 Hsh3.
      rewrite Forall_forall in Hall.
      pose proof (Hall rule (list_elem_of_lookup_2 _ _ _ Hj)) as Hu.
      apply andb_false_iff in Hu as [Hu|Hu].
      - apply negb_false_iff in Hu. rewrite Hsh1. by apply nt_finite_flag.
      - assert (Hex : existsb (sym_finite g') (r_symbols rule) = true).
        { apply existsb_exists. exists sym. split; [|exact Hsym].
          apply list_elem_of_In. by rewrite <- Hsh2. }
        congruence. }
    induction 1 as [i j rule0 o Hj0 Hi Hin|i j rule0 k Hj0 Hi Hin _ IHk].
    - subst i. by apply (Hrule j rule0 (ST o)).
    - subst i. apply (Hrule j rule0 (SNT k)); [exact Hj0|exact Hin|].
      cbn [sym_finite]. by apply nt_finite_flag. }
  exists g'. split; [exact E|]. intros i nt' Hi. split.
  - intros Hf. apply Hsound. by exists nt'.
  - intros Hf. destruct (Hcomplete i Hf) as (nt & Hi' & Hnt). congruence.
Qed.

Lemma finite_exact_witness :
  exists g',
    finite_loop 3 endless_grammar = Some g'
    /\ forall i nt', nts g' !! i = Some nt' ->
         (nt_finite nt' = true <-> fin endless_grammar i).
Proof.
  apply (finite_exact endless_grammar 3).
  - split.
    + intros [|[|j]] rule Hj; try discriminate Hj; injection Hj as <-;
        (split; [reflexivity|]); (split; [cbn; lia|]);
        intros i Hi; cbn in Hi;
        repeat (apply elem_of_cons in Hi as [Hi|Hi];
                [first [discriminate Hi|injection Hi as ->; cbn; lia]|]);
        by apply elem_of_nil in Hi.
    + intros [|[|i]] nt k Hi Hk; try discriminate Hi; injection Hi as <-;
        cbn in Hk; apply list_elem_of_singleton in Hk as ->; cbn; lia.
  - intros nt Hn. cbn in Hn.
    repeat (apply elem_of_cons in Hn as [->|Hn]; [reflexivity|]).
    by apply elem_of_nil in Hn.
  - cbn. lia.
Defined.

End Finite.

Module FirstLoop.
Import Js BNF.

(** The loop changes no [empty]. *)
Lemma first_every_empty (j : nat) (syms : list symbol) :
  forall g changed g' changed' all,
    first_every j syms g changed = (g', changed', all) ->
    nts g' = nts g
    /\ (all = true <-> forallb (sym_empty g) syms = true).
Proof.
  induction syms as [|sym syms IH]; intros g changed g' changed' all H;
    cbn [first_every forallb] in H |- *.
  - injection H as <- <- <-. by split.
  - set (g1 := with_rules g _) in H.
    assert (Hn : nts g1 = nts g) by reflexivity.
    assert (He : forall s, sym_empty g1 s = sym_empty g s) by (by intros [o|i]).
    rewrite He in H. destruct (sym_empty g sym) eqn:Hs.
    + apply IH in H as [Hn' Hall]. split; [congruence|].
      assert (Hfa : forallb (sym_empty g1) syms = forallb (sym_empty g) syms).
      { clear -He. induction syms as [|s syms IHs]; cbn [forallb]; [done|].
        by rewrite He, IHs. }
      cbn [andb]. by rewrite <- Hfa.
    + injection H as <- <- <-. by split.
Qed.

Lemma first_rule_spec (rule : Rule) (g : Grammar) (changed : bool) :
  match first_rule rule g changed with
  | FirstOk g' _ => (NT_empty <$> nts g') = (NT_empty <$> nts g)
                    /\ all_empty g rule = false
  | FirstTypeError => all_empty g rule = true
  end.
Proof.
  unfold first_rule, all_empty, Rule_empty.
  destruct (length (r_symbols rule) =? 0)%nat eqn:Hlen; cbn [negb andb].
  - by split.
  - destruct (first_every _ _ g changed) as [[g1 c1] all] eqn:E.
    apply first_every_empty in E as [Hn Hall]. rewrite andb_true_r.
    destruct all.
    + by apply Hall.
    + rewrite andb_false_r. cbn [negb andb]. split.
      * cbn [with_nts nts]. rewrite Hn. apply list_eq. intros k.
        rewrite !list_lookup_fmap.
        destruct (decide (r_nt rule = k)) as [<-|Hne].
        -- rewrite list_lookup_alter_eq. by destruct (nts g !! _).
        -- by rewrite list_lookup_alter_ne.
      * destruct (forallb _ _); [|done]. by destruct Hall as [_ ->].
Qed.

Lemma sym_empty_same (g g' : Grammar) (sym : symbol) :
  (NT_empty <$> nts g') = (NT_empty <$> nts g) ->
  sym_empty g' sym = sym_empty g sym.
Proof.
  intros H. destruct sym as [o|i]; [done|]. cbn [sym_empty].
  apply (f_equal (fun l => l !! i)) in H. rewrite !list_lookup_fmap in H.
  destruct (nts g' !! i), (nts g !! i); cbn in *; congruence.
Qed.

Lemma all_empty_same (g g' : Grammar) (rule : Rule) :
  (NT_empty <$> nts g') = (NT_empty <$> nts g) ->
  all_empty g' rule = all_empty g rule.
Proof.
  intros H. unfold all_empty. f_equal.
  induction (r_symbols rule) as [|s syms IH]; cbn [forallb]; [done|].
  by rewrite (sym_empty_same g g' s H), IH.
Qed.

Lemma first_pass_spec (rs : list Rule) :
  forall g changed,
    match first_pass rs g changed with
    | FirstOk g' _ => (NT_empty <$> nts g') = (NT_empty <$> nts g)
                      /\ forall rule, rule ∈ rs -> all_empty g rule = false
    | FirstTypeError => exists rule, rule ∈ rs /\ all_empty g rule = true
    end.
Proof.
  induction rs as [|rule rs IH]; intros g changed; cbn [first_pass].
  - split; [done|]. intros rule Hr. by apply elem_of_nil in Hr.
  - pose proof (first_rule_spec rule g changed) as H1.
    destruct (first_rule rule g changed) as [g1 c1|].
    + destruct H1 as [Hn Hrule]. specialize (IH g1 c1).
      destruct (first_pass rs g1 c1) as [g2 c2|].
      * destruct IH as [Hn2 Hall]. split; [congruence|].
        intros r [->|Hr]%elem_of_cons; [exact Hrule|].
        rewrite <- (all_empty_same g g1 r Hn). by apply Hall.
      * destruct IH as (r & Hr & Hbad). exists r.
        split; [by apply list_elem_of_further|].
        by rewrite <- (all_empty_same g g1 r Hn).
    + exists rule. split; [apply list_elem_of_here|exact H1].
Qed.

Lemma first_pass_rules (rs : list Rule) :
  forall g changed g' changed',
    first_pass rs g changed = FirstOk g' changed' ->
    r_symbols <$> rules g' = r_symbols <$> rules g.
Proof.
  assert (Hevery : forall j syms g c g' c' all,
    first_every j syms g c = (g', c', all) ->
    r_symbols <$> rules g' = r_symbols <$> rules g).
  { intros j. induction syms as [|sym syms IH]; intros g c g' c' all H;
      cbn [first_every] in H.
    - by injection H as <- <- <-.
    - set (g1 := with_rules g _) in H.
      assert (H1 : r_symbols <$> rules g1 = r_symbols <$> rules g).
      { cbn [g1 with_rules rules]. apply list_eq. intros k.
        rewrite !list_lookup_fmap.
        destruct (decide (j = k)) as [<-|Hne].
        - rewrite list_lookup_alter_eq. by destruct (rules g !! _).
        - by rewrite list_lookup_alter_ne. }
      destruct (sym_empty g1 sym).
      + apply IH in H. congruence.
      + injection H as <- <- <-. exact H1. }
  induction rs as [|rule rs IH]; intros g changed g' changed' H;
    cbn [first_pass] in H.
  - by injection H as <- <-.
  - destruct (first_rule rule g changed) as [g1 c1|] eqn:E; [|discriminate H].
    apply IH in H. rewrite H. clear H IH.
    unfold first_rule in E.
    destruct (negb _); [|by injection E as <- <-].
    destruct (first_every _ _ g changed) as [[g2 c2] all] eqn:E2.
    apply Hevery in E2.
    destruct (all && _); [discriminate E|].
    destruct (_ && _); injection E as <- <-; exact E2.
Qed.

(** X18.  The loop of [Grammar.check] that computes the first sets throws
    a [TypeError] -- [rule.empty = true] assigns to a property that has a
    getter only -- if and only if the grammar has a rule whose right-hand
    side is not empty and consists of non-terminals with [empty] set, which
    is what [rule()] does for a non-terminal that gets a rule with an empty
    right-hand side. *)
Theorem first_loop_TypeError (g : Grammar) (fuel : nat) :
  first_loop (S fuel) g = Some FirstTypeError
  <-> exists rule, rule ∈ rules g /\ all_empty g rule = true.
Proof.
  split.
  - assert (Hgen : forall fuel g0 g,
      (NT_empty <$> nts g) = (NT_empty <$> nts g0) ->
      r_symbols <$> rules g = r_symbols <$> rules g0 ->
      first_loop fuel g = Some FirstTypeError ->
      exists rule, rule ∈ rules g0 /\ all_empty g0 rule = true).
    { clear. induction fuel as [|fuel IH]; intros g0 g Hn Hr H; [discriminate H|].
      cbn [first_loop] in H.
      pose proof (first_pass_spec (rules g) g false) as Hp.
      destruct (first_pass (rules g) g false) as [g1 [|]|] eqn:E.
      - destruct Hp as [Hn1 _].
        apply (IH g0 g1); [congruence| |exact H].
        apply first_pass_rules in E. congruence.
      - discriminate H.
      - destruct Hp as (rule & [k Hk]%list_elem_of_lookup_1 & Hbad).
        apply (f_equal (fun l => l !! k)) in Hr.
        rewrite !list_lookup_fmap, Hk in Hr. cbn in Hr.
        destruct (rules g0 !! k) as [rule0|] eqn:Hk0; [|discriminate Hr].
        injection Hr as Hr. exists rule0.
        split; [by eapply list_elem_of_lookup_2|].
        rewrite (all_empty_same g0 g rule Hn) in Hbad.
        unfold all_empty in *. by rewrite <- Hr. }
    by apply Hgen.
  - intros (rule & Hin & Hbad). cbn [first_loop].
    pose proof (first_pass_spec (rules g) g false) as Hp.
    destruct (first_pass (rules g) g false) as [g1 c1|]; [|reflexivity].
    destruct Hp as [_ Hall]. rewrite (Hall rule Hin) in Hbad. discriminate Hbad.
Qed.

Lemma first_loop_TypeError_witness :
  first_loop 1 listing_grammar = Some FirstTypeError.
Proof.
  apply (first_loop_TypeError listing_grammar 0).
  exists (mkRule 1 [SNT 2] 1 true false ∅ false None).
  split; [|reflexivity].
  apply list_elem_of_further, list_elem_of_here.
Defined.

End FirstLoop.

Module FirstExact.
Import Js BNF Reached FirstLoop.
#[local] Open Scope nat_scope.

(** *** Lists and sums *)

Lemma alter_same {A} (h : A -> A) (l : list A) (j : nat) :
  (forall x, l !! j = Some x -> h x = x) -> alter h j l = l.
Proof.
  intros H. apply list_eq. intros k.
  destruct (decide (j = k)) as [<-|Hne].
  - rewrite list_lookup_alter_eq. destruct (l !! j) as [x|] eqn:E; [|done].
    cbn. by rewrite H.
  - by rewrite list_lookup_alter_ne.
Qed.

Lemma sum_alter {A} (f : A -> nat) (h : A -> A) (l : list A) (j : nat) (x : A) :
  l !! j = Some x ->
  sum_list (f <$> alter h j l) + f x = sum_list (f <$> l) + f (h x).
Proof.
  revert j. induction l as [|y l IH]; intros [|j] Hj; try discriminate Hj.
  - injection Hj as ->. cbn. lia.
  - cbn in Hj |- *. specialize (IH j Hj). cbn in IH. lia.
Qed.

Lemma sum_bound {A} (f : A -> nat) (l : list A) (b : nat) :
  (forall x, x ∈ l -> f x <= b) -> sum_list (f <$> l) <= length l * b.
Proof.
  induction l as [|y l IH]; intros H; cbn; [lia|].
  pose proof (H y (list_elem_of_here _ _)).
  assert (sum_list (f <$> l) <= length l * b).
  { apply IH. intros x Hx. apply H. by apply list_elem_of_further. }
  lia.
Qed.

Lemma with_rules_same (g : Grammar) : with_rules g (rules g) = g.
Proof. by destruct g. Qed.

Lemma with_nts_same (g : Grammar) : with_nts g (nts g) = g.
Proof. by destruct g. Qed.

Lemma Rule_add_first_same (s : gset nat) (r : Rule) :
  s ⊆ r_first r -> Rule_add_first s r = r.
Proof.
  intros H. destruct r as [n ss i re fi f rd p]. unfold Rule_add_first. cbn in *.
  f_equal. rewrite (union_comm_L f s). by apply subseteq_union_1_L.
Qed.

Lemma NT_add_first_same (s : gset nat) (n : NT) :
  s ⊆ nt_first n -> NT_add_first s n = n.
Proof.
  intros H. destruct n as [name i o rs e re fi f fo]. unfold NT_add_first.
  cbn in *. f_equal. rewrite (union_comm_L f s). by apply subseteq_union_1_L.
Qed.

Lemma merges_false (a b : gset nat) : merges a b = false <-> b ⊆ a.
Proof.
  unfold merges. rewrite negb_false_iff. apply bool_decide_eq_true.
Qed.

Lemma merges_true (a b : gset nat) : merges a b = true -> size a < size (a ∪ b).
Proof.
  unfold merges. rewrite negb_true_iff, bool_decide_eq_false. intros H.
  apply subset_size. set_solver.
Qed.

Lemma size_union_le (a b : gset nat) : size a <= size (a ∪ b).
Proof. apply subseteq_size. set_solver. Qed.

(** *** The frame *)

Lemma first_frame_refl (g : Grammar) : first_frame g g.
Proof. by repeat split. Qed.

Lemma frame_terminal (g0 g : Grammar) (o : nat) :
  first_frame g0 g -> terminal g o = terminal g0 o.
Proof. intros (Hl & Ht & _). unfold terminal. by rewrite Hl, Ht. Qed.

Lemma frame_sym_empty (g0 g : Grammar) (sym : symbol) :
  first_frame g0 g -> sym_empty g sym = sym_empty g0 sym.
Proof. intros (_ & _ & _ & He). by apply sym_empty_same. Qed.

Lemma frame_forallb (g0 g : Grammar) (syms : list symbol) :
  first_frame g0 g ->
  forallb (sym_empty g) syms = forallb (sym_empty g0) syms.
Proof.
  intros H. induction syms as [|s syms IH]; cbn [forallb]; [done|].
  by rewrite (frame_sym_empty g0 g s H), IH.
Qed.

Lemma frame_rule (g0 g : Grammar) (j : nat) (rule0 : Rule) :
  first_frame g0 g -> rules g0 !! j = Some rule0 ->
  exists rule, rules g !! j = Some rule /\ rule_shape rule = rule_shape rule0.
Proof.
  intros (_ & _ & Hs & _) Hj. apply (f_equal (fun l => l !! j)) in Hs.
  rewrite !list_lookup_fmap, Hj in Hs. cbn in Hs.
  destruct (rules g !! j) as [rule|]; [|discriminate Hs].
  exists rule. split; [reflexivity|]. cbn in Hs. congruence.
Qed.

Lemma frame_rule_back (g0 g : Grammar) (j : nat) (rule : Rule) :
  first_frame g0 g -> rules g !! j = Some rule ->
  exists rule0, rules g0 !! j = Some rule0 /\ rule_shape rule = rule_shape rule0.
Proof.
  intros (_ & _ & Hs & _) Hj. apply (f_equal (fun l => l !! j)) in Hs.
  rewrite !list_lookup_fmap, Hj in Hs. cbn in Hs.
  destruct (rules g0 !! j) as [rule0|]; [|discriminate Hs].
  exists rule0. split; [reflexivity|]. cbn in Hs. congruence.
Qed.

Lemma frame_lengths (g0 g : Grammar) :
  first_frame g0 g ->
  length (rules g) = length (rules g0) /\ length (nts g) = length (nts g0).
Proof.
  intros (_ & _ & Hs & He).
  apply (f_equal length) in Hs. apply (f_equal length) in He.
  rewrite !length_fmap in Hs. rewrite !length_fmap in He. by split.
Qed.

(** *** One set grows *)

Lemma add_rule_first (g0 g : Grammar) (j : nat) (rule : Rule) (s : gset nat) :
  first_frame g0 g -> first_sound g0 g -> rules g !! j = Some rule ->
  (forall x, x ∈ s -> first_at g0 j x) ->
  let g1 := with_rules g (alter (Rule_add_first s) j (rules g)) in
  first_frame g0 g1 /\ first_sound g0 g1
  /\ first_mass g <= first_mass g1
  /\ (merges (rule_first_at g j) s = true -> first_mass g < first_mass g1)
  /\ (merges (rule_first_at g j) s = false -> g1 = g).
Proof.
  intros Hf [Hsr Hsn] Hj Hs g1.
  assert (Hfirst : rule_first_at g j = r_first rule).
  { unfold rule_first_at. by rewrite Hj. }
  assert (Hlook : forall k, rule_first_at g1 k
                    = if decide (j = k) then r_first rule ∪ s else rule_first_at g k).
  { intros k. unfold rule_first_at. cbn [g1 with_rules rules].
    destruct (decide (j = k)) as [<-|Hne].
    - by rewrite list_lookup_alter_eq, Hj.
    - by rewrite list_lookup_alter_ne. }
  assert (Hmass : first_mass g1 + size (r_first rule)
                  = first_mass g + size (r_first rule ∪ s)).
  { unfold first_mass. cbn [g1 with_rules rules nts].
    pose proof (sum_alter (fun r => size (r_first r)) (Rule_add_first s)
                  (rules g) j rule Hj) as E.
    cbn [Rule_add_first r_first] in E. lia. }
  split; [|split; [|split; [|split]]].
  - destruct Hf as (Hl & Ht & Hsh & He). repeat split; try done.
    cbn [g1 with_rules rules]. rewrite <- Hsh. apply list_eq. intros k.
    rewrite !list_lookup_fmap. destruct (decide (j = k)) as [<-|Hne].
    + rewrite list_lookup_alter_eq. by destruct (rules g !! j).
    + by rewrite list_lookup_alter_ne.
  - split; [|exact Hsn]. intros k x. rewrite Hlook.
    destruct (decide (j = k)) as [<-|Hne]; [|apply Hsr].
    intros [Hx|Hx]%elem_of_union; [apply Hsr; by rewrite Hfirst|by apply Hs].
  - pose proof (size_union_le (r_first rule) s). lia.
  - rewrite Hfirst. intros Hm%merges_true. lia.
  - rewrite Hfirst. intros Hm%merges_false. unfold g1.
    rewrite alter_same; [apply with_rules_same|].
    intros x Hx. rewrite Hj in Hx. injection Hx as <-.
    by apply Rule_add_first_same.
Qed.

Lemma add_nt_first (g0 g : Grammar) (i : nat) (nt : NT) (s : gset nat) :
  first_frame g0 g -> first_sound g0 g -> nts g !! i = Some nt ->
  (forall x, x ∈ s -> nt_first_of g0 i x) ->
  let g1 := with_nts g (alter (NT_add_first s) i (nts g)) in
  first_frame g0 g1 /\ first_sound g0 g1
  /\ first_mass g <= first_mass g1
  /\ (merges (nt_first_at g i) s = true -> first_mass g < first_mass g1)
  /\ (merges (nt_first_at g i) s = false -> g1 = g).
Proof.
  intros Hf [Hsr Hsn] Hi Hs g1.
  assert (Hfirst : nt_first_at g i = nt_first nt).
  { unfold nt_first_at. by rewrite Hi. }
  assert (Hlook : forall k, nt_first_at g1 k
                    = if decide (i = k) then nt_first nt ∪ s else nt_first_at g k).
  { intros k. unfold nt_first_at. cbn [g1 with_nts nts].
    destruct (decide (i = k)) as [<-|Hne].
    - by rewrite list_lookup_alter_eq, Hi.
    - by rewrite list_lookup_alter_ne. }
  assert (Hmass : first_mass g1 + size (nt_first nt)
                  = first_mass g + size (nt_first nt ∪ s)).
  { unfold first_mass. cbn [g1 with_nts rules nts].
    pose proof (sum_alter (fun n => size (nt_first n)) (NT_add_first s)
                  (nts g) i nt Hi) as E.
    cbn [NT_add_first nt_first] in E. lia. }
  split; [|split; [|split; [|split]]].
  - destruct Hf as (Hl & Ht & Hsh & He). repeat split; try done.
    cbn [g1 with_nts nts]. rewrite <- He. apply list_eq. intros k.
    rewrite !list_lookup_fmap. destruct (decide (i = k)) as [<-|Hne].
    + rewrite list_lookup_alter_eq. by destruct (nts g !! i).
    + by rewrite list_lookup_alter_ne.
  - split; [exact Hsr|]. intros k x. rewrite Hlook.
    destruct (decide (i = k)) as [<-|Hne]; [|apply Hsn].
    intros [Hx|Hx]%elem_of_union; [apply Hsn; by rewrite Hfirst|by apply Hs].
  - pose proof (size_union_le (nt_first nt) s). lia.
  - rewrite Hfirst. intros Hm%merges_true. lia.
  - rewrite Hfirst. intros Hm%merges_false. unfold g1.
    rewrite alter_same; [apply with_nts_same|].
    intros x Hx. rewrite Hi in Hx. injection Hx as <-.
    by apply NT_add_first_same.
Qed.

Section Exact.
Variable g0 : Grammar.
Hypothesis Hlinked : linked g0.
Hypothesis Hready : forall o t, terminal g0 o = Some t -> t_first t = {[o]}.

(** What a symbol contributes is right. *)
Lemma sym_first_sound (g : Grammar) (j : nat) (rule0 : Rule)
    (pre : list symbol) (sym : symbol) (post : list symbol) (x : nat) :
  first_frame g0 g -> first_sound g0 g ->
  rules g0 !! j = Some rule0 -> r_symbols rule0 = pre ++ sym :: post ->
  forallb (sym_empty g0) pre = true ->
  x ∈ sym_first g sym -> first_at g0 j x.
Proof.
  intros Hf [_ Hsn] Hj Hsyms Hpre Hx. destruct sym as [o|i]; cbn [sym_first] in Hx.
  - rewrite (frame_terminal g0 g o Hf) in Hx.
    destruct (terminal g0 o) as [t|] eqn:Ht; [|by apply elem_of_empty in Hx].
    cbn in Hx. rewrite (Hready o t Ht) in Hx. apply elem_of_singleton in Hx as ->.
    by eapply first_terminal.
  - destruct (Hsn i x Hx) as (k & rule' & Hk & Hi & Hfirst).
    by eapply first_nonterminal.
Qed.

Lemma first_every_exact (j : nat) (rule0 : Rule) :
  rules g0 !! j = Some rule0 ->
  forall syms pre g c g' c' all,
    r_symbols rule0 = pre ++ syms -> forallb (sym_empty g0) pre = true ->
    first_frame g0 g -> first_sound g0 g ->
    first_every j syms g c = (g', c', all) ->
    first_frame g0 g' /\ first_sound g0 g'
    /\ first_mass g <= first_mass g'
    /\ (c' = true -> c = true \/ first_mass g < first_mass g')
    /\ (c' = false ->
          c = false /\ g' = g
          /\ forall pre' sym post,
               syms = pre' ++ sym :: post -> forallb (sym_empty g0) pre' = true ->
               sym_first g sym ⊆ rule_first_at g j).
Proof.
  intros Hj0.
  induction syms as [|sym syms IH]; intros pre g c g' c' all Hsyms Hpre Hf Hs H;
    cbn [first_every] in H.
  - injection H as <- <- <-. split; [done|]. split; [done|]. split; [lia|].
    split; [by left|]. intros ->. split; [done|]. split; [done|].
    intros pre' sym post E. by destruct pre'.
  - destruct (frame_rule g0 g j rule0 Hf Hj0) as (rule & Hj & Hsh).
    destruct (add_rule_first g0 g j rule (sym_first g sym) Hf Hs Hj)
      as (Hf1 & Hs1 & Hm1 & Hlt1 & Heq1).
    { intros x Hx. by eapply sym_first_sound. }
    set (g1 := with_rules g _) in *.
    rewrite (frame_sym_empty g0 g1 sym Hf1) in H.
    assert (Hhead : c || merges (rule_first_at g j) (sym_first g sym) = false ->
              c = false /\ g1 = g /\ sym_first g sym ⊆ rule_first_at g j).
    { intros [-> Hm]%orb_false_iff. split; [done|]. split; [by apply Heq1|].
      by apply merges_false. }
    destruct (sym_empty g0 sym) eqn:Hsym.
    + destruct (IH (pre ++ [sym]) g1
                  (c || merges (rule_first_at g j) (sym_first g sym)) g' c' all)
        as (Hf2 & Hs2 & Hm2 & Hc2 & Hn2);
        [by rewrite <- app_assoc|by rewrite forallb_app; cbn; rewrite Hpre, Hsym
        |exact Hf1|exact Hs1|exact H|].
      split; [exact Hf2|]. split; [exact Hs2|]. split; [lia|]. split.
      * intros Hc. destruct (Hc2 Hc) as [Hor|Hlt]; [|right; lia].
        apply orb_true_iff in Hor as [Hor|Hor]; [by left|].
        right. specialize (Hlt1 Hor). lia.
      * intros Hc. destruct (Hn2 Hc) as (Hc1 & -> & Hcl).
        destruct (Hhead Hc1) as (-> & Hg1 & Hsub).
        split; [done|]. split; [exact Hg1|].
        intros [|s' pre'] sym' post E Hall; injection E as -> ->; [exact Hsub|].
        cbn [forallb] in Hall. apply andb_true_iff in Hall as [_ Hall].
        rewrite <- Hg1. by eapply Hcl.
    + injection H as <- <- <-.
      split; [exact Hf1|]. split; [exact Hs1|]. split; [exact Hm1|]. split.
      * intros [Hor|Hor]%orb_true_iff; [by left|]. right. by apply Hlt1.
      * intros Hc. destruct (Hhead Hc) as (-> & Hg1 & Hsub).
        split; [done|]. split; [exact Hg1|].
        intros [|s' pre'] sym' post E Hall; injection E as -> ->; [exact Hsub|].
        cbn [forallb] in Hall. rewrite Hsym in Hall. discriminate Hall.
Qed.

Lemma first_rule_exact (j : nat) (rule0 rule : Rule) (g : Grammar) (c : bool) :
  rules g0 !! j = Some rule0 -> rule_shape rule = rule_shape rule0 ->
  all_empty g0 rule0 = false ->
  first_frame g0 g -> first_sound g0 g ->
  exists g' c',
    first_rule rule g c = FirstOk g' c'
    /\ first_frame g0 g' /\ first_sound g0 g'
    /\ first_mass g <= first_mass g'
    /\ (c' = true -> c = true \/ first_mass g < first_mass g')
    /\ (c' = false -> c = false /\ g' = g /\ first_closed g rule).
Proof.
  intros Hj0 Hsh Hbad Hf Hs. injection Hsh as Hsh1 Hsh2 Hsh3.
  destruct Hlinked as [Hl1 _]. destruct (Hl1 j rule0 Hj0) as (Hidx & Hntlt & _).
  unfold first_rule, Rule_empty.
  destruct (length (r_symbols rule) =? 0) eqn:Hlen; cbn [negb].
  { exists g, c. split; [done|]. split; [done|]. split; [done|]. split; [lia|].
    split; [by left|]. intros ->. split; [done|]. split; [done|].
    intros Hne. apply Nat.eqb_eq in Hlen. by destruct (r_symbols rule). }
  destruct (first_every (r_index rule) (r_symbols rule) g c) as [[g2 c2] all] eqn:E.
  pose proof (first_every_empty _ _ _ _ _ _ _ E) as [_ Hall].
  assert (Hidx' : r_index rule = j) by congruence.
  rewrite Hidx' in E |- *.
  destruct (first_every_exact j rule0 Hj0 (r_symbols rule) [] g c g2 c2 all)
    as (Hf2 & Hs2 & Hm2 & Hc2 & Hn2); [by rewrite Hsh2|done|exact Hf|exact Hs|exact E|].
  assert (Hall' : all = false).
  { destruct all; [|done]. destruct Hall as [Hall _]. specialize (Hall eq_refl).
    rewrite (frame_forallb g0 g _ Hf) in Hall.
    unfold all_empty in Hbad. rewrite <- Hsh2, Hlen, Hall in Hbad.
    discriminate Hbad. }
  rewrite Hall'. cbn [andb]. rewrite andb_false_r.
  destruct (frame_rule g0 g2 j rule0 Hf2 Hj0) as (rule2 & Hj2 & Hsh').
  destruct (frame_lengths g0 g2 Hf2) as [_ Hlen2].
  destruct (lookup_lt_is_Some_2 (nts g2) (r_nt rule) ltac:(lia)) as [nt Hnt].
  destruct (add_nt_first g0 g2 (r_nt rule) nt (rule_first_at g2 j) Hf2 Hs2 Hnt)
    as (Hf3 & Hs3 & Hm3 & Hlt3 & Heq3).
  { intros x Hx. exists j, rule0. split; [exact Hj0|]. split; [congruence|].
    by apply Hs2. }
  eexists _, _. split; [reflexivity|]. split; [exact Hf3|]. split; [exact Hs3|].
  split; [lia|]. split.
  - intros [Hor|Hor]%orb_true_iff.
    + destruct (Hc2 Hor) as [?|?]; [by left|right; lia].
    + right. specialize (Hlt3 Hor). lia.
  - intros [Hc Hm]%orb_false_iff. destruct (Hn2 Hc) as (-> & -> & Hcl).
    split; [done|]. split; [by apply Heq3|].
    intros _. rewrite Hidx'. split.
    + intros pre sym post Hsyms Hpre. eapply Hcl; [exact Hsyms|].
      by rewrite <- (frame_forallb g0 g pre Hf).
    + by apply merges_false.
Qed.

Lemma first_pass_exact (rs : list Rule) :
  Forall (fun rule => exists j rule0,
            rules g0 !! j = Some rule0 /\ rule_shape rule = rule_shape rule0
            /\ all_empty g0 rule0 = false) rs ->
  forall g c,
    first_frame g0 g -> first_sound g0 g ->
    exists g' c',
      first_pass rs g c = FirstOk g' c'
      /\ first_frame g0 g' /\ first_sound g0 g'
      /\ first_mass g <= first_mass g'
      /\ (c' = true -> c = true \/ first_mass g < first_mass g')
      /\ (c' = false -> c = false /\ g' = g /\ Forall (first_closed g) rs).
Proof.
  induction 1 as [|rule rs (j & rule0 & Hj0 & Hsh & Hbad) _ IH]; intros g c Hf Hs;
    cbn [first_pass].
  - exists g, c. split; [done|]. split; [done|]. split; [done|]. split; [lia|].
    split; [by left|]. intros ->. by repeat split.
  - destruct (first_rule_exact j rule0 rule g c Hj0 Hsh Hbad Hf Hs)
      as (g1 & c1 & E1 & Hf1 & Hs1 & Hm1 & Hc1 & Hn1).
    rewrite E1.
    destruct (IH g1 c1 Hf1 Hs1) as (g2 & c2 & E2 & Hf2 & Hs2 & Hm2 & Hc2 & Hn2).
    exists g2, c2. split; [exact E2|]. split; [exact Hf2|]. split; [exact Hs2|].
    split; [lia|]. split.
    + intros Hc. destruct (Hc2 Hc) as [Hc'|?]; [|right; lia].
      destruct (Hc1 Hc') as [?|?]; [by left|right; lia].
    + intros Hc. destruct (Hn2 Hc) as (Hc' & -> & Hall).
      destruct (Hn1 Hc') as (-> & -> & Hcl).
      split; [done|]. split; [done|]. by constructor.
Qed.

(** The first sets hold terminals only, which bounds what they can hold. *)
Lemma first_at_terminal (j x : nat) :
  first_at g0 j x -> x < length (lits g0 ++ tokens g0).
Proof.
  induction 1 as [j rule pre o post _ _ _ Ho|]; [|assumption].
  by apply lookup_lt_is_Some_1.
Qed.

Lemma first_at_symbols (j x : nat) :
  first_at g0 j x -> exists rule, rules g0 !! j = Some rule /\ r_symbols rule <> [].
Proof.
  intros [j' rule pre o post Hj E _ _|j' rule pre i post k r' x' Hj E _ _ _ _];
    exists rule; (split; [exact Hj|]); rewrite E; by destruct pre.
Qed.

Lemma mass_bound (g : Grammar) :
  first_frame g0 g -> first_sound g0 g ->
  first_mass g
  <= (length (rules g0) + length (nts g0)) * length (lits g0 ++ tokens g0).
Proof.
  intros Hf [Hsr Hsn]. destruct (frame_lengths g0 g Hf) as [<- <-].
  assert (Hsize : forall s : gset nat,
    (forall x, x ∈ s -> x < length (lits g0 ++ tokens g0)) ->
    size s <= length (lits g0 ++ tokens g0)).
  { intros s Hlt.
    rewrite <- (size_set_seq (C := gset nat) 0 (length (lits g0 ++ tokens g0))).
    apply subseteq_size. intros x Hx. apply elem_of_set_seq. split; [lia|].
    by apply Hlt. }
  unfold first_mass. rewrite Nat.mul_add_distr_r. apply Nat.add_le_mono.
  - apply sum_bound. intros r [k Hk]%list_elem_of_lookup_1. apply Hsize.
    intros x Hx. apply (first_at_terminal k), Hsr. unfold rule_first_at.
    by rewrite Hk.
  - apply sum_bound. intros n [k Hk]%list_elem_of_lookup_1. apply Hsize.
    intros x Hx. destruct (Hsn k x) as (k' & r & _ & _ & Hfirst).
    { unfold nt_first_at. by rewrite Hk. }
    by apply (first_at_terminal k').
Qed.

Lemma first_loop_exact :
  (forall rule, rule ∈ rules g0 -> all_empty g0 rule = false) ->
  forall fuel g,
    first_frame g0 g -> first_sound g0 g ->
    (length (rules g0) + length (nts g0)) * length (lits g0 ++ tokens g0)
      - first_mass g < fuel ->
    exists g',
      first_loop fuel g = Some (FirstOk g' false)
      /\ first_frame g0 g' /\ first_sound g0 g'
      /\ Forall (first_closed g') (rules g').
Proof.
  intros Hgood. induction fuel as [|fuel IH]; intros g Hf Hs Hfuel; [lia|].
  cbn [first_loop].
  destruct (first_pass_exact (rules g)) with (g := g) (c := false)
    as (g1 & c1 & E & Hf1 & Hs1 & Hm1 & Hc1 & Hn1); [|exact Hf|exact Hs|].
  { apply Forall_forall. intros rule [j Hj]%list_elem_of_lookup_1.
    destruct (frame_rule_back g0 g j rule Hf Hj) as (rule0 & Hj0 & Hsh).
    exists j, rule0. split; [exact Hj0|]. split; [exact Hsh|].
    apply Hgood. by eapply list_elem_of_lookup_2. }
  rewrite E. destruct c1.
  - destruct (Hc1 eq_refl) as [Hc|Hlt]; [discriminate Hc|].
    apply IH; [exact Hf1|exact Hs1|].
    pose proof (mass_bound g1 Hf1 Hs1). lia.
  - destruct (Hn1 eq_refl) as (_ & -> & Hall). by exists g.
Qed.

End Exact.

(** X19.  Let no rule of the grammar have a right-hand side that is not
    empty and consists of non-terminals with [empty] set.  Then the loop of
    [Grammar.check] that computes the first sets ends, and the first set of
    a rule consists of exactly the terminals that are on its right-hand
    side, or in this way begin a rule of a non-terminal on its right-hand
    side, with nothing but non-terminals with [empty] set before them; the
    first set of a non-terminal consists of those of its rules. *)
Theorem first_sets_exact (g : Grammar) (fuel : nat) :
  linked g -> first_ready g ->
  (forall rule, rule ∈ rules g -> all_empty g rule = false) ->
  (length (rules g) + length (nts g)) * length (lits g ++ tokens g) < fuel ->
  exists g',
    first_loop fuel g = Some (FirstOk g' false)
    /\ (forall j rule' x, rules g' !! j = Some rule' ->
          (x ∈ r_first rule' <-> first_at g j x))
    /\ (forall i nt' x, nts g' !! i = Some nt' ->
          (x ∈ nt_first nt' <-> nt_first_of g i x)).
Proof.
  intros Hlinked (Hready & Hrules & Hnts) Hgood Hfuel.
  assert (Hs : first_sound g g).
  { split.
    - intros j x. unfold rule_first_at.
      destruct (rules g !! j) as [r|] eqn:E; cbn; [|by intros ?%elem_of_empty].
      rewrite (Hrules r (list_elem_of_lookup_2 _ _ _ E)). by intros ?%elem_of_empty.
    - intros i x. unfold nt_first_at.
      destruct (nts g !! i) as [n|] eqn:E; cbn; [|by intros ?%elem_of_empty].
      rewrite (Hnts n (list_elem_of_lookup_2 _ _ _ E)). by intros ?%elem_of_empty. }
  destruct (first_loop_exact g Hlinked Hready Hgood fuel g (first_frame_refl g) Hs)
    as (g' & E & Hf & [Hsr Hsn] & Hclosed); [lia|].
  rewrite Forall_forall in Hclosed.
  assert (Hrule : forall j rule0, rules g !! j = Some rule0 -> r_symbols rule0 <> [] ->
    exists rule', rules g' !! j = Some rule' /\ r_symbols rule' = r_symbols rule0
      /\ r_nt rule' = r_nt rule0
      /\ (forall pre sym post, r_symbols rule0 = pre ++ sym :: post ->
            forallb (sym_empty g) pre = true -> sym_first g' sym ⊆ rule_first_at g' j)
      /\ rule_first_at g' j ⊆ nt_first_at g' (r_nt rule0)).
  { intros j rule0 Hj0 Hne.
    destruct (frame_rule g g' j rule0 Hf Hj0) as (rule' & Hj & Hsh).
    injection Hsh as Hsh1 Hsh2 Hsh3.
    destruct Hlinked as [Hl1 _]. destruct (Hl1 j rule0 Hj0) as (Hidx & _ & _).
    destruct (Hclosed rule' (list_elem_of_lookup_2 _ _ _ Hj)) as [Hc1 Hc2];
      [congruence|].
    assert (Hidx' : r_index rule' = j) by congruence.
    rewrite Hidx' in Hc1, Hc2.
    exists rule'. split; [exact Hj|]. split; [exact Hsh2|]. split; [exact Hsh1|].
    split; [|by rewrite <- Hsh1].
    intros pre sym post Hsyms Hpre. apply (Hc1 pre sym post); [congruence|].
    by rewrite (frame_forallb g g' pre Hf). }
  assert (Hcomplete : forall j x, first_at g j x -> x ∈ rule_first_at g' j).
  { induction 1 as [j rule pre o post Hj Hsyms Hpre [t Ht]
                   |j rule pre i post k rule' x Hj Hsyms Hpre Hk Hi Hfirst IHk].
    - destruct (Hrule j rule Hj) as (r' & _ & _ & _ & Hc1 & _);
        [rewrite Hsyms; by destruct pre|].
      apply (Hc1 pre (ST o) post Hsyms Hpre). cbn [sym_first].
      rewrite (frame_terminal g g' o Hf), Ht. cbn. rewrite (Hready o t Ht).
      by apply elem_of_singleton.
    - destruct (Hrule j rule Hj) as (r' & _ & _ & _ & Hc1 & _);
        [rewrite Hsyms; by destruct pre|].
      apply (Hc1 pre (SNT i) post Hsyms Hpre). cbn [sym_first].
      destruct (first_at_symbols g k x Hfirst) as (rk & Hk' & Hne).
      rewrite Hk in Hk'. injection Hk' as <-.
      destruct (Hrule k rule' Hk Hne) as (_ & _ & _ & _ & _ & Hc2).
      rewrite <- Hi. by apply Hc2. }
  exists g'. split; [exact E|]. split.
  - intros j rule' x Hj.
    assert (Hfirst : rule_first_at g' j = r_first rule').
    { unfold rule_first_at. by rewrite Hj. }
    rewrite <- Hfirst. split; [apply Hsr|apply Hcomplete].
  - intros i nt' x Hi.
    assert (Hfirst : nt_first_at g' i = nt_first nt').
    { unfold nt_first_at. by rewrite Hi. }
    rewrite <- Hfirst. split; [apply Hsn|].
    intros (k & rule & Hk & Hki & Hx).
    destruct (first_at_symbols g k x Hx) as (rk & Hk' & Hne).
    rewrite Hk in Hk'. injection Hk' as <-.
    destruct (Hrule k rule Hk Hne) as (_ & _ & _ & _ & _ & Hc2).
    rewrite <- Hki. by apply Hc2, Hcomplete.
Qed.

Lemma first_sets_exact_witness :
  exists g',
    first_loop 22 prefix_grammar = Some (FirstOk g' false)
    /\ (forall j rule' x, rules g' !! j = Some rule' ->
          (x ∈ r_first rule' <-> first_at prefix_grammar j x))
    /\ (forall i nt' x, nts g' !! i = Some nt' ->
          (x ∈ nt_first nt' <-> nt_first_of prefix_grammar i x)).
Proof.
  apply (first_sets_exact prefix_grammar 22).
  - split.
    + intros [|[|[|[|j]]]] rule Hj; try discriminate Hj; injection Hj as <-;
        (split; [reflexivity|]); (split; [cbn; lia|]);
        intros i Hi; cbn in Hi;
        repeat (apply elem_of_cons in Hi as [Hi|Hi];
                [first [discriminate Hi|injection Hi as ->; cbn; lia]|]);
        by apply elem_of_nil in Hi.
    + intros [|[|[|i]]] nt k Hi Hk; try discriminate Hi; injection Hi as <-;
        cbn in Hk;
        repeat (apply elem_of_cons in Hk as [->|Hk]; [cbn; lia|]);
        by apply elem_of_nil in Hk.
  - split; [|split].
    + intros [|[|[|o]]] t Ht; try discriminate Ht; by injection Ht as <-.
    + intros rule Hr. cbn in Hr.
      repeat (apply elem_of_cons in Hr as [->|Hr]; [reflexivity|]).
      by apply elem_of_nil in Hr.
    + intros nt Hn. cbn in Hn.
      repeat (apply elem_of_cons in Hn as [->|Hn]; [reflexivity|]).
      by apply elem_of_nil in Hn.
  - intros rule Hr. cbn in Hr.
    repeat (apply elem_of_cons in Hr as [->|Hr]; [reflexivity|]).
    by apply elem_of_nil in Hr.
  - cbn. lia.
Defined.

End FirstExact.

Module FollowExact.
Import Js BNF Reached FirstLoop FirstExact.
#[local] Open Scope nat_scope.

Lemma NT_add_follow_same (s : gset nat) (n : NT) :
  s ⊆ nt_follow n -> NT_add_follow s n = n.
Proof.
  intros H. destruct n as [name i o rs e re fi f fo]. unfold NT_add_follow.
  cbn in *. f_equal. rewrite (union_comm_L fo s). by apply subseteq_union_1_L.
Qed.

Lemma follow_frame_refl (g : Grammar) : follow_frame g g.
Proof. by repeat split. Qed.

Lemma follow_frame_sym_empty (g0 g : Grammar) (sym : symbol) :
  follow_frame g0 g -> sym_empty g sym = sym_empty g0 sym.
Proof.
  intros (_ & _ & _ & H). destruct sym as [o|i]; [done|]. cbn [sym_empty].
  apply (f_equal (fun l => l !! i)) in H. rewrite !list_lookup_fmap in H.
  destruct (nts g !! i), (nts g0 !! i); cbn in *; congruence.
Qed.

Lemma follow_frame_forallb (g0 g : Grammar) (syms : list symbol) :
  follow_frame g0 g ->
  forallb (sym_empty g) syms = forallb (sym_empty g0) syms.
Proof.
  intros H. induction syms as [|s syms IH]; cbn [forallb]; [done|].
  by rewrite (follow_frame_sym_empty g0 g s H), IH.
Qed.

Lemma follow_frame_sym_first (g0 g : Grammar) (sym : symbol) :
  follow_frame g0 g -> sym_first g sym = sym_first g0 sym.
Proof.
  intros (Hl & Ht & _ & H). destruct sym as [o|i]; cbn [sym_first].
  - unfold terminal. by rewrite Hl, Ht.
  - unfold nt_first_at.
    apply (f_equal (fun l => l !! i)) in H. rewrite !list_lookup_fmap in H.
    destruct (nts g !! i), (nts g0 !! i); cbn in *; congruence.
Qed.

Lemma follow_frame_length (g0 g : Grammar) :
  follow_frame g0 g -> length (nts g) = length (nts g0).
Proof.
  intros (_ & _ & _ & H). apply (f_equal length) in H.
  by rewrite !length_fmap in H.
Qed.

(** *** One set grows *)

Lemma add_nt_follow (g0 g : Grammar) (i : nat) (s : gset nat) :
  follow_frame g0 g -> follow_sound g0 g -> i < length (nts g0) ->
  (forall x, x ∈ s -> follow_at g0 i x) ->
  let g1 := with_nts g (alter (NT_add_follow s) i (nts g)) in
  follow_frame g0 g1 /\ follow_sound g0 g1
  /\ follow_mass g <= follow_mass g1
  /\ (merges (nt_follow_at g i) s = true -> follow_mass g < follow_mass g1)
  /\ (merges (nt_follow_at g i) s = false -> g1 = g).
Proof.
  intros Hf Hsn Hi Hs g1.
  destruct (lookup_lt_is_Some_2 (nts g) i) as [nt Hnt];
    [by rewrite (follow_frame_length g0 g Hf)|].
  assert (Hfollow : nt_follow_at g i = nt_follow nt).
  { unfold nt_follow_at. by rewrite Hnt. }
  assert (Hlook : forall k, nt_follow_at g1 k
                    = if decide (i = k) then nt_follow nt ∪ s else nt_follow_at g k).
  { intros k. unfold nt_follow_at. cbn [g1 with_nts nts].
    destruct (decide (i = k)) as [<-|Hne].
    - by rewrite list_lookup_alter_eq, Hnt.
    - by rewrite list_lookup_alter_ne. }
  assert (Hmass : follow_mass g1 + size (nt_follow nt)
                  = follow_mass g + size (nt_follow nt ∪ s)).
  { unfold follow_mass. cbn [g1 with_nts nts].
    pose proof (sum_alter (fun n => size (nt_follow n)) (NT_add_follow s)
                  (nts g) i nt Hnt) as E.
    cbn [NT_add_follow nt_follow] in E. lia. }
  split; [|split; [|split; [|split]]].
  - destruct Hf as (Hl & Ht & Hr & He). repeat split; try done.
    cbn [g1 with_nts nts]. rewrite <- He. apply list_eq. intros k.
    rewrite !list_lookup_fmap. destruct (decide (i = k)) as [<-|Hne].
    + rewrite list_lookup_alter_eq. by destruct (nts g !! i).
    + by rewrite list_lookup_alter_ne.
  - intros k x. rewrite Hlook.
    destruct (decide (i = k)) as [<-|Hne]; [|apply Hsn].
    intros [Hx|Hx]%elem_of_union; [apply Hsn; by rewrite Hfollow|by apply Hs].
  - pose proof (size_union_le (nt_follow nt) s). lia.
  - rewrite Hfollow. intros Hm%merges_true. lia.
  - rewrite Hfollow. intros Hm%merges_false. unfold g1.
    rewrite alter_same; [apply with_nts_same|].
    intros x Hx. rewrite Hnt in Hx. injection Hx as <-.
    by apply NT_add_follow_same.
Qed.

Section Exact.
Variable g0 : Grammar.
Hypothesis Hlinked : linked g0.

(** From right to left over the right-hand side of a rule. *)
Lemma follow_fold_exact (j : nat) (rule0 : Rule) (g : Grammar) (c : bool) :
  rules g0 !! j = Some rule0 ->
  follow_frame g0 g -> follow_sound g0 g ->
  forall suf pre,
    r_symbols rule0 = pre ++ suf ->
    let r := foldr follow_step (g, c, nt_follow_at g (r_nt rule0)) suf in
    follow_frame g0 r.1.1 /\ follow_sound g0 r.1.1
    /\ follow_mass g <= follow_mass r.1.1
    /\ (r.1.2 = true -> c = true \/ follow_mass g < follow_mass r.1.1)
    /\ carried_sound g0 (r_nt rule0) suf r.2
    /\ (r.1.2 = false ->
          c = false /\ r.1.1 = g /\ carried_full g (r_nt rule0) suf r.2
          /\ forall pre' i suf', suf = pre' ++ SNT i :: suf' ->
               (forall mid sym post, suf' = mid ++ sym :: post ->
                  forallb (sym_empty g) mid = true ->
                  sym_first g sym ⊆ nt_follow_at g i)
               /\ (forallb (sym_empty g) suf' = true ->
                     nt_follow_at g (r_nt rule0) ⊆ nt_follow_at g i)).
Proof.
  intros Hj0 Hf Hs.
  induction suf as [|sym suf IH]; intros pre Hsyms; cbn [foldr].
  - cbn [fst snd]. split; [exact Hf|]. split; [exact Hs|]. split; [lia|].
    split; [by left|]. split.
    + intros x Hx. right. split; [done|]. by apply Hs.
    + intros ->. split; [done|]. split; [done|]. split.
      * split; [|done]. intros mid sym post E. by destruct mid.
      * intros pre' i suf' E. by destruct pre'.
  - specialize (IH (pre ++ [sym])). rewrite <- app_assoc in IH.
    specialize (IH Hsyms). cbn zeta in IH.
    destruct (foldr follow_step _ suf) as [[g1 c1] f1]. cbn [fst snd] in IH.
    destruct IH as (Hf1 & Hs1 & Hm1 & Hc1 & Hcs & Hn1).
    assert (Hcs_t : forall s f, (forall x, x ∈ f -> x ∈ sym_first g0 s) ->
                      carried_sound g0 (r_nt rule0) (s :: suf) f).
    { intros s f Hsub x Hx. left. exists [], s, suf. by split; [|split; [|apply Hsub]]. }
    assert (Hfull_t : forall s f, sym_empty g s = false -> sym_first g s ⊆ f ->
                        carried_full g (r_nt rule0) (s :: suf) f).
    { intros s f He Hsub. split.
      - intros [|s' mid] sym' post E Hall; injection E as -> ->; [exact Hsub|].
        cbn [forallb] in Hall. rewrite He in Hall. discriminate Hall.
      - cbn [forallb]. rewrite He. discriminate. }
    destruct sym as [o|i]; cbn [follow_step fst snd].
    + split; [exact Hf1|]. split; [exact Hs1|]. split; [exact Hm1|].
      split; [exact Hc1|]. split.
      * apply Hcs_t. intros x. by rewrite (follow_frame_sym_first g0 g1 _ Hf1).
      * intros Hc. destruct (Hn1 Hc) as (-> & -> & Hfull & Hocc).
        split; [done|]. split; [done|]. split; [by apply Hfull_t|].
        intros [|s' pre'] i suf' E; [discriminate E|]. injection E as _ E.
        by apply (Hocc pre').
    + assert (Hi : i < length (nts g0)).
      { destruct Hlinked as [Hl1 _]. destruct (Hl1 j rule0 Hj0) as (_ & _ & Hsym).
        apply Hsym. rewrite Hsyms. apply elem_of_app. right. apply list_elem_of_here. }
      destruct (add_nt_follow g0 g1 i f1 Hf1 Hs1 Hi)
        as (Hf2 & Hs2 & Hm2 & Hlt2 & Heq2).
      { intros x Hx. destruct (Hcs x Hx) as [(mid & s' & post & E & Hmid & Hx')|[Hall Hx']].
        - apply (follow_first g0 j rule0 pre i mid s' post); try done.
          by rewrite Hsyms, E.
        - by apply (follow_last g0 j rule0 pre i suf). }
      set (g2 := with_nts g1 _) in *.
      assert (Hresult :
        let f2 := if sym_empty g2 (SNT i) then sym_first g2 (SNT i) ∪ f1
                  else sym_first g2 (SNT i) in
        carried_sound g0 (r_nt rule0) (SNT i :: suf) f2
        /\ (c1 || merges (nt_follow_at g1 i) f1 = false ->
              c = false /\ g2 = g /\ carried_full g (r_nt rule0) (SNT i :: suf) f2
              /\ forall pre' i' suf', SNT i :: suf = pre' ++ SNT i' :: suf' ->
                   (forall mid sym post, suf' = mid ++ sym :: post ->
                      forallb (sym_empty g) mid = true ->
                      sym_first g sym ⊆ nt_follow_at g i')
                   /\ (forallb (sym_empty g) suf' = true ->
                         nt_follow_at g (r_nt rule0) ⊆ nt_follow_at g i'))).
      { cbn zeta. rewrite (follow_frame_sym_empty g0 g2 _ Hf2).
        rewrite (follow_frame_sym_first g0 g2 _ Hf2). split.
        - destruct (sym_empty g0 (SNT i)) eqn:He; [|by apply Hcs_t].
          intros x [Hx|Hx]%elem_of_union.
          + left. by exists [], (SNT i), suf.
          + destruct (Hcs x Hx) as [(mid & s' & post & E & Hmid & Hx')|[Hall Hx']].
            * left. exists (SNT i :: mid), s', post. split; [by rewrite E|].
              split; [cbn [forallb]; by rewrite He, Hmid|exact Hx'].
            * right. split; [cbn [forallb]; by rewrite He, Hall|exact Hx'].
        - intros [Hc Hm]%orb_false_iff.
          destruct (Hn1 Hc) as (-> & -> & [Hfull1 Hfull2] & Hocc).
          specialize (Heq2 Hm). apply merges_false in Hm.
          split; [done|]. split; [exact Heq2|].
          rewrite <- (follow_frame_sym_empty g0 g (SNT i) Hf).
          rewrite <- (follow_frame_sym_first g0 g (SNT i) Hf).
          split.
          + destruct (sym_empty g (SNT i)) eqn:He.
            * split.
              -- intros [|s' mid] sym' post E Hall; injection E as E1 E2.
                 ++ subst sym'. apply union_subseteq_l.
                 ++ cbn [forallb] in Hall. apply andb_true_iff in Hall as [_ Hall].
                    etrans; [by eapply (Hfull1 mid)|apply union_subseteq_r].
              -- cbn [forallb]. rewrite He. cbn [andb]. intros Hall.
                 etrans; [by apply Hfull2|apply union_subseteq_r].
            * by apply Hfull_t.
          + intros [|s' pre'] i' suf' E; injection E as E1 E2.
            * subst i' suf'. split.
              -- intros mid sym' post E Hall. etrans; [by eapply Hfull1|exact Hm].
              -- intros Hall. etrans; [by apply Hfull2|exact Hm].
            * by apply (Hocc pre'). }
      cbn zeta in Hresult. destruct Hresult as [Hr1 Hr2].
      destruct (sym_empty g2 (SNT i)); cbn [fst snd];
        (split; [exact Hf2|]); (split; [exact Hs2|]); (split; [lia|]);
        (split; [|split; [exact Hr1|exact Hr2]]);
        intros [Hor|Hor]%orb_true_iff;
        first [destruct (Hc1 Hor) as [?|?]; [by left|right; lia]
              |right; specialize (Hlt2 Hor); lia].
Qed.

Lemma follow_rule_exact (j : nat) (rule : Rule) (g : Grammar) (c : bool) :
  rules g0 !! j = Some rule ->
  follow_frame g0 g -> follow_sound g0 g ->
  let r := follow_rule (g, c) rule in
  follow_frame g0 r.1 /\ follow_sound g0 r.1
  /\ follow_mass g <= follow_mass r.1
  /\ (r.2 = true -> c = true \/ follow_mass g < follow_mass r.1)
  /\ (r.2 = false -> c = false /\ r.1 = g /\ follow_closed g rule).
Proof.
  intros Hj0 Hf Hs. unfold follow_rule. cbn [fst snd].
  destruct (length (r_symbols rule) =? 0) eqn:Hlen; cbn zeta.
  - cbn [fst snd]. split; [exact Hf|]. split; [exact Hs|]. split; [lia|].
    split; [by left|]. intros ->. split; [done|]. split; [done|].
    intros pre i suf E. apply Nat.eqb_eq in Hlen. rewrite E in Hlen.
    rewrite length_app in Hlen. cbn in Hlen. lia.
  - pose proof (follow_fold_exact j rule g c Hj0 Hf Hs (r_symbols rule) [] eq_refl)
      as H. cbn zeta in H.
    destruct (foldr follow_step _ (r_symbols rule)) as [[g1 c1] f1].
    cbn [fst snd] in H |- *. destruct H as (Hf1 & Hs1 & Hm1 & Hc1 & _ & Hn1).
    split; [exact Hf1|]. split; [exact Hs1|]. split; [exact Hm1|].
    split; [exact Hc1|]. intros Hc. destruct (Hn1 Hc) as (-> & -> & _ & Hocc).
    split; [done|]. split; [done|]. exact Hocc.
Qed.

Lemma follow_pass_exact (rs : list Rule) :
  Forall (fun rule => exists j, rules g0 !! j = Some rule) rs ->
  forall g c,
    follow_frame g0 g -> follow_sound g0 g ->
    let r := foldl follow_rule (g, c) rs in
    follow_frame g0 r.1 /\ follow_sound g0 r.1
    /\ follow_mass g <= follow_mass r.1
    /\ (r.2 = true -> c = true \/ follow_mass g < follow_mass r.1)
    /\ (r.2 = false -> c = false /\ r.1 = g /\ Forall (follow_closed g) rs).
Proof.
  induction 1 as [|rule rs [j Hj0] _ IH]; intros g c Hf Hs; cbn [foldl].
  - cbn [fst snd]. split; [done|]. split; [done|]. split; [lia|].
    split; [by left|]. intros ->. by repeat split.
  - pose proof (follow_rule_exact j rule g c Hj0 Hf Hs) as H1. cbn zeta in H1.
    destruct (follow_rule (g, c) rule) as [g1 c1]. cbn [fst snd] in H1.
    destruct H1 as (Hf1 & Hs1 & Hm1 & Hc1 & Hn1).
    specialize (IH g1 c1 Hf1 Hs1). cbn zeta in IH.
    destruct (foldl follow_rule (g1, c1) rs) as [g2 c2]. cbn [fst snd] in IH |- *.
    destruct IH as (Hf2 & Hs2 & Hm2 & Hc2 & Hn2).
    split; [exact Hf2|]. split; [exact Hs2|]. split; [lia|]. split.
    + intros Hc. destruct (Hc2 Hc) as [Hc'|?]; [|right; lia].
      destruct (Hc1 Hc') as [?|?]; [by left|right; lia].
    + intros Hc. destruct (Hn2 Hc) as (Hc' & -> & Hall).
      destruct (Hn1 Hc') as (-> & -> & Hcl).
      split; [done|]. split; [done|]. by constructor.
Qed.

Hypothesis Hbounded : first_bounded g0.

Lemma follow_at_terminal (i x : nat) :
  follow_at g0 i x -> x < length (lits g0 ++ tokens g0).
Proof.
  induction 1 as [j rule pre i mid sym post x _ _ _ Hx|]; [|assumption].
  by eapply Hbounded.
Qed.

Lemma follow_mass_bound (g : Grammar) :
  follow_frame g0 g -> follow_sound g0 g ->
  follow_mass g <= length (nts g0) * length (lits g0 ++ tokens g0).
Proof.
  intros Hf Hs. rewrite <- (follow_frame_length g0 g Hf).
  apply sum_bound. intros n [k Hk]%list_elem_of_lookup_1.
  rewrite <- (size_set_seq (C := gset nat) 0 (length (lits g0 ++ tokens g0))).
  apply subseteq_size. intros x Hx. apply elem_of_set_seq. split; [lia|].
  apply (follow_at_terminal k), Hs. unfold nt_follow_at. by rewrite Hk.
Qed.

Lemma follow_loop_exact :
  forall fuel g,
    follow_frame g0 g -> follow_sound g0 g ->
    length (nts g0) * length (lits g0 ++ tokens g0) - follow_mass g < fuel ->
    exists g',
      follow_loop fuel g = Some g'
      /\ follow_frame g0 g' /\ follow_sound g0 g'
      /\ Forall (follow_closed g') (rules g').
Proof.
  induction fuel as [|fuel IH]; intros g Hf Hs Hfuel; [lia|].
  cbn [follow_loop].
  pose proof (follow_pass_exact (rules g)) as Hp.
  destruct Hf as (Hl & Ht & Hr & He).
  specialize (Hp ltac:(rewrite Hr; apply Forall_forall;
                       intros rule [j Hj]%list_elem_of_lookup_1; by exists j)
                 g false (conj Hl (conj Ht (conj Hr He))) Hs).
  cbn zeta in Hp.
  destruct (foldl follow_rule (g, false) (rules g)) as [g1 c1].
  cbn [fst snd] in Hp |- *. destruct Hp as (Hf1 & Hs1 & Hm1 & Hc1 & Hn1).
  destruct c1.
  - destruct (Hc1 eq_refl) as [Hc|Hlt]; [discriminate Hc|].
    apply IH; [exact Hf1|exact Hs1|].
    pose proof (follow_mass_bound g1 Hf1 Hs1). lia.
  - destruct (Hn1 eq_refl) as (_ & -> & Hall). exists g. by repeat split.
Qed.

End Exact.

(** X20.  The loop of [Grammar.check] that computes the follow sets, begun
    with empty follow sets and first sets that hold terminals, ends, and the
    follow set of a non-terminal consists of exactly the terminals that are
    in the first set of a symbol after the non-terminal on a right-hand
    side, or in the follow set of the non-terminal of that rule, where the
    symbols in between, or up to the end, have [empty] set. *)
Theorem follow_sets_exact (g : Grammar) (fuel : nat) :
  linked g -> first_bounded g ->
  (forall nt, nt ∈ nts g -> nt_follow nt = ∅) ->
  length (nts g) * length (lits g ++ tokens g) < fuel ->
  exists g',
    follow_loop fuel g = Some g'
    /\ forall i nt' x, nts g' !! i = Some nt' ->
         (x ∈ nt_follow nt' <-> follow_at g i x).
Proof.
  intros Hlinked Hbounded Hnts Hfuel.
  assert (Hs : follow_sound g g).
  { intros i x. unfold nt_follow_at.
    destruct (nts g !! i) as [n|] eqn:E; cbn; [|by intros ?%elem_of_empty].
    rewrite (Hnts n (list_elem_of_lookup_2 _ _ _ E)). by intros ?%elem_of_empty. }
  destruct (follow_loop_exact g Hlinked Hbounded fuel g (follow_frame_refl g) Hs)
    as (g' & E & Hf & Hsound & Hclosed); [lia|].
  rewrite Forall_forall in Hclosed.
  assert (Hcomplete : forall i x, follow_at g i x -> x ∈ nt_follow_at g' i).
  { induction 1 as [j rule pre i mid sym post x Hj Hsyms Hmid Hx
                   |j rule pre i mid x Hj Hsyms Hmid _ IHa].
    - assert (Hin : rule ∈ rules g') by
        (destruct Hf as (_ & _ & -> & _); by eapply list_elem_of_lookup_2).
      destruct (Hclosed rule Hin pre i (mid ++ sym :: post) Hsyms) as [Hc1 _].
      apply (Hc1 mid sym post eq_refl).
      + by rewrite (follow_frame_forallb g g' mid Hf).
      + by rewrite (follow_frame_sym_first g g' sym Hf).
    - assert (Hin : rule ∈ rules g') by
        (destruct Hf as (_ & _ & -> & _); by eapply list_elem_of_lookup_2).
      destruct (Hclosed rule Hin pre i mid Hsyms) as [_ Hc2].
      apply Hc2; [by rewrite (follow_frame_forallb g g' mid Hf)|exact IHa]. }
  exists g'. split; [exact E|]. intros i nt' x Hi.
  assert (Hfollow : nt_follow_at g' i = nt_follow nt').
  { unfold nt_follow_at. by rewrite Hi. }
  rewrite <- Hfollow. split; [apply Hsound|apply Hcomplete].
Qed.

Lemma follow_sets_exact_witness :
  exists g',
    follow_loop 10 prefix_ready = Some g'
    /\ forall i nt' x, nts g' !! i = Some nt' ->
         (x ∈ nt_follow nt' <-> follow_at prefix_ready i x).
Proof.
  apply (follow_sets_exact prefix_ready 10).
  - split.
    + intros [|[|[|[|j]]]] rule Hj; try discriminate Hj; injection Hj as <-;
        (split; [reflexivity|]); (split; [cbn; lia|]);
        intros i Hi; cbn in Hi;
        repeat (apply elem_of_cons in Hi as [Hi|Hi];
                [first [discriminate Hi|injection Hi as ->; cbn; lia]|]);
        by apply elem_of_nil in Hi.
    + intros [|[|[|i]]] nt k Hi Hk; try discriminate Hi; injection Hi as <-;
        cbn in Hk;
        repeat (apply elem_of_cons in Hk as [->|Hk]; [cbn; lia|]);
        by apply elem_of_nil in Hk.
  - intros [[|[|[|o]]]|[|[|[|i]]]] x Hx; cbn in Hx;
      repeat (apply elem_of_union in Hx as [Hx|Hx]);
      try (apply elem_of_singleton in Hx as ->; cbn; lia);
      by apply elem_of_empty in Hx.
  - intros nt Hn. cbn in Hn.
    repeat (apply elem_of_cons in Hn as [->|Hn]; [reflexivity|]).
    by apply elem_of_nil in Hn.
  - cbn. lia.
Defined.

End FollowExact.
